(** * Order-statistic selection: randomized quickselect and median of medians

    A shallow embedding of [SelectionAlgorithm.py] (class
    [SelectionAlgorithms]) and the verification of its selection core.

    Python lists are mutable objects reached through references, so the
    embedding keeps an explicit store of list objects: [arr.copy()] allocates
    a new object, [arr_copy[i] = v] updates the object [arr_copy] points
    to, and the caller's list is a different location of the same store.
    The module-level generator behind [random.randint] is an infinite tape
    of integers together with the number of draws made so far.  Recursion is
    bounded as in the interpreter: [depth] is the number of nested
    [quickselect] / [select] calls still allowed, and a call made with none
    left raises [RecursionError].

    The second part embeds the classes of [DSImplementation.py]: the
    array-based containers as objects with their fields, the linked list,
    the matrix and the tree over a store of the objects they link. *)

From Stdlib Require Import ZArith List Lia Permutation Sorted Bool.
From stdpp Require Import base numbers list list_numbers sorting strings.

Local Open Scope Z_scope.

(** ** Store, outcomes and the state-and-exception monad *)

Definition loc := nat.

Record state := mkState {
  heap  : list (list Z);   (* the list objects, addressed by position *)
  rng   : nat -> Z;        (* the tape [random] draws from *)
  drawn : nat              (* how many draws have been made *)
}.

(** [ValueError], [IndexError] and [RecursionError] are the built-in
    exceptions the source can raise.  [EmptyInput] and [RankOutOfRange] are
    the two error kinds named in section 7 of the specification; no statement
    of the source raises them. *)
Inductive exn :=
  | ValueError | IndexError | RecursionError
  | EmptyInput | RankOutOfRange.

Inductive res (A : Type) :=
  | Val (a : A)
  | Exc (e : exn).
Arguments Val {A} a.
Arguments Exc {A} e.

Definition M (A : Type) : Type := state -> res A * state.

Definition ret {A} (a : A) : M A := fun st => (Val a, st).
Definition raise {A} (e : exn) : M A := fun st => (Exc e, st).
Definition bind {A B} (m : M A) (k : A -> M B) : M B :=
  fun st =>
    match m st with
    | (Val a, st') => k a st'
    | (Exc e, st') => (Exc e, st')
    end.

Declare Scope py_scope.
Delimit Scope py_scope with py.
Notation "'let*' x ':=' m 'in' k" := (bind m (fun x => k))
  (at level 10, x name, m at level 100, k at level 200) : py_scope.
Notation "m '>>' k" := (bind m (fun _ => k))
  (at level 100, k at level 200, right associativity) : py_scope.
Local Open Scope py_scope.

(** ** Python list primitives *)

(** The object a reference points to.  Objects are never freed, so every
    reference handed out by [alloc] stays valid. *)
Definition deref (a : loc) (st : state) : list Z := heap st !!! a.

Definition store (a : loc) (l : list Z) (st : state) : state :=
  mkState (<[a := l]> (heap st)) (rng st) (drawn st).

(** [l[i]] on a list of length [n]: a negative index counts from the end. *)
Definition index (n i : Z) : option nat :=
  if (0 <=? i) && (i <? n) then Some (Z.to_nat i)
  else if (i <? 0) && (0 <=? i + n) then Some (Z.to_nat (i + n))
  else None.

Definition item (l : list Z) (i : Z) : M Z :=
  match index (Z.of_nat (length l)) i with
  | Some j => match l !! j with Some x => ret x | None => raise IndexError end
  | None => raise IndexError
  end.

Definition getitem (a : loc) (i : Z) : M Z :=
  fun st => item (deref a st) i st.

Definition setitem (a : loc) (i v : Z) : M unit :=
  fun st =>
    let l := deref a st in
    match index (Z.of_nat (length l)) i with
    | Some j => (Val tt, store a (<[j := v]> l) st)
    | None => (Exc IndexError, st)
    end.

Definition len (a : loc) : M Z :=
  fun st => (Val (Z.of_nat (length (deref a st))), st).

Definition alloc (l : list Z) : M loc :=
  fun st => (Val (length (heap st)),
             mkState (heap st ++ [l]) (rng st) (drawn st)).

(** [arr.copy()] *)
Definition list_copy (a : loc) : M loc :=
  fun st => alloc (deref a st) st.

(** [l[a:b]]: both bounds are normalised and clamped to the list. *)
Definition clamp (n i : Z) : Z :=
  if i <? 0 then Z.max 0 (i + n) else Z.min i n.

Definition slice (l : list Z) (a b : Z) : list Z :=
  let n := Z.of_nat (length l) in
  let a' := clamp n a in
  let b' := clamp n b in
  take (Z.to_nat (b' - a')) (drop (Z.to_nat a') l).

Definition getslice (a : loc) (lo hi : Z) : M (list Z) :=
  fun st => (Val (slice (deref a st) lo hi), st).

(** [random.randint(lo, hi)]: an integer of [lo..hi], or [ValueError] when
    the range is empty. *)
Definition randint (lo hi : Z) : M Z :=
  fun st =>
    if hi <? lo then (Exc ValueError, st)
    else (Val (lo + rng st (drawn st) mod (hi - lo + 1)),
          mkState (heap st) (rng st) (S (drawn st))).

(** [range(a, b)] and [range(a, b, step)] for a positive step. *)
Definition range (a b : Z) : list Z := seqZ a (b - a).

Definition range_step (a b step : Z) : list Z :=
  (fun j => a + step * j) <$> seqZ 0 ((b - a + step - 1) / step).

(** [for x in xs: s = body(x, s)] *)
Fixpoint for_ {S : Type} (xs : list Z) (body : Z -> S -> M S) (s : S) : M S :=
  match xs with
  | [] => ret s
  | x :: xs' => let* s' := body x s in for_ xs' body s'
  end.

(** [list.sort()] / [sorted(l)] on integers. *)
Fixpoint insert_sorted (x : Z) (l : list Z) : list Z :=
  match l with
  | [] => [x]
  | y :: l' => if x <=? y then x :: l else y :: insert_sorted x l'
  end.

Definition sorted (l : list Z) : list Z := foldr insert_sorted [] l.

(** ** The randomized selector (lines 12-39) *)

(** [a[i], a[j] = a[j], a[i]]: the right-hand side is evaluated left to
    right, then the targets are assigned left to right. *)
Definition swap (a : loc) (i j : Z) : M unit :=
  let* x := getitem a j in
  let* y := getitem a i in
  setitem a i x >> setitem a j y.

Definition partition (arr_copy : loc) (left right pivot_idx : Z) : M Z :=
  let* pivot_value := getitem arr_copy pivot_idx in
  swap arr_copy pivot_idx right >>
  let store_idx := left in
  let* store_idx :=
    for_ (range left right)
      (fun i store_idx =>
         let* x := getitem arr_copy i in
         if x <? pivot_value
         then swap arr_copy i store_idx >> ret (store_idx + 1)
         else ret store_idx)
      store_idx in
  swap arr_copy store_idx right >>
  ret store_idx.

Fixpoint quickselect (depth : nat) (arr_copy : loc)
    (left right k_smallest : Z) : M Z :=
  match depth with
  | O => raise RecursionError
  | S d =>
    if left =? right then getitem arr_copy left
    else
      let* pivot_idx := randint left right in
      let* pivot_idx := partition arr_copy left right pivot_idx in
      if k_smallest =? pivot_idx then getitem arr_copy k_smallest
      else if k_smallest <? pivot_idx
      then quickselect d arr_copy left (pivot_idx - 1) k_smallest
      else quickselect d arr_copy (pivot_idx + 1) right k_smallest
  end.

Definition randomized_select (depth : nat) (arr : loc) (k : Z) : M Z :=
  let* arr_copy := list_copy arr in
  let* n := len arr_copy in
  quickselect depth arr_copy 0 (n - 1) k.

(** ** The deterministic selector (lines 42-108) *)

Definition partition_mom (arr_copy : loc) (left right pivot_idx : Z) : M Z :=
  let* pivot_value := getitem arr_copy pivot_idx in
  swap arr_copy pivot_idx right >>
  let store_idx := left in
  let* store_idx :=
    for_ (range left right)
      (fun i store_idx =>
         let* x := getitem arr_copy i in
         if x <? pivot_value
         then swap arr_copy i store_idx >> ret (store_idx + 1)
         else ret store_idx)
      store_idx in
  swap arr_copy store_idx right >>
  ret store_idx.

Definition find_median (arr_copy : loc) (left right : Z) : M Z :=
  let* segment := getslice arr_copy left (right + 1) in
  let segment := sorted segment in
  let median_idx := left + (right - left) / 2 in
  for_ (range left (right + 1))
    (fun i (_ : unit) =>
       let* x := item segment (i - left) in
       setitem arr_copy i x)
    tt >>
  ret median_idx.

(** Lines 74-79 of [select]: the loop that sorts each group of five and
    collects the indices of the group medians. *)
Definition group_medians (arr_copy : loc) (left right : Z) : M (list Z) :=
  for_ (range_step left (right + 1) 5)
    (fun i medians =>
       let group_right := Z.min (i + 4) right in
       let* median_idx := find_median arr_copy i group_right in
       ret (medians ++ [median_idx]))
    [].

(** [[arr_copy[idx] for idx in medians]] *)
Fixpoint values_at (arr_copy : loc) (idxs : list Z) : M (list Z) :=
  match idxs with
  | [] => ret []
  | idx :: rest =>
    let* x := getitem arr_copy idx in
    let* xs := values_at arr_copy rest in
    ret (x :: xs)
  end.

(** Lines 91-95: the scan with [break]. *)
Fixpoint first_equal (arr_copy : loc) (v : Z) (idxs : list Z) (mom_idx : Z)
    : M Z :=
  match idxs with
  | [] => ret mom_idx
  | i :: rest =>
    let* x := getitem arr_copy i in
    if x =? v then ret i else first_equal arr_copy v rest mom_idx
  end.

(** Lines 82-95 of [select]: choosing the pivot index from the medians. *)
Definition median_of_medians (depth : nat) (arr_copy : loc)
    (left right : Z) (medians : list Z) : M Z :=
  let num_medians := Z.of_nat (length medians) in
  if num_medians =? 1 then item medians 0
  else
    let* median_values := values_at arr_copy medians in
    let* median_values := alloc median_values in
    let* mom_value := randomized_select depth median_values (num_medians / 2) in
    first_equal arr_copy mom_value (range left (right + 1)) (-1).

Fixpoint select (depth : nat) (arr_copy : loc)
    (left right k_smallest : Z) : M Z :=
  match depth with
  | O => raise RecursionError
  | S d =>
    if left =? right then getitem arr_copy left
    else
      let n := right - left + 1 in
      let* medians := group_medians arr_copy left right in
      let* mom_idx := median_of_medians d arr_copy left right medians in
      let* pivot_idx := partition_mom arr_copy left right mom_idx in
      if k_smallest =? pivot_idx then getitem arr_copy k_smallest
      else if k_smallest <? pivot_idx
      then select d arr_copy left (pivot_idx - 1) k_smallest
      else select d arr_copy (pivot_idx + 1) right k_smallest
  end.

Definition deterministic_select (depth : nat) (arr : loc) (k : Z) : M Z :=
  let* arr_copy := list_copy arr in
  let* n := len arr_copy in
  select depth arr_copy 0 (n - 1) k.

(** ** The test-case generator (lines 114-126) *)

(** [[m() for _ in range(n)]] *)
Fixpoint comprehension {A} (n : nat) (m : M A) : M (list A) :=
  match n with
  | O => ret []
  | S n' =>
    let* x := m in
    let* xs := comprehension n' m in
    ret (x :: xs)
  end.

(** [random.choice(seq)]: [IndexError] on an empty sequence, else the
    element at a random position. *)
Definition choice (seq : list Z) : M Z :=
  fun st =>
    match seq with
    | [] => (Exc IndexError, st)
    | _ => item seq (rng st (drawn st) mod Z.of_nat (length seq))
             (mkState (heap st) (rng st) (S (drawn st)))
    end.

(** [range(a, b, -1)] *)
Definition range_down (a b : Z) : list Z :=
  (fun j => a - j) <$> seqZ 0 (a - b).

(** [d[key] = value] on a dictionary kept in insertion order. *)
Fixpoint dict_set {K V} `{EqDecision K} (key : K) (value : V)
    (d : list (K * V)) : list (K * V) :=
  match d with
  | [] => [(key, value)]
  | (k, v) :: d' =>
    if decide (k = key) then (k, value) :: d'
    else (k, v) :: dict_set key value d'
  end.

(** The dictionary built for one size (lines 119-125); every list is a new
    object. *)
Definition test_case (size : Z) : M (list (string * loc)) :=
  let* random_list :=
    comprehension (Z.to_nat size) (randint 1 (size * 10)) in
  let* random_list := alloc random_list in
  let* sorted_list := alloc (range 1 (size + 1)) in
  let* reverse_sorted := alloc (range_down size 0) in
  let* all_equal := alloc (replicate (Z.to_nat size) 42) in
  let* few_unique :=
    comprehension (Z.to_nat size) (choice [1; 2; 3; 4; 5]) in
  let* few_unique := alloc few_unique in
  ret [("random"%string, random_list);
       ("sorted"%string, sorted_list);
       ("reverse_sorted"%string, reverse_sorted);
       ("all_equal"%string, all_equal);
       ("few_unique"%string, few_unique)].

Definition generate_test_cases : M (list (Z * list (string * loc))) :=
  let test_cases := [] in
  let sizes := [100; 500; 1000; 5000] in
  for_ sizes
    (fun size test_cases =>
       let* distributions := test_case size in
       ret (dict_set size distributions test_cases))
    test_cases.

(** Lines 153, 162 and 169 of [run_test_cases], without the clock: the two
    selections one after the other on the same list, and the value the
    harness compares them with. *)
Definition both_selections (depth : nat) (arr : loc) (k : Z)
    : M (Z * Z * Z) :=
  let* rand_result := randomized_select depth arr k in
  let* det_result := deterministic_select depth arr k in
  let* expected := (fun st => item (sorted (deref arr st)) k st) in
  ret (rand_result, det_result, expected).

(** ** Running a selector on a caller's list *)

(** A store holding just the caller's list [A] at location 0. *)
Definition initial (A : list Z) (tape : nat -> Z) : state :=
  mkState [A] tape 0.

(** * The data structures of [DSImplementation.py]

    Each container is one object whose fields only its own methods touch,
    so a method is a function from the object before the call to an outcome
    and the object after it; the object after a raised exception is kept,
    since statements executed before the [raise] have taken effect. *)

Module DS.

(** The values the containers store: [None] fills unused slots. *)
Inductive pyval := PyNone | PyInt (z : Z).

(** The exceptions raised.  [OutOfFuel] and [Stuck] are no Python
    exceptions: the first marks a [while] loop that the number of
    iterations allowed did not let finish, the second a reference to no
    object of the store, which no Python run has. *)
Inductive error :=
  | IndexError | ValueError | ZeroDivisionError | AttributeError
  | RecursionError | OutOfFuel | Stuck.

Inductive result (A : Type) :=
  | Ok (a : A)
  | Err (e : error).
Arguments Ok {A} a.
Arguments Err {A} e.

Definition Meth (S A : Type) : Type := S -> result A * S.

Definition ret {S A} (a : A) : Meth S A := fun self => (Ok a, self).
Definition raise {S A} (e : error) : Meth S A := fun self => (Err e, self).
Definition bind {S A B} (m : Meth S A) (k : A -> Meth S B) : Meth S B :=
  fun self =>
    match m self with
    | (Ok a, self') => k a self'
    | (Err e, self') => (Err e, self')
    end.

(** Reading a field, and replacing the object by an updated one. *)
Definition field {S A} (f : S -> A) : Meth S A := fun self => (Ok (f self), self).
Definition update {S} (f : S -> S) : Meth S unit := fun self => (Ok tt, f self).

Declare Scope meth_scope.
Delimit Scope meth_scope with meth.
Notation "'let*' x ':=' m 'in' k" := (bind m (fun x => k))
  (at level 10, x name, m at level 100, k at level 200) : meth_scope.
Notation "m '>>' k" := (bind m (fun _ => k))
  (at level 100, k at level 200, right associativity) : meth_scope.
Local Open Scope meth_scope.

(** [l[i]] and [l[i] = v] on a Python list; [None] stands for
    [IndexError]. *)
Definition py_get {A} (l : list A) (i : Z) : option A :=
  match index (Z.of_nat (length l)) i with
  | Some j => l !! j
  | None => None
  end.

Definition py_set {A} (l : list A) (i : Z) (v : A) : option (list A) :=
  match index (Z.of_nat (length l)) i with
  | Some j => Some (<[j := v]> l)
  | None => None
  end.

Definition of_option {S A} (o : option A) : Meth S A :=
  match o with Some a => ret a | None => raise IndexError end.

(** [a % b] *)
Definition py_mod {S} (a b : Z) : Meth S Z :=
  if b =? 0 then raise ZeroDivisionError else ret (a mod b).

(** [for x in xs: acc = body(x, acc)] *)
Fixpoint for_ {S Acc} (xs : list Z) (body : Z -> Acc -> Meth S Acc)
    (acc : Acc) : Meth S Acc :=
  match xs with
  | [] => ret acc
  | x :: xs' => let* acc' := body x acc in for_ xs' body acc'
  end.

(** ** class MyArray (lines 7-79) *)
Module MyArray.

Record t := mk { capacity : Z; size : Z; data : list pyval }.

Definition __init__ (capacity : Z) : t :=
  mk capacity 0 (replicate (Z.to_nat capacity) PyNone).

(** [self.data[i]] and [self.data[i] = v] *)
Definition get (i : Z) : Meth t pyval :=
  fun self => of_option (py_get (data self) i) self.
Definition set (i : Z) (v : pyval) : Meth t unit :=
  let* d := (fun self => of_option (py_set (data self) i v) self) in
  update (fun self => mk (capacity self) (size self) d).

(** [self.size += d] *)
Definition add_size (d : Z) : Meth t unit :=
  update (fun self => mk (capacity self) (size self + d) (data self)).

Definition __getitem__ (index : Z) : Meth t pyval :=
  let* n := field size in
  if (index <? 0) || (index >=? n) then raise IndexError
  else get index.

Definition __setitem__ (index : Z) (value : pyval) : Meth t unit :=
  let* n := field size in
  if (index <? 0) || (index >=? n) then raise IndexError
  else set index value.

Definition _resize : Meth t unit :=
  update (fun self => mk (capacity self * 2) (size self) (data self)) >>
  let* cap := field capacity in
  let new_data := replicate (Z.to_nat cap) PyNone in
  let* n := field size in
  let* new_data :=
    for_ (range 0 n)
      (fun i new_data =>
         let* x := get i in
         of_option (py_set new_data i x))
      new_data in
  update (fun self => mk (capacity self) (size self) new_data).

Definition append (value : pyval) : Meth t unit :=
  let* n := field size in
  let* cap := field capacity in
  (if n =? cap then _resize else ret tt) >>
  let* n := field size in
  set n value >>
  add_size 1.

Definition insert (index : Z) (value : pyval) : Meth t unit :=
  let* n := field size in
  if (index <? 0) || (index >? n) then raise IndexError
  else
    let* cap := field capacity in
    (if n =? cap then _resize else ret tt) >>
    let* n := field size in
    for_ (range_down n index)
      (fun i (_ : unit) => let* x := get (i - 1) in set i x)
      tt >>
    set index value >>
    add_size 1.

Definition delete (index : Z) : Meth t pyval :=
  let* n := field size in
  if (index <? 0) || (index >=? n) then raise IndexError
  else
    for_ (range index (n - 1))
      (fun i (_ : unit) => let* x := get (i + 1) in set i x)
      tt >>
    add_size (-1) >>
    let* n := field size in
    get n.

Definition __len__ : Meth t Z := field size.

(** [[self.data[i] for i in range(self.size)]], the list [__str__]
    prints. *)
Definition elements : Meth t (list pyval) :=
  let* n := field size in
  for_ (range 0 n)
    (fun i acc => let* x := get i in ret (acc ++ [x]))
    [].

End MyArray.

(** ** class Stack (lines 156-208) *)
Module Stack.

Record t := mk { capacity : Z; size : Z; data : list pyval }.

Definition __init__ (capacity : Z) : t :=
  mk capacity 0 (replicate (Z.to_nat capacity) PyNone).

Definition get (i : Z) : Meth t pyval :=
  fun self => of_option (py_get (data self) i) self.
Definition set (i : Z) (v : pyval) : Meth t unit :=
  let* d := (fun self => of_option (py_set (data self) i v) self) in
  update (fun self => mk (capacity self) (size self) d).
Definition add_size (d : Z) : Meth t unit :=
  update (fun self => mk (capacity self) (size self + d) (data self)).

Definition is_empty : Meth t bool :=
  let* n := field size in ret (n =? 0).

Definition is_full : Meth t bool :=
  let* n := field size in
  let* cap := field capacity in
  ret (n =? cap).

Definition _resize : Meth t unit :=
  update (fun self => mk (capacity self * 2) (size self) (data self)) >>
  let* cap := field capacity in
  let new_data := replicate (Z.to_nat cap) PyNone in
  let* n := field size in
  let* new_data :=
    for_ (range 0 n)
      (fun i new_data =>
         let* x := get i in
         of_option (py_set new_data i x))
      new_data in
  update (fun self => mk (capacity self) (size self) new_data).

Definition push (item : pyval) : Meth t unit :=
  let* full := is_full in
  (if full then _resize else ret tt) >>
  let* n := field size in
  set n item >>
  add_size 1.

Definition pop : Meth t pyval :=
  let* empty := is_empty in
  if empty then raise IndexError
  else
    add_size (-1) >>
    let* n := field size in
    get n.

Definition peek : Meth t pyval :=
  let* empty := is_empty in
  if empty then raise IndexError
  else
    let* n := field size in
    get (n - 1).

Definition __len__ : Meth t Z := field size.

Definition elements : Meth t (list pyval) :=
  let* n := field size in
  for_ (range 0 n)
    (fun i acc => let* x := get i in ret (acc ++ [x]))
    [].

End Stack.

(** ** class Queue (lines 211-280) *)
Module Queue.

Record t := mk {
  capacity : Z; size : Z; front : Z; rear : Z; data : list pyval
}.

Definition __init__ (capacity : Z) : t :=
  mk capacity 0 0 (-1) (replicate (Z.to_nat capacity) PyNone).

Definition get (i : Z) : Meth t pyval :=
  fun self => of_option (py_get (data self) i) self.
Definition set (i : Z) (v : pyval) : Meth t unit :=
  let* d := (fun self => of_option (py_set (data self) i v) self) in
  update (fun self => mk (capacity self) (size self) (front self)
                        (rear self) d).
Definition add_size (d : Z) : Meth t unit :=
  update (fun self => mk (capacity self) (size self + d) (front self)
                        (rear self) (data self)).
Definition set_front (f : Z) : Meth t unit :=
  update (fun self => mk (capacity self) (size self) f (rear self)
                        (data self)).
Definition set_rear (r : Z) : Meth t unit :=
  update (fun self => mk (capacity self) (size self) (front self) r
                        (data self)).

Definition is_empty : Meth t bool :=
  let* n := field size in ret (n =? 0).

Definition is_full : Meth t bool :=
  let* n := field size in
  let* cap := field capacity in
  ret (n =? cap).

Definition _resize : Meth t unit :=
  let* cap := field capacity in
  let new_capacity := cap * 2 in
  let new_data := replicate (Z.to_nat new_capacity) PyNone in
  let* n := field size in
  let* new_data :=
    for_ (range 0 n)
      (fun i new_data =>
         let* f := field front in
         let* cap := field capacity in
         let* j := py_mod (f + i) cap in
         let* x := get j in
         of_option (py_set new_data i x))
      new_data in
  update (fun self => mk new_capacity (size self) 0 (size self - 1)
                        new_data).

Definition enqueue (item : pyval) : Meth t unit :=
  let* full := is_full in
  (if full then _resize else ret tt) >>
  let* r := field rear in
  let* cap := field capacity in
  let* r := py_mod (r + 1) cap in
  set_rear r >>
  set r item >>
  add_size 1.

Definition dequeue : Meth t pyval :=
  let* empty := is_empty in
  if empty then raise IndexError
  else
    let* f := field front in
    let* item := get f in
    let* cap := field capacity in
    let* f := py_mod (f + 1) cap in
    set_front f >>
    add_size (-1) >>
    ret item.

Definition peek : Meth t pyval :=
  let* empty := is_empty in
  if empty then raise IndexError
  else
    let* f := field front in
    get f.

Definition __len__ : Meth t Z := field size.

(** The list [__str__] prints, front first. *)
Definition elements : Meth t (list pyval) :=
  let* n := field size in
  for_ (range 0 n)
    (fun i elements =>
       let* f := field front in
       let* cap := field capacity in
       let* j := py_mod (f + i) cap in
       let* x := get j in
       ret (elements ++ [x]))
    [].

End Queue.

(** [a == b] on the stored values. *)
Definition py_eq (a b : pyval) : bool :=
  match a, b with
  | PyNone, PyNone => true
  | PyInt x, PyInt y => x =? y
  | _, _ => false
  end.

(** ** classes ListNode and LinkedList (lines 283-416)

    The nodes are objects of their own, linked by references and updated in
    place: the list object carries the store of the nodes created so far, a
    reference being a position in it.  A variable that holds a node or
    [None] is an [option ref]; an attribute of [None] raises
    [AttributeError].  A [while] loop takes the number of tests it may
    make. *)
Module LinkedList.

Definition ref := nat.

Record ListNode := node { value : pyval; next : option ref }.

Record t := mk { head : option ref; size : Z; nodes : list ListNode }.

Definition __init__ : t := mk None 0 [].

(** [ListNode(value)] *)
Definition new_node (v : pyval) : Meth t ref :=
  fun self =>
    (Ok (length (nodes self)),
     mk (head self) (size self) (nodes self ++ [node v None])).

(** [o.value] and [o.next] *)
Definition attr {A} (f : ListNode -> A) (o : option ref) : Meth t A :=
  fun self =>
    match o with
    | None => (Err AttributeError, self)
    | Some r =>
        match nodes self !! r with
        | Some n => (Ok (f n), self)
        | None => (Err Stuck, self)
        end
    end.

(** [o.next = nx] *)
Definition set_next (o : option ref) (nx : option ref) : Meth t unit :=
  fun self =>
    match o with
    | None => (Err AttributeError, self)
    | Some r =>
        match nodes self !! r with
        | Some n =>
            (Ok tt,
             mk (head self) (size self)
               (<[r := node (value n) nx]> (nodes self)))
        | None => (Err Stuck, self)
        end
    end.

Definition set_head (h : option ref) : Meth t unit :=
  update (fun self => mk h (size self) (nodes self)).
Definition add_size (d : Z) : Meth t unit :=
  update (fun self => mk (head self) (size self + d) (nodes self)).

(** The truth value of a node or [None]: [ListNode] defines neither
    [__bool__] nor [__len__]. *)
Definition truthy (o : option ref) : bool :=
  match o with Some _ => true | None => false end.

Definition insert_at_beginning (v : pyval) : Meth t unit :=
  let* new_node := new_node v in
  let* h := field head in
  set_next (Some new_node) h >>
  set_head (Some new_node) >>
  add_size 1.

(** [while current.next: current = current.next] *)
Fixpoint last_node (fuel : nat) (current : option ref)
    : Meth t (option ref) :=
  match fuel with
  | O => raise OutOfFuel
  | S fuel' =>
      let* nx := attr next current in
      if truthy nx then last_node fuel' nx else ret current
  end.

Definition insert_at_end (fuel : nat) (v : pyval) : Meth t unit :=
  let* new_node := new_node v in
  let* h := field head in
  (if negb (truthy h) then set_head (Some new_node)
   else
     let* current := last_node fuel h in
     set_next current (Some new_node)) >>
  add_size 1.

(** [for _ in range(n): current = current.next] *)
Definition advance (n : Z) (current : option ref) : Meth t (option ref) :=
  for_ (range 0 n) (fun _ current => attr next current) current.

Definition insert_at_position (v : pyval) (position : Z) : Meth t unit :=
  let* n := field size in
  if (position <? 0) || (position >? n) then raise IndexError
  else if position =? 0 then insert_at_beginning v
  else
    let* new_node := new_node v in
    let* h := field head in
    let* current := advance (position - 1) h in
    let* nx := attr next current in
    set_next (Some new_node) nx >>
    set_next current (Some new_node) >>
    add_size 1.

Definition delete_at_beginning : Meth t pyval :=
  let* h := field head in
  if negb (truthy h) then raise IndexError
  else
    let* deleted_value := attr value h in
    let* nx := attr next h in
    set_head nx >>
    add_size (-1) >>
    ret deleted_value.

(** [while current.next.next: current = current.next] *)
Fixpoint before_last (fuel : nat) (current : option ref)
    : Meth t (option ref) :=
  match fuel with
  | O => raise OutOfFuel
  | S fuel' =>
      let* nx := attr next current in
      let* nn := attr next nx in
      if truthy nn then before_last fuel' nx else ret current
  end.

Definition delete_at_end (fuel : nat) : Meth t pyval :=
  let* h := field head in
  if negb (truthy h) then raise IndexError
  else
    let* nx := attr next h in
    if negb (truthy nx) then delete_at_beginning
    else
      let* current := before_last fuel h in
      let* last := attr next current in
      let* deleted_value := attr value last in
      set_next current None >>
      add_size (-1) >>
      ret deleted_value.

Definition delete_at_position (position : Z) : Meth t pyval :=
  let* n := field size in
  if (position <? 0) || (position >=? n) then raise IndexError
  else if position =? 0 then delete_at_beginning
  else
    let* h := field head in
    let* current := advance (position - 1) h in
    let* victim := attr next current in
    let* deleted_value := attr value victim in
    let* nn := attr next victim in
    set_next current nn >>
    add_size (-1) >>
    ret deleted_value.

(** The loop of [search], from [current] at [position]. *)
Fixpoint search_from (fuel : nat) (v : pyval) (current : option ref)
    (position : Z) : Meth t Z :=
  match fuel with
  | O => raise OutOfFuel
  | S fuel' =>
      if truthy current then
        let* x := attr value current in
        if py_eq x v then ret position
        else
          let* nx := attr next current in
          search_from fuel' v nx (position + 1)
      else ret (-1)
  end.

Definition search (fuel : nat) (v : pyval) : Meth t Z :=
  let* h := field head in
  search_from fuel v h 0.

(** The loop of [traverse]. *)
Fixpoint traverse_from (fuel : nat) (current : option ref)
    (elements : list pyval) : Meth t (list pyval) :=
  match fuel with
  | O => raise OutOfFuel
  | S fuel' =>
      if truthy current then
        let* x := attr value current in
        let* nx := attr next current in
        traverse_from fuel' nx (elements ++ [x])
      else ret elements
  end.

Definition traverse (fuel : nat) : Meth t (list pyval) :=
  let* h := field head in
  traverse_from fuel h [].

Definition __len__ : Meth t Z := field size.

End LinkedList.

(** [l.insert(i, x)]: a negative index counts from the end, and an index
    outside the list is clamped to its ends. *)
Definition py_insert {A} (l : list A) (i : Z) (x : A) : list A :=
  let n := Z.of_nat (length l) in
  let j := if i <? 0 then Z.max 0 (i + n) else Z.min i n in
  take (Z.to_nat j) l ++ x :: drop (Z.to_nat j) l.

(** [del l[i]]; [None] stands for [IndexError]. *)
Definition py_del {A} (l : list A) (i : Z) : option (list A) :=
  match index (Z.of_nat (length l)) i with
  | Some j => Some (delete j l)
  | None => None
  end.

(** ** class Matrix (lines 82-153)

    The rows are list objects of their own: [insert_row] keeps the list the
    caller passes, and [insert_col] reads a list of the caller while it
    updates the rows in place.  So the matrix carries the store of list
    objects, [data] holds references into it, and a row or column passed
    by the caller is a reference ([None] for the default). *)
Module Matrix.

Definition ref := nat.

Record t := mk {
  rows : Z; cols : Z; data : list ref; store : list (list pyval)
}.

(** A new list object. *)
Definition alloc (l : list pyval) : Meth t ref :=
  fun self =>
    (Ok (length (store self)),
     mk (rows self) (cols self) (data self) (store self ++ [l])).

Definition deref (r : ref) : Meth t (list pyval) :=
  fun self =>
    match store self !! r with
    | Some l => (Ok l, self)
    | None => (Err Stuck, self)
    end.

Definition assign (r : ref) (l : list pyval) : Meth t unit :=
  update (fun self =>
            mk (rows self) (cols self) (data self) (<[r := l]> (store self))).

Definition set_data (d : list ref) : Meth t unit :=
  update (fun self => mk (rows self) (cols self) d (store self)).
Definition add_rows (d : Z) : Meth t unit :=
  update (fun self => mk (rows self + d) (cols self) (data self) (store self)).
Definition add_cols (d : Z) : Meth t unit :=
  update (fun self => mk (rows self) (cols self + d) (data self) (store self)).

(** [[[fill_value for _ in range(cols)] for _ in range(rows)]]: one new
    list per row, in a store that holds the lists [store0] already. *)
Definition __init__ (store0 : list (list pyval)) (rows cols : Z)
    (fill_value : pyval) : t :=
  mk rows cols
    (seq (length store0) (Z.to_nat rows))
    (store0 ++ replicate (Z.to_nat rows)
                 (replicate (Z.to_nat cols) fill_value)).

(** [self.data[row]] *)
Definition row_at (row : Z) : Meth t ref :=
  fun self => of_option (py_get (data self) row) self.

Definition __getitem__ (row col : Z) : Meth t pyval :=
  let* r := row_at row in
  let* l := deref r in
  of_option (py_get l col).

Definition __setitem__ (row col : Z) (value : pyval) : Meth t unit :=
  let* r := row_at row in
  let* l := deref r in
  let* l' := of_option (py_set l col value) in
  assign r l'.

Definition insert_row (row_index : Z) (row_data : option ref)
    : Meth t unit :=
  let* n := field rows in
  if (row_index <? 0) || (row_index >? n) then raise IndexError
  else
    let* row_data :=
      match row_data with
      | None =>
          let* c := field cols in
          alloc (replicate (Z.to_nat c) (PyInt 0))
      | Some r =>
          let* l := deref r in
          let* c := field cols in
          if negb (Z.of_nat (length l) =? c) then raise ValueError
          else ret r
      end in
    let* d := field data in
    set_data (py_insert d row_index row_data) >>
    add_rows 1.

Definition delete_row (row_index : Z) : Meth t unit :=
  let* n := field rows in
  if (row_index <? 0) || (row_index >=? n) then raise IndexError
  else
    let* d := field data in
    let* d' := of_option (py_del d row_index) in
    set_data d' >>
    add_rows (-1).

Definition insert_col (col_index : Z) (col_data : option ref)
    : Meth t unit :=
  let* c := field cols in
  if (col_index <? 0) || (col_index >? c) then raise IndexError
  else
    let* col_data :=
      match col_data with
      | None =>
          let* n := field rows in
          alloc (replicate (Z.to_nat n) (PyInt 0))
      | Some r =>
          let* l := deref r in
          let* n := field rows in
          if negb (Z.of_nat (length l) =? n) then raise ValueError
          else ret r
      end in
    let* n := field rows in
    for_ (range 0 n)
      (fun i (_ : unit) =>
         let* r := row_at i in
         let* cd := deref col_data in
         let* x := of_option (py_get cd i) in
         let* l := deref r in
         assign r (py_insert l col_index x))
      tt >>
    add_cols 1.

Definition delete_col (col_index : Z) : Meth t unit :=
  let* c := field cols in
  if (col_index <? 0) || (col_index >=? c) then raise IndexError
  else
    let* n := field rows in
    for_ (range 0 n)
      (fun i (_ : unit) =>
         let* r := row_at i in
         let* l := deref r in
         let* l' := of_option (py_del l col_index) in
         assign r l')
      tt >>
    add_cols (-1).

End Matrix.

(** [for x in xs: acc = body(x, acc)] over a list of any kind. *)
Fixpoint for_each {S X Acc} (xs : list X) (body : X -> Acc -> Meth S Acc)
    (acc : Acc) : Meth S Acc :=
  match xs with
  | [] => ret acc
  | x :: xs' => let* acc' := body x acc in for_each xs' body acc'
  end.

(** [l.remove(x)] on a list that holds [x]: the first occurrence goes. *)
Fixpoint remove_first (x : nat) (l : list nat) : list nat :=
  match l with
  | [] => []
  | y :: l' => if decide (x = y) then l' else y :: remove_first x l'
  end.

(** ** classes TreeNode and RootedTree (lines 419-527)

    The nodes are objects linked both ways, by the list [children] and by
    [parent]; the tree carries the store of the nodes created so far.  A
    recursive method takes the number of nested calls the interpreter
    still allows and raises [RecursionError] beyond it. *)
Module RootedTree.

Definition ref := nat.

Record TreeNode := node {
  value : pyval; children : list ref; parent : option ref
}.

Record t := mk { root : ref; nodes : list TreeNode }.

(** [TreeNode(value)] *)
Definition new_node (v : pyval) : Meth t ref :=
  fun self =>
    (Ok (length (nodes self)),
     mk (root self) (nodes self ++ [node v [] None])).

Definition __init__ (root_value : pyval) : t :=
  mk 0%nat [node root_value [] None].

(** [o.value], [o.children], [o.parent] *)
Definition attr {A} (f : TreeNode -> A) (o : ref) : Meth t A :=
  fun self =>
    match nodes self !! o with
    | Some n => (Ok (f n), self)
    | None => (Err Stuck, self)
    end.

Definition set_node (o : ref) (f : TreeNode -> TreeNode) : Meth t unit :=
  fun self =>
    match nodes self !! o with
    | Some n => (Ok tt, mk (root self) (<[o := f n]> (nodes self)))
    | None => (Err Stuck, self)
    end.

(** [o.parent = p] and the list [o.children] updated in place *)
Definition set_parent (o : ref) (p : option ref) : Meth t unit :=
  set_node o (fun n => node (value n) (children n) p).
Definition set_children (o : ref) (cs : list ref) : Meth t unit :=
  set_node o (fun n => node (value n) cs (parent n)).

(** The truth value of a node or [None]: [TreeNode] defines neither
    [__bool__] nor [__len__]. *)
Definition truthy (o : option ref) : bool :=
  match o with Some _ => true | None => false end.

Definition add_child (self_node child_node : ref) : Meth t unit :=
  set_parent child_node (Some self_node) >>
  let* cs := attr children self_node in
  set_children self_node (cs ++ [child_node]).

Definition remove_child (self_node child_node : ref) : Meth t unit :=
  let* cs := attr children self_node in
  if bool_decide (child_node ∈ cs) then
    set_children self_node (remove_first child_node cs) >>
    set_parent child_node None
  else ret tt.

(** The loop of [get_level], from [current] at [level]. *)
Fixpoint level_from (fuel : nat) (current : option ref) (level : Z)
    : Meth t Z :=
  match fuel with
  | O => raise OutOfFuel
  | S fuel' =>
      match current with
      | Some c =>
          let* p := attr parent c in
          level_from fuel' p (level + 1)
      | None => ret level
      end
  end.

Definition get_level (fuel : nat) (self_node : ref) : Meth t Z :=
  let* p := attr parent self_node in
  level_from fuel p 0.

Fixpoint _find_node (depth : nat) (current_node : ref) (v : pyval)
    : Meth t (option ref) :=
  match depth with
  | O => raise RecursionError
  | S depth' =>
      let* x := attr value current_node in
      if py_eq x v then ret (Some current_node)
      else
        let* cs := attr children current_node in
        (fix loop (cs : list ref) : Meth t (option ref) :=
           match cs with
           | [] => ret None
           | child :: cs' =>
               let* found := _find_node depth' child v in
               if truthy found then ret found else loop cs'
           end) cs
  end.

Definition insert (depth : nat) (parent_value v : pyval) : Meth t bool :=
  let* r := field root in
  let* parent_node := _find_node depth r parent_value in
  match parent_node with
  | Some p =>
      let* new_node := new_node v in
      add_child p new_node >>
      ret true
  | None => ret false
  end.

Definition delete (depth : nat) (v : pyval) : Meth t bool :=
  let* r := field root in
  let* node_to_delete := _find_node depth r v in
  match node_to_delete with
  | Some d =>
      let* r := field root in
      if negb (bool_decide (d = r)) then
        let* p := attr parent d in
        match p with
        | Some p => remove_child p d >> ret true
        | None => raise AttributeError
        end
      else ret false
  | None => ret false
  end.

Fixpoint traverse_preorder (depth : nat) (node : ref)
    : Meth t (list pyval) :=
  match depth with
  | O => raise RecursionError
  | S depth' =>
      let* x := attr value node in
      let* cs := attr children node in
      for_each cs
        (fun child result =>
           let* sub := traverse_preorder depth' child in
           ret (result ++ sub))
        [x]
  end.

Fixpoint traverse_postorder (depth : nat) (node : ref)
    : Meth t (list pyval) :=
  match depth with
  | O => raise RecursionError
  | S depth' =>
      let* cs := attr children node in
      let* result :=
        for_each cs
          (fun child result =>
             let* sub := traverse_postorder depth' child in
             ret (result ++ sub))
          [] in
      let* x := attr value node in
      ret (result ++ [x])
  end.

(** [max] of the heights the generator yields, child by child. *)
Fixpoint get_height (depth : nat) (node : ref) : Meth t Z :=
  match depth with
  | O => raise RecursionError
  | S depth' =>
      let* cs := attr children node in
      match cs with
      | [] => ret 0
      | first :: rest =>
          let* h := get_height depth' first in
          let* m :=
            for_each rest
              (fun child m =>
                 let* h := get_height depth' child in
                 ret (Z.max m h))
              h in
          ret (1 + m)
      end
  end.

(** The calls without [node]: [node = self.root]. *)
Definition preorder (depth : nat) : Meth t (list pyval) :=
  let* r := field root in traverse_preorder depth r.
Definition postorder (depth : nat) : Meth t (list pyval) :=
  let* r := field root in traverse_postorder depth r.
Definition height (depth : nat) : Meth t Z :=
  let* r := field root in get_height depth r.

End RootedTree.

End DS.

(** * Specification vocabulary *)

(** Lists read and written at Python integer positions. *)
Definition zget (l : list Z) (i : Z) : Z := l !!! Z.to_nat i.
Definition zset (l : list Z) (i v : Z) : list Z := <[Z.to_nat i := v]> l.
Definition zswap (l : list Z) (i j : Z) : list Z :=
  zset (zset l i (zget l j)) j (zget l i).
Definition zlen (l : list Z) : Z := Z.of_nat (length l).

(** [frame a st st']: from [st] to [st'] the store only grew, and every
    object other than [a] that existed in [st] is untouched. *)
Definition frame (a : loc) (st st' : state) : Prop :=
  (length (heap st) <= length (heap st'))%nat /\
  forall b, b <> a -> (b < length (heap st))%nat ->
            heap st' !! b = heap st !! b.

(** [triple a l m Q]: started in a store where [a] holds [l], [m] ends with
    an outcome [r] in a store where [a] holds some [l'] with [Q r l'], all
    other objects being framed. *)
Definition triple {A} (a : loc) (l : list Z) (m : M A)
    (Q : res A -> list Z -> Prop) : Prop :=
  forall st, heap st !! a = Some l ->
    exists r l' st',
      m st = (r, st') /\ heap st' !! a = Some l' /\ frame a st st' /\ Q r l'.

Definition returns {A} (P : A -> list Z -> Prop) : res A -> list Z -> Prop :=
  fun r l' => match r with Val v => P v l' | Exc _ => False end.

(** [l'] has the values of [l], moved around inside [left..right] only. *)
Definition rearranged (left right : Z) (l l' : list Z) : Prop :=
  zlen l' = zlen l /\
  l' ≡ₚ l /\
  (forall i, 0 <= i -> i < left \/ right < i -> zget l' i = zget l i) /\
  (forall j, left <= j <= right ->
     exists j', left <= j' <= right /\ zget l' j = zget l j').

(** The state reached when [partition] returns [p]: the pivot value [pv]
    sits at [p], smaller values before it and the others after it, inside
    [left..right]. *)
Definition partitioned (left right pv p : Z) (l : list Z) : Prop :=
  left <= p <= right /\
  zget l p = pv /\
  (forall i, left <= i < p -> zget l i < pv) /\
  (forall i, p < i <= right -> pv <= zget l i).

(** The position a selection ends at: the rank itself when it is valid,
    the nearest end of the sequence otherwise. *)
Definition target (n k : Z) : Z := Z.max 0 (Z.min k (n - 1)).

(** The invariant of the recursion: [l] is the input rearranged, everything
    left of the window is below everything from the window on, everything
    right of it is above everything up to the window, and the window holds
    the position the call is heading for. *)
Record window (A l : list Z) (left right k : Z) : Prop := {
  win_perm : l ≡ₚ A;
  win_left : 0 <= left;
  win_right : right < zlen l;
  win_order : left <= right + 1;
  win_below : forall i j,
    0 <= i < left -> left <= j < zlen l -> zget l i <= zget l j;
  win_above : forall i j,
    0 <= i <= right -> right < j < zlen l -> zget l i <= zget l j;
  win_rank : 0 <= k < zlen l -> left <= k <= right;
  win_low : k < 0 -> left = 0;
  win_high : zlen l <= k -> right = zlen l - 1
}.

(** What a selection over a window leaves behind: the working list is still
    the input rearranged; a returned value is the one of rank [target]; a
    [ValueError] only happens for an invalid rank and a [RecursionError]
    only when [depth] does not exceed [bound]. *)
Definition selected (A : list Z) (bound : Z) (depth : nat) (k : Z)
    (r : res Z) (l' : list Z) : Prop :=
  l' ≡ₚ A /\
  match r with
  | Val v => 0 < zlen A /\ v = zget (sorted A) (target (zlen A) k)
  | Exc ValueError => ~ 0 <= k < zlen A
  | Exc RecursionError => Z.of_nat depth <= bound
  | Exc _ => False
  end.

(** [preserved st st']: every object of [st] is still there, unchanged. *)
Definition preserved (st st' : state) : Prop :=
  (length (heap st) <= length (heap st'))%nat /\
  forall b, (b < length (heap st))%nat -> heap st' !! b = heap st !! b.

(** [l] with the values of positions [left..right] put in ascending order. *)
Definition sort_range (l : list Z) (left right : Z) : list Z :=
  take (Z.to_nat left) l ++
  sorted (slice l left (right + 1)) ++
  drop (Z.to_nat (right + 1)) l.

(** [p] is the first position of [left..right] holding [v]. *)
Definition first_position (l : list Z) (left right v p : Z) : Prop :=
  left <= p <= right /\ zget l p = v /\
  forall i, left <= i < p -> zget l i <> v.

(** What the pivot choice of lines 82-95 yields from the medians [M]. *)
Definition pivot_choice (l : list Z) (left right : Z) (M : list Z)
    (p : Z) : Prop :=
  (zlen M = 1 /\ p = zget M 0) \/
  (1 < zlen M /\
   first_position l left right
     (zget (sorted (zget l <$> M)) (zlen M / 2)) p).

(** The result of a partition call on [left..right] with the pivot at
    [pivot_idx]: it returns a position [store_idx] of the range that holds
    the pivot value, the elements of the range before it are smaller than
    the pivot value and those after it are not. *)
Definition lomuto_result (a : loc) (l : list Z) (left right pivot_idx : Z)
    (out : res Z * state) : Prop :=
  exists store_idx l' st',
    out = (Val store_idx, st') /\
    heap st' !! a = Some l' /\
    left <= store_idx <= right /\
    zget l' store_idx = zget l pivot_idx /\
    (forall i, left <= i < store_idx -> zget l' i < zget l pivot_idx) /\
    (forall i, store_idx < i <= right -> zget l pivot_idx <= zget l' i).

(** A mutation step on [left..right] that returns, leaves a permutation of
    the list it found and writes no position outside the range. *)
Definition stays_inside (a : loc) (l : list Z) (left right : Z)
    (out : res Z * state) : Prop :=
  exists v l' st',
    out = (Val v, st') /\
    heap st' !! a = Some l' /\
    l' ≡ₚ l /\
    forall i, 0 <= i -> i < left \/ right < i -> zget l' i = zget l i.

(** How many elements of [l] are smaller than [v], and how many are not
    greater. *)
Definition count_below (v : Z) (l : list Z) : nat :=
  length (filter (fun x => x < v) l).

Definition count_upto (v : Z) (l : list Z) : nat :=
  length (filter (fun x => x <= v) l).

(** What [test_case size] leaves in the store: five distinct list objects
    of [size] elements each, under the five distribution names. *)
Definition generated (st : state) (size : Z)
    (distributions : list (string * loc)) : Prop :=
  exists a1 a2 a3 a4 a5 l1 l5,
    distributions = [("random"%string, a1); ("sorted"%string, a2);
                     ("reverse_sorted"%string, a3);
                     ("all_equal"%string, a4);
                     ("few_unique"%string, a5)] /\
    NoDup [a1; a2; a3; a4; a5] /\
    heap st !! a1 = Some l1 /\
    length l1 = Z.to_nat size /\
    Forall (fun x => 1 <= x <= size * 10) l1 /\
    heap st !! a2 = Some (range 1 (size + 1)) /\
    heap st !! a3 = Some (range_down size 0) /\
    heap st !! a4 = Some (replicate (Z.to_nat size) 42) /\
    heap st !! a5 = Some l5 /\
    length l5 = Z.to_nat size /\
    Forall (fun x => 1 <= x <= 5) l5.

(** The bounds of the [j]-th group of [left..right], and what the grouping
    pass has done to the first [n] groups of [l]. *)
Definition group_left (left j : Z) : Z := left + 5 * j.
Definition group_right (left right j : Z) : Z :=
  Z.min (group_left left j + 4) right.

Definition groups_done (l : list Z) (left right : Z) (n : Z)
    (medians l' : list Z) : Prop :=
  zlen medians = n /\
  zlen l' = zlen l /\
  (forall j, 0 <= j < n ->
     zget medians j
       = group_left left j
         + (group_right left right j - group_left left j) / 2 /\
     slice l' (group_left left j) (group_right left right j + 1)
       = sorted (slice l (group_left left j) (group_right left right j + 1)))
  /\
  (forall i, 0 <= i < zlen l ->
     i < left \/ group_left left n <= i \/ right < i ->
     zget l' i = zget l i).

(** Abstract views of the containers: the invariant their methods keep
    and the sequence of stored values, oldest first. *)
Definition array_wf (a : DS.MyArray.t) : Prop :=
  0 <= DS.MyArray.size a <= DS.MyArray.capacity a /\
  length (DS.MyArray.data a) = Z.to_nat (DS.MyArray.capacity a).

Definition array_contents (a : DS.MyArray.t) : list DS.pyval :=
  take (Z.to_nat (DS.MyArray.size a)) (DS.MyArray.data a).

Definition stack_wf (s : DS.Stack.t) : Prop :=
  0 <= DS.Stack.size s <= DS.Stack.capacity s /\
  length (DS.Stack.data s) = Z.to_nat (DS.Stack.capacity s).

Definition stack_contents (s : DS.Stack.t) : list DS.pyval :=
  take (Z.to_nat (DS.Stack.size s)) (DS.Stack.data s).

#[global] Instance pyval_inhabited : Inhabited DS.pyval :=
  populate DS.PyNone.

(** The circular buffer: [size] slots starting at [front], wrapping around
    at [capacity], with [rear] one step behind the next free slot. *)
Definition queue_wf (q : DS.Queue.t) : Prop :=
  1 <= DS.Queue.capacity q /\
  0 <= DS.Queue.size q <= DS.Queue.capacity q /\
  0 <= DS.Queue.front q < DS.Queue.capacity q /\
  (DS.Queue.rear q + 1) mod DS.Queue.capacity q
    = (DS.Queue.front q + DS.Queue.size q) mod DS.Queue.capacity q /\
  length (DS.Queue.data q) = Z.to_nat (DS.Queue.capacity q).

Definition queue_slot (q : DS.Queue.t) (i : Z) : DS.pyval :=
  DS.Queue.data q
    !!! Z.to_nat ((DS.Queue.front q + i) mod DS.Queue.capacity q).

Definition queue_contents (q : DS.Queue.t) : list DS.pyval :=
  queue_slot q <$> seqZ 0 (DS.Queue.size q).

(** [segment nodes p cells q]: following [next] from [p] visits the nodes
    [cells], given by reference and value, in this order and arrives at
    [q]. *)
Fixpoint segment (nodes : list DS.LinkedList.ListNode) (p : option nat)
    (cells : list (nat * DS.pyval)) (q : option nat) : Prop :=
  match cells with
  | [] => p = q
  | (r, v) :: cells' =>
      p = Some r /\
      exists nx, nodes !! r = Some (DS.LinkedList.node v nx) /\
                 segment nodes nx cells' q
  end.

(** The linked list [l] holds the values [xs]: the chain of nodes from
    [head] ends in [None], carries [xs], and [size] counts it. *)
Definition list_repr (l : DS.LinkedList.t) (xs : list DS.pyval) : Prop :=
  exists cells,
    segment (DS.LinkedList.nodes l) (DS.LinkedList.head l) cells None /\
    cells.*2 = xs /\
    DS.LinkedList.size l = Z.of_nat (length xs).

(** The matrix [m] holds the rows [M]: [data] refers to as many different
    list objects as [rows] says, holding the rows of [M] in order, each
    [cols] long. *)
Definition matrix_repr (m : DS.Matrix.t) (M : list (list DS.pyval)) : Prop :=
  DS.Matrix.rows m = Z.of_nat (length M) /\
  0 <= DS.Matrix.cols m /\
  Forall (fun row => Z.of_nat (length row) = DS.Matrix.cols m) M /\
  NoDup (DS.Matrix.data m) /\
  Forall2 (fun r row => DS.Matrix.store m !! r = Some row)
    (DS.Matrix.data m) M.

(** The position a Python index [i] names in a list of length [n]. *)
Definition position (n i : Z) : nat :=
  Z.to_nat (if i <? 0 then i + n else i).

(** A tree as a value: each node with its reference, its value and its
    subtrees in the order of [children]. *)
#[warnings="-register-all"]
Inductive rose := Rose (r : nat) (v : DS.pyval) (kids : list rose).

Definition rose_ref (t : rose) : nat :=
  match t with Rose r _ _ => r end.

(** [tree_repr nodes p t]: the store holds the tree [t] below the parent
    [p], every node with its value, the list of its children and its
    parent. *)
#[warnings="-register-all"]
Inductive tree_repr (nodes : list DS.RootedTree.TreeNode)
    : option nat -> rose -> Prop :=
  | tree_repr_node p r v kids :
      nodes !! r = Some (DS.RootedTree.node v (map rose_ref kids) p) ->
      Forall (tree_repr nodes (Some r)) kids ->
      tree_repr nodes p (Rose r v kids).

Fixpoint rose_refs (t : rose) : list nat :=
  match t with Rose r _ kids => r :: flat_map rose_refs kids end.

Fixpoint rose_preorder (t : rose) : list DS.pyval :=
  match t with Rose _ v kids => v :: flat_map rose_preorder kids end.

Fixpoint rose_postorder (t : rose) : list DS.pyval :=
  match t with Rose _ v kids => flat_map rose_postorder kids ++ [v] end.

(** The number of nodes on the longest path from the root down. *)
Fixpoint rose_depth (t : rose) : nat :=
  match t with
  | Rose _ _ kids => S (foldr Nat.max 0%nat (map rose_depth kids))
  end.

(** The first node in preorder whose value is [v]. *)
Fixpoint rose_find (v : DS.pyval) (t : rose) : option nat :=
  match t with
  | Rose r x kids =>
      if DS.py_eq x v then Some r
      else
        (fix first (ks : list rose) : option nat :=
           match ks with
           | [] => None
           | k :: ks' =>
               match rose_find v k with
               | Some f => Some f
               | None => first ks'
               end
           end) kids
  end.

(** The number of edges from the root of [t] down to the node [target]. *)
Fixpoint rose_level (target : nat) (t : rose) : option nat :=
  match t with
  | Rose r _ kids =>
      if decide (r = target) then Some 0%nat
      else
        (fix first (ks : list rose) : option nat :=
           match ks with
           | [] => None
           | k :: ks' =>
               match rose_level target k with
               | Some j => Some (S j)
               | None => first ks'
               end
           end) kids
  end.

(** [t] with [new] added as the last subtree of the node [target]. *)
Fixpoint rose_add (target : nat) (new : rose) (t : rose) : rose :=
  match t with
  | Rose r v kids =>
      if decide (r = target) then Rose r v (kids ++ [new])
      else Rose r v (map (rose_add target new) kids)
  end.

(** [t] without the subtree of the node [target], which is not its
    root. *)
Fixpoint rose_remove (target : nat) (t : rose) : rose :=
  match t with
  | Rose r v kids =>
      Rose r v
        (filter (fun k => rose_ref k <> target)
           (map (rose_remove target) kids))
  end.

(** The tree object [tr] holds the tree [t], all nodes different. *)
Definition tree_wf (tr : DS.RootedTree.t) (t : rose) : Prop :=
  DS.RootedTree.root tr = rose_ref t /\
  tree_repr (DS.RootedTree.nodes tr) None t /\
  NoDup (rose_refs t).

(** * Verification *)

(** ** Lists indexed by Python integers *)

Lemma zlen_nonneg l : 0 <= zlen l.
Proof. unfold zlen. lia. Qed.

Lemma zget_lookup l i :
  0 <= i < zlen l -> l !! Z.to_nat i = Some (zget l i).
Proof.
  unfold zlen, zget. intros Hi.
  apply list_lookup_lookup_total_lt. lia.
Qed.

Lemma zget_elem l i : 0 <= i < zlen l -> zget l i ∈ l.
Proof. intros Hi. eapply list_elem_of_lookup_2, zget_lookup, Hi. Qed.

Lemma elem_zget l x : x ∈ l -> exists i, 0 <= i < zlen l /\ zget l i = x.
Proof.
  intros [n Hn]%list_elem_of_lookup_1.
  exists (Z.of_nat n). pose proof (lookup_lt_Some _ _ _ Hn).
  unfold zlen, zget. split; [lia|].
  rewrite Nat2Z.id. by apply list_lookup_total_correct.
Qed.

Lemma zlen_zset l i v : zlen (zset l i v) = zlen l.
Proof. unfold zlen, zset. by rewrite length_insert. Qed.

Lemma zget_zset_eq l i v : 0 <= i < zlen l -> zget (zset l i v) i = v.
Proof.
  unfold zlen, zget, zset. intros Hi.
  apply list_lookup_total_correct, list_lookup_insert_eq. lia.
Qed.

Lemma zget_zset_ne l i j v :
  0 <= i -> 0 <= j -> i <> j -> zget (zset l i v) j = zget l j.
Proof.
  unfold zget, zset. intros Hi Hj Hne.
  rewrite list_lookup_total_insert_ne; [done|lia].
Qed.

Lemma zlen_zswap l i j : zlen (zswap l i j) = zlen l.
Proof. unfold zswap. by rewrite !zlen_zset. Qed.

Lemma zget_zswap l i j k :
  0 <= i < zlen l -> 0 <= j < zlen l -> 0 <= k ->
  zget (zswap l i j) k =
    if decide (k = j) then zget l i
    else if decide (k = i) then zget l j else zget l k.
Proof.
  intros Hi Hj Hk. unfold zswap.
  destruct (decide (k = j)) as [->|Hkj].
  - rewrite zget_zset_eq; [done|by rewrite zlen_zset].
  - rewrite zget_zset_ne by lia.
    destruct (decide (k = i)) as [->|Hki].
    + by rewrite zget_zset_eq.
    + by rewrite zget_zset_ne by lia.
Qed.

Lemma insert_head_perm (l : list Z) (j : nat) x y :
  l !! j = Some y -> y :: <[j := x]> l ≡ₚ x :: l.
Proof.
  revert j. induction l as [|z l IH]; intros [|j] Hj; simplify_eq/=.
  - apply perm_swap.
  - rewrite (perm_swap z y), (perm_swap z x). by rewrite IH.
Qed.

Lemma insert_insert_perm (l : list Z) (i j : nat) x y :
  l !! i = Some x -> l !! j = Some y ->
  <[j := x]> (<[i := y]> l) ≡ₚ l.
Proof.
  revert i j. induction l as [|z l IH]; intros [|i] [|j] Hi Hj;
    simpl in *; try done.
  - injection Hi as ->. injection Hj as ->. done.
  - injection Hi as ->. by apply insert_head_perm.
  - injection Hj as ->. rewrite (insert_head_perm l i y x) by done. done.
  - by rewrite IH.
Qed.

Lemma zswap_perm l i j :
  0 <= i < zlen l -> 0 <= j < zlen l -> zswap l i j ≡ₚ l.
Proof.
  intros Hi Hj. unfold zswap, zset.
  apply insert_insert_perm; by apply zget_lookup.
Qed.

(** ** A Hoare logic for code that works on one list object *)

Lemma frame_refl a st : frame a st st.
Proof. split; [lia|done]. Qed.

Lemma frame_trans a st1 st2 st3 :
  frame a st1 st2 -> frame a st2 st3 -> frame a st1 st3.
Proof.
  intros [Hl1 H1] [Hl2 H2]. split; [lia|].
  intros b Hb Hlt. rewrite H2 by (done || lia). by apply H1.
Qed.

Lemma deref_holds a l st : heap st !! a = Some l -> deref a st = l.
Proof. intros H. unfold deref. by apply list_lookup_total_correct. Qed.

Lemma store_holds a l l' st :
  heap st !! a = Some l -> heap (store a l' st) !! a = Some l'.
Proof.
  intros H. simpl. apply list_lookup_insert_eq. by eapply lookup_lt_Some.
Qed.

Lemma store_frame a l' st : frame a st (store a l' st).
Proof.
  split; simpl.
  - by rewrite length_insert.
  - intros b Hb _. by apply list_lookup_insert_ne.
Qed.

Lemma triple_ret {A} a l (v : A) (Q : res A -> list Z -> Prop) :
  Q (Val v) l -> triple a l (ret v) Q.
Proof.
  intros HQ st Hst. exists (Val v), l, st. auto using frame_refl.
Qed.

Lemma triple_raise {A} a l e (Q : res A -> list Z -> Prop) :
  Q (Exc e) l -> triple a l (raise e) Q.
Proof.
  intros HQ st Hst. exists (Exc e), l, st. auto using frame_refl.
Qed.

Lemma triple_conseq {A} a l (m : M A) (Q Q' : res A -> list Z -> Prop) :
  triple a l m Q -> (forall r l', Q r l' -> Q' r l') -> triple a l m Q'.
Proof.
  intros Hm HQ st Hst. destruct (Hm st Hst) as (r & l' & st' & ? & ? & ? & ?).
  exists r, l', st'. auto.
Qed.

Lemma triple_bind {A B} a l (m : M A) (k : A -> M B) Q1
    (Q2 : res B -> list Z -> Prop) :
  triple a l m Q1 ->
  (forall v l', Q1 (Val v) l' -> triple a l' (k v) Q2) ->
  (forall e l', Q1 (Exc e) l' -> Q2 (Exc e) l') ->
  triple a l (bind m k) Q2.
Proof.
  intros Hm Hk He st Hst.
  destruct (Hm st Hst) as (r & l1 & st1 & Hrun & Hl1 & Hf1 & HQ1).
  unfold bind. rewrite Hrun. destruct r as [v|e].
  - destruct (Hk v l1 HQ1 st1 Hl1) as (r2 & l2 & st2 & ? & ? & ? & ?).
    exists r2, l2, st2. eauto using frame_trans.
  - exists (Exc e), l1, st1. auto.
Qed.

Lemma triple_bind_ret {A B} a l (m : M A) (k : A -> M B) P
    (Q : res B -> list Z -> Prop) :
  triple a l m (returns P) ->
  (forall v l', P v l' -> triple a l' (k v) Q) ->
  triple a l (bind m k) Q.
Proof. intros Hm Hk. eapply triple_bind; eauto. intros e l' []. Qed.

Lemma triple_assoc {A B C} a l (m : M A) (f : A -> M B) (g : B -> M C) Q :
  triple a l (bind (bind m f) g) Q ->
  triple a l (bind m (fun x => bind (f x) g)) Q.
Proof.
  intros H st Hst. destruct (H st Hst) as (r & l' & st' & Hrun & Hrest).
  exists r, l', st'. split; [|done]. rewrite <- Hrun.
  unfold bind. by destruct (m st) as [[v|e] st1].
Qed.

(** Symbolic execution of one statement whose postcondition is known. *)
Ltac step L :=
  eapply triple_bind_ret; [eapply L | cbv beta].

Lemma index_in_range n i : 0 <= i < n -> index n i = Some (Z.to_nat i).
Proof.
  intros Hi. unfold index.
  destruct (Z.leb_spec 0 i), (Z.ltb_spec i n); simpl; (done || lia).
Qed.

Lemma item_run (s : list Z) i st :
  0 <= i < zlen s -> item s i st = (Val (zget s i), st).
Proof.
  intros Hi. unfold item. fold (zlen s).
  rewrite index_in_range by done. by rewrite zget_lookup.
Qed.

Lemma triple_item a l (s : list Z) i :
  0 <= i < zlen s ->
  triple a l (item s i) (returns (fun v l' => v = zget s i /\ l' = l)).
Proof.
  intros Hi st Hst. exists (Val (zget s i)), l, st.
  rewrite item_run by done. simpl. auto using frame_refl.
Qed.

Lemma triple_getitem a l i :
  0 <= i < zlen l ->
  triple a l (getitem a i) (returns (fun v l' => v = zget l i /\ l' = l)).
Proof.
  intros Hi st Hst. exists (Val (zget l i)), l, st.
  unfold getitem. rewrite (deref_holds _ _ _ Hst), item_run by done.
  simpl. auto using frame_refl.
Qed.

Lemma triple_setitem a l i v :
  0 <= i < zlen l ->
  triple a l (setitem a i v) (returns (fun _ l' => l' = zset l i v)).
Proof.
  intros Hi st Hst. exists (Val tt), (zset l i v), (store a (zset l i v) st).
  unfold setitem. rewrite (deref_holds _ _ _ Hst). fold (zlen l).
  rewrite index_in_range by done.
  split_and!; [done|by eapply store_holds|apply store_frame|done].
Qed.

Lemma triple_swap a l i j :
  0 <= i < zlen l -> 0 <= j < zlen l ->
  triple a l (swap a i j) (returns (fun _ l' => l' = zswap l i j)).
Proof.
  intros Hi Hj. unfold swap.
  step triple_getitem; [done|]. intros x ? [-> ->].
  step triple_getitem; [done|]. intros y ? [-> ->].
  step triple_setitem; [done|]. intros _ ? ->.
  eapply triple_conseq; [apply triple_setitem; by rewrite zlen_zset|].
  intros [[]|] l'; simpl; [|done]. by intros ->.
Qed.

Lemma triple_getslice a l lo hi :
  triple a l (getslice a lo hi)
    (returns (fun s l' => s = slice l lo hi /\ l' = l)).
Proof.
  intros st Hst. exists (Val (slice l lo hi)), l, st.
  unfold getslice. rewrite (deref_holds _ _ _ Hst).
  simpl. auto using frame_refl.
Qed.

(** The loop rule: [Inv n] holds after [n] iterations. *)
Lemma triple_for {S} a (xs : list Z) (body : Z -> S -> M S)
    (Inv : nat -> S -> list Z -> Prop) s l :
  Inv 0%nat s l ->
  (forall n x s l, xs !! n = Some x -> Inv n s l ->
     triple a l (body x s) (returns (Inv (Datatypes.S n)))) ->
  triple a l (for_ xs body s) (returns (Inv (length xs))).
Proof.
  revert Inv s l. induction xs as [|x xs IH]; intros Inv s l H0 Hbody; simpl.
  - by apply triple_ret.
  - eapply triple_bind_ret; [by apply (Hbody 0%nat x)|].
    intros s' l' Hs'.
    apply (IH (fun n => Inv (Datatypes.S n))); [done|].
    intros n y s'' l'' Hy. by apply Hbody.
Qed.

(** ** Rearrangements inside a range *)

Lemma rearranged_refl left right l : rearranged left right l l.
Proof. split_and!; eauto. Qed.

Lemma rearranged_trans left right l1 l2 l3 :
  rearranged left right l1 l2 -> rearranged left right l2 l3 ->
  rearranged left right l1 l3.
Proof.
  intros (Hn1 & Hp1 & Ho1 & Hi1) (Hn2 & Hp2 & Ho2 & Hi2). split_and!.
  - congruence.
  - by rewrite Hp2.
  - intros i Hi Hout. rewrite Ho2, Ho1; auto.
  - intros j Hj. destruct (Hi2 j Hj) as (j1 & Hj1 & ->).
    destruct (Hi1 j1 Hj1) as (j2 & Hj2 & ->). eauto.
Qed.

Lemma rearranged_mono left right left' right' l l' :
  0 <= left' <= left -> right <= right' ->
  rearranged left right l l' -> rearranged left' right' l l'.
Proof.
  intros Hl Hr (Hn & Hp & Ho & Hi). split_and!; [done..| |].
  - intros i Hi0 Hout. apply Ho; lia.
  - intros j Hj. destruct (decide (left <= j <= right)) as [Hin|Hout].
    + destruct (Hi j Hin) as (j' & Hj' & ->). exists j'. split; [lia|done].
    + exists j. split; [done|]. apply Ho; lia.
Qed.

Lemma rearranged_zswap left right l i j :
  0 <= left -> right < zlen l ->
  left <= i <= right -> left <= j <= right ->
  rearranged left right l (zswap l i j).
Proof.
  intros Hl Hr Hi Hj. split_and!.
  - apply zlen_zswap.
  - apply zswap_perm; lia.
  - intros k Hk Hout. rewrite zget_zswap by lia.
    repeat case_decide; (done || lia).
  - intros k Hk. rewrite zget_zswap by lia.
    repeat case_decide; eauto.
Qed.

(** ** The Lomuto partition *)

Lemma partition_spec a l left right pivot_idx :
  0 <= left -> left <= pivot_idx <= right -> right < zlen l ->
  triple a l (partition a left right pivot_idx)
    (returns (fun p l' =>
       rearranged left right l l' /\
       partitioned left right (zget l pivot_idx) p l')).
Proof.
  intros Hleft Hpiv Hright. unfold partition.
  step triple_getitem; [lia|]. intros pv ? [-> ->].
  step triple_swap; [lia..|]. intros _ l1 ->.
  set (pv := zget l pivot_idx). set (l1 := zswap l pivot_idx right).
  assert (Hr1 : rearranged left right l l1)
    by (apply rearranged_zswap; lia).
  assert (Hn1 : zlen l1 = zlen l) by apply zlen_zswap.
  assert (Hpv1 : zget l1 right = pv).
  { unfold l1. rewrite zget_zswap by lia. by rewrite decide_True. }
  eapply triple_bind_ret.
  { apply (triple_for a (range left right) _
      (fun n s l2 =>
         rearranged left right l1 l2 /\
         left <= s <= left + Z.of_nat n /\
         zget l2 right = pv /\
         (forall i, left <= i < s -> zget l2 i < pv) /\
         (forall i, s <= i < left + Z.of_nat n -> pv <= zget l2 i))).
    - split_and!; [apply rearranged_refl|lia..|done|intros; lia|intros; lia].
    - intros n x s l2 Hx (Hr2 & Hs & Hpv2 & Hlt & Hge).
      apply lookup_seqZ in Hx as [-> Hn].
      assert (Hn2 : zlen l2 = zlen l1) by apply Hr2.
      step triple_getitem; [lia|]. intros y ? [-> ->].
      destruct (Z.ltb_spec (zget l2 (left + Z.of_nat n)) pv) as [Hy|Hy].
      + step triple_swap; [lia..|]. intros _ l3 ->.
        apply triple_ret. simpl. split_and!.
        * eapply rearranged_trans; [done|]. apply rearranged_zswap; lia.
        * lia.
        * lia.
        * rewrite zget_zswap by lia. repeat case_decide; (done || lia).
        * intros i Hi. rewrite zget_zswap by lia.
          repeat case_decide; subst; try done; try lia. apply Hlt; lia.
        * intros i Hi. rewrite zget_zswap by lia.
          repeat case_decide; subst; try lia.
          -- apply Hge. lia.
          -- apply Hge. lia.
      + apply triple_ret. simpl. split_and!; [done|lia|lia|done|done|].
        intros i Hi. destruct (decide (i = left + Z.of_nat n)) as [->|].
        * lia.
        * apply Hge. lia. }
  intros s l2 (Hr2 & Hs & Hpv2 & Hlt & Hge).
  unfold range in Hs, Hge. rewrite length_seqZ in Hs, Hge.
  rewrite Z2Nat.id in Hs, Hge by lia.
  assert (Hn2 : zlen l2 = zlen l1) by apply Hr2.
  step triple_swap; [lia..|]. intros _ l3 ->.
  apply triple_ret. simpl. split.
  - eapply rearranged_trans; [done|].
    eapply rearranged_trans; [done|]. apply rearranged_zswap; lia.
  - split_and!.
    + lia.
    + lia.
    + rewrite zget_zswap by lia. repeat case_decide; (congruence || lia).
    + intros i Hi. rewrite zget_zswap by lia.
      repeat case_decide; try lia. apply Hlt; lia.
    + intros i Hi. rewrite zget_zswap by lia.
      repeat case_decide; try lia.
      * apply Hge. lia.
      * apply Hge. lia.
Qed.

Lemma partition_mom_eq : partition_mom = partition.
Proof. reflexivity. Qed.

(** ** Sorting and ranks *)

Lemma insert_sorted_perm x l : insert_sorted x l ≡ₚ x :: l.
Proof.
  induction l as [|y l IH]; simpl; [done|].
  destruct (x <=? y); [done|]. by rewrite IH, perm_swap.
Qed.

Lemma sorted_perm l : sorted l ≡ₚ l.
Proof.
  induction l as [|x l IH]; simpl; [done|].
  by rewrite insert_sorted_perm, IH.
Qed.

Lemma sorted_elem x l : x ∈ sorted l <-> x ∈ l.
Proof. by rewrite sorted_perm. Qed.

Lemma zlen_sorted l : zlen (sorted l) = zlen l.
Proof. unfold zlen. by rewrite (Permutation_length (sorted_perm l)). Qed.

Lemma insert_sorted_Sorted x l :
  Sorted Z.le l -> Sorted Z.le (insert_sorted x l).
Proof.
  induction 1 as [|y l Hl IH Hy]; simpl.
  - by repeat constructor.
  - destruct (Z.leb_spec x y).
    + by repeat constructor.
    + constructor; [done|].
      destruct Hy as [|z l Hz]; simpl in *.
      * constructor. lia.
      * destruct (x <=? z); constructor; lia.
Qed.

Lemma sorted_Sorted l : Sorted Z.le (sorted l).
Proof.
  induction l; simpl; [constructor|by apply insert_sorted_Sorted].
Qed.

Lemma sorted_unique l1 l2 : l1 ≡ₚ l2 -> sorted l1 = sorted l2.
Proof.
  intros Hp. apply (Sorted_unique Z.le); [apply sorted_Sorted..|].
  by rewrite !sorted_perm.
Qed.

Lemma sorted_of_Sorted l : Sorted Z.le l -> sorted l = l.
Proof.
  intros Hl. apply (Sorted_unique Z.le);
    [apply sorted_Sorted|done|apply sorted_perm].
Qed.

Lemma sorted_idemp l : sorted (sorted l) = sorted l.
Proof. apply sorted_of_Sorted, sorted_Sorted. Qed.

Lemma sorted_mono l i j :
  0 <= i -> i <= j -> j < zlen l -> zget (sorted l) i <= zget (sorted l) j.
Proof.
  intros Hi Hij Hj.
  pose proof (zlen_sorted l) as Hn.
  destruct (decide (i = j)) as [->|Hne]; [lia|].
  pose proof (Sorted_StronglySorted _ _ (sorted_Sorted l)) as Hs.
  rewrite <- (take_drop (Z.to_nat j) (sorted l)) in Hs.
  apply StronglySorted_app in Hs as (Hs & _ & _).
  apply Hs.
  - apply list_elem_of_lookup. exists (Z.to_nat i).
    rewrite lookup_take_lt by lia. apply zget_lookup. lia.
  - apply list_elem_of_lookup. exists 0%nat.
    rewrite lookup_drop, Nat.add_0_r. apply zget_lookup. lia.
Qed.

(** A value with only smaller-or-equal values before it and only
    greater-or-equal values after it has the rank of its position. *)
Lemma rank_of_position A l j :
  l ≡ₚ A -> 0 <= j < zlen l ->
  (forall i, 0 <= i < j -> zget l i <= zget l j) ->
  (forall i, j < i < zlen l -> zget l j <= zget l i) ->
  zget (sorted A) j = zget l j.
Proof.
  intros Hp Hj Hbefore Hafter.
  rewrite <- (sorted_unique _ _ Hp).
  set (x := zget l j).
  pose proof (zget_lookup l j Hj) as Hx. fold x in Hx.
  assert (Hsplit :
    sorted l = sorted (take (Z.to_nat j) l) ++ x :: sorted (drop (S (Z.to_nat j)) l)).
  { apply (Sorted_unique Z.le); [apply sorted_Sorted| |].
    - apply StronglySorted_Sorted, StronglySorted_app_2.
      + intros x1 x2 Hx1 Hx2.
        rewrite sorted_perm in Hx1.
        apply list_elem_of_lookup in Hx1 as [i Hi].
        apply lookup_take_Some in Hi as [Hi Hlt].
        transitivity x.
        * specialize (Hbefore (Z.of_nat i)).
          unfold zget in Hbefore at 1. rewrite Nat2Z.id in Hbefore.
          rewrite (list_lookup_total_correct _ _ _ Hi) in Hbefore.
          apply Hbefore. lia.
        * apply elem_of_cons in Hx2 as [->|Hx2]; [done|].
          rewrite sorted_perm in Hx2.
          apply list_elem_of_lookup in Hx2 as [i' Hi'].
          rewrite lookup_drop in Hi'.
          pose proof (lookup_lt_Some _ _ _ Hi') as Hlt'.
          specialize (Hafter (Z.of_nat (S (Z.to_nat j) + i'))).
          unfold zget in Hafter at 2. rewrite Nat2Z.id in Hafter.
          rewrite (list_lookup_total_correct _ _ _ Hi') in Hafter.
          apply Hafter. unfold zlen. lia.
      + apply Sorted_StronglySorted; [apply _|apply sorted_Sorted].
      + constructor.
        * apply Sorted_StronglySorted; [apply _|apply sorted_Sorted].
        * apply Forall_forall. intros x2 Hx2.
          rewrite sorted_perm in Hx2.
          apply list_elem_of_lookup in Hx2 as [i' Hi'].
          rewrite lookup_drop in Hi'.
          pose proof (lookup_lt_Some _ _ _ Hi') as Hlt'.
          specialize (Hafter (Z.of_nat (S (Z.to_nat j) + i'))).
          unfold zget in Hafter at 2. rewrite Nat2Z.id in Hafter.
          rewrite (list_lookup_total_correct _ _ _ Hi') in Hafter.
          apply Hafter. unfold zlen. lia.
    - rewrite !sorted_perm.
      by rewrite <- (take_drop_middle l (Z.to_nat j) x) at 1. }
  rewrite Hsplit. unfold zget at 1.
  apply list_lookup_total_correct.
  assert (Hlen : length (sorted (take (Z.to_nat j) l)) = Z.to_nat j).
  { rewrite (Permutation_length (sorted_perm _)), length_take.
    unfold zlen in Hj. lia. }
  rewrite lookup_app_r by lia. by rewrite Hlen, Nat.sub_diag.
Qed.

(** ** The search window of a selection *)

Lemma target_valid n k : 0 <= k < n -> target n k = k.
Proof. unfold target. lia. Qed.

Lemma perm_zlen (l A : list Z) : l ≡ₚ A -> zlen l = zlen A.
Proof. intros Hp. unfold zlen. by rewrite (Permutation_length Hp). Qed.

Lemma window_initial A k : window A A 0 (zlen A - 1) k.
Proof.
  pose proof (zlen_nonneg A).
  split; try done; try lia.
Qed.

Lemma window_rearranged A l l1 left right k :
  window A l left right k -> rearranged left right l l1 ->
  window A l1 left right k.
Proof.
  intros [Hp Hl Hr Ho Hb Ha Hk Hlo Hhi] (Hn & Hp1 & Hout & Hin).
  assert (Hval : forall j, left <= j < zlen l ->
            exists j', left <= j' < zlen l /\ zget l1 j = zget l j').
  { intros j Hj. destruct (decide (j <= right)) as [Hjr|Hjr].
    - destruct (Hin j) as (j' & Hj' & ->); [lia|]. exists j'. split; [lia|done].
    - exists j. split; [done|]. apply Hout; lia. }
  assert (Hval' : forall i, 0 <= i <= right ->
            exists i', 0 <= i' <= right /\ zget l1 i = zget l i').
  { intros i Hi. destruct (decide (left <= i)) as [Hil|Hil].
    - destruct (Hin i) as (i' & Hi' & ->); [lia|]. exists i'. split; [lia|done].
    - exists i. split; [done|]. apply Hout; lia. }
  split; rewrite ?Hn; try done.
  - by rewrite Hp1.
  - intros i j Hi Hj. rewrite (Hout i) by lia.
    destruct (Hval j Hj) as (j' & Hj' & ->). by apply Hb.
  - intros i j Hi Hj. rewrite (Hout j) by lia.
    destruct (Hval' i Hi) as (i' & Hi' & ->). by apply Ha.
Qed.

Lemma window_hit A l left right k pv p :
  window A l left right k -> partitioned left right pv p l ->
  zget (sorted A) p = zget l p.
Proof.
  intros [Hp Hl Hr Ho Hb Ha Hk Hlo Hhi] (Hpr & Hpv & Hlt & Hge).
  apply rank_of_position; [done|lia| |].
  - intros i Hi. destruct (decide (left <= i)).
    + specialize (Hlt i). lia.
    + apply Hb; lia.
  - intros i Hi. destruct (decide (i <= right)).
    + specialize (Hge i). lia.
    + apply Ha; lia.
Qed.

Lemma window_go_left A l left right k pv p :
  window A l left right k -> partitioned left right pv p l ->
  k < p -> window A l left (p - 1) k.
Proof.
  intros [Hp Hl Hr Ho Hb Ha Hk Hlo Hhi] (Hpr & Hpv & Hlt & Hge) Hkp.
  split; try done; try lia.
  intros i j Hi Hj.
  destruct (decide (j <= right)) as [Hjr|Hjr].
  - assert (pv <= zget l j).
    { destruct (decide (j = p)) as [->|]; [lia|]. apply Hge; lia. }
    destruct (decide (left <= i)).
    + specialize (Hlt i). lia.
    + rewrite <- Hpv in *. transitivity (zget l p); [apply Hb; lia|lia].
  - apply Ha; lia.
Qed.

Lemma window_go_right A l left right k pv p :
  window A l left right k -> partitioned left right pv p l ->
  p < k -> window A l (p + 1) right k.
Proof.
  intros [Hp Hl Hr Ho Hb Ha Hk Hlo Hhi] (Hpr & Hpv & Hlt & Hge) Hkp.
  split; try done; try lia.
  intros i j Hi Hj.
  destruct (decide (left <= i)) as [Hil|Hil].
  - assert (zget l i <= pv).
    { destruct (decide (i = p)) as [->|]; [lia|]. specialize (Hlt i). lia. }
    destruct (decide (j <= right)).
    + specialize (Hge j). lia.
    + rewrite <- Hpv in *. transitivity (zget l p); [lia|apply Ha; lia].
  - apply Hb; lia.
Qed.

Lemma window_single A l left k :
  window A l left left k ->
  zget l left = zget (sorted A) (target (zlen A) k).
Proof.
  intros [Hp Hl Hr Ho Hb Ha Hk Hlo Hhi].
  rewrite <- (perm_zlen _ _ Hp).
  assert (target (zlen l) k = left) as -> by (unfold target; lia).
  symmetry. apply rank_of_position; [done|lia| |].
  - intros i Hi. apply Hb; lia.
  - intros i Hi. apply Ha; lia.
Qed.

(** ** The randomized selector *)

Lemma triple_randint a l lo hi :
  triple a l (randint lo hi)
    (fun r l' => l' = l /\
       match r with
       | Val v => lo <= v <= hi
       | Exc ValueError => hi < lo
       | Exc _ => False
       end).
Proof.
  intros st Hst. unfold randint.
  destruct (Z.ltb_spec hi lo) as [Hlt|Hle].
  - exists (Exc ValueError), l, st. auto using frame_refl.
  - eexists (Val _), l, _. split; [done|]. split; [done|].
    split; [by split|]. split; [done|].
    pose proof (Z.mod_pos_bound (rng st (drawn st)) (hi - lo + 1)). lia.
Qed.

Lemma selected_weaken A bound bound' d k r l' :
  selected A bound d k r l' -> Z.of_nat (S d) <= bound' \/ bound + 1 <= bound' ->
  selected A bound' (S d) k r l'.
Proof.
  intros [Hp Hr] Hb. split; [done|].
  destruct r as [v|[]]; try done. lia.
Qed.

Lemma quickselect_spec d a A l left right k :
  window A l left right k ->
  triple a l (quickselect d a left right k)
    (selected A (right - left + 1) d k).
Proof.
  revert l left right. induction d as [|d IH]; intros l left right Hw; simpl.
  { apply triple_raise. split; [apply Hw|]. destruct Hw. lia. }
  destruct (Z.eqb_spec left right) as [<-|Hne].
  { eapply triple_conseq; [apply triple_getitem; destruct Hw; lia|].
    intros [v|e] l'; simpl; [|done]. intros [-> ->].
    split; [apply Hw|]. split; [|by apply window_single].
    rewrite <- (perm_zlen _ _ (win_perm _ _ _ _ _ Hw)). destruct Hw. lia. }
  eapply triple_bind; [apply triple_randint| |].
  2:{ intros e l' [-> He]. split; [apply Hw|].
      destruct e; try done. destruct Hw.
      rewrite <- (perm_zlen _ _ win_perm0). lia. }
  intros p0 ? [-> Hp0].
  step partition_spec; [destruct Hw; lia..|].
  intros p l1 [Hr1 Hpart].
  pose proof (window_rearranged _ _ _ _ _ _ Hw Hr1) as Hw1.
  destruct (Z.eqb_spec k p) as [->|Hkp].
  { eapply triple_conseq;
      [apply triple_getitem; destruct Hw1, Hpart; lia|].
    intros [v|e] l'; simpl; [|done]. intros [-> ->].
    split; [apply Hw1|].
    assert (0 <= p < zlen A).
    { rewrite <- (perm_zlen _ _ (win_perm _ _ _ _ _ Hw1)).
      destruct Hw1, Hpart. lia. }
    split; [lia|]. rewrite target_valid by done.
    symmetry. by eapply window_hit. }
  destruct (Z.ltb_spec k p) as [Hlt|Hge].
  - eapply triple_conseq;
      [apply IH; by eapply window_go_left|].
    intros r l' Hsel. eapply selected_weaken; [done|].
    destruct Hpart. lia.
  - eapply triple_conseq;
      [apply IH; eapply window_go_right; [done..|lia]|].
    intros r l' Hsel. eapply selected_weaken; [done|].
    destruct Hpart. lia.
Qed.

(** A top-level call works on a fresh object, the first free location. *)
Lemma randomized_select_spec d arr k A st :
  heap st !! arr = Some A ->
  exists r W st',
    randomized_select d arr k st = (r, st') /\
    preserved st st' /\
    heap st' !! length (heap st) = Some W /\
    selected A (zlen A) d k r W.
Proof.
  intros Harr.
  set (c := length (heap st)).
  set (st1 := mkState (heap st ++ [A]) (rng st) (drawn st)).
  assert (Hc : heap st1 !! c = Some A) by apply list_lookup_middle, eq_refl.
  destruct (quickselect_spec d c A A 0 (zlen A - 1) k (window_initial A k)
              st1 Hc) as (r & W & st' & Hrun & HW & [Hlen Hfr] & Hsel).
  exists r, W, st'. split_and!.
  - unfold randomized_select, bind, list_copy, alloc, len.
    rewrite (deref_holds _ _ _ Harr). fold c st1.
    rewrite (deref_holds _ _ _ Hc). exact Hrun.
  - split.
    + simpl in Hlen. rewrite length_app in Hlen. simpl in Hlen. lia.
    + intros b Hb. rewrite Hfr.
      * simpl. by apply lookup_app_l.
      * unfold c. lia.
      * simpl. rewrite length_app. lia.
  - done.
  - by replace (zlen A - 1 - 0 + 1) with (zlen A) in Hsel by lia.
Qed.

(** The nested call of [select]: a new list of values is built and handed
    to the randomized selector; the working list is not involved. *)
Lemma triple_select_values a l d (vals : list Z) k :
  triple a l (let* mv := alloc vals in randomized_select d mv k)
    (fun r l' => l' = l /\ exists W, selected vals (zlen vals) d k r W).
Proof.
  intros st Hst.
  set (st1 := mkState (heap st ++ [vals]) (rng st) (drawn st)).
  assert (Hmv : heap st1 !! length (heap st) = Some vals)
    by apply list_lookup_middle, eq_refl.
  destruct (randomized_select_spec d _ k vals st1 Hmv)
    as (r & W & st' & Hrun & [Hlen Hpres] & _ & Hsel).
  pose proof (lookup_lt_Some _ _ _ Hst) as Ha.
  assert (Hlen1 : length (heap st1) = S (length (heap st))).
  { simpl. rewrite length_app. simpl. lia. }
  exists r, l, st'. split; [|split; [|split]].
  - unfold bind, alloc. fold st1. exact Hrun.
  - rewrite Hpres by lia. simpl. by rewrite lookup_app_l.
  - split; [lia|].
    intros b _ Hb. rewrite Hpres by lia. simpl. by rewrite lookup_app_l.
  - split; [done|by exists W].
Qed.

(** ** List facts for the group-median finder *)

Lemma zget_ext (l1 l2 : list Z) :
  zlen l1 = zlen l2 ->
  (forall i, 0 <= i < zlen l1 -> zget l1 i = zget l2 i) -> l1 = l2.
Proof.
  intros Hn Hi. apply list_eq_same_length with (length l1);
    [unfold zlen in Hn; lia|done|].
  intros i x y Hlt Hx Hy.
  specialize (Hi (Z.of_nat i)). unfold zget in Hi. rewrite Nat2Z.id in Hi.
  rewrite (list_lookup_total_correct _ _ _ Hx) in Hi.
  rewrite (list_lookup_total_correct _ _ _ Hy) in Hi.
  apply Hi. unfold zlen. lia.
Qed.

Lemma zget_app_l (l1 l2 : list Z) i :
  0 <= i < zlen l1 -> zget (l1 ++ l2) i = zget l1 i.
Proof.
  unfold zget, zlen. intros Hi. by rewrite lookup_total_app_l by lia.
Qed.

Lemma zget_app_r (l1 l2 : list Z) i :
  zlen l1 <= i -> zget (l1 ++ l2) i = zget l2 (i - zlen l1).
Proof.
  unfold zget, zlen. intros Hi. rewrite lookup_total_app_r by lia.
  f_equal. lia.
Qed.

Lemma zget_take (l : list Z) n i :
  0 <= i < n -> zget (take (Z.to_nat n) l) i = zget l i.
Proof.
  unfold zget. intros Hi. apply lookup_total_take_lt. lia.
Qed.

Lemma zget_drop (l : list Z) n i :
  0 <= n -> 0 <= i -> zget (drop (Z.to_nat n) l) i = zget l (n + i).
Proof.
  unfold zget. intros Hn Hi. rewrite lookup_total_drop. f_equal. lia.
Qed.

Lemma zlen_app (l1 l2 : list Z) : zlen (l1 ++ l2) = zlen l1 + zlen l2.
Proof. unfold zlen. rewrite length_app. lia. Qed.

Lemma zlen_take (l : list Z) n :
  0 <= n <= zlen l -> zlen (take (Z.to_nat n) l) = n.
Proof. unfold zlen. rewrite length_take. lia. Qed.

Lemma zlen_drop (l : list Z) n :
  0 <= n <= zlen l -> zlen (drop (Z.to_nat n) l) = zlen l - n.
Proof. unfold zlen. rewrite length_drop. lia. Qed.

Lemma slice_in_range (l : list Z) lo hi :
  0 <= lo -> lo <= hi -> hi <= zlen l ->
  slice l lo hi = take (Z.to_nat (hi - lo)) (drop (Z.to_nat lo) l).
Proof.
  intros Hlo Hle Hhi. unfold slice, clamp. fold (zlen l).
  destruct (Z.ltb_spec lo 0), (Z.ltb_spec hi 0); try lia.
  by rewrite !Z.min_l by lia.
Qed.

(** ** The group-median finder *)

Section SortRange.
Variables (l : list Z) (left right : Z).
Hypothesis Hleft : 0 <= left.
Hypothesis Horder : left <= right.
Hypothesis Hright : right < zlen l.

Lemma zlen_slice : zlen (slice l left (right + 1)) = right - left + 1.
Proof.
  rewrite slice_in_range by lia.
  rewrite zlen_take; [lia|]. rewrite zlen_drop; lia.
Qed.

Lemma zget_slice i :
  0 <= i <= right - left ->
  zget (slice l left (right + 1)) i = zget l (left + i).
Proof.
  intros Hi. rewrite slice_in_range by lia.
  rewrite zget_take by lia. by rewrite zget_drop by lia.
Qed.

Lemma zlen_sort_range : zlen (sort_range l left right) = zlen l.
Proof.
  unfold sort_range.
  rewrite !zlen_app, zlen_sorted, zlen_slice, zlen_take, zlen_drop; lia.
Qed.

Lemma zget_sort_range i :
  0 <= i < zlen l ->
  zget (sort_range l left right) i =
    if decide (left <= i <= right)
    then zget (sorted (slice l left (right + 1))) (i - left)
    else zget l i.
Proof.
  intros Hi. unfold sort_range.
  pose proof zlen_slice as Hs.
  assert (Ht : zlen (take (Z.to_nat left) l) = left)
    by (apply zlen_take; lia).
  destruct (decide (i < left)) as [Hlt|Hge].
  - rewrite zget_app_l by lia. rewrite zget_take by lia.
    by rewrite decide_False by lia.
  - rewrite zget_app_r by lia. rewrite Ht.
    destruct (decide (i <= right)) as [Hle|Hgt].
    + rewrite zget_app_l by (rewrite zlen_sorted; lia).
      by rewrite decide_True by lia.
    + rewrite zget_app_r by (rewrite zlen_sorted; lia).
      rewrite zlen_sorted, Hs, zget_drop by lia.
      rewrite decide_False by lia. f_equal. lia.
Qed.

Lemma sort_range_perm : sort_range l left right ≡ₚ l.
Proof.
  unfold sort_range. rewrite sorted_perm, slice_in_range by lia.
  rewrite <- (take_drop (Z.to_nat left) l) at 4.
  f_equiv.
  rewrite <- (take_drop (Z.to_nat (right + 1 - left))
                (drop (Z.to_nat left) l)) at 2.
  rewrite drop_drop.
  by replace (Z.to_nat left + Z.to_nat (right + 1 - left))%nat
    with (Z.to_nat (right + 1)) by lia.
Qed.

Lemma sort_range_rearranged : rearranged left right l (sort_range l left right).
Proof.
  split_and!.
  - apply zlen_sort_range.
  - apply sort_range_perm.
  - intros i Hi Hout.
    destruct (decide (i < zlen l)) as [Hlt|Hge].
    + rewrite zget_sort_range by lia. by rewrite decide_False by lia.
    + pose proof zlen_sort_range as Hn. unfold zget, zlen in *.
      rewrite !list_lookup_total_alt, !lookup_ge_None_2; (done || lia).
  - intros j Hj. rewrite zget_sort_range by lia.
    rewrite decide_True by lia.
    assert (Hin : zget (sorted (slice l left (right + 1))) (j - left)
                  ∈ slice l left (right + 1)).
    { apply sorted_elem, zget_elem.
      rewrite zlen_sorted, zlen_slice. lia. }
    apply elem_zget in Hin as (i & Hi & Heq).
    rewrite zlen_slice in Hi. rewrite zget_slice in Heq by lia.
    exists (left + i). split; [lia|done].
Qed.
End SortRange.

Lemma find_median_spec a l left right :
  0 <= left -> left <= right -> right < zlen l ->
  triple a l (find_median a left right)
    (returns (fun m l' =>
       m = left + (right - left) / 2 /\ l' = sort_range l left right)).
Proof.
  intros Hleft Horder Hright. unfold find_median.
  step triple_getslice. intros ? ? [-> ->].
  set (seg := sorted (slice l left (right + 1))).
  assert (Hseg : zlen seg = right - left + 1)
    by (unfold seg; rewrite zlen_sorted; by apply zlen_slice).
  eapply triple_bind_ret.
  { apply (triple_for a (range left (right + 1)) _
      (fun n (_ : unit) l2 =>
         zlen l2 = zlen l /\
         forall i, 0 <= i < zlen l ->
           zget l2 i =
             if decide (left <= i < left + Z.of_nat n)
             then zget seg (i - left) else zget l i)).
    - split; [done|]. intros i Hi. by rewrite decide_False by lia.
    - intros n x [] l2 Hx [Hn2 Hpt].
      apply lookup_seqZ in Hx as [-> Hn].
      step triple_item; [lia|]. intros y ? [-> ->].
      eapply triple_conseq; [apply triple_setitem; lia|].
      intros [[]|e] l3; simpl; [|done]. intros ->.
      split; [by rewrite zlen_zset|].
      intros i Hi.
      destruct (decide (i = left + Z.of_nat n)) as [->|Hne].
      + rewrite zget_zset_eq by lia. rewrite decide_True by lia. done.
      + rewrite zget_zset_ne by lia. rewrite Hpt by done.
        repeat case_decide; (done || lia). }
  intros [] l2 [Hn2 Hpt]. apply triple_ret. simpl. split; [done|].
  apply zget_ext.
  - by rewrite zlen_sort_range.
  - intros i Hi. rewrite Hn2 in Hi.
    rewrite Hpt, zget_sort_range by done.
    unfold range. rewrite length_seqZ.
    repeat case_decide; (done || lia).
Qed.

(** ** Choosing the pivot of the deterministic selector *)

Lemma lookup_range_step a b n x :
  range_step a b 5 !! n = Some x ->
  x = a + 5 * Z.of_nat n /\ Z.of_nat n < (b - a + 4) / 5.
Proof.
  unfold range_step. rewrite list_lookup_fmap.
  destruct (seqZ 0 _ !! n) as [j|] eqn:Hj; simpl; [|done].
  intros [= <-]. apply lookup_seqZ in Hj as [-> Hn].
  replace (b - a + 5 - 1) with (b - a + 4) in Hn by lia.
  split; [f_equal; lia|done].
Qed.

Lemma group_medians_spec a l left right :
  0 <= left -> left <= right + 1 -> right < zlen l ->
  triple a l (group_medians a left right)
    (returns (fun medians l' =>
       rearranged left right l l' /\
       zlen medians = (right - left + 5) / 5 /\
       Forall (fun m => left <= m <= right) medians)).
Proof.
  intros Hleft Horder Hright. unfold group_medians.
  eapply triple_conseq.
  { apply (triple_for a (range_step left (right + 1) 5) _
      (fun n medians l2 =>
         rearranged left right l l2 /\
         length medians = n /\
         Forall (fun m => left <= m <= right) medians)).
    - split_and!; [apply rearranged_refl|done|constructor].
    - intros n x medians l2 Hx (Hr2 & Hlen & Hall).
      apply lookup_range_step in Hx as [-> Hn].
      set (i := left + 5 * Z.of_nat n).
      assert (Hi : left <= i <= right)
        by (unfold i; Z.div_mod_to_equations; lia).
      assert (Hn2 : zlen l2 = zlen l) by apply Hr2.
      step find_median_spec; [lia..|]. intros m l3 [-> ->].
      apply triple_ret. simpl. split_and!.
      + eapply rearranged_trans; [done|].
        eapply rearranged_mono; [| |apply sort_range_rearranged]; lia.
      + rewrite length_app. simpl. lia.
      + apply Forall_app. split; [done|]. constructor; [|constructor].
        Z.div_mod_to_equations. lia. }
  intros [medians|e] l'; simpl; [|done].
  intros (Hr & Hlen & Hall). split_and!; [done| |done].
  unfold zlen. rewrite Hlen. unfold range_step.
  rewrite length_fmap, length_seqZ.
  replace (right + 1 - left + 5 - 1) with (right - left + 5) by lia.
  Z.div_mod_to_equations. lia.
Qed.

Lemma values_at_spec a l (idxs : list Z) :
  Forall (fun m => 0 <= m < zlen l) idxs ->
  triple a l (values_at a idxs)
    (returns (fun vs l' => vs = zget l <$> idxs /\ l' = l)).
Proof.
  induction 1 as [|m idxs Hm Hall IH]; simpl.
  - by apply triple_ret.
  - step triple_getitem; [done|]. intros x ? [-> ->].
    step IH. intros xs ? [-> ->]. by apply triple_ret.
Qed.

Lemma first_equal_spec a l v (n : nat) lo dflt :
  0 <= lo -> lo + Z.of_nat n <= zlen l ->
  (exists j, lo <= j < lo + Z.of_nat n /\ zget l j = v) ->
  triple a l (first_equal a v (seqZ lo (Z.of_nat n)) dflt)
    (returns (fun p l' =>
       l' = l /\ first_position l lo (lo + Z.of_nat n - 1) v p)).
Proof.
  revert lo. induction n as [|n IH]; intros lo Hlo Hhi (j & Hj & Hv).
  { lia. }
  rewrite seqZ_cons by lia. simpl first_equal.
  step triple_getitem; [lia|]. intros x ? [-> ->].
  destruct (Z.eqb_spec (zget l lo) v) as [Heq|Hne].
  - apply triple_ret. simpl. split; [done|].
    split_and!; [lia..|done|intros; lia].
  - replace (Z.pred (Z.of_nat (S n))) with (Z.of_nat n) by lia.
    eapply triple_conseq.
    { apply (IH (Z.succ lo)); [lia..|].
      exists j. split; [|done].
      destruct (decide (j = lo)) as [->|]; [done|lia]. }
    intros [p|e] l'; simpl; [|done].
    intros (-> & Hp & Hvp & Hfirst). split; [done|].
    split_and!; [lia..|done|].
    intros i Hi. destruct (decide (i = lo)) as [->|]; [done|].
    apply Hfirst. lia.
Qed.

Lemma median_of_medians_spec a l d left right (M : list Z) :
  0 <= left -> right < zlen l ->
  Forall (fun m => left <= m <= right) M ->
  triple a l (median_of_medians d a left right M)
    (fun r l' => l' = l /\
       match r with
       | Val p => left <= p <= right /\ pivot_choice l left right M p
       | Exc RecursionError => Z.of_nat d <= zlen M
       | Exc ValueError => M = []
       | Exc _ => False
       end).
Proof.
  intros Hleft Hright Hall. unfold median_of_medians. fold (zlen M).
  destruct (Z.eqb_spec (zlen M) 1) as [H1|Hne].
  { eapply triple_conseq; [apply (triple_item a l M 0); lia|].
    intros [p|e] l'; simpl; [|done]. intros [-> ->]. split; [done|].
    split; [|by left].
    assert (Hin : zget M 0 ∈ M) by (apply zget_elem; lia).
    by apply (proj1 (Forall_forall _ _) Hall) in Hin. }
  step values_at_spec.
  { eapply Forall_impl; [exact Hall|]. simpl. intros; lia. }
  intros vals ? [-> ->].
  set (vals := zget l <$> M).
  assert (Hlen : zlen vals = zlen M)
    by (unfold vals, zlen; by rewrite length_fmap).
  apply triple_assoc.
  eapply triple_bind;
    [apply (triple_select_values a l d vals (zlen M / 2))| |].
  2:{ intros e l' [-> [W [_ He]]]. split; [done|].
      destruct e; try done.
      - destruct M as [|m M']; [done|]. exfalso. apply He.
        rewrite Hlen. unfold zlen in *. simpl length in *.
        Z.div_mod_to_equations. lia.
      - by rewrite <- Hlen. }
  intros v ? [-> [W [_ [Hpos ->]]]].
  rewrite Hlen in *.
  assert (Hg : 1 < zlen M) by lia.
  rewrite target_valid by (Z.div_mod_to_equations; lia).
  set (v := zget (sorted vals) (zlen M / 2)).
  assert (Hv : exists j, left <= j < left + Z.of_nat (Z.to_nat (right + 1 - left))
                         /\ zget l j = v).
  { assert (Hin : v ∈ vals).
    { apply sorted_elem, zget_elem. rewrite zlen_sorted, Hlen.
      Z.div_mod_to_equations. lia. }
    apply list_elem_of_fmap in Hin as (m & Hm & Hin).
    apply (proj1 (Forall_forall _ _) Hall) in Hin.
    exists m. split; [lia|done]. }
  assert (Hne' : left <= right).
  { destruct Hv as (j & Hj & _). lia. }
  unfold range.
  rewrite <- (Z2Nat.id (right + 1 - left)) by lia.
  eapply triple_conseq; [apply first_equal_spec; [lia|lia|exact Hv]|].
  intros [p|e] l'; simpl; [|done]. intros [-> Hfirst].
  split; [done|].
  replace (left + Z.of_nat (Z.to_nat (right + 1 - left)) - 1) with right
    in Hfirst by lia.
  split; [apply Hfirst|]. right. by split.
Qed.

(** ** The deterministic selector *)

Lemma select_spec d a A l left right k :
  window A l left right k ->
  triple a l (select d a left right k)
    (selected A (right - left + 2) d k).
Proof.
  revert l left right. induction d as [|d IH]; intros l left right Hw; simpl.
  { apply triple_raise. split; [apply Hw|]. destruct Hw. lia. }
  destruct (Z.eqb_spec left right) as [<-|Hne].
  { eapply triple_conseq; [apply triple_getitem; destruct Hw; lia|].
    intros [v|e] l'; simpl; [|done]. intros [-> ->].
    split; [apply Hw|]. split; [|by apply window_single].
    rewrite <- (perm_zlen _ _ (win_perm _ _ _ _ _ Hw)). destruct Hw. lia. }
  step group_medians_spec; [destruct Hw; lia..|].
  intros M l1 (Hr1 & HlenM & Hall).
  pose proof (window_rearranged _ _ _ _ _ _ Hw Hr1) as Hw1.
  eapply triple_bind;
    [apply median_of_medians_spec; [destruct Hw1; lia..|exact Hall]| |].
  2:{ intros e l' [-> He]. split; [apply Hw1|].
      destruct e; try done.
      - subst M. change (zlen []) with 0 in HlenM. destruct Hw1.
        rewrite <- (perm_zlen _ _ win_perm0).
        Z.div_mod_to_equations. lia.
      - destruct Hw1. Z.div_mod_to_equations. lia. }
  intros mom ? [-> [Hmom _]].
  rewrite partition_mom_eq.
  step partition_spec; [destruct Hw1; lia..|].
  intros p l2 [Hr2 Hpart].
  pose proof (window_rearranged _ _ _ _ _ _ Hw1 Hr2) as Hw2.
  destruct (Z.eqb_spec k p) as [->|Hkp].
  { eapply triple_conseq;
      [apply triple_getitem; destruct Hw2, Hpart; lia|].
    intros [v|e] l'; simpl; [|done]. intros [-> ->].
    split; [apply Hw2|].
    assert (0 <= p < zlen A).
    { rewrite <- (perm_zlen _ _ (win_perm _ _ _ _ _ Hw2)).
      destruct Hw2, Hpart. lia. }
    split; [lia|]. rewrite target_valid by done.
    symmetry. by eapply window_hit. }
  destruct (Z.ltb_spec k p) as [Hlt|Hge].
  - eapply triple_conseq;
      [apply IH; by eapply window_go_left|].
    intros r l' Hsel. eapply selected_weaken; [done|].
    destruct Hpart. lia.
  - eapply triple_conseq;
      [apply IH; eapply window_go_right; [done..|lia]|].
    intros r l' Hsel. eapply selected_weaken; [done|].
    destruct Hpart. lia.
Qed.

Lemma deterministic_select_spec d arr k A st :
  heap st !! arr = Some A ->
  exists r W st',
    deterministic_select d arr k st = (r, st') /\
    preserved st st' /\
    heap st' !! length (heap st) = Some W /\
    selected A (zlen A + 1) d k r W.
Proof.
  intros Harr.
  set (c := length (heap st)).
  set (st1 := mkState (heap st ++ [A]) (rng st) (drawn st)).
  assert (Hc : heap st1 !! c = Some A) by apply list_lookup_middle, eq_refl.
  destruct (select_spec d c A A 0 (zlen A - 1) k (window_initial A k)
              st1 Hc) as (r & W & st' & Hrun & HW & [Hlen Hfr] & Hsel).
  exists r, W, st'. split_and!.
  - unfold deterministic_select, bind, list_copy, alloc, len.
    rewrite (deref_holds _ _ _ Harr). fold c st1.
    rewrite (deref_holds _ _ _ Hc). exact Hrun.
  - split.
    + simpl in Hlen. rewrite length_app in Hlen. simpl in Hlen. lia.
    + intros b Hb. rewrite Hfr.
      * simpl. by apply lookup_app_l.
      * unfold c. lia.
      * simpl. rewrite length_app. lia.
  - done.
  - by replace (zlen A - 1 - 0 + 2) with (zlen A + 1) in Hsel by lia.
Qed.

(** ** Outcomes of the two selectors *)

Lemma length_zlen (A : list Z) : zlen A = Z.of_nat (length A).
Proof. done. Qed.

(** With enough recursion depth a call ends in one of two ways only. *)
Lemma randomized_select_outcome depth arr k A st :
  heap st !! arr = Some A -> (length A < depth)%nat ->
  let r := fst (randomized_select depth arr k st) in
  (r = Exc ValueError /\ ~ 0 <= k < zlen A) \/
  (0 < zlen A /\ r = Val (zget (sorted A) (target (zlen A) k))).
Proof.
  intros Harr Hdepth.
  destruct (randomized_select_spec depth arr k A st Harr)
    as (r & W & st' & -> & _ & _ & _ & Hr). simpl.
  destruct r as [v|[]]; try done.
  - right. destruct Hr as [? ->]. done.
  - by left.
  - rewrite length_zlen in Hr. lia.
Qed.

Lemma deterministic_select_outcome depth arr k A st :
  heap st !! arr = Some A -> (length A + 1 < depth)%nat ->
  let r := fst (deterministic_select depth arr k st) in
  (r = Exc ValueError /\ ~ 0 <= k < zlen A) \/
  (0 < zlen A /\ r = Val (zget (sorted A) (target (zlen A) k))).
Proof.
  intros Harr Hdepth.
  destruct (deterministic_select_spec depth arr k A st Harr)
    as (r & W & st' & -> & _ & _ & _ & Hr). simpl.
  destruct r as [v|[]]; try done.
  - right. destruct Hr as [? ->]. done.
  - by left.
  - rewrite length_zlen in Hr. lia.
Qed.

Lemma randomized_select_valid depth arr k A st :
  heap st !! arr = Some A -> 0 <= k < zlen A -> (length A < depth)%nat ->
  fst (randomized_select depth arr k st) = Val (zget (sorted A) k).
Proof.
  intros Harr Hk Hdepth.
  destruct (randomized_select_outcome depth arr k A st Harr Hdepth)
    as [[_ Hbad]|[_ ->]]; [done|].
  by rewrite target_valid.
Qed.

Lemma deterministic_select_valid depth arr k A st :
  heap st !! arr = Some A -> 0 <= k < zlen A -> (length A + 1 < depth)%nat ->
  fst (deterministic_select depth arr k st) = Val (zget (sorted A) k).
Proof.
  intros Harr Hk Hdepth.
  destruct (deterministic_select_outcome depth arr k A st Harr Hdepth)
    as [[_ Hbad]|[_ ->]]; [done|].
  by rewrite target_valid.
Qed.

Lemma sorted_replicate n v : sorted (replicate n v) = replicate n v.
Proof.
  apply sorted_of_Sorted. induction n as [|n IH]; simpl; [constructor|].
  constructor; [done|]. destruct n; simpl; constructor. lia.
Qed.

Lemma getitem_run a l i st :
  heap st !! a = Some l -> 0 <= i < zlen l ->
  getitem a i st = (Val (zget l i), st).
Proof.
  intros Hst Hi. unfold getitem.
  by rewrite (deref_holds _ _ _ Hst), item_run.
Qed.

Lemma values_at_run a l (idxs : list Z) st :
  heap st !! a = Some l -> Forall (fun m => 0 <= m < zlen l) idxs ->
  values_at a idxs st = (Val (zget l <$> idxs), st).
Proof.
  intros Hst. induction 1 as [|m idxs Hm Hall IH]; simpl; [done|].
  unfold bind. by rewrite (getitem_run _ _ _ _ Hst Hm), IH.
Qed.

(** * The claims *)

(** ** C1 *)

(** C1. For a non-empty sequence [A] at [arr] and a valid rank [k], both
    selectors return the element at position [k] of the ascending sort of
    [A], whatever the random tape, provided the recursion limit exceeds the
    length of [A] by two.  In particular an input whose elements all equal
    [v] yields [v]. *)
Theorem C1_select_is_sorted_rank (A : list Z) (k : Z) (depth : nat)
    (arr : loc) (st : state) :
  heap st !! arr = Some A ->
  0 <= k < zlen A ->
  (length A + 2 <= depth)%nat ->
  fst (randomized_select depth arr k st) = Val (zget (sorted A) k) /\
  fst (deterministic_select depth arr k st) = Val (zget (sorted A) k) /\
  (forall v, A = replicate (length A) v -> zget (sorted A) k = v).
Proof.
  intros Harr Hk Hdepth. split; [|split].
  - apply randomized_select_valid; (done || lia).
  - apply deterministic_select_valid; (done || lia).
  - intros v HA. rewrite HA, sorted_replicate.
    unfold zget. apply lookup_total_replicate_2.
    rewrite length_zlen in Hk. lia.
Qed.

Lemma C1_select_is_sorted_rank_witness :
  heap (initial [5; 3; 8; 1; 9; 2] (fun _ => 0)) !! 0%nat
    = Some [5; 3; 8; 1; 9; 2] /\
  0 <= 2 < zlen [5; 3; 8; 1; 9; 2] /\
  (length [5; 3; 8; 1; 9; 2] + 2 <= 8)%nat /\
  fst (randomized_select 8 0%nat 2
         (initial [5; 3; 8; 1; 9; 2] (fun _ => 0))) = Val 3 /\
  fst (deterministic_select 8 0%nat 2
         (initial [5; 3; 8; 1; 9; 2] (fun _ => 0))) = Val 3.
Proof.
  assert (H1 : heap (initial [5; 3; 8; 1; 9; 2] (fun _ => 0)) !! 0%nat
               = Some [5; 3; 8; 1; 9; 2]) by reflexivity.
  assert (H2 : 0 <= 2 < zlen [5; 3; 8; 1; 9; 2]) by (unfold zlen; simpl; lia).
  assert (H3 : (length [5; 3; 8; 1; 9; 2] + 2 <= 8)%nat) by (simpl; lia).
  destruct (C1_select_is_sorted_rank _ 2 8%nat 0%nat _ H1 H2 H3)
    as (Hr & Hd & _).
  repeat split; try assumption; try apply H2.
Defined.

(** ** C2 *)

(** C2, as stated, fails: with [k = length(A)] on [A = [1, 2]] both selectors
    return 2 instead of failing with RankOutOfRange. *)
Lemma C2_rank_error_counterexample :
  zlen [1; 2] <= 2 /\
  fst (randomized_select 10 0%nat 2 (initial [1; 2] (fun _ => 0))) = Val 2 /\
  fst (deterministic_select 10 0%nat 2 (initial [1; 2] (fun _ => 0))) = Val 2.
Proof. split; [unfold zlen; simpl; lia|]. split; reflexivity. Qed.

(** C2, amended. Neither selector checks the rank.  For a rank outside
    [0 .. length(A) - 1] a call either raises the [ValueError] of
    [random.randint] on an empty range, or returns an element of [A]: the
    smallest one when [k < 0], the largest one when [k >= length(A)].  On
    an empty [A] only the [ValueError] is possible. *)
Theorem C2_invalid_rank_unchecked (A : list Z) (k : Z) (depth : nat)
    (arr : loc) (st : state) :
  heap st !! arr = Some A ->
  k < 0 \/ zlen A <= k ->
  (length A + 2 <= depth)%nat ->
  let edge := zget (sorted A) (target (zlen A) k) in
  (fst (randomized_select depth arr k st) = Exc ValueError \/
   (A <> [] /\ fst (randomized_select depth arr k st) = Val edge)) /\
  (fst (deterministic_select depth arr k st) = Exc ValueError \/
   (A <> [] /\ fst (deterministic_select depth arr k st) = Val edge)).
Proof.
  intros Harr Hk Hdepth edge.
  assert (Hne : 0 < zlen A -> A <> []) by (by intros ? ->).
  split.
  - destruct (randomized_select_outcome depth arr k A st Harr)
      as [[-> _]|[Hpos ->]]; [lia|by left|right; auto].
  - destruct (deterministic_select_outcome depth arr k A st Harr)
      as [[-> _]|[Hpos ->]]; [lia|by left|right; auto].
Qed.

Lemma C2_invalid_rank_unchecked_witness :
  heap (initial [1; 2] (fun _ => 0)) !! 0%nat = Some [1; 2] /\
  (2 < 0 \/ zlen [1; 2] <= 2) /\
  (length [1; 2] + 2 <= 10)%nat /\
  (fst (randomized_select 10 0%nat 2 (initial [1; 2] (fun _ => 0)))
     = Exc ValueError \/
   ([1; 2] <> [] /\
    fst (randomized_select 10 0%nat 2 (initial [1; 2] (fun _ => 0)))
      = Val 2)) /\
  (fst (deterministic_select 10 0%nat 2 (initial [1; 2] (fun _ => 0)))
     = Exc ValueError \/
   ([1; 2] <> [] /\
    fst (deterministic_select 10 0%nat 2 (initial [1; 2] (fun _ => 0)))
      = Val 2)).
Proof.
  assert (H1 : heap (initial [1; 2] (fun _ => 0)) !! 0%nat = Some [1; 2])
    by reflexivity.
  assert (H2 : 2 < 0 \/ zlen [1; 2] <= 2)
    by (right; unfold zlen; simpl; lia).
  assert (H3 : (length [1; 2] + 2 <= 10)%nat) by (simpl; lia).
  split; [exact H1|]. split; [exact H2|]. split; [exact H3|].
  exact (C2_invalid_rank_unchecked [1; 2] 2 10%nat 0%nat _ H1 H2 H3).
Defined.

(** ** C3 *)

(** C3, as stated, fails: on the empty sequence neither selector reports an
    EmptyInput error.  Both end with the [ValueError] of
    [random.randint(0, -1)], and [deterministic_select] only gets there
    after it has created its working copy, the list of median values and
    the copy the nested randomized call works on. *)
Lemma C3_empty_input_counterexample :
  fst (randomized_select 10 0%nat 0 (initial [] (fun _ => 0)))
    = Exc ValueError /\
  fst (randomized_select 10 0%nat 0 (initial [] (fun _ => 0)))
    <> Exc EmptyInput /\
  fst (deterministic_select 10 0%nat 0 (initial [] (fun _ => 0)))
    = Exc ValueError /\
  fst (deterministic_select 10 0%nat 0 (initial [] (fun _ => 0)))
    <> Exc EmptyInput /\
  heap (snd (deterministic_select 10 0%nat 0 (initial [] (fun _ => 0))))
    = [[]; []; []; []].
Proof.
  split_and!; [reflexivity|discriminate|reflexivity|discriminate|reflexivity].
Qed.

(** C3, amended. For every integer [k], a call of either selector on an
    empty sequence fails with [ValueError]: the one [random.randint] raises
    for the empty range [(0, -1)] in the first [quickselect] call (for
    [deterministic_select], in the nested randomized call on the empty list
    of medians).  No emptiness check is made and no EmptyInput error
    exists. *)
Theorem C3_empty_input_value_error (k : Z) (depth : nat) (arr : loc)
    (st : state) :
  heap st !! arr = Some [] ->
  (2 <= depth)%nat ->
  fst (randomized_select depth arr k st) = Exc ValueError /\
  fst (deterministic_select depth arr k st) = Exc ValueError.
Proof.
  intros Harr Hdepth. split.
  - destruct (randomized_select_outcome depth arr k [] st Harr)
      as [[-> _]|[Hpos _]]; [simpl; lia|done|].
    change (zlen []) with 0 in Hpos. lia.
  - destruct (deterministic_select_outcome depth arr k [] st Harr)
      as [[-> _]|[Hpos _]]; [simpl; lia|done|].
    change (zlen []) with 0 in Hpos. lia.
Qed.

Lemma C3_empty_input_value_error_witness :
  heap (initial [] (fun _ => 0)) !! 0%nat = Some [] /\
  (2 <= 5)%nat /\
  fst (randomized_select 5 0%nat 7 (initial [] (fun _ => 0)))
    = Exc ValueError /\
  fst (deterministic_select 5 0%nat 7 (initial [] (fun _ => 0)))
    = Exc ValueError.
Proof.
  assert (H1 : heap (initial [] (fun _ => 0)) !! 0%nat = Some [])
    by reflexivity.
  assert (H2 : (2 <= 5)%nat) by lia.
  split; [exact H1|]. split; [exact H2|].
  exact (C3_empty_input_value_error 7 5%nat 0%nat _ H1 H2).
Defined.

(** ** C4 *)

Lemma partition_result a l left right pivot_idx st :
  heap st !! a = Some l ->
  0 <= left -> left <= pivot_idx <= right -> right < zlen l ->
  lomuto_result a l left right pivot_idx
    (partition a left right pivot_idx st).
Proof.
  intros Hst Hleft Hpiv Hright.
  destruct (partition_spec a l left right pivot_idx Hleft Hpiv Hright st Hst)
    as ([p|e] & l' & st' & Hrun & Hl' & _ & Hpost); [|done].
  destruct Hpost as (_ & Hp & Hpv & Hlt & Hge).
  exists p, l', st'. rewrite Hrun. split_and!; (done || lia).
Qed.

(** C4. For every range [left..right] of the working sequence and every
    pivot index in it, [partition] (and its twin [partition_mom]) returns
    [store_idx] such that every element of the range before [store_idx] is
    strictly less than the pivot value, every element of the range after it
    is greater than or equal to the pivot value, and [store_idx] holds the
    pivot value. *)
Theorem C4_partition_guarantee (a : loc) (l : list Z)
    (left right pivot_idx : Z) (st : state) :
  heap st !! a = Some l ->
  0 <= left -> left <= pivot_idx <= right -> right < zlen l ->
  lomuto_result a l left right pivot_idx
    (partition a left right pivot_idx st) /\
  lomuto_result a l left right pivot_idx
    (partition_mom a left right pivot_idx st).
Proof.
  intros Hst Hleft Hpiv Hright. split.
  - by apply partition_result.
  - rewrite partition_mom_eq. by apply partition_result.
Qed.

Lemma C4_partition_guarantee_witness :
  heap (initial [9; 1; 5; 3; 7] (fun _ => 0)) !! 0%nat
    = Some [9; 1; 5; 3; 7] /\
  0 <= 1 /\ 1 <= 2 <= 3 /\ 3 < zlen [9; 1; 5; 3; 7] /\
  lomuto_result 0%nat [9; 1; 5; 3; 7] 1 3 2
    (partition 0%nat 1 3 2 (initial [9; 1; 5; 3; 7] (fun _ => 0))) /\
  lomuto_result 0%nat [9; 1; 5; 3; 7] 1 3 2
    (partition_mom 0%nat 1 3 2 (initial [9; 1; 5; 3; 7] (fun _ => 0))).
Proof.
  assert (H1 : heap (initial [9; 1; 5; 3; 7] (fun _ => 0)) !! 0%nat
               = Some [9; 1; 5; 3; 7]) by reflexivity.
  assert (H2 : 0 <= 1) by lia.
  assert (H3 : 1 <= 2 <= 3) by lia.
  assert (H4 : 3 < zlen [9; 1; 5; 3; 7]) by (unfold zlen; simpl; lia).
  split; [exact H1|]. split; [exact H2|]. split; [exact H3|].
  split; [exact H4|].
  exact (C4_partition_guarantee 0%nat _ 1 3 2 _ H1 H2 H3 H4).
Defined.

(** ** C5 *)

(** C5. Whatever the rank, the recursion limit and the outcome (a value or
    an exception), after a call of either selector the caller's list still
    holds the same elements, and so does every other list that existed
    before the call: only lists created by the call are written. *)
Theorem C5_caller_list_unchanged (A : list Z) (k : Z) (depth : nat)
    (arr : loc) (st : state) :
  heap st !! arr = Some A ->
  (heap (snd (randomized_select depth arr k st)) !! arr = Some A /\
   preserved st (snd (randomized_select depth arr k st))) /\
  (heap (snd (deterministic_select depth arr k st)) !! arr = Some A /\
   preserved st (snd (deterministic_select depth arr k st))).
Proof.
  intros Harr. pose proof (lookup_lt_Some _ _ _ Harr) as Hlt. split.
  - destruct (randomized_select_spec depth arr k A st Harr)
      as (r & W & st' & -> & Hpres & _). simpl.
    split; [|done]. destruct Hpres as [_ Hpres]. by rewrite Hpres.
  - destruct (deterministic_select_spec depth arr k A st Harr)
      as (r & W & st' & -> & Hpres & _). simpl.
    split; [|done]. destruct Hpres as [_ Hpres]. by rewrite Hpres.
Qed.

Lemma C5_caller_list_unchanged_witness :
  heap (initial [5; 3; 8; 1; 9; 2] (fun _ => 0)) !! 0%nat
    = Some [5; 3; 8; 1; 9; 2] /\
  heap (snd (randomized_select 8 0%nat 2
               (initial [5; 3; 8; 1; 9; 2] (fun _ => 0)))) !! 0%nat
    = Some [5; 3; 8; 1; 9; 2] /\
  heap (snd (deterministic_select 8 0%nat (-1)
               (initial [5; 3; 8; 1; 9; 2] (fun _ => 0)))) !! 0%nat
    = Some [5; 3; 8; 1; 9; 2].
Proof.
  assert (H1 : heap (initial [5; 3; 8; 1; 9; 2] (fun _ => 0)) !! 0%nat
               = Some [5; 3; 8; 1; 9; 2]) by reflexivity.
  split; [exact H1|]. split.
  - exact (proj1 (proj1 (C5_caller_list_unchanged _ 2 8%nat 0%nat _ H1))).
  - exact (proj1 (proj2 (C5_caller_list_unchanged _ (-1) 8%nat 0%nat _ H1))).
Defined.

(** ** C6 *)

(** C6. In the deterministic selector, when the list [M] of group-median
    indices has more than one entry, the pivot value is what the randomized
    selector returns for rank [|M| / 2] on the list of the values at the
    indices of [M], which is the element of that rank in their ascending
    sort; the pivot index is then found by the scan of [left..right] and is
    the first index whose value equals the pivot value. *)
Theorem C6_pivot_from_medians (a : loc) (l : list Z) (depth : nat)
    (left right : Z) (M : list Z) (st : state) :
  heap st !! a = Some l ->
  0 <= left -> right < zlen l ->
  Forall (fun m => left <= m <= right) M ->
  1 < zlen M ->
  (length M < depth)%nat ->
  exists mom_value st1 mom_idx st',
    (let* median_values := alloc (zget l <$> M) in
     randomized_select depth median_values (zlen M / 2)) st
      = (Val mom_value, st1) /\
    mom_value = zget (sorted (zget l <$> M)) (zlen M / 2) /\
    median_of_medians depth a left right M st
      = first_equal a mom_value (range left (right + 1)) (-1) st1 /\
    first_equal a mom_value (range left (right + 1)) (-1) st1
      = (Val mom_idx, st') /\
    first_position l left right mom_value mom_idx.
Proof.
  intros Hst Hleft Hright Hall HM Hdepth.
  set (vals := zget l <$> M).
  assert (Hlen : zlen vals = zlen M)
    by (unfold vals, zlen; by rewrite length_fmap).
  assert (Hrank : 0 <= zlen M / 2 < zlen M)
    by (Z.div_mod_to_equations; lia).
  destruct (triple_select_values a l depth vals (zlen M / 2) st Hst)
    as (r & ? & st1 & Hrun & Hl1 & _ & -> & W & _ & Hr).
  rewrite Hlen in Hr.
  destruct r as [v|[]]; try done;
    [|rewrite length_zlen in Hr; lia].
  destruct Hr as [_ Hv]. rewrite target_valid in Hv by done.
  assert (Hex : exists j,
            left <= j < left + Z.of_nat (Z.to_nat (right + 1 - left)) /\
            zget l j = v).
  { assert (Hin : v ∈ vals).
    { rewrite Hv. apply sorted_elem, zget_elem.
      by rewrite zlen_sorted, Hlen. }
    apply list_elem_of_fmap in Hin as (m & Hm & Hin).
    apply (proj1 (Forall_forall _ _) Hall) in Hin.
    exists m. split; [lia|done]. }
  assert (Hne : left <= right) by (destruct Hex as (j & Hj & _); lia).
  destruct (first_equal_spec a l v (Z.to_nat (right + 1 - left)) left (-1)
              ltac:(lia) ltac:(lia) Hex st1 Hl1)
    as ([p|e] & ? & st' & Hscan & _ & _ & Hpost); [|done].
  destruct Hpost as [-> Hfirst].
  rewrite Z2Nat.id in Hscan, Hfirst by lia.
  replace (left + (right + 1 - left) - 1) with right in Hfirst by lia.
  exists v, st1, p, st'. split_and!; [done|done| |done|done].
  unfold median_of_medians. fold (zlen M).
  destruct (Z.eqb_spec (zlen M) 1) as [|_]; [lia|].
  unfold bind at 1. rewrite (values_at_run a l M st Hst).
  - fold vals. revert Hrun. unfold bind.
    destruct (alloc vals st) as [[mv|e] st0]; [|done].
    by intros ->.
  - eapply Forall_impl; [exact Hall|]. simpl. intros; lia.
Qed.

Lemma C6_pivot_from_medians_witness :
  heap (initial [1; 3; 5; 8; 9; 2] (fun _ => 0)) !! 0%nat
    = Some [1; 3; 5; 8; 9; 2] /\
  0 <= 0 /\ 5 < zlen [1; 3; 5; 8; 9; 2] /\
  Forall (fun m => 0 <= m <= 5) [2; 5] /\
  1 < zlen [2; 5] /\
  (length [2; 5] < 6)%nat /\
  exists mom_value st1 mom_idx st',
    (let* median_values := alloc [5; 2] in
     randomized_select 6 median_values 1)
      (initial [1; 3; 5; 8; 9; 2] (fun _ => 0))
      = (Val mom_value, st1) /\
    mom_value = 5 /\
    median_of_medians 6 0%nat 0 5 [2; 5]
      (initial [1; 3; 5; 8; 9; 2] (fun _ => 0))
      = first_equal 0%nat mom_value (range 0 (5 + 1)) (-1) st1 /\
    first_equal 0%nat mom_value (range 0 (5 + 1)) (-1) st1
      = (Val mom_idx, st') /\
    first_position [1; 3; 5; 8; 9; 2] 0 5 mom_value mom_idx.
Proof.
  assert (H1 : heap (initial [1; 3; 5; 8; 9; 2] (fun _ => 0)) !! 0%nat
               = Some [1; 3; 5; 8; 9; 2]) by reflexivity.
  assert (H2 : 0 <= 0) by lia.
  assert (H3 : 5 < zlen [1; 3; 5; 8; 9; 2]) by (unfold zlen; simpl; lia).
  assert (H4 : Forall (fun m => 0 <= m <= 5) [2; 5])
    by (repeat constructor; lia).
  assert (H5 : 1 < zlen [2; 5]) by (unfold zlen; simpl; lia).
  assert (H6 : (length [2; 5] < 6)%nat) by (simpl; lia).
  split; [exact H1|]. split; [exact H2|]. split; [exact H3|].
  split; [exact H4|]. split; [exact H5|]. split; [exact H6|].
  exact (C6_pivot_from_medians 0%nat _ 6%nat 0 5 [2; 5] _
           H1 H2 H3 H4 H5 H6).
Defined.

(** ** C7 *)

(** C7. On a sub-range [left..right] of at most five positions the
    group-median finder puts the values of exactly that sub-range in
    ascending order in place, leaving every other position as it was, and
    returns [left + (right - left) / 2] with integer division: the lower
    median position for a group of even size. *)
Theorem C7_group_median (a : loc) (l : list Z) (left right : Z)
    (st : state) :
  heap st !! a = Some l ->
  0 <= left -> left <= right -> right < zlen l ->
  right - left <= 4 ->
  exists st',
    find_median a left right st = (Val (left + (right - left) / 2), st') /\
    heap st' !! a = Some (sort_range l left right) /\
    slice (sort_range l left right) left (right + 1)
      = sorted (slice l left (right + 1)) /\
    frame a st st'.
Proof.
  intros Hst Hleft Horder Hright _.
  destruct (find_median_spec a l left right Hleft Horder Hright st Hst)
    as ([m|e] & l' & st' & Hrun & Hl' & Hfr & Hpost); [|done].
  destruct Hpost as [-> ->].
  exists st'. split_and!; [done..| |done].
  pose proof (zlen_sort_range l left right Hleft Horder Hright) as Hn.
  apply zget_ext.
  - rewrite zlen_sorted, !zlen_slice; (done || lia).
  - intros i Hi. rewrite zlen_slice in Hi by lia.
    rewrite zget_slice, zget_sort_range by lia.
    rewrite decide_True by lia. f_equal. lia.
Qed.

Lemma C7_group_median_witness :
  heap (initial [7; 5; 3; 8; 1; 9; 2] (fun _ => 0)) !! 0%nat
    = Some [7; 5; 3; 8; 1; 9; 2] /\
  0 <= 1 /\ 1 <= 4 /\ 4 < zlen [7; 5; 3; 8; 1; 9; 2] /\ 4 - 1 <= 4 /\
  exists st',
    find_median 0%nat 1 4 (initial [7; 5; 3; 8; 1; 9; 2] (fun _ => 0))
      = (Val 2, st') /\
    heap st' !! 0%nat = Some [7; 1; 3; 5; 8; 9; 2] /\
    slice [7; 1; 3; 5; 8; 9; 2] 1 5 = [1; 3; 5; 8] /\
    frame 0%nat (initial [7; 5; 3; 8; 1; 9; 2] (fun _ => 0)) st'.
Proof.
  assert (H1 : heap (initial [7; 5; 3; 8; 1; 9; 2] (fun _ => 0)) !! 0%nat
               = Some [7; 5; 3; 8; 1; 9; 2]) by reflexivity.
  assert (H2 : 0 <= 1) by lia.
  assert (H3 : 1 <= 4) by lia.
  assert (H4 : 4 < zlen [7; 5; 3; 8; 1; 9; 2]) by (unfold zlen; simpl; lia).
  assert (H5 : 4 - 1 <= 4) by lia.
  split; [exact H1|]. split; [exact H2|]. split; [exact H3|].
  split; [exact H4|]. split; [exact H5|].
  exact (C7_group_median 0%nat _ 1 4 _ H1 H2 H3 H4 H5).
Defined.

(** ** C8 *)

(** C8. For a non-empty [A] and a valid rank [k], two runs of the
    randomized selector return the same value whatever their random tapes
    and stores, and that value is the one the deterministic selector
    returns. *)
Theorem C8_output_independent_of_pivots (A : list Z) (k : Z)
    (depth1 depth2 : nat) (arr1 arr2 : loc) (st1 st2 : state) :
  heap st1 !! arr1 = Some A ->
  heap st2 !! arr2 = Some A ->
  0 <= k < zlen A ->
  (length A + 2 <= depth1)%nat ->
  (length A + 2 <= depth2)%nat ->
  exists v,
    fst (randomized_select depth1 arr1 k st1) = Val v /\
    fst (randomized_select depth2 arr2 k st2) = Val v /\
    fst (deterministic_select depth1 arr1 k st1) = Val v.
Proof.
  intros H1 H2 Hk Hd1 Hd2. exists (zget (sorted A) k). split_and!.
  - apply randomized_select_valid; (done || lia).
  - apply randomized_select_valid; (done || lia).
  - apply deterministic_select_valid; (done || lia).
Qed.

Lemma C8_output_independent_of_pivots_witness :
  heap (initial [4; 4; 4; 1; 4] (fun _ => 0)) !! 0%nat
    = Some [4; 4; 4; 1; 4] /\
  heap (initial [4; 4; 4; 1; 4] (fun n => 7 * Z.of_nat n + 3)) !! 0%nat
    = Some [4; 4; 4; 1; 4] /\
  0 <= 0 < zlen [4; 4; 4; 1; 4] /\
  (length [4; 4; 4; 1; 4] + 2 <= 7)%nat /\
  (length [4; 4; 4; 1; 4] + 2 <= 9)%nat /\
  exists v,
    fst (randomized_select 7 0%nat 0
           (initial [4; 4; 4; 1; 4] (fun _ => 0))) = Val v /\
    fst (randomized_select 9 0%nat 0
           (initial [4; 4; 4; 1; 4] (fun n => 7 * Z.of_nat n + 3))) = Val v /\
    fst (deterministic_select 7 0%nat 0
           (initial [4; 4; 4; 1; 4] (fun _ => 0))) = Val v.
Proof.
  assert (H1 : heap (initial [4; 4; 4; 1; 4] (fun _ => 0)) !! 0%nat
               = Some [4; 4; 4; 1; 4]) by reflexivity.
  assert (H2 : heap (initial [4; 4; 4; 1; 4]
                       (fun n => 7 * Z.of_nat n + 3)) !! 0%nat
               = Some [4; 4; 4; 1; 4]) by reflexivity.
  assert (H3 : 0 <= 0 < zlen [4; 4; 4; 1; 4]) by (unfold zlen; simpl; lia).
  assert (H4 : (length [4; 4; 4; 1; 4] + 2 <= 7)%nat) by (simpl; lia).
  assert (H5 : (length [4; 4; 4; 1; 4] + 2 <= 9)%nat) by (simpl; lia).
  split; [exact H1|]. split; [exact H2|]. split; [exact H3|].
  split; [exact H4|]. split; [exact H5|].
  exact (C8_output_independent_of_pivots _ 0 7%nat 9%nat 0%nat 0%nat _ _
           H1 H2 H3 H4 H5).
Defined.

(** ** C9 *)

Lemma triple_stays_inside a l left right (m : M Z) P st :
  heap st !! a = Some l ->
  triple a l m (returns P) ->
  (forall v l', P v l' -> rearranged left right l l') ->
  stays_inside a l left right (m st).
Proof.
  intros Hst Hm HP.
  destruct (Hm st Hst) as ([v|e] & l' & st' & Hrun & Hl' & _ & Hpost);
    [|done].
  destruct (HP v l' Hpost) as (_ & Hperm & Hout & _).
  exists v, l', st'. auto.
Qed.

(** C9. The Lomuto partition of either selector and the sort-and-write-back
    of the group-median finder each leave the working sequence a
    permutation of what it was and touch no index outside [left..right];
    and, whatever the rank, the recursion limit and the outcome, the
    working copy a top-level call leaves behind is a permutation of the
    input. *)
Theorem C9_working_copy_is_permutation (a : loc) (l : list Z)
    (left right pivot_idx : Z) (st : state) :
  heap st !! a = Some l ->
  0 <= left -> left <= pivot_idx <= right -> right < zlen l ->
  stays_inside a l left right (partition a left right pivot_idx st) /\
  stays_inside a l left right (partition_mom a left right pivot_idx st) /\
  stays_inside a l left right (find_median a left right st) /\
  forall depth k,
    (exists W,
       heap (snd (randomized_select depth a k st)) !! length (heap st)
         = Some W /\ W ≡ₚ l) /\
    (exists W,
       heap (snd (deterministic_select depth a k st)) !! length (heap st)
         = Some W /\ W ≡ₚ l).
Proof.
  intros Hst Hleft Hpiv Hright.
  assert (Hpart :
    stays_inside a l left right (partition a left right pivot_idx st)).
  { eapply triple_stays_inside;
      [done|by apply partition_spec|]. by intros v l' [Hr _]. }
  split_and!; [done|by rewrite partition_mom_eq| |].
  - eapply triple_stays_inside;
      [done|apply find_median_spec; lia|].
    intros v l' [_ ->]. apply sort_range_rearranged; lia.
  - intros depth k. split.
    + destruct (randomized_select_spec depth a k l st Hst)
        as (r & W & st' & -> & _ & HW & Hperm & _). by exists W.
    + destruct (deterministic_select_spec depth a k l st Hst)
        as (r & W & st' & -> & _ & HW & Hperm & _). by exists W.
Qed.

Lemma C9_working_copy_is_permutation_witness :
  heap (initial [9; 1; 5; 3; 7] (fun _ => 0)) !! 0%nat
    = Some [9; 1; 5; 3; 7] /\
  0 <= 1 /\ 1 <= 2 <= 3 /\ 3 < zlen [9; 1; 5; 3; 7] /\
  stays_inside 0%nat [9; 1; 5; 3; 7] 1 3
    (partition 0%nat 1 3 2 (initial [9; 1; 5; 3; 7] (fun _ => 0))) /\
  stays_inside 0%nat [9; 1; 5; 3; 7] 1 3
    (find_median 0%nat 1 3 (initial [9; 1; 5; 3; 7] (fun _ => 0))).
Proof.
  assert (H1 : heap (initial [9; 1; 5; 3; 7] (fun _ => 0)) !! 0%nat
               = Some [9; 1; 5; 3; 7]) by reflexivity.
  assert (H2 : 0 <= 1) by lia.
  assert (H3 : 1 <= 2 <= 3) by lia.
  assert (H4 : 3 < zlen [9; 1; 5; 3; 7]) by (unfold zlen; simpl; lia).
  split; [exact H1|]. split; [exact H2|]. split; [exact H3|].
  split; [exact H4|].
  destruct (C9_working_copy_is_permutation 0%nat _ 1 3 2 _ H1 H2 H3 H4)
    as (Hp & _ & Hf & _).
  split; [exact Hp|exact Hf].
Defined.

(** ** C10 *)

(** C10. On a one-element sequence both selectors return its element for
    every integer [k], valid or not, and raise nothing: the base case
    [left == right] of the first recursive call answers without looking at
    [k]. *)
Theorem C10_singleton_ignores_rank (x k : Z) (depth : nat) (arr : loc)
    (st : state) :
  heap st !! arr = Some [x] ->
  (0 < depth)%nat ->
  fst (randomized_select depth arr k st) = Val x /\
  fst (deterministic_select depth arr k st) = Val x.
Proof.
  intros Harr Hdepth. destruct depth as [|d]; [lia|].
  set (st1 := mkState (heap st ++ [[x]]) (rng st) (drawn st)).
  assert (Hc : heap st1 !! length (heap st) = Some [x])
    by apply list_lookup_middle, eq_refl.
  assert (Hget : getitem (length (heap st)) 0 st1 = (Val x, st1)).
  { rewrite (getitem_run _ [x]); [done|done|]. unfold zlen. simpl. lia. }
  split.
  - unfold randomized_select, bind, list_copy, alloc, len.
    rewrite (deref_holds _ _ _ Harr). fold st1.
    rewrite (deref_holds _ _ _ Hc). simpl. by rewrite Hget.
  - unfold deterministic_select, bind, list_copy, alloc, len.
    rewrite (deref_holds _ _ _ Harr). fold st1.
    rewrite (deref_holds _ _ _ Hc). simpl. by rewrite Hget.
Qed.

Lemma C10_singleton_ignores_rank_witness :
  heap (initial [7] (fun _ => 0)) !! 0%nat = Some [7] /\
  (0 < 1)%nat /\
  fst (randomized_select 1 0%nat (-3) (initial [7] (fun _ => 0))) = Val 7 /\
  fst (deterministic_select 1 0%nat 12 (initial [7] (fun _ => 0))) = Val 7.
Proof.
  assert (H1 : heap (initial [7] (fun _ => 0)) !! 0%nat = Some [7])
    by reflexivity.
  assert (H2 : (0 < 1)%nat) by lia.
  split; [exact H1|]. split; [exact H2|]. split.
  - exact (proj1 (C10_singleton_ignores_rank 7 (-3) 1%nat 0%nat _ H1 H2)).
  - exact (proj2 (C10_singleton_ignores_rank 7 12 1%nat 0%nat _ H1 H2)).
Defined.

(** * Further properties of the selection code *)

(** ** Exceptions and returned values *)

Lemma target_in_range n k : 0 < n -> 0 <= target n k < n.
Proof. unfold target. lia. Qed.

Lemma selected_value_elem A bound d k v W :
  selected A bound d k (Val v) W -> v ∈ A.
Proof.
  intros [_ [Hpos ->]]. apply sorted_elem, zget_elem.
  rewrite zlen_sorted. by apply target_in_range.
Qed.

(** X1. Whatever the input, the rank, the random tape and the recursion
    limit, a call of either selector ends in one of three ways: it returns
    an element of the input; it raises [ValueError], and then the rank was
    invalid; or it raises [RecursionError], and then the recursion limit
    did not exceed the length of the input (by more than one for the
    deterministic selector).  In particular no list access is ever out of
    bounds. *)
Theorem X1_possible_outcomes (A : list Z) (k : Z) (depth : nat)
    (arr : loc) (st : state) :
  heap st !! arr = Some A ->
  match fst (randomized_select depth arr k st) with
  | Val v => v ∈ A
  | Exc ValueError => ~ 0 <= k < zlen A
  | Exc RecursionError => (depth <= length A)%nat
  | Exc _ => False
  end /\
  match fst (deterministic_select depth arr k st) with
  | Val v => v ∈ A
  | Exc ValueError => ~ 0 <= k < zlen A
  | Exc RecursionError => (depth <= length A + 1)%nat
  | Exc _ => False
  end.
Proof.
  intros Harr. split.
  - destruct (randomized_select_spec depth arr k A st Harr)
      as (r & W & st' & -> & _ & _ & Hsel). simpl.
    destruct r as [v|e]; [by eapply selected_value_elem|].
    destruct Hsel as [_ He]. destruct e; try done.
    rewrite length_zlen in He. lia.
  - destruct (deterministic_select_spec depth arr k A st Harr)
      as (r & W & st' & -> & _ & _ & Hsel). simpl.
    destruct r as [v|e]; [by eapply selected_value_elem|].
    destruct Hsel as [_ He]. destruct e; try done.
    rewrite length_zlen in He. lia.
Qed.

Lemma X1_possible_outcomes_witness :
  heap (initial [1; 2] (fun _ => 0)) !! 0%nat = Some [1; 2] /\
  match fst (randomized_select 1 0%nat 1 (initial [1; 2] (fun _ => 0))) with
  | Val v => v ∈ [1; 2]
  | Exc ValueError => ~ 0 <= 1 < zlen [1; 2]
  | Exc RecursionError => (1 <= length [1; 2])%nat
  | Exc _ => False
  end /\
  match fst (deterministic_select 5 0%nat (-1)
               (initial [1; 2] (fun _ => 0))) with
  | Val v => v ∈ [1; 2]
  | Exc ValueError => ~ 0 <= -1 < zlen [1; 2]
  | Exc RecursionError => (5 <= length [1; 2] + 1)%nat
  | Exc _ => False
  end.
Proof.
  assert (H1 : heap (initial [1; 2] (fun _ => 0)) !! 0%nat = Some [1; 2])
    by reflexivity.
  split; [exact H1|]. split.
  - exact (proj1 (X1_possible_outcomes [1; 2] 1 1%nat 0%nat _ H1)).
  - exact (proj2 (X1_possible_outcomes [1; 2] (-1) 5%nat 0%nat _ H1)).
Defined.

(** ** Where the partition puts the pivot *)

Lemma slice_decompose (l : list Z) left right :
  0 <= left -> left <= right -> right < zlen l ->
  l = take (Z.to_nat left) l ++ slice l left (right + 1)
        ++ drop (Z.to_nat (right + 1)) l.
Proof.
  intros Hleft Horder Hright. rewrite slice_in_range by lia.
  rewrite <- (take_drop (Z.to_nat left) l) at 1. f_equal.
  rewrite <- (take_drop (Z.to_nat (right + 1 - left))
                (drop (Z.to_nat left) l)) at 1.
  f_equal. rewrite drop_drop. f_equal. lia.
Qed.

Lemma rearranged_slice_perm l l' left right :
  0 <= left -> left <= right -> right < zlen l ->
  rearranged left right l l' ->
  slice l' left (right + 1) ≡ₚ slice l left (right + 1).
Proof.
  intros Hleft Horder Hright (Hn & Hp & Hout & _).
  assert (Htake : take (Z.to_nat left) l' = take (Z.to_nat left) l).
  { apply zget_ext.
    - rewrite !zlen_take; lia.
    - intros i Hi. rewrite zlen_take in Hi by lia.
      rewrite !zget_take by lia. apply Hout; lia. }
  assert (Hdrop : drop (Z.to_nat (right + 1)) l'
                  = drop (Z.to_nat (right + 1)) l).
  { apply zget_ext.
    - rewrite !zlen_drop; lia.
    - intros i Hi. rewrite zlen_drop in Hi by lia.
      rewrite !zget_drop by lia. apply Hout; lia. }
  pose proof (slice_decompose l left right Hleft Horder Hright) as E.
  pose proof (slice_decompose l' left right Hleft Horder ltac:(lia)) as E'.
  rewrite Htake, Hdrop in E'.
  apply (Permutation_app_inv_l (take (Z.to_nat left) l)).
  apply (Permutation_app_inv_r (drop (Z.to_nat (right + 1)) l)).
  rewrite <- !app_assoc. by rewrite <- E, <- E'.
Qed.

Lemma zget_cons_succ (x : Z) (s : list Z) i :
  0 <= i -> zget (x :: s) (i + 1) = zget s i.
Proof.
  intros Hi. unfold zget.
  by replace (Z.to_nat (i + 1)) with (S (Z.to_nat i)) by lia.
Qed.

Lemma count_below_prefix (s : list Z) (pv n : Z) :
  0 <= n <= zlen s ->
  (forall i, 0 <= i < n -> zget s i < pv) ->
  (forall i, n <= i < zlen s -> pv <= zget s i) ->
  Z.of_nat (count_below pv s) = n.
Proof.
  unfold count_below. revert n.
  induction s as [|x s IH]; intros n Hn Hlt Hge.
  { change (zlen []) with 0 in Hn. simpl. lia. }
  assert (Hlen : zlen (x :: s) = zlen s + 1)
    by (unfold zlen; simpl length; lia).
  rewrite Hlen in *. pose proof (zlen_nonneg s).
  destruct (decide (n = 0)) as [->|Hn0].
  - rewrite filter_cons_False.
    + apply IH; [lia|intros; lia|].
      intros i Hi. rewrite <- (zget_cons_succ x) by lia. apply Hge. lia.
    + specialize (Hge 0). change (zget (x :: s) 0) with x in Hge. lia.
  - rewrite filter_cons_True.
    + simpl length. rewrite Nat2Z.inj_succ.
      rewrite (IH (n - 1)); [lia|lia| |].
      * intros i Hi. rewrite <- (zget_cons_succ x) by lia. apply Hlt. lia.
      * intros i Hi. rewrite <- (zget_cons_succ x) by lia. apply Hge. lia.
    + specialize (Hlt 0). change (zget (x :: s) 0) with x in Hlt. lia.
Qed.

Lemma count_below_perm v (l1 l2 : list Z) :
  l1 ≡ₚ l2 -> count_below v l1 = count_below v l2.
Proof. intros Hp. unfold count_below. by rewrite Hp. Qed.

Lemma partition_position a l left right pivot_idx :
  0 <= left -> left <= pivot_idx <= right -> right < zlen l ->
  triple a l (partition a left right pivot_idx)
    (returns (fun p l' =>
       rearranged left right l l' /\
       p = left + Z.of_nat (count_below (zget l pivot_idx)
                              (slice l left (right + 1))))).
Proof.
  intros Hleft Hpiv Hright.
  eapply triple_conseq; [by apply partition_spec|].
  intros [p|e] l'; simpl; [|done].
  intros [Hr (Hp & Hpv & Hlt & Hge)]. split; [done|].
  rewrite <- (count_below_perm _ _ _
                (rearranged_slice_perm l l' left right
                   Hleft ltac:(lia) Hright Hr)).
  assert (Hn : zlen l' = zlen l) by apply Hr.
  rewrite (count_below_prefix _ _ (p - left)); [lia| | |].
  - rewrite zlen_slice; lia.
  - intros i Hi. rewrite zget_slice by lia. apply Hlt. lia.
  - intros i Hi. rewrite zlen_slice in Hi by lia.
    rewrite zget_slice by lia.
    destruct (decide (left + i = p)) as [->|]; [lia|]. apply Hge. lia.
Qed.

(** X2. The index [partition] (and [partition_mom]) returns is [left] plus
    the number of elements of the range that are strictly smaller than the
    pivot value: elements equal to the pivot all end up on its right. *)
Theorem X2_partition_index_counts_smaller (a : loc) (l : list Z)
    (left right pivot_idx : Z) (st : state) :
  heap st !! a = Some l ->
  0 <= left -> left <= pivot_idx <= right -> right < zlen l ->
  fst (partition a left right pivot_idx st)
    = Val (left + Z.of_nat (count_below (zget l pivot_idx)
                              (slice l left (right + 1)))) /\
  fst (partition_mom a left right pivot_idx st)
    = fst (partition a left right pivot_idx st).
Proof.
  intros Hst Hleft Hpiv Hright. split; [|by rewrite partition_mom_eq].
  destruct (partition_position a l left right pivot_idx
              Hleft Hpiv Hright st Hst)
    as ([p|e] & l' & st' & -> & _ & _ & Hpost); [|done].
  destruct Hpost as [_ ->]. done.
Qed.

Lemma X2_partition_index_counts_smaller_witness :
  heap (initial [4; 7; 4; 1; 4] (fun _ => 0)) !! 0%nat
    = Some [4; 7; 4; 1; 4] /\
  0 <= 0 /\ 0 <= 2 <= 4 /\ 4 < zlen [4; 7; 4; 1; 4] /\
  fst (partition 0%nat 0 4 2 (initial [4; 7; 4; 1; 4] (fun _ => 0)))
    = Val 1 /\
  fst (partition_mom 0%nat 0 4 2 (initial [4; 7; 4; 1; 4] (fun _ => 0)))
    = fst (partition 0%nat 0 4 2 (initial [4; 7; 4; 1; 4] (fun _ => 0))).
Proof.
  assert (H1 : heap (initial [4; 7; 4; 1; 4] (fun _ => 0)) !! 0%nat
               = Some [4; 7; 4; 1; 4]) by reflexivity.
  assert (H2 : 0 <= 0) by lia.
  assert (H3 : 0 <= 2 <= 4) by lia.
  assert (H4 : 4 < zlen [4; 7; 4; 1; 4]) by (unfold zlen; simpl; lia).
  split; [exact H1|]. split; [exact H2|]. split; [exact H3|].
  split; [exact H4|].
  exact (X2_partition_index_counts_smaller 0%nat _ 0 4 2 _ H1 H2 H3 H4).
Defined.

(** ** Inputs whose elements are all equal *)

Lemma zget_replicate n (v : Z) i :
  0 <= i < Z.of_nat n -> zget (replicate n v) i = v.
Proof. intros Hi. unfold zget. apply lookup_total_replicate_2. lia. Qed.

Lemma zlen_replicate n (v : Z) : zlen (replicate n v) = Z.of_nat n.
Proof. unfold zlen. by rewrite length_replicate. Qed.

Lemma rearranged_replicate left right n (v : Z) l' :
  rearranged left right (replicate n v) l' -> l' = replicate n v.
Proof.
  intros (_ & Hp & _). symmetry. by apply replicate_Permutation.
Qed.

Lemma partition_all_equal a n v left right pivot_idx :
  0 <= left -> left <= pivot_idx <= right -> right < Z.of_nat n ->
  triple a (replicate n v) (partition a left right pivot_idx)
    (returns (fun p l' => p = left /\ l' = replicate n v)).
Proof.
  intros Hleft Hpiv Hright.
  eapply triple_conseq;
    [apply partition_spec; rewrite ?zlen_replicate; lia|].
  intros [p|e] l'; simpl; [|done].
  intros [Hr (Hp & _ & Hlt & _)].
  apply rearranged_replicate in Hr as ->. split; [|done].
  destruct (decide (p = left)) as [|Hne]; [done|].
  specialize (Hlt left ltac:(lia)).
  rewrite !zget_replicate in Hlt by lia. lia.
Qed.

Lemma quickselect_all_equal d a n v left k :
  0 <= left -> left <= k -> k < Z.of_nat n ->
  triple a (replicate n v)
    (quickselect d a left (Z.of_nat n - 1) k)
    (fun r l' =>
       l' = replicate n v /\
       r = if decide (Z.of_nat d <= k - left)
           then Exc RecursionError else Val v).
Proof.
  revert left. induction d as [|d IH]; intros left Hleft Hk Hn; simpl.
  { apply triple_raise. split; [done|]. by rewrite decide_True by lia. }
  destruct (Z.eqb_spec left (Z.of_nat n - 1)) as [Heq|Hne].
  { eapply triple_conseq;
      [apply triple_getitem; rewrite zlen_replicate; lia|].
    intros [x|e] l'; simpl; [|done]. intros [-> ->]. split; [done|].
    rewrite zget_replicate by lia. by rewrite decide_False by lia. }
  eapply triple_bind; [apply triple_randint| |].
  2:{ intros e l' [_ He]. destruct e; try done. lia. }
  intros p0 ? [-> Hp0].
  step partition_all_equal; [lia..|]. intros p ? [-> ->].
  destruct (Z.eqb_spec k left) as [->|Hkl].
  { eapply triple_conseq;
      [apply triple_getitem; rewrite zlen_replicate; lia|].
    intros [x|e] l'; simpl; [|done]. intros [-> ->]. split; [done|].
    rewrite zget_replicate by lia. by rewrite decide_False by lia. }
  destruct (Z.ltb_spec k left) as [|_]; [lia|].
  eapply triple_conseq; [apply IH; lia|].
  intros r l' [-> ->]. split; [done|].
  repeat case_decide; (done || lia).
Qed.

Lemma select_all_equal d a n v left k :
  0 <= left -> left <= k -> k < Z.of_nat n ->
  triple a (replicate n v)
    (select d a left (Z.of_nat n - 1) k)
    (fun r l' =>
       l' = replicate n v /\
       (Z.of_nat d <= k - left -> r = Exc RecursionError)).
Proof.
  revert left. induction d as [|d IH]; intros left Hleft Hk Hn; simpl.
  { by apply triple_raise. }
  destruct (Z.eqb_spec left (Z.of_nat n - 1)) as [Heq|Hne].
  { eapply triple_conseq;
      [apply triple_getitem; rewrite zlen_replicate; lia|].
    intros [x|e] l'; simpl; [|done]. intros [-> ->]. split; [done|]. lia. }
  step group_medians_spec; [rewrite ?zlen_replicate; lia..|].
  intros M l1 (Hr1 & HlenM & Hall).
  apply rearranged_replicate in Hr1 as ->.
  eapply triple_bind;
    [apply median_of_medians_spec;
       [rewrite ?zlen_replicate; lia..|exact Hall]| |].
  2:{ intros e l' [-> He]. split; [done|]. intros _.
      destruct e; try done. subst M.
      change (zlen []) with 0 in HlenM.
      Z.div_mod_to_equations. lia. }
  intros mom ? [-> [Hmom _]].
  rewrite partition_mom_eq.
  step partition_all_equal; [lia..|]. intros p ? [-> ->].
  destruct (Z.eqb_spec k left) as [->|Hkl].
  { eapply triple_conseq;
      [apply triple_getitem; rewrite zlen_replicate; lia|].
    intros [x|e] l'; simpl; [|done]. intros [-> ->]. split; [done|]. lia. }
  destruct (Z.ltb_spec k left) as [|_]; [lia|].
  eapply triple_conseq; [apply IH; lia|].
  intros r l' [-> Hr]. split; [done|]. intros Hd. apply Hr. lia.
Qed.

(** A top-level call runs its recursive helper on the fresh copy, so a
    specification of the helper on any location gives the outcome of the
    call. *)
Lemma randomized_select_run depth arr k A st Q :
  heap st !! arr = Some A ->
  (forall a, triple a A (quickselect depth a 0 (zlen A - 1) k) Q) ->
  exists W, Q (fst (randomized_select depth arr k st)) W.
Proof.
  intros Harr Hq.
  set (c := length (heap st)).
  set (st1 := mkState (heap st ++ [A]) (rng st) (drawn st)).
  assert (Hc : heap st1 !! c = Some A) by apply list_lookup_middle, eq_refl.
  destruct (Hq c st1 Hc) as (r & W & st' & Hrun & _ & _ & HQ).
  exists W.
  unfold randomized_select, bind, list_copy, alloc, len.
  rewrite (deref_holds _ _ _ Harr). fold c st1.
  rewrite (deref_holds _ _ _ Hc). fold (zlen A). by rewrite Hrun.
Qed.

Lemma deterministic_select_run depth arr k A st Q :
  heap st !! arr = Some A ->
  (forall a, triple a A (select depth a 0 (zlen A - 1) k) Q) ->
  exists W, Q (fst (deterministic_select depth arr k st)) W.
Proof.
  intros Harr Hq.
  set (c := length (heap st)).
  set (st1 := mkState (heap st ++ [A]) (rng st) (drawn st)).
  assert (Hc : heap st1 !! c = Some A) by apply list_lookup_middle, eq_refl.
  destruct (Hq c st1 Hc) as (r & W & st' & Hrun & _ & _ & HQ).
  exists W.
  unfold deterministic_select, bind, list_copy, alloc, len.
  rewrite (deref_holds _ _ _ Harr). fold c st1.
  rewrite (deref_holds _ _ _ Hc). fold (zlen A). by rewrite Hrun.
Qed.

(** X3. On an input of [n] equal values the partition always returns
    [left], so the window shrinks by one position per call: for a valid
    rank [k] the randomized selector needs exactly [k + 1] nested
    [quickselect] calls.  It returns the value when the recursion limit
    exceeds [k] and raises [RecursionError] otherwise; the deterministic
    selector raises [RecursionError] as well when the limit does not
    exceed [k]. *)
Theorem X3_all_equal_recursion_depth (n : nat) (v k : Z) (depth : nat)
    (arr : loc) (st : state) :
  heap st !! arr = Some (replicate n v) ->
  0 <= k < Z.of_nat n ->
  fst (randomized_select depth arr k st)
    = (if decide (Z.of_nat depth <= k)
       then Exc RecursionError else Val v) /\
  (Z.of_nat depth <= k ->
   fst (deterministic_select depth arr k st) = Exc RecursionError).
Proof.
  intros Harr Hk. split.
  - destruct (randomized_select_run depth arr k _ st _ Harr
                (fun a => ltac:(rewrite zlen_replicate;
                   exact (quickselect_all_equal depth a n v 0 k
                            ltac:(lia) ltac:(lia) ltac:(lia)))))
      as (W & _ & ->).
    by rewrite Z.sub_0_r.
  - intros Hd.
    destruct (deterministic_select_run depth arr k _ st _ Harr
                (fun a => ltac:(rewrite zlen_replicate;
                   exact (select_all_equal depth a n v 0 k
                            ltac:(lia) ltac:(lia) ltac:(lia)))))
      as (W & _ & Hr).
    apply Hr. lia.
Qed.

Lemma X3_all_equal_recursion_depth_witness :
  heap (initial (replicate 6 7) (fun _ => 0)) !! 0%nat
    = Some (replicate 6 7) /\
  0 <= 3 < Z.of_nat 6 /\
  fst (randomized_select 3 0%nat 3 (initial (replicate 6 7) (fun _ => 0)))
    = Exc RecursionError /\
  fst (randomized_select 4 0%nat 3 (initial (replicate 6 7) (fun _ => 0)))
    = Val 7 /\
  fst (deterministic_select 3 0%nat 3 (initial (replicate 6 7) (fun _ => 0)))
    = Exc RecursionError.
Proof.
  assert (H1 : heap (initial (replicate 6 7) (fun _ => 0)) !! 0%nat
               = Some (replicate 6 7)) by reflexivity.
  assert (H2 : 0 <= 3 < Z.of_nat 6) by lia.
  split; [exact H1|]. split; [exact H2|]. split; [|split].
  - exact (proj1 (X3_all_equal_recursion_depth 6 7 3 3%nat 0%nat _ H1 H2)).
  - exact (proj1 (X3_all_equal_recursion_depth 6 7 3 4%nat 0%nat _ H1 H2)).
  - apply (proj2 (X3_all_equal_recursion_depth 6 7 3 3%nat 0%nat _ H1 H2)).
    lia.
Defined.

(** ** The returned value as an order statistic *)

Lemma filter_all (P : Z -> Prop) `{forall x, Decision (P x)} (l : list Z) :
  Forall P l -> filter P l = l.
Proof.
  induction 1 as [|x l Hx Hl IH]; [done|].
  by rewrite filter_cons_True, IH.
Qed.

Lemma filter_none (P : Z -> Prop) `{forall x, Decision (P x)} (l : list Z) :
  Forall (fun x => ~ P x) l -> filter P l = [].
Proof.
  induction 1 as [|x l Hx Hl IH]; [done|].
  by rewrite filter_cons_False.
Qed.

Lemma sorted_rank_counts (A : list Z) k :
  0 <= k < zlen A ->
  Z.of_nat (count_below (zget (sorted A) k) A) <= k /\
  k < Z.of_nat (count_upto (zget (sorted A) k) A).
Proof.
  intros Hk. set (s := sorted A). set (v := zget s k).
  assert (Hn : zlen s = zlen A) by apply zlen_sorted.
  unfold count_below, count_upto.
  rewrite <- !(sorted_perm A). fold s. split.
  - rewrite <- (take_drop (Z.to_nat k) s), filter_app, length_app.
    rewrite (filter_none _ (drop _ _)).
    + pose proof (length_filter (fun x => x < v) (take (Z.to_nat k) s)).
      rewrite length_take in *. simpl. lia.
    + apply Forall_forall. intros x [i Hi]%list_elem_of_lookup.
      rewrite lookup_drop in Hi.
      pose proof (lookup_lt_Some _ _ _ Hi) as Hlt.
      rewrite <- (list_lookup_total_correct _ _ _ Hi).
      pose proof (sorted_mono A k (Z.of_nat (Z.to_nat k + i))) as Hm.
      unfold zget in Hm at 2. rewrite Nat2Z.id in Hm. fold s in Hm.
      unfold zlen in *. fold v in Hm. lia.
  - rewrite <- (take_drop (Z.to_nat (k + 1)) s), filter_app, length_app.
    rewrite (filter_all _ (take _ _)).
    + rewrite length_take. unfold zlen in *. lia.
    + apply Forall_forall. intros x [i Hi]%list_elem_of_lookup.
      apply lookup_take_Some in Hi as [Hi Hlt].
      rewrite <- (list_lookup_total_correct _ _ _ Hi).
      pose proof (sorted_mono A (Z.of_nat i) k) as Hm.
      unfold zget in Hm at 1. rewrite Nat2Z.id in Hm. fold s in Hm.
      fold v in Hm. lia.
Qed.

(** X4. For a valid rank [k] the value both selectors return is the
    order statistic of rank [k] in the usual counting sense: it is an
    element of the input, at most [k] elements of the input are strictly
    smaller than it, and more than [k] elements are smaller or equal. *)
Theorem X4_result_is_order_statistic (A : list Z) (k : Z) (depth : nat)
    (arr : loc) (st : state) :
  heap st !! arr = Some A ->
  0 <= k < zlen A ->
  (length A + 2 <= depth)%nat ->
  exists v,
    fst (randomized_select depth arr k st) = Val v /\
    fst (deterministic_select depth arr k st) = Val v /\
    v ∈ A /\
    Z.of_nat (count_below v A) <= k < Z.of_nat (count_upto v A).
Proof.
  intros Harr Hk Hdepth. exists (zget (sorted A) k). split_and!.
  - apply randomized_select_valid; (done || lia).
  - apply deterministic_select_valid; (done || lia).
  - apply sorted_elem, zget_elem. by rewrite zlen_sorted.
  - by apply sorted_rank_counts.
  - by apply sorted_rank_counts.
Qed.

Lemma X4_result_is_order_statistic_witness :
  heap (initial [4; 4; 4; 1; 4] (fun _ => 0)) !! 0%nat
    = Some [4; 4; 4; 1; 4] /\
  0 <= 2 < zlen [4; 4; 4; 1; 4] /\
  (length [4; 4; 4; 1; 4] + 2 <= 7)%nat /\
  exists v,
    fst (randomized_select 7 0%nat 2
           (initial [4; 4; 4; 1; 4] (fun _ => 0))) = Val v /\
    fst (deterministic_select 7 0%nat 2
           (initial [4; 4; 4; 1; 4] (fun _ => 0))) = Val v /\
    v ∈ [4; 4; 4; 1; 4] /\
    Z.of_nat (count_below v [4; 4; 4; 1; 4]) <= 2
      < Z.of_nat (count_upto v [4; 4; 4; 1; 4]).
Proof.
  assert (H1 : heap (initial [4; 4; 4; 1; 4] (fun _ => 0)) !! 0%nat
               = Some [4; 4; 4; 1; 4]) by reflexivity.
  assert (H2 : 0 <= 2 < zlen [4; 4; 4; 1; 4]) by (unfold zlen; simpl; lia).
  assert (H3 : (length [4; 4; 4; 1; 4] + 2 <= 7)%nat) by (simpl; lia).
  split; [exact H1|]. split; [exact H2|]. split; [exact H3|].
  exact (X4_result_is_order_statistic _ 2 7%nat 0%nat _ H1 H2 H3).
Defined.

Lemma sorted_bounds (A : list Z) x :
  x ∈ A -> zget (sorted A) 0 <= x <= zget (sorted A) (zlen A - 1).
Proof.
  intros Hx. apply sorted_elem, elem_zget in Hx as (i & Hi & <-).
  rewrite zlen_sorted in Hi.
  split; apply sorted_mono; lia.
Qed.

(** X5. On a non-empty input, rank 0 makes both selectors return the
    minimum of the input and rank [length - 1] the maximum. *)
Theorem X5_first_and_last_rank (A : list Z) (depth : nat) (arr : loc)
    (st : state) :
  heap st !! arr = Some A ->
  A <> [] ->
  (length A + 2 <= depth)%nat ->
  exists lo hi,
    fst (randomized_select depth arr 0 st) = Val lo /\
    fst (deterministic_select depth arr 0 st) = Val lo /\
    fst (randomized_select depth arr (zlen A - 1) st) = Val hi /\
    fst (deterministic_select depth arr (zlen A - 1) st) = Val hi /\
    lo ∈ A /\ hi ∈ A /\
    forall x, x ∈ A -> lo <= x <= hi.
Proof.
  intros Harr Hne Hdepth.
  assert (Hpos : 0 < zlen A).
  { destruct A; [done|]. unfold zlen. simpl. lia. }
  exists (zget (sorted A) 0), (zget (sorted A) (zlen A - 1)). split_and!.
  - apply randomized_select_valid; (done || lia).
  - apply deterministic_select_valid; (done || lia).
  - apply randomized_select_valid; (done || lia).
  - apply deterministic_select_valid; (done || lia).
  - apply sorted_elem, zget_elem. rewrite zlen_sorted. lia.
  - apply sorted_elem, zget_elem. rewrite zlen_sorted. lia.
  - apply sorted_bounds.
Qed.

Lemma X5_first_and_last_rank_witness :
  heap (initial [5; 3; 8; 1; 9; 2] (fun _ => 0)) !! 0%nat
    = Some [5; 3; 8; 1; 9; 2] /\
  [5; 3; 8; 1; 9; 2] <> [] /\
  (length [5; 3; 8; 1; 9; 2] + 2 <= 8)%nat /\
  exists lo hi,
    fst (randomized_select 8 0%nat 0
           (initial [5; 3; 8; 1; 9; 2] (fun _ => 0))) = Val lo /\
    fst (deterministic_select 8 0%nat 0
           (initial [5; 3; 8; 1; 9; 2] (fun _ => 0))) = Val lo /\
    fst (randomized_select 8 0%nat 5
           (initial [5; 3; 8; 1; 9; 2] (fun _ => 0))) = Val hi /\
    fst (deterministic_select 8 0%nat 5
           (initial [5; 3; 8; 1; 9; 2] (fun _ => 0))) = Val hi /\
    lo ∈ [5; 3; 8; 1; 9; 2] /\ hi ∈ [5; 3; 8; 1; 9; 2] /\
    forall x, x ∈ [5; 3; 8; 1; 9; 2] -> lo <= x <= hi.
Proof.
  assert (H1 : heap (initial [5; 3; 8; 1; 9; 2] (fun _ => 0)) !! 0%nat
               = Some [5; 3; 8; 1; 9; 2]) by reflexivity.
  assert (H2 : [5; 3; 8; 1; 9; 2] <> []) by discriminate.
  assert (H3 : (length [5; 3; 8; 1; 9; 2] + 2 <= 8)%nat) by (simpl; lia).
  split; [exact H1|]. split; [exact H2|]. split; [exact H3|].
  exact (X5_first_and_last_rank _ 8%nat 0%nat _ H1 H2 H3).
Defined.

(** ** The grouping pass of the deterministic selector *)

Lemma slice_sort_range l left right :
  0 <= left -> left <= right -> right < zlen l ->
  slice (sort_range l left right) left (right + 1)
    = sorted (slice l left (right + 1)).
Proof.
  intros Hleft Horder Hright.
  pose proof (zlen_sort_range l left right Hleft Horder Hright) as Hn.
  apply zget_ext.
  - rewrite zlen_sorted, !zlen_slice; (done || lia).
  - intros i Hi. rewrite zlen_slice in Hi by lia.
    rewrite zget_slice, zget_sort_range by lia.
    rewrite decide_True by lia. f_equal. lia.
Qed.

Lemma slice_ext l1 l2 lo hi :
  0 <= lo -> lo <= hi -> hi < zlen l1 -> zlen l2 = zlen l1 ->
  (forall i, lo <= i <= hi -> zget l2 i = zget l1 i) ->
  slice l2 lo (hi + 1) = slice l1 lo (hi + 1).
Proof.
  intros Hlo Hle Hhi Hn Heq. apply zget_ext.
  - rewrite !zlen_slice; lia.
  - intros i Hi. rewrite zlen_slice in Hi by lia.
    rewrite !zget_slice by lia. apply Heq. lia.
Qed.

Lemma group_medians_exact a l left right :
  0 <= left -> left <= right + 1 -> right < zlen l ->
  triple a l (group_medians a left right)
    (returns (groups_done l left right ((right - left + 5) / 5))).
Proof.
  intros Hleft Horder Hright. unfold group_medians.
  eapply triple_conseq.
  { apply (triple_for a (range_step left (right + 1) 5) _
      (fun n medians l2 =>
         groups_done l left right (Z.of_nat n) medians l2)).
    - split_and!; [done|done|intros; lia|done].
    - intros n x medians l2 Hx (Hlen & Hn2 & Hgroups & Hrest).
      apply lookup_range_step in Hx as [-> Hn].
      set (i := left + 5 * Z.of_nat n).
      set (gr := Z.min (i + 4) right).
      assert (Hi : left <= i <= right)
        by (unfold i; Z.div_mod_to_equations; lia).
      assert (Hgr : i <= gr <= right) by (unfold gr; lia).
      step find_median_spec; [lia..|]. intros m l3 [-> ->].
      apply triple_ret. simpl.
      assert (Hn3 : zlen (sort_range l2 i gr) = zlen l2)
        by (apply zlen_sort_range; lia).
      split_and!.
      + rewrite zlen_app, Hlen. unfold zlen. simpl. lia.
      + lia.
      + intros j Hj. unfold group_right, group_left.
        destruct (decide (j = Z.of_nat n)) as [->|Hne].
        * fold i gr. split.
          -- rewrite zget_app_r, Hlen, Z.sub_diag by lia. done.
          -- rewrite slice_sort_range by lia. f_equal.
             apply slice_ext; [lia..|].
             intros i' Hi'. apply Hrest; [lia|].
             right. left. unfold group_left. fold i. lia.
        * destruct (Hgroups j ltac:(lia)) as [Hm Hs].
          unfold group_right, group_left in Hm, Hs. split.
          -- rewrite zget_app_l by lia. done.
          -- rewrite <- Hs. apply slice_ext; [lia..|].
             intros i' Hi'. rewrite zget_sort_range by lia.
             rewrite decide_False; [done|]. unfold i. lia.
      + intros i' Hi' Hout. rewrite zget_sort_range by lia.
        rewrite decide_False.
        * apply Hrest; [done|]. unfold group_left in *. lia.
        * unfold group_left in Hout. unfold i. lia. }
  intros [medians|e] l'; simpl; [|done].
  unfold range_step. rewrite length_fmap, length_seqZ.
  replace (right + 1 - left + 5 - 1) with (right - left + 5) by lia.
  rewrite Z2Nat.id by (Z.div_mod_to_equations; lia). done.
Qed.

(** X6. The grouping pass of [select] (lines 74-79) cuts [left..right]
    into [(right - left + 5) // 5] groups of five consecutive positions
    (the last one possibly shorter), leaves each group holding its former
    values in ascending order, leaves every position outside
    [left..right] as it was, and collects for each group the index of its
    middle position, [left + 5j + (size_j - 1) // 2]. *)
Theorem X6_grouping_pass (a : loc) (l : list Z) (left right : Z)
    (st : state) :
  heap st !! a = Some l ->
  0 <= left -> left <= right + 1 -> right < zlen l ->
  exists medians l' st',
    group_medians a left right st = (Val medians, st') /\
    heap st' !! a = Some l' /\
    groups_done l left right ((right - left + 5) / 5) medians l'.
Proof.
  intros Hst Hleft Horder Hright.
  destruct (group_medians_exact a l left right Hleft Horder Hright st Hst)
    as ([M|e] & l' & st' & Hrun & Hl' & _ & Hdone); [|done].
  by exists M, l', st'.
Qed.

Lemma X6_grouping_pass_witness :
  heap (initial [9; 5; 3; 8; 1; 7; 2; 6; 4] (fun _ => 0)) !! 0%nat
    = Some [9; 5; 3; 8; 1; 7; 2; 6; 4] /\
  0 <= 1 /\ 1 <= 7 + 1 /\ 7 < zlen [9; 5; 3; 8; 1; 7; 2; 6; 4] /\
  exists medians l' st',
    group_medians 0%nat 1 7
      (initial [9; 5; 3; 8; 1; 7; 2; 6; 4] (fun _ => 0))
      = (Val medians, st') /\
    heap st' !! 0%nat = Some l' /\
    groups_done [9; 5; 3; 8; 1; 7; 2; 6; 4] 1 7 2 medians l'.
Proof.
  assert (H1 : heap (initial [9; 5; 3; 8; 1; 7; 2; 6; 4] (fun _ => 0))
                 !! 0%nat = Some [9; 5; 3; 8; 1; 7; 2; 6; 4])
    by reflexivity.
  assert (H2 : 0 <= 1) by lia.
  assert (H3 : 1 <= 7 + 1) by lia.
  assert (H4 : 7 < zlen [9; 5; 3; 8; 1; 7; 2; 6; 4])
    by (unfold zlen; simpl; lia).
  split; [exact H1|]. split; [exact H2|]. split; [exact H3|].
  split; [exact H4|].
  exact (X6_grouping_pass 0%nat _ 1 7 _ H1 H2 H3 H4).
Defined.

(** * The test-case generator *)

Lemma comprehension_randint n lo hi st :
  lo <= hi \/ n = 0%nat ->
  exists l d,
    comprehension n (randint lo hi) st
      = (Val l, mkState (heap st) (rng st) d) /\
    length l = n /\ Forall (fun x => lo <= x <= hi) l.
Proof.
  revert st. induction n as [|n IH]; intros st Hok; simpl.
  { exists [], (drawn st). by destruct st. }
  destruct Hok as [Hle|]; [|done].
  unfold bind at 1. unfold randint at 1.
  destruct (Z.ltb_spec hi lo) as [|_]; [lia|].
  set (st1 := mkState (heap st) (rng st) (S (drawn st))).
  destruct (IH st1 (or_introl Hle)) as (l & d & Hrun & Hlen & Hall).
  unfold bind. rewrite Hrun. simpl.
  eexists (_ :: l), d. split_and!; [done|by rewrite <- Hlen|].
  constructor; [|done].
  pose proof (Z.mod_pos_bound (rng st (drawn st)) (hi - lo + 1)). lia.
Qed.

Lemma comprehension_choice n st :
  exists l d,
    comprehension n (choice [1; 2; 3; 4; 5]) st
      = (Val l, mkState (heap st) (rng st) d) /\
    length l = n /\ Forall (fun x => 1 <= x <= 5) l.
Proof.
  revert st. induction n as [|n IH]; intros st; simpl.
  { exists [], (drawn st). by destruct st. }
  set (st1 := mkState (heap st) (rng st) (S (drawn st))).
  set (i := rng st (drawn st) mod Z.of_nat (length [1; 2; 3; 4; 5])).
  assert (Hi : 0 <= i < zlen [1; 2; 3; 4; 5]).
  { unfold i, zlen. apply Z.mod_pos_bound. simpl. lia. }
  assert (Hc : choice [1; 2; 3; 4; 5] st
               = (Val (zget [1; 2; 3; 4; 5] i), st1)).
  { unfold choice. fold i st1. by rewrite item_run. }
  destruct (IH st1) as (l & d & Hrun & Hlen & Hall).
  unfold bind. rewrite Hc, Hrun. simpl.
  eexists (_ :: l), d. split_and!; [done|by rewrite <- Hlen|].
  constructor; [|done].
  assert (Hin : zget [1; 2; 3; 4; 5] i ∈ [1; 2; 3; 4; 5])
    by by apply zget_elem.
  rewrite !elem_of_cons, elem_of_nil in Hin. lia.
Qed.

Lemma preserved_refl st : preserved st st.
Proof. split; [lia|done]. Qed.

Lemma preserved_trans st1 st2 st3 :
  preserved st1 st2 -> preserved st2 st3 -> preserved st1 st3.
Proof.
  intros [Hl1 H1] [Hl2 H2]. split; [lia|].
  intros b Hb. rewrite H2 by lia. by apply H1.
Qed.

Lemma generated_preserved st st' size dists :
  preserved st st' -> generated st size dists -> generated st' size dists.
Proof.
  intros [_ Hp] (a1 & a2 & a3 & a4 & a5 & l1 & l5 & Hd & Hnd
                 & H1 & ? & ? & H2 & H3 & H4 & H5 & ? & ?).
  exists a1, a2, a3, a4, a5, l1, l5.
  split_and!; try done;
    (rewrite Hp; [done|by eapply lookup_lt_Some]).
Qed.

Lemma test_case_run size st :
  exists dists st',
    test_case size st = (Val dists, st') /\
    generated st' size dists /\
    preserved st st'.
Proof.
  unfold test_case.
  assert (Hok : 1 <= size * 10 \/ Z.to_nat size = 0%nat).
  { destruct (decide (1 <= size)); [left|right]; lia. }
  destruct (comprehension_randint (Z.to_nat size) 1 (size * 10) st Hok)
    as (l1 & d1 & Hrun1 & Hlen1 & Hall1).
  set (st1 := mkState ((heap st ++ [l1]) ++ [range 1 (size + 1)]
                         ++ [range_down size 0]
                         ++ [replicate (Z.to_nat size) 42])
                (rng st) d1).
  destruct (comprehension_choice (Z.to_nat size) st1)
    as (l5 & d5 & Hrun5 & Hlen5 & Hall5).
  set (h := length (heap st)).
  eexists _, (mkState (heap st1 ++ [l5]) (rng st) d5). split_and!.
  - unfold bind at 1. rewrite Hrun1.
    unfold bind, alloc. simpl.
    rewrite <- !app_assoc. simpl.
    unfold st1 in Hrun5. rewrite <- !app_assoc in Hrun5. simpl in Hrun5.
    rewrite Hrun5. simpl. rewrite <- !app_assoc. simpl. reflexivity.
  - exists h, (S h), (S (S h)), (S (S (S h))), (S (S (S (S h)))), l1, l5.
    simpl. rewrite !length_app. simpl. fold h.
    replace (h + 1)%nat with (S h) by lia.
    replace (h + 4)%nat with (S (S (S (S h)))) by lia.
    split_and!; try done.
    + repeat f_equal; lia.
    + rewrite !NoDup_cons, !elem_of_cons, !elem_of_nil.
      split_and!; (lia || apply NoDup_nil_2).
    + rewrite <- !app_assoc. simpl. rewrite lookup_app_r by (fold h; lia).
      fold h. by rewrite Nat.sub_diag.
    + rewrite <- !app_assoc. simpl. rewrite lookup_app_r by (fold h; lia).
      fold h. by replace (S h - h)%nat with 1%nat by lia.
    + rewrite <- !app_assoc. simpl. rewrite lookup_app_r by (fold h; lia).
      fold h. by replace (S (S h) - h)%nat with 2%nat by lia.
    + rewrite <- !app_assoc. simpl. rewrite lookup_app_r by (fold h; lia).
      fold h. by replace (S (S (S h)) - h)%nat with 3%nat by lia.
    + rewrite <- !app_assoc. simpl. rewrite lookup_app_r by (fold h; lia).
      fold h. by replace (S (S (S (S h))) - h)%nat with 4%nat by lia.
  - split; simpl.
    + rewrite !length_app. lia.
    + intros b Hb. rewrite <- !app_assoc. by apply lookup_app_l.
Qed.

Lemma dict_set_fresh {V} (key : Z) (value : V) (d : list (Z * V)) :
  key ∉ d.*1 -> dict_set key value d = d ++ [(key, value)].
Proof.
  induction d as [|[k v] d IH]; simpl; [done|].
  rewrite not_elem_of_cons. intros [Hne Hd].
  rewrite decide_False by done. by rewrite IH.
Qed.

(** X7. [generate_test_cases] never raises.  It returns one entry for each
    of the sizes 100, 500, 1000 and 5000, in that order; each entry maps the
    five distribution names to five distinct new lists of [size] elements:
    random values within [1 .. 10 * size], the ascending values
    [1 .. size], the descending values [size .. 1], [size] copies of 42, and
    random values within [1 .. 5].  Lists that existed before are left as
    they were. *)
Theorem X7_generate_test_cases (st : state) :
  exists cases st',
    generate_test_cases st = (Val cases, st') /\
    preserved st st' /\
    cases.*1 = [100; 500; 1000; 5000] /\
    forall size dists, (size, dists) ∈ cases -> generated st' size dists.
Proof.
  unfold generate_test_cases.
  destruct (test_case_run 100 st) as (d1 & st1 & Hr1 & Hg1 & Hp1).
  destruct (test_case_run 500 st1) as (d2 & st2 & Hr2 & Hg2 & Hp2).
  destruct (test_case_run 1000 st2) as (d3 & st3 & Hr3 & Hg3 & Hp3).
  destruct (test_case_run 5000 st3) as (d4 & st4 & Hr4 & Hg4 & Hp4).
  exists [(100, d1); (500, d2); (1000, d3); (5000, d4)], st4.
  split_and!.
  - cbn [for_]. unfold bind, ret.
    rewrite Hr1. cbv beta iota. rewrite Hr2. cbv beta iota.
    rewrite Hr3. cbv beta iota. rewrite Hr4. cbv beta iota.
    cbn [dict_set]. by rewrite !decide_False by lia.
  - eauto using preserved_trans.
  - done.
  - intros size dists Hin.
    rewrite !elem_of_cons, elem_of_nil in Hin.
    destruct Hin as [[= -> ->]|[[= -> ->]|[[= -> ->]|[[= -> ->]|[]]]]].
    + eauto using generated_preserved, preserved_trans.
    + eauto using generated_preserved, preserved_trans.
    + eauto using generated_preserved, preserved_trans.
    + done.
Qed.

(** ** The selectors on the generated cases *)

Lemma Sorted_seqZ m (n : nat) : Sorted Z.le (seqZ m (Z.of_nat n)).
Proof.
  revert m. induction n as [|n IH]; intros m.
  { rewrite seqZ_nil by lia. constructor. }
  rewrite seqZ_cons by lia.
  replace (Z.pred (Z.of_nat (S n))) with (Z.of_nat n) by lia.
  constructor; [apply IH|].
  destruct n as [|n'].
  - rewrite seqZ_nil by lia. constructor.
  - rewrite seqZ_cons by lia. constructor. lia.
Qed.

Lemma sorted_range lo hi : sorted (range lo hi) = range lo hi.
Proof.
  apply sorted_of_Sorted. unfold range.
  destruct (decide (0 <= hi - lo)).
  - rewrite <- (Z2Nat.id (hi - lo)) by lia. apply Sorted_seqZ.
  - rewrite seqZ_nil by lia. constructor.
Qed.

Lemma range_down_reverse size : range_down size 0 = reverse (range 1 (size + 1)).
Proof.
  unfold range_down, range.
  replace (size + 1 - 1) with size by lia. rewrite Z.sub_0_r.
  apply list_eq. intros i.
  destruct (decide (Z.of_nat i < size)) as [Hlt|Hge].
  - rewrite list_lookup_fmap, lookup_seqZ_lt by lia. simpl.
    rewrite reverse_lookup by (rewrite length_seqZ; lia).
    rewrite length_seqZ, lookup_seqZ_lt by lia. f_equal. lia.
  - rewrite !lookup_ge_None_2; [done| |].
    + rewrite length_reverse, length_seqZ. lia.
    + rewrite length_fmap, length_seqZ. lia.
Qed.

Lemma sorted_range_down size :
  sorted (range_down size 0) = range 1 (size + 1).
Proof.
  rewrite range_down_reverse.
  transitivity (sorted (range 1 (size + 1)));
    [apply sorted_unique, reverse_Permutation|apply sorted_range].
Qed.

Lemma zget_range lo hi i : 0 <= i < hi - lo -> zget (range lo hi) i = lo + i.
Proof.
  intros Hi. unfold zget, range.
  rewrite lookup_total_seqZ_lt by lia. lia.
Qed.

Lemma zlen_range lo hi : 0 <= hi - lo -> zlen (range lo hi) = hi - lo.
Proof. intros H. unfold zlen, range. rewrite length_seqZ. lia. Qed.

Lemma both_selections_agree depth arr k A st :
  heap st !! arr = Some A -> 0 <= k < zlen A ->
  (length A + 2 <= depth)%nat ->
  fst (both_selections depth arr k st)
    = Val (zget (sorted A) k, zget (sorted A) k, zget (sorted A) k).
Proof.
  intros Harr Hk Hdepth. unfold both_selections.
  pose proof (randomized_select_valid depth arr k A st Harr Hk
                ltac:(lia)) as Hr.
  destruct (randomized_select_spec depth arr k A st Harr)
    as (r & W & st1 & Hrun & [_ Hpres] & _).
  rewrite Hrun in Hr. simpl in Hr. subst r.
  assert (Harr1 : heap st1 !! arr = Some A)
    by (rewrite Hpres; [done|by eapply lookup_lt_Some]).
  pose proof (deterministic_select_valid depth arr k A st1 Harr1 Hk
                ltac:(lia)) as Hd.
  destruct (deterministic_select_spec depth arr k A st1 Harr1)
    as (r & W' & st2 & Hrun2 & [_ Hpres2] & _).
  rewrite Hrun2 in Hd. simpl in Hd. subst r.
  assert (Harr2 : heap st2 !! arr = Some A)
    by (rewrite Hpres2; [done|by eapply lookup_lt_Some]).
  unfold bind. rewrite Hrun, Hrun2.
  rewrite (deref_holds _ _ _ Harr2), item_run by (by rewrite zlen_sorted).
  done.
Qed.

(** X8. On every list that [test_case size] builds, for [size >= 1], the
    harness's rank [size // 2] is valid, and running the randomized
    selector and then the deterministic selector on that list returns
    twice the value [sorted(arr)[k]] the harness expects, so its check
    finds no mismatch.  On the ascending and on the descending list that
    value is [size // 2 + 1], on the list of equal values it is 42. *)
Theorem X8_selectors_on_generated_cases (size : Z) (depth : nat)
    (st : state) (dists : list (string * loc)) (st' : state)
    (name : string) (arr : loc) :
  test_case size st = (Val dists, st') ->
  1 <= size ->
  (Z.to_nat size + 2 <= depth)%nat ->
  (name, arr) ∈ dists ->
  exists expected,
    fst (both_selections depth arr (size / 2) st')
      = Val (expected, expected, expected) /\
    (name = "sorted"%string \/ name = "reverse_sorted"%string ->
     expected = size / 2 + 1) /\
    (name = "all_equal"%string -> expected = 42).
Proof.
  intros Hrun Hsize Hdepth Hin.
  destruct (test_case_run size st) as (dists' & st'' & Hrun' & Hgen & _).
  rewrite Hrun in Hrun'. injection Hrun' as <- <-.
  destruct Hgen as (a1 & a2 & a3 & a4 & a5 & l1 & l5 & -> & _
                    & H1 & Hlen1 & _ & H2 & H3 & H4 & H5 & Hlen5 & _).
  assert (Hk : 0 <= size / 2 < size) by (Z.div_mod_to_equations; lia).
  rewrite !elem_of_cons, elem_of_nil in Hin.
  destruct Hin as [[= -> ->]|[[= -> ->]|[[= -> ->]|[[= -> ->]|[[= -> ->]|[]]]]]].
  - eexists. split; [|split; [intros [|]; discriminate|discriminate]].
    apply (both_selections_agree _ _ _ l1); [done| |lia].
    unfold zlen. lia.
  - eexists. split; [|split; [intros _|discriminate]].
    + apply (both_selections_agree _ _ _ (range 1 (size + 1))); [done| |].
      * rewrite zlen_range; lia.
      * unfold range. rewrite length_seqZ. lia.
    + rewrite sorted_range, zget_range; lia.
  - eexists. split; [|split; [intros _|discriminate]].
    + apply (both_selections_agree _ _ _ (range_down size 0)); [done| |].
      * unfold zlen, range_down. rewrite length_fmap, length_seqZ. lia.
      * unfold range_down. rewrite length_fmap, length_seqZ. lia.
    + rewrite sorted_range_down, zget_range; lia.
  - eexists. split; [|split; [intros [|]; discriminate|intros _]].
    + apply (both_selections_agree _ _ _ (replicate (Z.to_nat size) 42));
        [done| |].
      * rewrite zlen_replicate. lia.
      * rewrite length_replicate. lia.
    + rewrite sorted_replicate, zget_replicate; lia.
  - eexists. split; [|split; [intros [|]; discriminate|discriminate]].
    apply (both_selections_agree _ _ _ l5); [done| |lia].
    unfold zlen. lia.
Qed.

Lemma X8_selectors_on_generated_cases_witness :
  test_case 3 (initial [] (fun n => Z.of_nat n))
    = (Val [("random"%string, 1%nat); ("sorted"%string, 2%nat);
            ("reverse_sorted"%string, 3%nat); ("all_equal"%string, 4%nat);
            ("few_unique"%string, 5%nat)],
       mkState [[]; [1; 2; 3]; [1; 2; 3]; [3; 2; 1]; [42; 42; 42];
                [4; 5; 1]]
         (fun n => Z.of_nat n) 6) /\
  1 <= 3 /\
  (Z.to_nat 3 + 2 <= 5)%nat /\
  ("reverse_sorted"%string, 3%nat)
    ∈ [("random"%string, 1%nat); ("sorted"%string, 2%nat);
       ("reverse_sorted"%string, 3%nat); ("all_equal"%string, 4%nat);
       ("few_unique"%string, 5%nat)] /\
  exists expected,
    fst (both_selections 5 3%nat (3 / 2)
           (mkState [[]; [1; 2; 3]; [1; 2; 3]; [3; 2; 1]; [42; 42; 42];
                     [4; 5; 1]]
              (fun n => Z.of_nat n) 6))
      = Val (expected, expected, expected) /\
    ("reverse_sorted"%string = "sorted"%string \/
     "reverse_sorted"%string = "reverse_sorted"%string ->
     expected = 3 / 2 + 1) /\
    ("reverse_sorted"%string = "all_equal"%string -> expected = 42).
Proof.
  assert (H1 : test_case 3 (initial [] (fun n => Z.of_nat n))
    = (Val [("random"%string, 1%nat); ("sorted"%string, 2%nat);
            ("reverse_sorted"%string, 3%nat); ("all_equal"%string, 4%nat);
            ("few_unique"%string, 5%nat)],
       mkState [[]; [1; 2; 3]; [1; 2; 3]; [3; 2; 1]; [42; 42; 42];
                [4; 5; 1]]
         (fun n => Z.of_nat n) 6)) by reflexivity.
  assert (H2 : 1 <= 3) by lia.
  assert (H3 : (Z.to_nat 3 + 2 <= 5)%nat) by (simpl; lia).
  assert (H4 : ("reverse_sorted"%string, 3%nat)
    ∈ [("random"%string, 1%nat); ("sorted"%string, 2%nat);
       ("reverse_sorted"%string, 3%nat); ("all_equal"%string, 4%nat);
       ("few_unique"%string, 5%nat)])
    by (do 2 apply list_elem_of_further; apply list_elem_of_here).
  split; [exact H1|]. split; [exact H2|]. split; [exact H3|].
  split; [exact H4|].
  exact (X8_selectors_on_generated_cases 3 5%nat _ _ _ _ _ H1 H2 H3 H4).
Defined.

(** * The data structures *)

(** ** Python list accesses and loops in a method *)

Lemma py_get_in_range {A} (l : list A) i :
  0 <= i < Z.of_nat (length l) -> DS.py_get l i = l !! Z.to_nat i.
Proof. intros Hi. unfold DS.py_get. by rewrite index_in_range. Qed.

Lemma py_set_in_range {A} (l : list A) i v :
  0 <= i < Z.of_nat (length l) ->
  DS.py_set l i v = Some (<[Z.to_nat i := v]> l).
Proof. intros Hi. unfold DS.py_set. by rewrite index_in_range. Qed.

Lemma py_get_out_of_range {A} (l : list A) i :
  Z.of_nat (length l) <= i -> DS.py_get l i = None.
Proof.
  intros Hi. unfold DS.py_get, index.
  destruct (Z.leb_spec 0 i), (Z.ltb_spec i (Z.of_nat (length l)));
    simpl; try lia.
  destruct (Z.ltb_spec i 0); simpl; [lia|done].
Qed.

Lemma py_set_out_of_range {A} (l : list A) i v :
  Z.of_nat (length l) <= i -> DS.py_set l i v = None.
Proof.
  intros Hi. unfold DS.py_set, index.
  destruct (Z.leb_spec 0 i), (Z.ltb_spec i (Z.of_nat (length l)));
    simpl; try lia.
  destruct (Z.ltb_spec i 0); simpl; [lia|done].
Qed.

(** The loop rule for methods: [Inv n] holds after [n] iterations, none of
    which raises. *)
Lemma ds_for_inv {S Acc} (xs : list Z) (body : Z -> Acc -> DS.Meth S Acc)
    (Inv : nat -> Acc -> S -> Prop) acc self :
  Inv 0%nat acc self ->
  (forall n x acc self, xs !! n = Some x -> Inv n acc self ->
     exists acc' self',
       body x acc self = (DS.Ok acc', self') /\ Inv (Datatypes.S n) acc' self') ->
  exists acc' self',
    DS.for_ xs body acc self = (DS.Ok acc', self') /\
    Inv (length xs) acc' self'.
Proof.
  revert Inv acc self.
  induction xs as [|x xs IH]; intros Inv acc self H0 Hbody; simpl.
  - by exists acc, self.
  - destruct (Hbody 0%nat x acc self eq_refl H0) as (acc1 & self1 & Hrun & H1).
    unfold DS.bind. rewrite Hrun.
    apply (IH (fun n => Inv (Datatypes.S n))); [done|].
    intros n y acc2 self2 Hy. by apply Hbody.
Qed.

Lemma ds_bind_ok {S A B} (m : DS.Meth S A) (k : A -> DS.Meth S B)
    self a self' :
  m self = (DS.Ok a, self') -> DS.bind m k self = k a self'.
Proof. intros H. unfold DS.bind. by rewrite H. Qed.

Lemma ds_bind_err {S A B} (m : DS.Meth S A) (k : A -> DS.Meth S B)
    self e self' :
  m self = (DS.Err e, self') -> DS.bind m k self = (DS.Err e, self').
Proof. intros H. unfold DS.bind. by rewrite H. Qed.

(** One statement that returns: its run is known or follows by
    computation. *)
Ltac ds_step :=
  erewrite ds_bind_ok by (first [eassumption | reflexivity]).

(** ** MyArray *)

Lemma array_get_run a i :
  0 <= i < Z.of_nat (length (DS.MyArray.data a)) ->
  exists x, DS.MyArray.data a !! Z.to_nat i = Some x /\
            DS.MyArray.get i a = (DS.Ok x, a).
Proof.
  intros Hi.
  destruct (lookup_lt_is_Some_2 (DS.MyArray.data a) (Z.to_nat i)
              ltac:(lia)) as [x Hx].
  exists x. split; [done|].
  unfold DS.MyArray.get. by rewrite py_get_in_range, Hx.
Qed.

Lemma array_set_run a i v :
  0 <= i < Z.of_nat (length (DS.MyArray.data a)) ->
  DS.MyArray.set i v a
    = (DS.Ok tt,
       DS.MyArray.mk (DS.MyArray.capacity a) (DS.MyArray.size a)
         (<[Z.to_nat i := v]> (DS.MyArray.data a))).
Proof.
  intros Hi. unfold DS.MyArray.set, DS.bind.
  by rewrite py_set_in_range.
Qed.

Lemma array_resize_run a :
  array_wf a ->
  DS.MyArray._resize a
    = (DS.Ok tt,
       DS.MyArray.mk (DS.MyArray.capacity a * 2) (DS.MyArray.size a)
         (array_contents a ++
          replicate (Z.to_nat (DS.MyArray.capacity a * 2 - DS.MyArray.size a))
            DS.PyNone)).
Proof.
  intros [Hsize Hlen]. destruct a as [cap n d]. simpl in Hsize, Hlen.
  set (a1 := DS.MyArray.mk (cap * 2) n d).
  destruct (ds_for_inv (range 0 n)
              (fun i new_data =>
                 DS.bind (DS.MyArray.get i)
                   (fun x => DS.of_option (DS.py_set new_data i x)))
              (fun k new_data self =>
                 self = a1 /\
                 new_data = take k d
                   ++ replicate (Z.to_nat (cap * 2) - k) DS.PyNone)
              (replicate (Z.to_nat (cap * 2)) DS.PyNone) a1)
    as (nd & self' & Hrun & -> & ->).
  - split; [done|]. by rewrite take_0, Nat.sub_0_r.
  - intros k x nd self Hx [-> ->].
    apply lookup_seqZ in Hx as [-> Hk].
    destruct (array_get_run a1 (0 + Z.of_nat k) ltac:(simpl; lia))
      as (v & Hv & Hget).
    simpl in Hv. replace (Z.to_nat (0 + Z.of_nat k)) with k in Hv by lia.
    ds_step.
    rewrite py_set_in_range
      by (rewrite length_app, length_take, length_replicate; lia).
    eexists _, a1. split; [reflexivity|]. split; [done|].
    replace (Z.to_nat (0 + Z.of_nat k)) with (length (take k d) + 0)%nat
      by (rewrite length_take; lia).
    rewrite insert_app_r.
    rewrite (take_S_r _ _ _ Hv), <- app_assoc. f_equal.
    destruct (Z.to_nat (cap * 2) - k)%nat as [|m] eqn:Hm; [lia|].
    simpl. f_equal. f_equal. lia.
  - unfold DS.MyArray._resize. do 3 ds_step.
    ds_step. unfold array_contents, DS.update. simpl.
    unfold range in *. rewrite length_seqZ.
    repeat f_equal; lia.
Qed.

Lemma array_append_run a x :
  array_wf a -> 1 <= DS.MyArray.capacity a ->
  exists a',
    DS.MyArray.append x a = (DS.Ok tt, a') /\
    array_wf a' /\
    array_contents a' = array_contents a ++ [x] /\
    DS.MyArray.size a' = DS.MyArray.size a + 1 /\
    DS.MyArray.capacity a'
      = if DS.MyArray.size a =? DS.MyArray.capacity a
        then DS.MyArray.capacity a * 2 else DS.MyArray.capacity a.
Proof.
  intros Hwf Hcap. pose proof Hwf as [Hsize Hlen].
  unfold DS.MyArray.append. do 2 ds_step.
  assert (Hres : exists d2,
    (if DS.MyArray.size a =? DS.MyArray.capacity a
     then DS.MyArray._resize else DS.ret tt) a
      = (DS.Ok tt,
         DS.MyArray.mk
           (if DS.MyArray.size a =? DS.MyArray.capacity a
            then DS.MyArray.capacity a * 2 else DS.MyArray.capacity a)
           (DS.MyArray.size a) d2) /\
    take (Z.to_nat (DS.MyArray.size a)) d2 = array_contents a /\
    Z.of_nat (length d2)
      = (if DS.MyArray.size a =? DS.MyArray.capacity a
         then DS.MyArray.capacity a * 2 else DS.MyArray.capacity a) /\
    DS.MyArray.size a < Z.of_nat (length d2)).
  { destruct (Z.eqb_spec (DS.MyArray.size a) (DS.MyArray.capacity a))
      as [Heq|Hne].
    - eexists. split; [by apply array_resize_run|].
      assert (Hc : length (array_contents a)
                   = Z.to_nat (DS.MyArray.size a))
        by (unfold array_contents; rewrite length_take; lia).
      rewrite length_app, length_replicate, Hc.
      split_and!; [|lia..]. by rewrite take_app_length'.
    - exists (DS.MyArray.data a). destruct a as [cap n d]. simpl in *.
      split_and!; [done|done|lia..]. }
  destruct Hres as (d2 & Hrun & Htake & Hlen2 & Hlt).
  ds_step. ds_step.
  erewrite ds_bind_ok by (apply array_set_run; simpl; lia).
  simpl DS.MyArray.capacity. simpl DS.MyArray.size. simpl DS.MyArray.data.
  eexists. split; [reflexivity|]. simpl.
  split; [|split; [|done]].
  - split; simpl; [|rewrite length_insert]; lia.
  - unfold array_contents at 1. simpl.
    replace (Z.to_nat (DS.MyArray.size a + 1))
      with (S (Z.to_nat (DS.MyArray.size a))) by lia.
    rewrite (take_S_r _ _ x)
      by (apply list_lookup_insert_eq; lia).
    by rewrite take_insert_ge, Htake by lia.
Qed.

Lemma array_elements_run a :
  array_wf a -> DS.MyArray.elements a = (DS.Ok (array_contents a), a).
Proof.
  intros [Hsize Hlen]. unfold DS.MyArray.elements. ds_step.
  destruct (ds_for_inv (range 0 (DS.MyArray.size a))
              (fun i acc =>
                 DS.bind (DS.MyArray.get i) (fun x => DS.ret (acc ++ [x])))
              (fun k acc self =>
                 self = a /\ acc = take k (DS.MyArray.data a))
              [] a)
    as (acc & self' & Hrun & -> & ->).
  - split; [done|]. by rewrite take_0.
  - intros k x acc self Hx [-> ->].
    apply lookup_seqZ in Hx as [-> Hk].
    destruct (array_get_run a (0 + Z.of_nat k) ltac:(lia))
      as (v & Hv & Hget).
    replace (Z.to_nat (0 + Z.of_nat k)) with k in Hv by lia.
    ds_step. eexists _, a. split; [reflexivity|]. split; [done|].
    by rewrite (take_S_r _ _ _ Hv).
  - rewrite Hrun. unfold array_contents, range.
    rewrite length_seqZ. repeat f_equal. lia.
Qed.

(** X9. [MyArray.append] on an array of capacity at least 1 never raises:
    it adds the value at the end of the stored sequence, increases [len] by
    one, and doubles the capacity exactly when the array was full; the
    elements already stored keep their positions, also across the
    resize. *)
Theorem X9_array_append (a : DS.MyArray.t) (x : DS.pyval) :
  array_wf a -> 1 <= DS.MyArray.capacity a ->
  exists a',
    DS.MyArray.append x a = (DS.Ok tt, a') /\
    array_wf a' /\
    DS.MyArray.elements a' = (DS.Ok (array_contents a ++ [x]), a') /\
    DS.MyArray.__len__ a' = (DS.Ok (DS.MyArray.size a + 1), a') /\
    DS.MyArray.capacity a'
      = if DS.MyArray.size a =? DS.MyArray.capacity a
        then DS.MyArray.capacity a * 2 else DS.MyArray.capacity a.
Proof.
  intros Hwf Hcap.
  destruct (array_append_run a x Hwf Hcap)
    as (a' & Hrun & Hwf' & Hc & Hs & Hcap').
  exists a'. split_and!; [done|done| | |done].
  - by rewrite array_elements_run, Hc.
  - unfold DS.MyArray.__len__, DS.field. by rewrite Hs.
Qed.

Lemma X9_array_append_witness :
  array_wf (DS.MyArray.mk 2 2 [DS.PyInt 5; DS.PyInt 6]) /\
  1 <= DS.MyArray.capacity (DS.MyArray.mk 2 2 [DS.PyInt 5; DS.PyInt 6]) /\
  exists a',
    DS.MyArray.append (DS.PyInt 7)
      (DS.MyArray.mk 2 2 [DS.PyInt 5; DS.PyInt 6]) = (DS.Ok tt, a') /\
    array_wf a' /\
    DS.MyArray.elements a'
      = (DS.Ok ([DS.PyInt 5; DS.PyInt 6] ++ [DS.PyInt 7]), a') /\
    DS.MyArray.__len__ a' = (DS.Ok (2 + 1), a') /\
    DS.MyArray.capacity a' = 2 * 2.
Proof.
  assert (H1 : array_wf (DS.MyArray.mk 2 2 [DS.PyInt 5; DS.PyInt 6]))
    by (split; simpl; [lia|reflexivity]).
  assert (H2 : 1 <= DS.MyArray.capacity
                      (DS.MyArray.mk 2 2 [DS.PyInt 5; DS.PyInt 6]))
    by (simpl; lia).
  split; [exact H1|]. split; [exact H2|].
  exact (X9_array_append _ (DS.PyInt 7) H1 H2).
Defined.

Lemma array_grow_run a :
  array_wf a -> 1 <= DS.MyArray.capacity a ->
  exists cap' d2,
    (if DS.MyArray.size a =? DS.MyArray.capacity a
     then DS.MyArray._resize else DS.ret tt) a
      = (DS.Ok tt, DS.MyArray.mk cap' (DS.MyArray.size a) d2) /\
    take (Z.to_nat (DS.MyArray.size a)) d2 = array_contents a /\
    Z.of_nat (length d2) = cap' /\
    DS.MyArray.size a < cap'.
Proof.
  intros [Hsize Hlen] Hcap.
  destruct (Z.eqb_spec (DS.MyArray.size a) (DS.MyArray.capacity a))
    as [Heq|Hne].
  - eexists _, _. split; [by apply array_resize_run|].
    assert (Hc : length (array_contents a) = Z.to_nat (DS.MyArray.size a))
      by (unfold array_contents; rewrite length_take; lia).
    rewrite length_app, length_replicate, Hc.
    split_and!; [|lia..]. by rewrite take_app_length'.
  - exists (DS.MyArray.capacity a), (DS.MyArray.data a).
    destruct a as [cap n d]. simpl in *.
    split_and!; [done|done|lia..].
Qed.

Lemma lookup_range_down a b (k : nat) x :
  range_down a b !! k = Some x -> x = a - Z.of_nat k /\ Z.of_nat k < a - b.
Proof.
  unfold range_down. rewrite list_lookup_fmap.
  destruct (seqZ 0 _ !! k) as [j|] eqn:Hj; simpl; [|done].
  intros [= <-]. apply lookup_seqZ in Hj as [-> Hk]. split; [f_equal|]; lia.
Qed.

Lemma shifted_insert {A} (d dK : list A) (N I : nat) x :
  (I <= N)%nat -> (N < length d)%nat -> length dK = length d ->
  (forall j, dK !! j = if decide (I < j <= N)%nat
                        then d !! (j - 1)%nat else d !! j) ->
  take (S N) (<[I := x]> dK) = take I (take N d) ++ x :: drop I (take N d).
Proof.
  intros HI HN Hlen Hpt. apply list_eq. intros j.
  assert (HlenI : length (take I (take N d)) = I)
    by (rewrite !length_take; lia).
  destruct (decide (j < I)%nat) as [HjI|HjI].
  { rewrite lookup_take_lt, list_lookup_insert_ne, Hpt by lia.
    rewrite decide_False by lia.
    by rewrite lookup_app_l, !lookup_take_lt by lia. }
  rewrite lookup_app_r by lia. rewrite HlenI.
  destruct (decide (j = I)) as [->|Hne].
  { rewrite lookup_take_lt, list_lookup_insert_eq by lia.
    by rewrite Nat.sub_diag. }
  replace (j - I)%nat with (S (j - I - 1)) by lia. simpl.
  rewrite lookup_drop.
  replace (I + (j - I - 1))%nat with (j - 1)%nat by lia.
  destruct (decide (j <= N)%nat) as [HjN|HjN].
  - rewrite lookup_take_lt, list_lookup_insert_ne, Hpt by lia.
    rewrite decide_True by lia. by rewrite lookup_take_lt by lia.
  - by rewrite !lookup_take_ge by lia.
Qed.

Lemma shifted_delete {A} (d dK : list A) (N I : nat) :
  (I < N)%nat -> (N <= length d)%nat -> length dK = length d ->
  (forall j, dK !! j = if decide (I <= j < N - 1)%nat
                        then d !! S j else d !! j) ->
  take (N - 1) dK = take I (take N d) ++ drop (S I) (take N d).
Proof.
  intros HI HN Hlen Hpt. apply list_eq. intros j.
  assert (HlenI : length (take I (take N d)) = I)
    by (rewrite !length_take; lia).
  destruct (decide (j < I)%nat) as [HjI|HjI].
  { rewrite lookup_take_lt, Hpt by lia. rewrite decide_False by lia.
    by rewrite lookup_app_l, !lookup_take_lt by lia. }
  rewrite lookup_app_r by lia. rewrite HlenI, lookup_drop.
  replace (S I + (j - I))%nat with (S j) by lia.
  destruct (decide (j < N - 1)%nat) as [HjN|HjN].
  - rewrite lookup_take_lt, Hpt by lia.
    rewrite decide_True by lia. by rewrite lookup_take_lt by lia.
  - by rewrite !lookup_take_ge by lia.
Qed.

Lemma array_insert_run a index x :
  array_wf a -> 1 <= DS.MyArray.capacity a ->
  0 <= index <= DS.MyArray.size a ->
  exists a',
    DS.MyArray.insert index x a = (DS.Ok tt, a') /\
    array_wf a' /\
    array_contents a'
      = take (Z.to_nat index) (array_contents a)
          ++ x :: drop (Z.to_nat index) (array_contents a) /\
    DS.MyArray.size a' = DS.MyArray.size a + 1.
Proof.
  intros Hwf Hcap Hidx. pose proof Hwf as [Hsize Hlen].
  destruct (array_grow_run a Hwf Hcap)
    as (cap' & d2 & Hgrow & Htake & Hlen2 & Hlt).
  set (n := DS.MyArray.size a) in *.
  unfold DS.MyArray.insert. ds_step. fold n.
  destruct (Z.ltb_spec index 0) as [|_]; [lia|].
  destruct (Z.gtb_spec index n) as [|_]; [lia|]. cbn [orb].
  do 2 ds_step. ds_step.
  simpl DS.MyArray.size.
  destruct (ds_for_inv (range_down n index)
              (fun i (_ : unit) =>
                 DS.bind (DS.MyArray.get (i - 1))
                   (fun x => DS.MyArray.set i x))
              (fun k (_ : unit) self =>
                 exists dk,
                   self = DS.MyArray.mk cap' n dk /\
                   length dk = length d2 /\
                   forall j, dk !! j
                     = if decide (Z.to_nat n - k < j <= Z.to_nat n)%nat
                       then d2 !! (j - 1)%nat else d2 !! j)
              tt (DS.MyArray.mk cap' n d2))
    as ([] & self' & Hloop & dK & -> & HlenK & HptK).
  - exists d2. split_and!; [done..|]. intros j.
    by rewrite decide_False by lia.
  - intros k i [] self Hi (dk & -> & Hlenk & Hptk).
    apply lookup_range_down in Hi as [-> Hk].
    destruct (array_get_run (DS.MyArray.mk cap' n dk) (n - Z.of_nat k - 1)
                ltac:(simpl; lia)) as (v & Hv & Hget).
    simpl in Hv. ds_step.
    rewrite array_set_run by (simpl; lia). simpl.
    eexists tt, _. split; [reflexivity|].
    eexists. split_and!; [done|by rewrite length_insert|].
    intros j. rewrite Hptk, decide_False in Hv by lia.
    destruct (decide (j = Z.to_nat (n - Z.of_nat k))) as [->|Hne].
    + rewrite list_lookup_insert_eq by lia.
      rewrite decide_True by lia. rewrite <- Hv. f_equal. lia.
    + rewrite list_lookup_insert_ne, Hptk by lia.
      repeat case_decide; (done || lia).
  - ds_step.
    erewrite ds_bind_ok by (apply array_set_run; simpl; lia).
    simpl. eexists. split; [reflexivity|]. simpl.
    split; [|split; [|done]].
    + split; simpl; [|rewrite length_insert]; lia.
    + unfold array_contents at 1. simpl. rewrite <- Htake.
      replace (Z.to_nat (n + 1)) with (S (Z.to_nat n)) by lia.
      apply shifted_insert; [lia..|].
      intros j. rewrite HptK. unfold range_down.
      rewrite length_fmap, length_seqZ.
      repeat case_decide; (done || lia).
Qed.

Lemma array_delete_run a index :
  array_wf a -> 0 <= index < DS.MyArray.size a ->
  exists v a',
    DS.MyArray.delete index a = (DS.Ok v, a') /\
    array_wf a' /\
    array_contents a'
      = take (Z.to_nat index) (array_contents a)
          ++ drop (S (Z.to_nat index)) (array_contents a) /\
    last (array_contents a) = Some v /\
    DS.MyArray.size a' = DS.MyArray.size a - 1.
Proof.
  intros [Hsize Hlen] Hidx. destruct a as [cap n d]. simpl in *.
  unfold DS.MyArray.delete. ds_step. cbn [DS.MyArray.size].
  destruct (Z.ltb_spec index 0) as [|_]; [lia|].
  destruct (Z.geb_spec index n) as [|_]; [lia|]. cbn [orb].
  destruct (ds_for_inv (range index (n - 1))
              (fun i (_ : unit) =>
                 DS.bind (DS.MyArray.get (i + 1))
                   (fun x => DS.MyArray.set i x))
              (fun k (_ : unit) self =>
                 exists dk,
                   self = DS.MyArray.mk cap n dk /\
                   length dk = length d /\
                   forall j, dk !! j
                     = if decide (Z.to_nat index <= j
                                  < Z.to_nat index + k)%nat
                       then d !! S j else d !! j)
              tt (DS.MyArray.mk cap n d))
    as ([] & self' & Hloop & dK & -> & HlenK & HptK).
  - exists d. split_and!; [done..|]. intros j.
    by rewrite decide_False by lia.
  - intros k i [] self Hi (dk & -> & Hlenk & Hptk).
    apply lookup_seqZ in Hi as [-> Hk].
    destruct (array_get_run (DS.MyArray.mk cap n dk)
                (index + Z.of_nat k + 1) ltac:(simpl; lia))
      as (v & Hv & Hget).
    simpl in Hv. ds_step.
    rewrite array_set_run by (simpl; lia). simpl.
    eexists tt, _. split; [reflexivity|].
    eexists. split_and!; [done|by rewrite length_insert|].
    intros j. rewrite Hptk, decide_False in Hv by lia.
    destruct (decide (j = Z.to_nat (index + Z.of_nat k))) as [->|Hne].
    + rewrite list_lookup_insert_eq by lia.
      rewrite decide_True by lia. rewrite <- Hv. f_equal. lia.
    + rewrite list_lookup_insert_ne, Hptk by lia.
      repeat case_decide; (done || lia).
  - unfold range in HptK. rewrite length_seqZ in HptK.
    do 3 ds_step. simpl.
    destruct (array_get_run (DS.MyArray.mk cap (n + -1) dK) (n + -1)
                ltac:(simpl; lia)) as (v & Hv & Hget).
    simpl in Hv. rewrite HptK, decide_False in Hv by lia.
    exists v. eexists. split; [exact Hget|]. simpl.
    split; [|split; [|split; [|lia]]].
    + split; simpl; lia.
    + unfold array_contents. simpl.
      replace (Z.to_nat (n + -1)) with (Z.to_nat n - 1)%nat by lia.
      apply shifted_delete; [lia..|].
      intros j. rewrite HptK. repeat case_decide; (done || lia).
    + unfold array_contents. simpl.
      rewrite last_lookup, length_take.
      rewrite lookup_take_lt by lia. rewrite <- Hv. f_equal. lia.
Qed.

(** X10. [MyArray.insert(index, value)] on an array of capacity at least 1:
    for [0 <= index <= len] it puts the value at position [index], moves
    the elements from there on one place to the right (doubling the
    capacity first when the array is full) and increases [len] by one; for
    any other index it raises [IndexError] and leaves the array as it
    was. *)
Theorem X10_array_insert (a : DS.MyArray.t) (index : Z) (x : DS.pyval) :
  array_wf a -> 1 <= DS.MyArray.capacity a ->
  (0 <= index <= DS.MyArray.size a ->
   exists a',
     DS.MyArray.insert index x a = (DS.Ok tt, a') /\
     array_wf a' /\
     DS.MyArray.elements a'
       = (DS.Ok (take (Z.to_nat index) (array_contents a)
                   ++ x :: drop (Z.to_nat index) (array_contents a)), a') /\
     DS.MyArray.size a' = DS.MyArray.size a + 1) /\
  (index < 0 \/ DS.MyArray.size a < index ->
   DS.MyArray.insert index x a = (DS.Err DS.IndexError, a)).
Proof.
  intros Hwf Hcap. split.
  - intros Hidx.
    destruct (array_insert_run a index x Hwf Hcap Hidx)
      as (a' & Hrun & Hwf' & Hc & Hs).
    exists a'. split_and!; [done..| |done].
    by rewrite array_elements_run, Hc.
  - intros Hout. unfold DS.MyArray.insert. ds_step.
    destruct (Z.ltb_spec index 0), (Z.gtb_spec index (DS.MyArray.size a));
      (done || lia).
Qed.

Lemma X10_array_insert_witness :
  array_wf (DS.MyArray.mk 3 3 [DS.PyInt 1; DS.PyInt 2; DS.PyInt 3]) /\
  1 <= DS.MyArray.capacity
         (DS.MyArray.mk 3 3 [DS.PyInt 1; DS.PyInt 2; DS.PyInt 3]) /\
  0 <= 1 <= 3 /\
  exists a',
    DS.MyArray.insert 1 (DS.PyInt 9)
      (DS.MyArray.mk 3 3 [DS.PyInt 1; DS.PyInt 2; DS.PyInt 3])
      = (DS.Ok tt, a') /\
    array_wf a' /\
    DS.MyArray.elements a'
      = (DS.Ok [DS.PyInt 1; DS.PyInt 9; DS.PyInt 2; DS.PyInt 3], a') /\
    DS.MyArray.size a' = 3 + 1.
Proof.
  assert (H1 : array_wf
                 (DS.MyArray.mk 3 3 [DS.PyInt 1; DS.PyInt 2; DS.PyInt 3]))
    by (split; simpl; [lia|reflexivity]).
  assert (H2 : 1 <= DS.MyArray.capacity
                      (DS.MyArray.mk 3 3
                         [DS.PyInt 1; DS.PyInt 2; DS.PyInt 3]))
    by (simpl; lia).
  assert (H3 : 0 <= 1 <= 3) by lia.
  split; [exact H1|]. split; [exact H2|]. split; [exact H3|].
  exact (proj1 (X10_array_insert _ 1 (DS.PyInt 9) H1 H2) H3).
Defined.

(** X11. [MyArray.delete(index)] for [0 <= index < len] removes the element
    at [index], closing the gap, and decreases [len] by one; the value it
    returns is the element that was last in the array, which is the removed
    element only when [index] was the last position.  For any other index
    it raises [IndexError] and leaves the array as it was. *)
Theorem X11_array_delete (a : DS.MyArray.t) (index : Z) :
  array_wf a ->
  (0 <= index < DS.MyArray.size a ->
   exists v a',
     DS.MyArray.delete index a = (DS.Ok v, a') /\
     array_wf a' /\
     DS.MyArray.elements a'
       = (DS.Ok (take (Z.to_nat index) (array_contents a)
                   ++ drop (S (Z.to_nat index)) (array_contents a)), a') /\
     last (array_contents a) = Some v /\
     DS.MyArray.size a' = DS.MyArray.size a - 1) /\
  (index < 0 \/ DS.MyArray.size a <= index ->
   DS.MyArray.delete index a = (DS.Err DS.IndexError, a)).
Proof.
  intros Hwf. split.
  - intros Hidx.
    destruct (array_delete_run a index Hwf Hidx)
      as (v & a' & Hrun & Hwf' & Hc & Hlast & Hs).
    exists v, a'. split_and!; [done..| |done|done].
    by rewrite array_elements_run, Hc.
  - intros Hout. unfold DS.MyArray.delete. ds_step.
    destruct (Z.ltb_spec index 0), (Z.geb_spec index (DS.MyArray.size a));
      (done || lia).
Qed.

Lemma X11_array_delete_witness :
  array_wf (DS.MyArray.mk 4 3 [DS.PyInt 1; DS.PyInt 2; DS.PyInt 3;
                               DS.PyNone]) /\
  0 <= 0 < 3 /\
  exists v a',
    DS.MyArray.delete 0
      (DS.MyArray.mk 4 3 [DS.PyInt 1; DS.PyInt 2; DS.PyInt 3; DS.PyNone])
      = (DS.Ok v, a') /\
    array_wf a' /\
    DS.MyArray.elements a' = (DS.Ok [DS.PyInt 2; DS.PyInt 3], a') /\
    last [DS.PyInt 1; DS.PyInt 2; DS.PyInt 3] = Some v /\
    DS.MyArray.size a' = 3 - 1.
Proof.
  assert (H1 : array_wf
                 (DS.MyArray.mk 4 3 [DS.PyInt 1; DS.PyInt 2; DS.PyInt 3;
                                     DS.PyNone]))
    by (split; simpl; [lia|reflexivity]).
  assert (H2 : 0 <= 0 < 3) by lia.
  split; [exact H1|]. split; [exact H2|].
  exact (proj1 (X11_array_delete _ 0 H1) H2).
Defined.

(** X12. [MyArray] indexing is checked against [len], not against the
    capacity: [a[index]] and [a[index] = value] raise [IndexError] for a
    negative index and for [index >= len] and leave the array as it was;
    for [0 <= index < len] reading returns the stored element, and writing
    replaces just that element, which a following read returns. *)
Theorem X12_array_indexing (a : DS.MyArray.t) (index : Z) (x : DS.pyval) :
  array_wf a ->
  (index < 0 \/ DS.MyArray.size a <= index ->
   DS.MyArray.__getitem__ index a = (DS.Err DS.IndexError, a) /\
   DS.MyArray.__setitem__ index x a = (DS.Err DS.IndexError, a)) /\
  (0 <= index < DS.MyArray.size a ->
   exists v a',
     array_contents a !! Z.to_nat index = Some v /\
     DS.MyArray.__getitem__ index a = (DS.Ok v, a) /\
     DS.MyArray.__setitem__ index x a = (DS.Ok tt, a') /\
     array_wf a' /\
     array_contents a' = <[Z.to_nat index := x]> (array_contents a) /\
     DS.MyArray.__getitem__ index a' = (DS.Ok x, a')).
Proof.
  intros [Hsize Hlen]. split.
  - intros Hout. unfold DS.MyArray.__getitem__, DS.MyArray.__setitem__.
    do 2 ds_step.
    destruct (Z.ltb_spec index 0), (Z.geb_spec index (DS.MyArray.size a));
      (done || lia).
  - intros Hidx.
    destruct (array_get_run a index ltac:(lia)) as (v & Hv & Hget).
    exists v. eexists. split_and!.
    + unfold array_contents. by rewrite lookup_take_lt by lia.
    + unfold DS.MyArray.__getitem__. ds_step.
      destruct (Z.ltb_spec index 0), (Z.geb_spec index (DS.MyArray.size a));
        (done || lia).
    + unfold DS.MyArray.__setitem__. ds_step.
      destruct (Z.ltb_spec index 0), (Z.geb_spec index (DS.MyArray.size a));
        try lia.
      cbn [orb]. apply array_set_run. lia.
    + split; simpl; [|rewrite length_insert]; lia.
    + unfold array_contents. simpl. by rewrite take_insert_lt by lia.
    + unfold DS.MyArray.__getitem__. ds_step. cbn [DS.MyArray.size].
      destruct (Z.ltb_spec index 0), (Z.geb_spec index (DS.MyArray.size a));
        try lia.
      cbn [orb]. unfold DS.MyArray.get. cbn [DS.MyArray.data].
      rewrite py_get_in_range by (rewrite length_insert; lia).
      by rewrite list_lookup_insert_eq by lia.
Qed.

Lemma X12_array_indexing_witness :
  array_wf (DS.MyArray.mk 4 2 [DS.PyInt 1; DS.PyInt 2; DS.PyNone;
                               DS.PyNone]) /\
  (-1 < 0 \/ 2 <= -1) /\
  DS.MyArray.__getitem__ (-1)
    (DS.MyArray.mk 4 2 [DS.PyInt 1; DS.PyInt 2; DS.PyNone; DS.PyNone])
    = (DS.Err DS.IndexError,
       DS.MyArray.mk 4 2 [DS.PyInt 1; DS.PyInt 2; DS.PyNone; DS.PyNone]) /\
  DS.MyArray.__setitem__ (-1) (DS.PyInt 5)
    (DS.MyArray.mk 4 2 [DS.PyInt 1; DS.PyInt 2; DS.PyNone; DS.PyNone])
    = (DS.Err DS.IndexError,
       DS.MyArray.mk 4 2 [DS.PyInt 1; DS.PyInt 2; DS.PyNone; DS.PyNone]).
Proof.
  assert (H1 : array_wf
                 (DS.MyArray.mk 4 2 [DS.PyInt 1; DS.PyInt 2; DS.PyNone;
                                     DS.PyNone]))
    by (split; simpl; [lia|reflexivity]).
  assert (H2 : -1 < 0 \/ 2 <= -1) by lia.
  split; [exact H1|]. split; [exact H2|].
  exact (proj1 (X12_array_indexing _ (-1) (DS.PyInt 5) H1) H2).
Defined.


(** ** Stack *)

Lemma stack_get_run a i :
  0 <= i < Z.of_nat (length (DS.Stack.data a)) ->
  exists x, DS.Stack.data a !! Z.to_nat i = Some x /\
            DS.Stack.get i a = (DS.Ok x, a).
Proof.
  intros Hi.
  destruct (lookup_lt_is_Some_2 (DS.Stack.data a) (Z.to_nat i)
              ltac:(lia)) as [x Hx].
  exists x. split; [done|].
  unfold DS.Stack.get. by rewrite py_get_in_range, Hx.
Qed.

Lemma stack_set_run a i v :
  0 <= i < Z.of_nat (length (DS.Stack.data a)) ->
  DS.Stack.set i v a
    = (DS.Ok tt,
       DS.Stack.mk (DS.Stack.capacity a) (DS.Stack.size a)
         (<[Z.to_nat i := v]> (DS.Stack.data a))).
Proof.
  intros Hi. unfold DS.Stack.set, DS.bind.
  by rewrite py_set_in_range.
Qed.

Lemma stack_resize_run a :
  stack_wf a ->
  DS.Stack._resize a
    = (DS.Ok tt,
       DS.Stack.mk (DS.Stack.capacity a * 2) (DS.Stack.size a)
         (stack_contents a ++
          replicate (Z.to_nat (DS.Stack.capacity a * 2 - DS.Stack.size a))
            DS.PyNone)).
Proof.
  intros [Hsize Hlen]. destruct a as [cap n d]. simpl in Hsize, Hlen.
  set (a1 := DS.Stack.mk (cap * 2) n d).
  destruct (ds_for_inv (range 0 n)
              (fun i new_data =>
                 DS.bind (DS.Stack.get i)
                   (fun x => DS.of_option (DS.py_set new_data i x)))
              (fun k new_data self =>
                 self = a1 /\
                 new_data = take k d
                   ++ replicate (Z.to_nat (cap * 2) - k) DS.PyNone)
              (replicate (Z.to_nat (cap * 2)) DS.PyNone) a1)
    as (nd & self' & Hrun & -> & ->).
  - split; [done|]. by rewrite take_0, Nat.sub_0_r.
  - intros k x nd self Hx [-> ->].
    apply lookup_seqZ in Hx as [-> Hk].
    destruct (stack_get_run a1 (0 + Z.of_nat k) ltac:(simpl; lia))
      as (v & Hv & Hget).
    simpl in Hv. replace (Z.to_nat (0 + Z.of_nat k)) with k in Hv by lia.
    ds_step.
    rewrite py_set_in_range
      by (rewrite length_app, length_take, length_replicate; lia).
    eexists _, a1. split; [reflexivity|]. split; [done|].
    replace (Z.to_nat (0 + Z.of_nat k)) with (length (take k d) + 0)%nat
      by (rewrite length_take; lia).
    rewrite insert_app_r.
    rewrite (take_S_r _ _ _ Hv), <- app_assoc. f_equal.
    destruct (Z.to_nat (cap * 2) - k)%nat as [|m] eqn:Hm; [lia|].
    simpl. f_equal. f_equal. lia.
  - unfold DS.Stack._resize. do 3 ds_step.
    ds_step. unfold stack_contents, DS.update. simpl.
    unfold range in *. rewrite length_seqZ.
    repeat f_equal; lia.
Qed.

Lemma stack_grow_run a :
  stack_wf a -> 1 <= DS.Stack.capacity a ->
  exists cap' d2,
    (if DS.Stack.size a =? DS.Stack.capacity a
     then DS.Stack._resize else DS.ret tt) a
      = (DS.Ok tt, DS.Stack.mk cap' (DS.Stack.size a) d2) /\
    take (Z.to_nat (DS.Stack.size a)) d2 = stack_contents a /\
    Z.of_nat (length d2) = cap' /\
    DS.Stack.size a < cap'.
Proof.
  intros [Hsize Hlen] Hcap.
  destruct (Z.eqb_spec (DS.Stack.size a) (DS.Stack.capacity a))
    as [Heq|Hne].
  - eexists _, _. split; [by apply stack_resize_run|].
    assert (Hc : length (stack_contents a) = Z.to_nat (DS.Stack.size a))
      by (unfold stack_contents; rewrite length_take; lia).
    rewrite length_app, length_replicate, Hc.
    split_and!; [|lia..]. by rewrite take_app_length'.
  - exists (DS.Stack.capacity a), (DS.Stack.data a).
    destruct a as [cap n d]. simpl in *.
    split_and!; [done|done|lia..].
Qed.

Lemma stack_elements_run a :
  stack_wf a -> DS.Stack.elements a = (DS.Ok (stack_contents a), a).
Proof.
  intros [Hsize Hlen]. unfold DS.Stack.elements. ds_step.
  destruct (ds_for_inv (range 0 (DS.Stack.size a))
              (fun i acc =>
                 DS.bind (DS.Stack.get i) (fun x => DS.ret (acc ++ [x])))
              (fun k acc self =>
                 self = a /\ acc = take k (DS.Stack.data a))
              [] a)
    as (acc & self' & Hrun & -> & ->).
  - split; [done|]. by rewrite take_0.
  - intros k x acc self Hx [-> ->].
    apply lookup_seqZ in Hx as [-> Hk].
    destruct (stack_get_run a (0 + Z.of_nat k) ltac:(lia))
      as (v & Hv & Hget).
    replace (Z.to_nat (0 + Z.of_nat k)) with k in Hv by lia.
    ds_step. eexists _, a. split; [reflexivity|]. split; [done|].
    by rewrite (take_S_r _ _ _ Hv).
  - rewrite Hrun. unfold stack_contents, range.
    rewrite length_seqZ. repeat f_equal. lia.
Qed.

Lemma stack_push_run s x :
  stack_wf s -> 1 <= DS.Stack.capacity s ->
  exists s',
    DS.Stack.push x s = (DS.Ok tt, s') /\
    stack_wf s' /\
    stack_contents s' = stack_contents s ++ [x] /\
    DS.Stack.size s' = DS.Stack.size s + 1.
Proof.
  intros Hwf Hcap. pose proof Hwf as [Hsize Hlen].
  destruct (stack_grow_run s Hwf Hcap)
    as (cap' & d2 & Hgrow & Htake & Hlen2 & Hlt).
  unfold DS.Stack.push. do 3 ds_step.
  erewrite ds_bind_ok by (apply stack_set_run; simpl; lia).
  eexists. split; [reflexivity|]. simpl.
  split; [|split; [|done]].
  - split; simpl; [|rewrite length_insert]; lia.
  - unfold stack_contents at 1. simpl.
    replace (Z.to_nat (DS.Stack.size s + 1))
      with (S (Z.to_nat (DS.Stack.size s))) by lia.
    rewrite (take_S_r _ _ x) by (apply list_lookup_insert_eq; lia).
    by rewrite take_insert_ge, Htake by lia.
Qed.

Lemma stack_pop_run s :
  stack_wf s -> 0 < DS.Stack.size s ->
  exists v,
    last (stack_contents s) = Some v /\
    DS.Stack.peek s = (DS.Ok v, s) /\
    DS.Stack.pop s
      = (DS.Ok v,
         DS.Stack.mk (DS.Stack.capacity s) (DS.Stack.size s - 1)
           (DS.Stack.data s)).
Proof.
  intros [Hsize Hlen] Hpos.
  destruct (stack_get_run s (DS.Stack.size s - 1) ltac:(lia))
    as (v & Hv & Hget).
  exists v. split_and!.
  - unfold stack_contents. rewrite last_lookup, length_take.
    rewrite lookup_take_lt by lia. rewrite <- Hv. f_equal. lia.
  - unfold DS.Stack.peek. ds_step.
    destruct (Z.eqb_spec (DS.Stack.size s) 0) as [|_]; [lia|].
    by ds_step.
  - unfold DS.Stack.pop. ds_step.
    destruct (Z.eqb_spec (DS.Stack.size s) 0) as [|_]; [lia|].
    do 2 ds_step. cbn [DS.Stack.size].
    unfold DS.Stack.get in *. cbn [DS.Stack.data].
    replace (DS.Stack.size s + -1) with (DS.Stack.size s - 1) by lia.
    destruct (DS.py_get (DS.Stack.data s) (DS.Stack.size s - 1));
      simpl in *; [|done].
    injection Hget as ->. done.
Qed.

(** X13. A [Stack] of capacity at least 1 is last-in first-out: [push]
    never raises (it doubles the capacity when the stack is full) and adds
    the item on top; right after it, [peek] returns that item without
    changing the stack and [pop] returns it and leaves the stored sequence
    as it was before the push. *)
Theorem X13_stack_push_then_pop (s : DS.Stack.t) (x : DS.pyval) :
  stack_wf s -> 1 <= DS.Stack.capacity s ->
  exists s1 s2,
    DS.Stack.push x s = (DS.Ok tt, s1) /\
    stack_wf s1 /\
    DS.Stack.elements s1 = (DS.Ok (stack_contents s ++ [x]), s1) /\
    DS.Stack.peek s1 = (DS.Ok x, s1) /\
    DS.Stack.pop s1 = (DS.Ok x, s2) /\
    stack_wf s2 /\
    DS.Stack.elements s2 = (DS.Ok (stack_contents s), s2) /\
    DS.Stack.size s2 = DS.Stack.size s.
Proof.
  intros Hwf Hcap. pose proof Hwf as [Hsize Hlen].
  destruct (stack_push_run s x Hwf Hcap) as (s1 & Hpush & Hwf1 & Hc1 & Hs1).
  destruct (stack_pop_run s1 Hwf1 ltac:(lia))
    as (v & Hlast & Hpeek & Hpop).
  rewrite Hc1, last_snoc in Hlast. injection Hlast as <-.
  assert (Hwf2 : stack_wf (DS.Stack.mk (DS.Stack.capacity s1)
                             (DS.Stack.size s1 - 1) (DS.Stack.data s1))).
  { destruct Hwf1 as [Hsize1 Hlen1]. split; simpl; lia. }
  assert (Hc2 : stack_contents (DS.Stack.mk (DS.Stack.capacity s1)
                                  (DS.Stack.size s1 - 1) (DS.Stack.data s1))
                = stack_contents s).
  { unfold stack_contents at 1. simpl.
    replace (Z.to_nat (DS.Stack.size s1 - 1))
      with (length (stack_contents s))
      by (unfold stack_contents; rewrite length_take; lia).
    unfold stack_contents in Hc1 at 1.
    replace (Z.to_nat (DS.Stack.size s1))
      with (S (length (stack_contents s))) in Hc1
      by (unfold stack_contents; rewrite length_take; lia).
    apply (f_equal (take (length (stack_contents s)))) in Hc1.
    rewrite take_take, take_app_length in Hc1.
    by rewrite Nat.min_l in Hc1 by lia. }
  eexists s1, _. split_and!; try done.
  - by rewrite stack_elements_run, Hc1.
  - by rewrite stack_elements_run, Hc2.
  - simpl. lia.
Qed.

Lemma X13_stack_push_then_pop_witness :
  stack_wf (DS.Stack.mk 1 1 [DS.PyInt 4]) /\
  1 <= DS.Stack.capacity (DS.Stack.mk 1 1 [DS.PyInt 4]) /\
  exists s1 s2,
    DS.Stack.push (DS.PyInt 8) (DS.Stack.mk 1 1 [DS.PyInt 4])
      = (DS.Ok tt, s1) /\
    stack_wf s1 /\
    DS.Stack.elements s1 = (DS.Ok ([DS.PyInt 4] ++ [DS.PyInt 8]), s1) /\
    DS.Stack.peek s1 = (DS.Ok (DS.PyInt 8), s1) /\
    DS.Stack.pop s1 = (DS.Ok (DS.PyInt 8), s2) /\
    stack_wf s2 /\
    DS.Stack.elements s2 = (DS.Ok [DS.PyInt 4], s2) /\
    DS.Stack.size s2 = 1.
Proof.
  assert (H1 : stack_wf (DS.Stack.mk 1 1 [DS.PyInt 4]))
    by (split; simpl; [lia|reflexivity]).
  assert (H2 : 1 <= DS.Stack.capacity (DS.Stack.mk 1 1 [DS.PyInt 4]))
    by (simpl; lia).
  split; [exact H1|]. split; [exact H2|].
  exact (X13_stack_push_then_pop _ (DS.PyInt 8) H1 H2).
Defined.

(** X14. [Stack.pop] and [Stack.peek] raise [IndexError] on an empty stack
    and leave it empty; on a non-empty stack both return the item pushed
    last, [peek] leaving the stack as it is and [pop] removing that one
    item. *)
Theorem X14_stack_pop_and_peek (s : DS.Stack.t) :
  stack_wf s ->
  (DS.Stack.size s = 0 ->
   DS.Stack.pop s = (DS.Err DS.IndexError, s) /\
   DS.Stack.peek s = (DS.Err DS.IndexError, s)) /\
  (0 < DS.Stack.size s ->
   exists v s',
     last (stack_contents s) = Some v /\
     DS.Stack.peek s = (DS.Ok v, s) /\
     DS.Stack.pop s = (DS.Ok v, s') /\
     stack_wf s' /\
     stack_contents s = stack_contents s' ++ [v]).
Proof.
  intros Hwf. split.
  - intros Hz. unfold DS.Stack.pop, DS.Stack.peek.
    do 2 ds_step. by rewrite Hz.
  - intros Hpos. destruct (stack_pop_run s Hwf Hpos)
      as (v & Hlast & Hpeek & Hpop).
    destruct Hwf as [Hsize Hlen].
    exists v. eexists. split_and!; [done|done|exact Hpop| |].
    + split; simpl; lia.
    + apply last_Some in Hlast as [c' Hc']. rewrite Hc'. f_equal.
      unfold stack_contents at 1. simpl.
      assert (Hl : length (stack_contents s) = Z.to_nat (DS.Stack.size s))
        by (unfold stack_contents; rewrite length_take; lia).
      rewrite Hc', length_app in Hl. simpl in Hl.
      apply (f_equal (take (length c'))) in Hc'.
      unfold stack_contents in Hc'.
      rewrite take_take, take_app_length in Hc'.
      rewrite Nat.min_l in Hc' by lia. rewrite <- Hc'. f_equal. lia.
Qed.

Lemma X14_stack_pop_and_peek_witness :
  stack_wf (DS.Stack.__init__ 10) /\
  DS.Stack.size (DS.Stack.__init__ 10) = 0 /\
  DS.Stack.pop (DS.Stack.__init__ 10)
    = (DS.Err DS.IndexError, DS.Stack.__init__ 10) /\
  DS.Stack.peek (DS.Stack.__init__ 10)
    = (DS.Err DS.IndexError, DS.Stack.__init__ 10).
Proof.
  assert (H1 : stack_wf (DS.Stack.__init__ 10))
    by (split; simpl; [lia|reflexivity]).
  assert (H2 : DS.Stack.size (DS.Stack.__init__ 10) = 0) by reflexivity.
  split; [exact H1|]. split; [exact H2|].
  exact (proj1 (X14_stack_pop_and_peek _ H1) H2).
Defined.

(** ** Containers created without room *)

(** X15. A container created with capacity 0 can never take an element:
    doubling 0 leaves no room, so [MyArray.append] and [Stack.push] raise
    [IndexError] and [Queue.enqueue] raises [ZeroDivisionError] (from the
    modulo by the capacity).  With a negative capacity all three raise
    [IndexError]. *)
Theorem X15_no_room_without_capacity (capacity : Z) (x : DS.pyval) :
  capacity <= 0 ->
  fst (DS.MyArray.append x (DS.MyArray.__init__ capacity))
    = DS.Err DS.IndexError /\
  fst (DS.Stack.push x (DS.Stack.__init__ capacity))
    = DS.Err DS.IndexError /\
  fst (DS.Queue.enqueue x (DS.Queue.__init__ capacity))
    = DS.Err (if capacity =? 0 then DS.ZeroDivisionError
              else DS.IndexError).
Proof.
  intros Hc. destruct capacity as [|p|p]; [|lia|];
    split_and!; reflexivity.
Qed.

Lemma X15_no_room_without_capacity_witness :
  0 <= 0 /\
  fst (DS.MyArray.append (DS.PyInt 1) (DS.MyArray.__init__ 0))
    = DS.Err DS.IndexError /\
  fst (DS.Stack.push (DS.PyInt 1) (DS.Stack.__init__ 0))
    = DS.Err DS.IndexError /\
  fst (DS.Queue.enqueue (DS.PyInt 1) (DS.Queue.__init__ 0))
    = DS.Err DS.ZeroDivisionError.
Proof.
  assert (H1 : 0 <= 0) by lia.
  split; [exact H1|].
  exact (X15_no_room_without_capacity 0 (DS.PyInt 1) H1).
Defined.

(** ** Queue *)

Lemma mod_distinct c f i j :
  0 < c -> 0 <= i < j -> j - i < c -> (f + i) mod c <> (f + j) mod c.
Proof.
  intros Hc Hij Hlt Heq.
  assert (H0 : ((f + j) - (f + i)) mod c = 0)
    by (rewrite Zminus_mod, Heq, Z.sub_diag; apply Z.mod_0_l; lia).
  replace (f + j - (f + i)) with (j - i) in H0 by lia.
  rewrite Z.mod_small in H0 by lia. lia.
Qed.

Lemma fmap_seqZ_ext {A} (f g : Z -> A) n :
  (forall i, 0 <= i < n -> f i = g i) -> f <$> seqZ 0 n = g <$> seqZ 0 n.
Proof.
  intros H. apply list_fmap_ext. intros k i Hi.
  apply lookup_seqZ in Hi as [-> Hk]. apply H. lia.
Qed.

Lemma seqZ_snoc (n : Z) : 0 <= n -> seqZ 0 (n + 1) = seqZ 0 n ++ [n].
Proof.
  intros Hn. rewrite <- (Z2Nat.id n) at 1 by lia.
  replace (Z.of_nat (Z.to_nat n) + 1) with (Z.of_nat (S (Z.to_nat n)))
    by lia.
  rewrite seqZ_S. rewrite Z2Nat.id by lia. f_equal.
Qed.

Lemma queue_get_run q i :
  0 <= i < Z.of_nat (length (DS.Queue.data q)) ->
  DS.Queue.get i q = (DS.Ok (DS.Queue.data q !!! Z.to_nat i), q).
Proof.
  intros Hi. unfold DS.Queue.get.
  rewrite py_get_in_range by done.
  by rewrite (list_lookup_lookup_total_lt _ (Z.to_nat i)) by lia.
Qed.

Lemma queue_set_run q i v :
  0 <= i < Z.of_nat (length (DS.Queue.data q)) ->
  DS.Queue.set i v q
    = (DS.Ok tt,
       DS.Queue.mk (DS.Queue.capacity q) (DS.Queue.size q)
         (DS.Queue.front q) (DS.Queue.rear q)
         (<[Z.to_nat i := v]> (DS.Queue.data q))).
Proof.
  intros Hi. unfold DS.Queue.set, DS.bind.
  by rewrite py_set_in_range.
Qed.

Lemma py_mod_run {S} a b (self : S) :
  b <> 0 -> DS.py_mod a b self = (DS.Ok (a mod b), self).
Proof.
  intros Hb. unfold DS.py_mod. by destruct (Z.eqb_spec b 0).
Qed.

Lemma queue_slot_run q i :
  queue_wf q ->
  DS.bind (DS.field DS.Queue.front)
    (fun f => DS.bind (DS.field DS.Queue.capacity)
       (fun cap => DS.bind (DS.py_mod (f + i) cap)
          (fun j => DS.Queue.get j))) q
    = (DS.Ok (queue_slot q i), q).
Proof.
  intros (Hcap & Hsize & Hfront & Hrear & Hlen).
  do 2 ds_step. erewrite ds_bind_ok by (apply py_mod_run; lia).
  apply queue_get_run.
  pose proof (Z.mod_pos_bound (DS.Queue.front q + i) (DS.Queue.capacity q)).
  lia.
Qed.

Lemma bind_assoc_run {S A B C} (m : DS.Meth S A) (f : A -> DS.Meth S B)
    (g : B -> DS.Meth S C) self :
  DS.bind m (fun x => DS.bind (f x) g) self
    = DS.bind (DS.bind m f) g self.
Proof. unfold DS.bind. by destruct (m self) as [[a|e] self']. Qed.

Lemma queue_elements_run q :
  queue_wf q -> DS.Queue.elements q = (DS.Ok (queue_contents q), q).
Proof.
  intros Hwf. pose proof Hwf as (Hcap & Hsize & Hfront & Hrear & Hlen).
  unfold DS.Queue.elements. ds_step.
  destruct (ds_for_inv (range 0 (DS.Queue.size q))
              (fun i elements =>
                 DS.bind (DS.field DS.Queue.front)
                   (fun f => DS.bind (DS.field DS.Queue.capacity)
                      (fun cap => DS.bind (DS.py_mod (f + i) cap)
                         (fun j => DS.bind (DS.Queue.get j)
                            (fun x => DS.ret (elements ++ [x]))))))
              (fun k acc self =>
                 self = q /\
                 acc = queue_slot q <$> seqZ 0 (Z.of_nat k))
              [] q)
    as (acc & self' & Hrun & -> & ->).
  - by split.
  - intros k x acc self Hx [-> ->].
    apply lookup_seqZ in Hx as [-> Hk].
    pose proof (queue_slot_run q (0 + Z.of_nat k) Hwf) as Hslot.
    do 2 ds_step.
    erewrite ds_bind_ok by (apply py_mod_run; lia).
    erewrite ds_bind_ok.
    2:{ apply queue_get_run.
        pose proof (Z.mod_pos_bound (DS.Queue.front q + (0 + Z.of_nat k))
                      (DS.Queue.capacity q)). lia. }
    eexists _, q. split; [reflexivity|]. split; [done|].
    rewrite seqZ_S, fmap_app. simpl. do 2 f_equal.
  - rewrite Hrun. unfold queue_contents, range.
    rewrite length_seqZ, Z.sub_0_r, Z2Nat.id by lia. done.
Qed.

Lemma queue_resize_run q :
  queue_wf q ->
  DS.Queue._resize q
    = (DS.Ok tt,
       DS.Queue.mk (DS.Queue.capacity q * 2) (DS.Queue.size q) 0
         (DS.Queue.size q - 1)
         (queue_contents q ++
          replicate (Z.to_nat (DS.Queue.capacity q * 2 - DS.Queue.size q))
            DS.PyNone)).
Proof.
  intros Hwf. pose proof Hwf as (Hcap & Hsize & Hfront & Hrear & Hlen).
  unfold DS.Queue._resize. do 2 ds_step.
  destruct (ds_for_inv (range 0 (DS.Queue.size q))
              (fun i new_data =>
                 DS.bind (DS.field DS.Queue.front)
                   (fun f => DS.bind (DS.field DS.Queue.capacity)
                      (fun cap => DS.bind (DS.py_mod (f + i) cap)
                         (fun j => DS.bind (DS.Queue.get j)
                            (fun x => DS.of_option
                                        (DS.py_set new_data i x))))))
              (fun k new_data self =>
                 self = q /\
                 new_data = (queue_slot q <$> seqZ 0 (Z.of_nat k))
                   ++ replicate (Z.to_nat (DS.Queue.capacity q * 2) - k)
                        DS.PyNone)
              (replicate (Z.to_nat (DS.Queue.capacity q * 2)) DS.PyNone) q)
    as (nd & self' & Hrun & -> & ->).
  - split; [done|]. simpl. by rewrite Nat.sub_0_r.
  - intros k x nd self Hx [-> ->].
    apply lookup_seqZ in Hx as [-> Hk].
    do 2 ds_step.
    erewrite ds_bind_ok by (apply py_mod_run; lia).
    erewrite ds_bind_ok.
    2:{ apply queue_get_run.
        pose proof (Z.mod_pos_bound (DS.Queue.front q + (0 + Z.of_nat k))
                      (DS.Queue.capacity q)). lia. }
    rewrite py_set_in_range
      by (rewrite length_app, length_fmap, length_seqZ, length_replicate;
          lia).
    eexists _, q. split; [reflexivity|]. split; [done|].
    replace (Z.to_nat (0 + Z.of_nat k))
      with (length (queue_slot q <$> seqZ 0 (Z.of_nat k)) + 0)%nat
      by (rewrite length_fmap, length_seqZ; lia).
    rewrite insert_app_r, seqZ_S, fmap_app, <- app_assoc. f_equal.
    destruct (Z.to_nat (DS.Queue.capacity q * 2) - k)%nat as [|m] eqn:Hm;
      [lia|].
    simpl. f_equal. f_equal. lia.
  - ds_step. unfold DS.update, queue_contents, range.
    rewrite length_seqZ, Z.sub_0_r, Z2Nat.id by lia.
    repeat f_equal. lia.
Qed.

Lemma queue_contents_length q :
  length (queue_contents q) = Z.to_nat (DS.Queue.size q).
Proof. unfold queue_contents. by rewrite length_fmap, length_seqZ. Qed.

Lemma queue_resized_wf q :
  queue_wf q ->
  queue_wf
    (DS.Queue.mk (DS.Queue.capacity q * 2) (DS.Queue.size q) 0
       (DS.Queue.size q - 1)
       (queue_contents q ++
        replicate (Z.to_nat (DS.Queue.capacity q * 2 - DS.Queue.size q))
          DS.PyNone)) /\
  queue_contents
    (DS.Queue.mk (DS.Queue.capacity q * 2) (DS.Queue.size q) 0
       (DS.Queue.size q - 1)
       (queue_contents q ++
        replicate (Z.to_nat (DS.Queue.capacity q * 2 - DS.Queue.size q))
          DS.PyNone))
    = queue_contents q.
Proof.
  intros (Hcap & Hsize & Hfront & Hrear & Hlen). split.
  - unfold queue_wf. cbn [DS.Queue.capacity DS.Queue.size DS.Queue.front
                          DS.Queue.rear DS.Queue.data].
    split_and!; try lia.
    + f_equal. lia.
    + rewrite length_app, queue_contents_length, length_replicate. lia.
  - unfold queue_contents at 1.
    cbn [DS.Queue.size]. apply fmap_seqZ_ext. intros i Hi.
    unfold queue_slot at 1.
    cbn [DS.Queue.capacity DS.Queue.front DS.Queue.data].
    rewrite Z.mod_small by lia.
    rewrite lookup_total_app_l by (rewrite queue_contents_length; lia).
    unfold queue_contents.
    rewrite (list_lookup_total_fmap (queue_slot q))
      by (rewrite length_seqZ; lia).
    rewrite lookup_total_seqZ_lt by lia. f_equal. lia.
Qed.

Lemma queue_grow_run q :
  queue_wf q ->
  exists q1,
    (if DS.Queue.size q =? DS.Queue.capacity q
     then DS.Queue._resize else DS.ret tt) q = (DS.Ok tt, q1) /\
    queue_wf q1 /\
    queue_contents q1 = queue_contents q /\
    DS.Queue.size q1 = DS.Queue.size q /\
    DS.Queue.size q1 < DS.Queue.capacity q1 /\
    DS.Queue.capacity q1
      = (if DS.Queue.size q =? DS.Queue.capacity q
         then DS.Queue.capacity q * 2 else DS.Queue.capacity q).
Proof.
  intros Hwf. pose proof Hwf as (Hcap & Hsize & Hfront & Hrear & Hlen).
  destruct (Z.eqb_spec (DS.Queue.size q) (DS.Queue.capacity q))
    as [Heq|Hne].
  - destruct (queue_resized_wf q Hwf) as [Hwf' Hc].
    eexists. split; [by apply queue_resize_run|].
    split; [done|]. split; [done|].
    cbn [DS.Queue.capacity DS.Queue.size]. split_and!; [done|lia|done].
  - exists q. split_and!; try done. lia.
Qed.

Lemma queue_enqueue_run q x :
  queue_wf q ->
  exists q',
    DS.Queue.enqueue x q = (DS.Ok tt, q') /\
    queue_wf q' /\
    queue_contents q' = queue_contents q ++ [x] /\
    DS.Queue.size q' = DS.Queue.size q + 1 /\
    DS.Queue.capacity q'
      = (if DS.Queue.size q =? DS.Queue.capacity q
         then DS.Queue.capacity q * 2 else DS.Queue.capacity q).
Proof.
  intros Hwf.
  destruct (queue_grow_run q Hwf)
    as (q1 & Hgrow & Hwf1 & Hc1 & Hs1 & Hlt & Hcap1).
  pose proof Hwf1 as (Hcap & Hsize & Hfront & Hrear & Hlen).
  pose proof (Z.mod_pos_bound (DS.Queue.rear q1 + 1) (DS.Queue.capacity q1)
                ltac:(lia)) as Hr.
  unfold DS.Queue.enqueue. do 4 ds_step.
  erewrite ds_bind_ok by (apply py_mod_run; lia).
  ds_step.
  erewrite ds_bind_ok
    by (apply queue_set_run; cbn [DS.Queue.data]; lia).
  eexists. split; [reflexivity|].
  cbn [DS.Queue.capacity DS.Queue.size DS.Queue.front DS.Queue.rear
       DS.Queue.data].
  split_and!; [|
    |by rewrite Hs1|done].
  - unfold queue_wf.
    cbn [DS.Queue.capacity DS.Queue.size DS.Queue.front DS.Queue.rear
         DS.Queue.data].
    split_and!; try lia.
    + rewrite Hrear, Zplus_mod_idemp_l. f_equal. lia.
    + by rewrite length_insert.
  - rewrite <- Hc1. unfold queue_contents.
    cbn [DS.Queue.size]. rewrite seqZ_snoc, fmap_app by lia.
    f_equal.
    + apply fmap_seqZ_ext. intros i Hi. unfold queue_slot.
      cbn [DS.Queue.capacity DS.Queue.front DS.Queue.data].
      apply list_lookup_total_insert_ne.
      pose proof (mod_distinct (DS.Queue.capacity q1) (DS.Queue.front q1)
                    i (DS.Queue.size q1) ltac:(lia) ltac:(lia) ltac:(lia))
        as Hd.
      pose proof (Z.mod_pos_bound (DS.Queue.front q1 + i)
                    (DS.Queue.capacity q1) ltac:(lia)).
      rewrite Hrear. rewrite Hrear in Hr. lia.
    + simpl. f_equal. unfold queue_slot.
      cbn [DS.Queue.capacity DS.Queue.front DS.Queue.data].
      rewrite Hrear. apply list_lookup_total_insert_eq.
      rewrite Hrear in Hr. lia.
Qed.

Lemma queue_empty_run q :
  DS.Queue.size q = 0 ->
  DS.Queue.dequeue q = (DS.Err DS.IndexError, q) /\
  DS.Queue.peek q = (DS.Err DS.IndexError, q).
Proof.
  intros H0. unfold DS.Queue.dequeue, DS.Queue.peek.
  split; ds_step; by rewrite H0.
Qed.

Lemma queue_dequeue_run q :
  queue_wf q -> 0 < DS.Queue.size q ->
  exists q',
    DS.Queue.dequeue q = (DS.Ok (queue_slot q 0), q') /\
    DS.Queue.peek q = (DS.Ok (queue_slot q 0), q) /\
    queue_wf q' /\
    queue_contents q = queue_slot q 0 :: queue_contents q' /\
    DS.Queue.size q' = DS.Queue.size q - 1 /\
    DS.Queue.capacity q' = DS.Queue.capacity q.
Proof.
  intros (Hcap & Hsize & Hfront & Hrear & Hlen) Hpos.
  assert (Hget : DS.Queue.get (DS.Queue.front q) q
                 = (DS.Ok (queue_slot q 0), q)).
  { rewrite queue_get_run by lia. unfold queue_slot.
    by rewrite Z.add_0_r, Z.mod_small by lia. }
  pose proof (Z.mod_pos_bound (DS.Queue.front q + 1) (DS.Queue.capacity q)
                ltac:(lia)) as Hf.
  eexists. split_and!.
  - unfold DS.Queue.dequeue. ds_step.
    destruct (Z.eqb_spec (DS.Queue.size q) 0) as [|_]; [lia|].
    do 3 ds_step.
    erewrite ds_bind_ok by (apply py_mod_run; lia).
    do 2 ds_step. reflexivity.
  - unfold DS.Queue.peek. ds_step.
    destruct (Z.eqb_spec (DS.Queue.size q) 0) as [|_]; [lia|].
    by ds_step.
  - unfold queue_wf.
    cbn [DS.Queue.capacity DS.Queue.size DS.Queue.front DS.Queue.rear
         DS.Queue.data].
    split_and!; try lia.
    rewrite Hrear, Zplus_mod_idemp_l. f_equal. lia.
  - unfold queue_contents.
    cbn [DS.Queue.size].
    rewrite (seqZ_cons 0) by lia. rewrite fmap_cons. f_equal.
    replace (Z.succ 0) with (1 + 0) by lia.
    rewrite <- fmap_add_seqZ, <- list_fmap_compose.
    replace (Z.pred (DS.Queue.size q)) with (DS.Queue.size q + -1) by lia.
    apply fmap_seqZ_ext. intros i Hi. unfold queue_slot, compose.
    cbn [DS.Queue.capacity DS.Queue.front DS.Queue.data].
    rewrite Zplus_mod_idemp_l. do 3 f_equal. lia.
  - cbn [DS.Queue.size]. lia.
  - done.
Qed.

Lemma queue_init_wf c :
  1 <= c ->
  queue_wf (DS.Queue.__init__ c) /\ queue_contents (DS.Queue.__init__ c) = [].
Proof.
  intros Hc. split; [|done].
  unfold queue_wf, DS.Queue.__init__.
  cbn [DS.Queue.capacity DS.Queue.size DS.Queue.front DS.Queue.rear
       DS.Queue.data].
  rewrite length_replicate. split_and!; (done || lia).
Qed.

Lemma queue_enqueue_all (xs : list Z) q :
  queue_wf q ->
  exists q',
    DS.for_ xs (fun x (_ : unit) => DS.Queue.enqueue (DS.PyInt x)) tt q
      = (DS.Ok tt, q') /\
    queue_wf q' /\
    queue_contents q' = queue_contents q ++ (DS.PyInt <$> xs).
Proof.
  revert q. induction xs as [|x xs IH]; intros q Hwf.
  - exists q. by rewrite app_nil_r.
  - destruct (queue_enqueue_run q (DS.PyInt x) Hwf)
      as (q1 & Hrun & Hwf1 & Hc1 & _).
    destruct (IH q1 Hwf1) as (q' & Hrun' & Hwf' & Hc').
    exists q'. cbn [DS.for_]. ds_step.
    split_and!; [done|done|].
    by rewrite Hc', Hc1, <- app_assoc.
Qed.

Lemma queue_dequeue_all (idx : list Z) (ys rest out : list DS.pyval) q :
  queue_wf q -> length idx = length ys -> queue_contents q = ys ++ rest ->
  exists q',
    DS.for_ idx
      (fun (_ : Z) out =>
         DS.bind DS.Queue.dequeue (fun x => DS.ret (out ++ [x])))
      out q
      = (DS.Ok (out ++ ys), q') /\
    queue_wf q' /\
    queue_contents q' = rest.
Proof.
  revert ys out q.
  induction idx as [|i idx IH]; intros [|y ys] out q Hwf Hlen Hc;
    simplify_eq/=.
  - exists q. by rewrite app_nil_r.
  - assert (Hpos : 0 < DS.Queue.size q).
    { pose proof (queue_contents_length q) as Hl.
      rewrite Hc in Hl. simpl in Hl. lia. }
    destruct (queue_dequeue_run q Hwf Hpos)
      as (q1 & Hrun & _ & Hwf1 & Hc1 & _).
    rewrite Hc in Hc1. injection Hc1 as Hy Hc1.
    destruct (IH ys (out ++ [y]) q1 Hwf1 ltac:(done) ltac:(done))
      as (q' & Hrun' & Hwf' & Hc').
    exists q'. erewrite ds_bind_ok.
    2:{ erewrite ds_bind_ok by exact Hrun. reflexivity. }
    rewrite <- Hy, Hrun', <- app_assoc. done.
Qed.

(** X16. [Queue.enqueue] on a well-formed circular buffer never raises: it
    stores the item behind the last one, so that the queue read from the
    front (as [__str__] lists it) is the old one followed by the item, and
    the length grows by one. The capacity doubles exactly when the queue
    was full, and the order of the stored items survives the copy made by
    [_resize] also when the buffer had wrapped around. *)
Theorem X16_queue_enqueue (q : DS.Queue.t) (x : DS.pyval) :
  queue_wf q ->
  exists q',
    DS.Queue.enqueue x q = (DS.Ok tt, q') /\
    queue_wf q' /\
    DS.Queue.elements q' = (DS.Ok (queue_contents q ++ [x]), q') /\
    DS.Queue.__len__ q' = (DS.Ok (DS.Queue.size q + 1), q') /\
    DS.Queue.capacity q'
      = (if DS.Queue.size q =? DS.Queue.capacity q
         then DS.Queue.capacity q * 2 else DS.Queue.capacity q).
Proof.
  intros Hwf.
  destruct (queue_enqueue_run q x Hwf) as (q' & Hrun & Hwf' & Hc & Hs & Hcap).
  exists q'. split_and!; try done.
  - by rewrite queue_elements_run, Hc.
  - unfold DS.Queue.__len__, DS.field. by rewrite Hs.
Qed.

Lemma X16_queue_enqueue_witness :
  queue_wf (DS.Queue.mk 2 2 1 0 [DS.PyInt 7; DS.PyInt 5]) /\
  exists q',
    DS.Queue.enqueue (DS.PyInt 9)
      (DS.Queue.mk 2 2 1 0 [DS.PyInt 7; DS.PyInt 5]) = (DS.Ok tt, q') /\
    queue_wf q' /\
    DS.Queue.elements q'
      = (DS.Ok ([DS.PyInt 5; DS.PyInt 7] ++ [DS.PyInt 9]), q') /\
    DS.Queue.__len__ q' = (DS.Ok (2 + 1), q') /\
    DS.Queue.capacity q' = 2 * 2.
Proof.
  assert (H1 : queue_wf (DS.Queue.mk 2 2 1 0 [DS.PyInt 7; DS.PyInt 5]))
    by (unfold queue_wf; simpl; split_and!; (lia || reflexivity)).
  split; [exact H1|].
  exact (X16_queue_enqueue _ (DS.PyInt 9) H1).
Defined.

(** X17. [Queue.dequeue] and [Queue.peek] raise [IndexError] on an empty
    queue and leave it as it is. On a non-empty well-formed queue both
    return the item at the front, the one enqueued earliest among those
    stored: [peek] leaves the queue unchanged, [dequeue] removes that one
    item, keeps the capacity, and leaves the others in their order. *)
Theorem X17_queue_dequeue_and_peek (q : DS.Queue.t) :
  queue_wf q ->
  match queue_contents q with
  | [] =>
      DS.Queue.dequeue q = (DS.Err DS.IndexError, q) /\
      DS.Queue.peek q = (DS.Err DS.IndexError, q)
  | x :: rest =>
      DS.Queue.peek q = (DS.Ok x, q) /\
      exists q',
        DS.Queue.dequeue q = (DS.Ok x, q') /\
        queue_wf q' /\
        DS.Queue.elements q' = (DS.Ok rest, q') /\
        DS.Queue.capacity q' = DS.Queue.capacity q
  end.
Proof.
  intros Hwf. pose proof (queue_contents_length q) as Hl.
  pose proof Hwf as (_ & Hsize & _).
  destruct (queue_contents q) as [|x rest] eqn:Hc.
  - apply queue_empty_run. simpl in Hl. lia.
  - destruct (queue_dequeue_run q Hwf) as (q' & Hrun & Hpeek & Hwf' & Hc' & _ & Hcap);
      [simpl in Hl; lia|].
    rewrite Hc in Hc'. injection Hc' as -> ->.
    split; [done|]. exists q'. split_and!; try done.
    by rewrite queue_elements_run.
Qed.

Lemma X17_queue_dequeue_and_peek_witness :
  queue_wf (DS.Queue.mk 3 2 2 0 [DS.PyInt 7; DS.PyNone; DS.PyInt 5]) /\
  DS.Queue.peek (DS.Queue.mk 3 2 2 0 [DS.PyInt 7; DS.PyNone; DS.PyInt 5])
    = (DS.Ok (DS.PyInt 5),
       DS.Queue.mk 3 2 2 0 [DS.PyInt 7; DS.PyNone; DS.PyInt 5]) /\
  exists q',
    DS.Queue.dequeue (DS.Queue.mk 3 2 2 0 [DS.PyInt 7; DS.PyNone; DS.PyInt 5])
      = (DS.Ok (DS.PyInt 5), q') /\
    queue_wf q' /\
    DS.Queue.elements q' = (DS.Ok [DS.PyInt 7], q') /\
    DS.Queue.capacity q' = 3.
Proof.
  assert (H1 : queue_wf
                 (DS.Queue.mk 3 2 2 0 [DS.PyInt 7; DS.PyNone; DS.PyInt 5]))
    by (unfold queue_wf; simpl; split_and!; (lia || reflexivity)).
  split; [exact H1|].
  exact (X17_queue_dequeue_and_peek _ H1).
Defined.

(** X18. A [Queue] is first-in first-out. Starting from [Queue(c)] with
    [c >= 1], the loop [for x in xs: queue.enqueue(x)] never raises,
    whatever the number of items and of resizes; afterwards the queue
    lists exactly [xs], and [len(xs)] calls of [dequeue] return the items
    of [xs] in the order they were enqueued and leave the queue empty. *)
Theorem X18_queue_first_in_first_out (c : Z) (xs : list Z) :
  1 <= c ->
  exists q1 q2,
    DS.for_ xs (fun x (_ : unit) => DS.Queue.enqueue (DS.PyInt x)) tt
      (DS.Queue.__init__ c) = (DS.Ok tt, q1) /\
    DS.Queue.elements q1 = (DS.Ok (DS.PyInt <$> xs), q1) /\
    DS.Queue.__len__ q1 = (DS.Ok (Z.of_nat (length xs)), q1) /\
    DS.for_ (range 0 (Z.of_nat (length xs)))
      (fun (_ : Z) out =>
         DS.bind DS.Queue.dequeue (fun x => DS.ret (out ++ [x])))
      [] q1 = (DS.Ok (DS.PyInt <$> xs), q2) /\
    DS.Queue.is_empty q2 = (DS.Ok true, q2).
Proof.
  intros Hc. destruct (queue_init_wf c Hc) as [Hwf0 Hc0].
  destruct (queue_enqueue_all xs _ Hwf0) as (q1 & Hrun1 & Hwf1 & Hc1).
  rewrite Hc0, app_nil_l in Hc1.
  destruct (queue_dequeue_all (range 0 (Z.of_nat (length xs)))
              (DS.PyInt <$> xs) [] [] q1 Hwf1) as (q2 & Hrun2 & Hwf2 & Hc2).
  { unfold range. rewrite length_seqZ, length_fmap. lia. }
  { by rewrite app_nil_r. }
  pose proof (queue_contents_length q1) as Hl1.
  pose proof (queue_contents_length q2) as Hl2.
  rewrite Hc1, length_fmap in Hl1. rewrite Hc2 in Hl2. simpl in Hl2.
  pose proof Hwf1 as (_ & Hs1 & _). pose proof Hwf2 as (_ & Hs2 & _).
  exists q1, q2. split_and!; try done.
  - by rewrite queue_elements_run, Hc1.
  - unfold DS.Queue.__len__, DS.field. do 2 f_equal. lia.
  - unfold DS.Queue.is_empty. ds_step. unfold DS.ret. do 2 f_equal.
    apply Z.eqb_eq. lia.
Qed.

Lemma X18_queue_first_in_first_out_witness :
  1 <= 1 /\
  exists q1 q2,
    DS.for_ [3; 1; 2] (fun x (_ : unit) => DS.Queue.enqueue (DS.PyInt x)) tt
      (DS.Queue.__init__ 1) = (DS.Ok tt, q1) /\
    DS.Queue.elements q1 = (DS.Ok (DS.PyInt <$> [3; 1; 2]), q1) /\
    DS.Queue.__len__ q1 = (DS.Ok (Z.of_nat (length [3; 1; 2])), q1) /\
    DS.for_ (range 0 (Z.of_nat (length [3; 1; 2])))
      (fun (_ : Z) out =>
         DS.bind DS.Queue.dequeue (fun x => DS.ret (out ++ [x])))
      [] q1 = (DS.Ok (DS.PyInt <$> [3; 1; 2]), q2) /\
    DS.Queue.is_empty q2 = (DS.Ok true, q2).
Proof.
  assert (H1 : 1 <= 1) by lia.
  split; [exact H1|].
  exact (X18_queue_first_in_first_out 1 [3; 1; 2] H1).
Defined.

(** ** LinkedList *)

Lemma segment_app nodes p c1 c2 q :
  segment nodes p (c1 ++ c2) q <->
  exists m, segment nodes p c1 m /\ segment nodes m c2 q.
Proof.
  revert p. induction c1 as [|[r v] c1 IH]; intros p; simpl.
  - split; [intros H; by exists p|by intros (m & -> & H)].
  - split.
    + intros (-> & nx & Hr & Hseg). apply IH in Hseg as (m & H1 & H2).
      exists m. split; [|done]. split; [done|]. by exists nx.
    + intros (m & (-> & nx & Hr & H1) & H2). split; [done|].
      exists nx. split; [done|]. apply IH. by exists m.
Qed.

Lemma segment_functional nodes p c1 c2 :
  segment nodes p c1 None -> segment nodes p c2 None -> c1 = c2.
Proof.
  revert p c2. induction c1 as [|[r v] c1 IH]; intros p [|[r' v'] c2]; simpl.
  - done.
  - by intros -> (? & _).
  - by intros (-> & _) ?.
  - intros (-> & nx & Hr & H1) (Heq & nx' & Hr' & H2).
    injection Heq as <-. rewrite Hr in Hr'. injection Hr' as <- <-.
    f_equal. by eapply IH.
Qed.

Lemma segment_NoDup nodes p cells :
  segment nodes p cells None -> NoDup cells.*1.
Proof.
  revert p. induction cells as [|[r v] cells IH]; intros p Hseg.
  - constructor.
  - pose proof Hseg as (-> & nx & Hr & Hrest). simpl.
    constructor; [|by eapply IH].
    intros Hin. apply list_elem_of_fmap in Hin as ([r' v'] & Heq & Hin).
    simpl in Heq. subst r'.
    apply list_elem_of_split in Hin as (c1 & c2 & ->).
    apply segment_app in Hrest as (m & H1 & H2).
    pose proof H2 as (-> & _).
    pose proof (segment_functional _ _ _ _ Hseg H2) as Heq.
    apply (f_equal length) in Heq. simpl in Heq.
    rewrite length_app in Heq. simpl in Heq. lia.
Qed.

Lemma segment_lookup_lt nodes p cells q r :
  segment nodes p cells q -> r ∈ cells.*1 -> (r < length nodes)%nat.
Proof.
  revert p. induction cells as [|[r' v] cells IH]; intros p; simpl.
  - intros _ Hin. by apply elem_of_nil in Hin.
  - intros (-> & nx & Hr & Hrest) Hin.
    apply elem_of_cons in Hin as [->|Hin].
    + by eapply lookup_lt_Some.
    + by eapply IH.
Qed.

Lemma segment_alloc nodes n p cells q :
  segment nodes p cells q -> segment (nodes ++ [n]) p cells q.
Proof.
  revert p. induction cells as [|[r v] cells IH]; intros p; simpl; [done|].
  intros (-> & nx & Hr & Hrest). split; [done|]. exists nx.
  split; [|by apply IH].
  rewrite lookup_app_l by (by eapply lookup_lt_Some). done.
Qed.

Lemma segment_set nodes r n p cells q :
  r ∉ cells.*1 ->
  segment nodes p cells q -> segment (<[r := n]> nodes) p cells q.
Proof.
  revert p. induction cells as [|[r' v] cells IH]; intros p; simpl; [done|].
  intros Hnin (-> & nx & Hr & Hrest).
  apply not_elem_of_cons in Hnin as [Hne Hnin].
  split; [done|]. exists nx. split; [|by apply IH].
  by rewrite list_lookup_insert_ne.
Qed.

Lemma py_eq_spec a b : DS.py_eq a b = true <-> a = b.
Proof.
  destruct a as [|x], b as [|y]; simpl; try (split; congruence).
  rewrite Z.eqb_eq. split; congruence.
Qed.

Lemma attr_run {A} (f : DS.LinkedList.ListNode -> A) l r n :
  DS.LinkedList.nodes l !! r = Some n ->
  DS.LinkedList.attr f (Some r) l = (DS.Ok (f n), l).
Proof. intros H. unfold DS.LinkedList.attr. by rewrite H. Qed.

Lemma set_next_run l r n nx :
  DS.LinkedList.nodes l !! r = Some n ->
  DS.LinkedList.set_next (Some r) nx l
    = (DS.Ok tt,
       DS.LinkedList.mk (DS.LinkedList.head l) (DS.LinkedList.size l)
         (<[r := DS.LinkedList.node (DS.LinkedList.value n) nx]>
            (DS.LinkedList.nodes l))).
Proof. intros H. unfold DS.LinkedList.set_next. by rewrite H. Qed.

Lemma traverse_from_run l cells p fuel acc :
  segment (DS.LinkedList.nodes l) p cells None ->
  (length cells < fuel)%nat ->
  DS.LinkedList.traverse_from fuel p acc l = (DS.Ok (acc ++ cells.*2), l).
Proof.
  revert p fuel acc.
  induction cells as [|[r v] cells IH]; intros p [|fuel] acc Hseg Hf;
    simpl in *; try lia.
  - subst p. simpl. by rewrite app_nil_r.
  - destruct Hseg as (-> & nx & Hr & Hrest). cbn [DS.LinkedList.truthy].
    do 2 (erewrite ds_bind_ok by (by eapply attr_run)).
    cbn [DS.LinkedList.value DS.LinkedList.next].
    rewrite (IH nx) by (done || lia). by rewrite <- app_assoc.
Qed.

Lemma search_from_run l cells p fuel v pos :
  segment (DS.LinkedList.nodes l) p cells None ->
  (length cells < fuel)%nat ->
  exists r,
    DS.LinkedList.search_from fuel v p pos l = (DS.Ok r, l) /\
    ((r = -1 /\ v ∉ cells.*2) \/
     (exists i, r = pos + Z.of_nat i /\ cells.*2 !! i = Some v /\
                v ∉ take i cells.*2)).
Proof.
  revert p fuel pos.
  induction cells as [|[r v'] cells IH]; intros p [|fuel] pos Hseg Hf;
    simpl in *; try lia.
  - subst p. simpl. exists (-1). split; [done|]. left. split; [done|].
    apply not_elem_of_nil.
  - destruct Hseg as (-> & nx & Hr & Hrest). cbn [DS.LinkedList.truthy].
    erewrite ds_bind_ok by (by eapply attr_run).
    cbn [DS.LinkedList.value].
    destruct (DS.py_eq v' v) eqn:Heq.
    + apply py_eq_spec in Heq as ->. exists pos. split; [done|]. right.
      exists 0%nat. split; [lia|]. split; [done|]. apply not_elem_of_nil.
    + assert (Hne : v' <> v)
        by (intros ?; apply py_eq_spec in H; congruence).
      erewrite ds_bind_ok by (by eapply attr_run).
      cbn [DS.LinkedList.next].
      destruct (IH nx fuel (pos + 1) Hrest ltac:(lia))
        as (res & Hrun & Hres).
      exists res. split; [done|].
      destruct Hres as [[-> Hnin]|(i & -> & Hi & Hnin)].
      * left. split; [done|]. apply not_elem_of_cons. split; done.
      * right. exists (S i). split; [lia|]. split; [done|].
        simpl. apply not_elem_of_cons. split; done.
Qed.

Lemma advance_steps l cells p q (idx : list Z) :
  segment (DS.LinkedList.nodes l) p cells q ->
  length idx = length cells ->
  DS.for_ idx
    (fun (_ : Z) current => DS.LinkedList.attr DS.LinkedList.next current)
    p l = (DS.Ok q, l).
Proof.
  revert p idx.
  induction cells as [|[r v] cells IH]; intros p [|i idx] Hseg Hlen;
    simplify_eq/=.
  - done.
  - destruct Hseg as (-> & nx & Hr & Hrest).
    erewrite ds_bind_ok by (by eapply attr_run).
    cbn [DS.LinkedList.next]. by apply IH.
Qed.

Lemma advance_run l cells p q :
  segment (DS.LinkedList.nodes l) p cells q ->
  DS.LinkedList.advance (Z.of_nat (length cells)) p l = (DS.Ok q, l).
Proof.
  intros Hseg. unfold DS.LinkedList.advance.
  apply (advance_steps l cells); [done|].
  unfold range. rewrite length_seqZ. lia.
Qed.

Lemma last_node_run l cells r v p fuel :
  segment (DS.LinkedList.nodes l) p (cells ++ [(r, v)]) None ->
  (length cells < fuel)%nat ->
  DS.LinkedList.last_node fuel p l = (DS.Ok (Some r), l).
Proof.
  revert p fuel.
  induction cells as [|[r0 v0] cells IH]; intros p [|fuel] Hseg Hf;
    simpl in *; try lia.
  - destruct Hseg as (-> & nx & Hr & ->).
    erewrite ds_bind_ok by (by eapply attr_run). done.
  - destruct Hseg as (-> & nx & Hr & Hrest).
    erewrite ds_bind_ok by (by eapply attr_run).
    cbn [DS.LinkedList.next].
    assert (Hnx : DS.LinkedList.truthy nx = true).
    { destruct cells as [|[r1 v1] cells]; simpl in Hrest;
        by destruct Hrest as (-> & _). }
    rewrite Hnx. apply IH; [done|lia].
Qed.

Lemma before_last_run l cells r1 v1 r2 v2 p fuel :
  segment (DS.LinkedList.nodes l) p (cells ++ [(r1, v1); (r2, v2)]) None ->
  (length cells < fuel)%nat ->
  DS.LinkedList.before_last fuel p l = (DS.Ok (Some r1), l).
Proof.
  revert p fuel.
  induction cells as [|[r0 v0] cells IH]; intros p [|fuel] Hseg Hf;
    simpl in *; try lia.
  - destruct Hseg as (-> & nx & Hr & -> & nx' & Hr' & ->).
    do 2 (erewrite ds_bind_ok by (by eapply attr_run)). done.
  - destruct Hseg as (-> & nx & Hr & Hrest).
    erewrite ds_bind_ok by (by eapply attr_run).
    cbn [DS.LinkedList.next].
    assert (Hnn : exists ra na nb,
               nx = Some ra /\
               DS.LinkedList.nodes l !! ra = Some na /\
               DS.LinkedList.next na = Some nb).
    { destruct cells as [|[ra va] [|[rb vb] cells]]; simpl in Hrest.
      - destruct Hrest as (-> & ? & Ha & -> & _). by eexists _, _, _.
      - destruct Hrest as (-> & ? & Ha & -> & _). by eexists _, _, _.
      - destruct Hrest as (-> & ? & Ha & -> & _). by eexists _, _, _. }
    destruct Hnn as (ra & na & nb & -> & Hna & Hnb).
    erewrite ds_bind_ok by (by eapply attr_run).
    rewrite Hnb. cbn [DS.LinkedList.truthy]. apply IH; [done|lia].
Qed.

Ltac ll_simpl :=
  cbn [DS.LinkedList.head DS.LinkedList.size DS.LinkedList.nodes
       DS.LinkedList.value DS.LinkedList.next DS.LinkedList.truthy negb].

Lemma segment_fresh nodes p cells q :
  segment nodes p cells q -> length nodes ∉ cells.*1.
Proof.
  intros Hseg Hin. pose proof (segment_lookup_lt _ _ _ _ _ Hseg Hin). lia.
Qed.

Lemma list_insert_at_beginning_run l xs v :
  list_repr l xs ->
  exists l',
    DS.LinkedList.insert_at_beginning v l = (DS.Ok tt, l') /\
    list_repr l' (v :: xs).
Proof.
  intros (cells & Hseg & Hxs & Hsize).
  destruct l as [h n nodes]. simpl in *.
  eexists. split.
  - unfold DS.LinkedList.insert_at_beginning.
    do 2 ds_step.
    erewrite ds_bind_ok.
    2:{ apply (set_next_run _ _ (DS.LinkedList.node v None)). simpl.
        by rewrite lookup_app_r, Nat.sub_diag by lia. }
    ds_step. reflexivity.
  - exists ((length nodes, v) :: cells). split; [|split].
    + simpl. split; [done|]. exists h. split.
      * apply list_lookup_insert_eq. rewrite length_app. simpl. lia.
      * apply segment_set; [by eapply segment_fresh|].
        by apply segment_alloc.
    + rewrite fmap_cons. simpl. by rewrite Hxs.
    + simpl. lia.
Qed.

Lemma list_insert_at_end_run l xs v fuel :
  list_repr l xs -> (length xs <= fuel)%nat ->
  exists l',
    DS.LinkedList.insert_at_end fuel v l = (DS.Ok tt, l') /\
    list_repr l' (xs ++ [v]).
Proof.
  intros (cells & Hseg & Hxs & Hsize) Hfuel.
  assert (Hlen : length cells = length xs) by (by rewrite <- Hxs, length_fmap).
  destruct l as [h n nodes]. simpl in *.
  destruct cells as [|[r v0] pre _] using rev_ind.
  - simpl in Hseg. subst h. eexists. split.
    + unfold DS.LinkedList.insert_at_end. do 2 ds_step. reflexivity.
    + exists [(length nodes, v)]. simpl in *. subst xs. simpl.
      split; [|split; [done|lia]].
      split; [done|]. exists None. split; [|done].
      by rewrite lookup_app_r, Nat.sub_diag by lia.
  - rewrite length_app in Hlen. simpl in Hlen.
    pose proof (segment_NoDup _ _ _ Hseg) as Hnd.
    pose proof (segment_fresh _ _ _ _ Hseg) as Hfresh.
    rewrite fmap_app in Hnd, Hfresh. simpl in Hnd, Hfresh.
    apply NoDup_app in Hnd as (_ & Hdisj & _).
    apply not_elem_of_app in Hfresh as [Hf1 Hf2].
    apply not_elem_of_cons in Hf2 as [Hf2 _].
    assert (Hh : DS.LinkedList.truthy h = true).
    { destruct pre as [|[r1 v1] pre]; simpl in Hseg;
        by destruct Hseg as (-> & _). }
    pose proof Hseg as Hseg0.
    apply segment_app in Hseg as (m & Hpre & Hlast).
    destruct Hlast as (-> & nx & Hr & ->).
    eexists. split.
    + unfold DS.LinkedList.insert_at_end. do 2 ds_step. ll_simpl.
      rewrite Hh. ll_simpl.
      erewrite ds_bind_ok.
      2:{ erewrite ds_bind_ok.
          2:{ apply (last_node_run _ pre r v0); [|lia].
              by apply segment_alloc. }
          apply (set_next_run _ _ (DS.LinkedList.node v0 None)). simpl.
          rewrite lookup_app_l by (by eapply lookup_lt_Some). done. }
      reflexivity.
    + exists (pre ++ [(r, v0); (length nodes, v)]). simpl.
      split; [|split].
      * apply segment_app. exists (Some r). split.
        { apply segment_set; [|by apply segment_alloc].
          intros Hin. apply (Hdisj r Hin). apply list_elem_of_here. }
        simpl. split; [done|]. exists (Some (length nodes)). split.
        { apply list_lookup_insert_eq. rewrite length_app.
          apply lookup_lt_Some in Hr. lia. }
        split; [done|]. exists None. split; [|done].
        rewrite list_lookup_insert_ne by done.
        by rewrite lookup_app_r, Nat.sub_diag by lia.
      * rewrite <- Hxs, !fmap_app. simpl. by rewrite <- app_assoc.
      * rewrite length_app. simpl. lia.
Qed.

Lemma cells_split (cells : list (nat * DS.pyval)) (i : nat) :
  (i < length cells)%nat ->
  exists pre r v post,
    cells = pre ++ (r, v) :: post /\ length pre = i /\
    take i cells.*2 = pre.*2 /\
    cells.*2 !! i = Some v /\
    drop (S i) cells.*2 = post.*2.
Proof.
  intros Hi.
  destruct (lookup_lt_is_Some_2 cells i Hi) as [[r v] Hc].
  exists (take i cells), r, v, (drop (S i) cells).
  split_and!.
  - by rewrite take_drop_middle.
  - rewrite length_take. lia.
  - by rewrite fmap_take.
  - by rewrite list_lookup_fmap, Hc.
  - by rewrite fmap_drop.
Qed.

Lemma list_insert_at_position_run l xs v k :
  list_repr l xs -> 0 <= k <= Z.of_nat (length xs) ->
  exists l',
    DS.LinkedList.insert_at_position v k l = (DS.Ok tt, l') /\
    list_repr l' (take (Z.to_nat k) xs ++ v :: drop (Z.to_nat k) xs).
Proof.
  intros Hrepr Hk. pose proof Hrepr as (cells & Hseg & Hxs & Hsize).
  assert (Hlen : length cells = length xs)
    by (by rewrite <- Hxs, length_fmap).
  unfold DS.LinkedList.insert_at_position. ds_step. rewrite Hsize.
  destruct (Z.ltb_spec k 0), (Z.gtb_spec k (Z.of_nat (length xs)));
    try lia.
  cbn [orb].
  destruct (Z.eqb_spec k 0) as [->|Hk0].
  - simpl. by apply list_insert_at_beginning_run.
  - destruct (cells_split cells (Z.to_nat (k - 1)) ltac:(lia))
      as (pre & r & v0 & post & -> & Hpre & Htake & Hlook & Hdrop).
    destruct l as [h n nodes]. simpl in *.
    pose proof (segment_NoDup _ _ _ Hseg) as Hnd.
    pose proof (segment_fresh _ _ _ _ Hseg) as Hfresh.
    rewrite fmap_app, fmap_cons in Hnd, Hfresh. simpl in Hnd, Hfresh.
    apply NoDup_app in Hnd as (_ & Hdisj & Hnd).
    apply NoDup_cons in Hnd as [Hrpost _].
    apply not_elem_of_app in Hfresh as [Hf1 Hf2].
    apply not_elem_of_cons in Hf2 as [Hf2 Hf3].
    apply segment_app in Hseg as (m & Hsegpre & Hrest).
    destruct Hrest as (-> & nx & Hr & Hpost).
    assert (Hrlt : (r < length nodes)%nat) by (by eapply lookup_lt_Some).
    eexists. split.
    + do 2 ds_step. ll_simpl.
      erewrite ds_bind_ok.
      2:{ replace (k - 1) with (Z.of_nat (length pre)) by lia.
          apply advance_run. ll_simpl. by apply segment_alloc. }
      erewrite ds_bind_ok.
      2:{ apply (attr_run _ _ _ (DS.LinkedList.node v0 nx)). ll_simpl.
          by rewrite lookup_app_l. }
      ll_simpl.
      erewrite ds_bind_ok.
      2:{ apply (set_next_run _ _ (DS.LinkedList.node v None)). ll_simpl.
          by rewrite lookup_app_r, Nat.sub_diag by lia. }
      erewrite ds_bind_ok.
      2:{ apply (set_next_run _ _ (DS.LinkedList.node v0 nx)). ll_simpl.
          rewrite list_lookup_insert_ne by lia.
          by rewrite lookup_app_l. }
      reflexivity.
    + exists (pre ++ (r, v0) :: (length nodes, v) :: post). ll_simpl.
      split; [|split].
      * apply segment_app. exists (Some r). split.
        { apply segment_set;
            [intros Hin; apply (Hdisj r Hin), list_elem_of_here|].
          apply segment_set; [done|]. by apply segment_alloc. }
        simpl. split; [done|]. exists (Some (length nodes)). split.
        { apply list_lookup_insert_eq.
          rewrite length_insert, length_app. lia. }
        split; [done|]. exists nx. split.
        { rewrite list_lookup_insert_ne by lia.
          apply list_lookup_insert_eq. rewrite length_app. simpl. lia. }
        apply segment_set; [done|].
        apply segment_set; [done|]. by apply segment_alloc.
      * rewrite <- Hxs.
        replace (Z.to_nat k) with (S (Z.to_nat (k - 1))) by lia.
        rewrite !fmap_app, !fmap_cons. simpl.
        rewrite !fmap_app, !fmap_cons in Htake, Hlook, Hdrop.
        simpl in Htake, Hlook, Hdrop.
        rewrite Hdrop.
        rewrite (take_S_r _ _ v0) by done.
        rewrite Htake, <- app_assoc. done.
      * rewrite length_app, length_take, length_cons, length_drop. lia.
Qed.

Lemma list_delete_at_beginning_run l xs :
  list_repr l xs ->
  match xs with
  | [] => DS.LinkedList.delete_at_beginning l = (DS.Err DS.IndexError, l)
  | x :: rest =>
      exists l',
        DS.LinkedList.delete_at_beginning l = (DS.Ok x, l') /\
        list_repr l' rest
  end.
Proof.
  intros (cells & Hseg & Hxs & Hsize).
  destruct l as [h n nodes]. simpl in *.
  destruct cells as [|[r v] cells]; simpl in *; subst xs.
  - subst h. done.
  - destruct Hseg as (-> & nx & Hr & Hrest).
    eexists. split.
    + unfold DS.LinkedList.delete_at_beginning. ds_step. ll_simpl.
      do 2 (erewrite ds_bind_ok by (by eapply attr_run)).
      do 2 ds_step. ll_simpl. reflexivity.
    + exists cells. ll_simpl. split; [done|]. split; [done|].
      simpl in Hsize. lia.
Qed.

Lemma list_delete_at_end_run l xs fuel :
  list_repr l xs -> (length xs <= fuel)%nat ->
  match last xs with
  | None => DS.LinkedList.delete_at_end fuel l = (DS.Err DS.IndexError, l)
  | Some x =>
      exists l',
        DS.LinkedList.delete_at_end fuel l = (DS.Ok x, l') /\
        list_repr l' (removelast xs)
  end.
Proof.
  intros Hrepr Hfuel. pose proof Hrepr as (cells & Hseg & Hxs & Hsize).
  assert (Hlen : length cells = length xs)
    by (by rewrite <- Hxs, length_fmap).
  destruct cells as [|[r2 v2] cells _] using rev_ind.
  - simpl in Hxs. subst xs. simpl in *.
    unfold DS.LinkedList.delete_at_end. ds_step. by rewrite Hseg.
  - destruct cells as [|[r1 v1] pre _] using rev_ind.
    + simpl in Hxs. subst xs. simpl in *.
      destruct Hseg as (Hh & nx & Hr & ->).
      destruct (list_delete_at_beginning_run l [v2] Hrepr)
        as (l' & Hrun & Hrepr').
      exists l'. split; [|done].
      unfold DS.LinkedList.delete_at_end. ds_step. rewrite Hh. ll_simpl.
      erewrite ds_bind_ok by (by eapply attr_run). ll_simpl. done.
    + rewrite <- app_assoc in Hseg, Hxs, Hlen. simpl in Hseg, Hxs, Hlen.
      rewrite length_app in Hlen. simpl in Hlen.
      assert (Hx : xs = pre.*2 ++ [v1; v2])
        by (by rewrite <- Hxs, fmap_app).
      rewrite Hx.
      replace (pre.*2 ++ [v1; v2]) with ((pre.*2 ++ [v1]) ++ [v2])
        by (by rewrite <- app_assoc).
      rewrite last_snoc, removelast_last.
      destruct l as [h n nodes]. simpl in *.
      pose proof (segment_NoDup _ _ _ Hseg) as Hnd.
      rewrite fmap_app in Hnd. simpl in Hnd.
      apply NoDup_app in Hnd as (_ & Hdisj & Hnd).
      pose proof Hseg as Hseg0.
      apply segment_app in Hseg as (m & Hpre & Hrest).
      destruct Hrest as (-> & nx & Hr1 & -> & nx2 & Hr2 & ->).
      assert (Hh : exists r0 n0 r0', h = Some r0 /\ nodes !! r0 = Some n0 /\
                                     DS.LinkedList.next n0 = Some r0').
      { destruct pre as [|[ra va] [|[rb vb] pre]]; simpl in Hpre.
        - subst h. by eexists _, _, _.
        - destruct Hpre as (-> & ? & Ha & ->). by eexists _, _, _.
        - destruct Hpre as (-> & ? & Ha & -> & _). by eexists _, _, _. }
      destruct Hh as (r0 & n0 & r0' & -> & Hn0 & Hnext0).
      eexists. split.
      * unfold DS.LinkedList.delete_at_end. ds_step. ll_simpl.
        erewrite ds_bind_ok by (by eapply attr_run).
        rewrite Hnext0. ll_simpl.
        erewrite ds_bind_ok
          by (apply (before_last_run _ pre r1 v1 r2 v2); [done|lia]).
        do 2 (erewrite ds_bind_ok by (by eapply attr_run)). ll_simpl.
        erewrite ds_bind_ok by (by eapply set_next_run).
        ds_step. reflexivity.
      * exists (pre ++ [(r1, v1)]). ll_simpl. split; [|split].
        -- apply segment_app. exists (Some r1). split.
           { apply segment_set; [|done].
             intros Hin. apply (Hdisj r1 Hin), list_elem_of_here. }
           simpl. split; [done|]. exists None. split; [|done].
           apply list_lookup_insert_eq. by eapply lookup_lt_Some.
        -- by rewrite fmap_app.
        -- rewrite Hx, !length_app in Hsize. rewrite length_app.
           simpl in *. lia.
Qed.

Lemma list_delete_at_position_run l xs k :
  list_repr l xs -> 0 <= k < Z.of_nat (length xs) ->
  exists x l',
    xs !! Z.to_nat k = Some x /\
    DS.LinkedList.delete_at_position k l = (DS.Ok x, l') /\
    list_repr l' (take (Z.to_nat k) xs ++ drop (S (Z.to_nat k)) xs).
Proof.
  intros Hrepr Hk. pose proof Hrepr as (cells & Hseg & Hxs & Hsize).
  assert (Hlen : length cells = length xs)
    by (by rewrite <- Hxs, length_fmap).
  unfold DS.LinkedList.delete_at_position.
  destruct (Z.eqb_spec k 0) as [->|Hk0].
  - pose proof (list_delete_at_beginning_run l xs Hrepr) as Hdel.
    destruct xs as [|x rest]; [simpl in Hk; lia|].
    destruct Hdel as (l' & Hrun & Hrepr').
    exists x, l'. split; [done|]. split; [|simpl; by rewrite ?drop_0].
    ds_step. rewrite Hsize. simpl. done.
  - destruct (cells_split cells (Z.to_nat k) ltac:(lia))
      as (pre0 & r' & v' & post & -> & Hpre0 & Htake & Hlook & Hdrop).
    destruct pre0 as [|[r v0] pre _] using rev_ind;
      [simpl in Hpre0; lia|].
    rewrite length_app in Hpre0. simpl in Hpre0.
    rewrite <- app_assoc in Hseg. simpl in Hseg.
    destruct l as [h n nodes]. simpl in *.
    pose proof (segment_NoDup _ _ _ Hseg) as Hnd.
    rewrite fmap_app, !fmap_cons in Hnd. simpl in Hnd.
    apply NoDup_app in Hnd as (_ & Hdisj & Hnd).
    apply NoDup_cons in Hnd as [Hrpost _].
    apply not_elem_of_cons in Hrpost as [Hrr' Hrpost].
    apply segment_app in Hseg as (m & Hsegpre & Hrest).
    destruct Hrest as (-> & nx & Hr & -> & nx' & Hr' & Hpost).
    exists v'. eexists. split; [by rewrite <- Hxs|]. split.
    + ds_step. ll_simpl. rewrite Hsize.
      destruct (Z.ltb_spec k 0), (Z.geb_spec k (Z.of_nat (length xs)));
        try lia.
      cbn [orb]. ds_step. ll_simpl.
      erewrite ds_bind_ok.
      2:{ replace (k - 1) with (Z.of_nat (length pre)) by lia.
          by apply advance_run. }
      do 3 (erewrite ds_bind_ok by (by eapply attr_run)). ll_simpl.
      erewrite ds_bind_ok by (by eapply set_next_run).
      ds_step. reflexivity.
    + exists (pre ++ (r, v0) :: post). ll_simpl. split; [|split].
      * apply segment_app. exists (Some r). split.
        { apply segment_set; [|done].
          intros Hin. apply (Hdisj r Hin), list_elem_of_here. }
        simpl. split; [done|]. exists nx'. split.
        { apply list_lookup_insert_eq. by eapply lookup_lt_Some. }
        by apply segment_set.
      * rewrite <- Hxs, Htake, Hdrop, !fmap_app, <- app_assoc. done.
      * rewrite length_app, length_take, length_drop. lia.
Qed.

Lemma list_repr_length l xs :
  list_repr l xs -> DS.LinkedList.size l = Z.of_nat (length xs).
Proof. by intros (cells & _ & _ & Hsize). Qed.

Lemma list_traverse_run l xs fuel :
  list_repr l xs -> (length xs < fuel)%nat ->
  DS.LinkedList.traverse fuel l = (DS.Ok xs, l).
Proof.
  intros (cells & Hseg & Hxs & Hsize) Hfuel.
  unfold DS.LinkedList.traverse. ds_step.
  rewrite (traverse_from_run l cells) by (rewrite <- Hxs, length_fmap in Hfuel; done).
  by rewrite Hxs.
Qed.

Lemma list_init_repr : list_repr DS.LinkedList.__init__ [].
Proof. by exists []. Qed.

(** X19. On a linked list holding [xs], [insert_at_beginning] puts the
    value in front and [insert_at_end] behind the last one; neither raises,
    both increase [len] by one, and [traverse] then returns the new
    sequence.  The walk of [insert_at_end] to the last node ends when it
    may make more than [len(xs)] loop tests. *)
Theorem X19_linked_list_insert_at_ends (l : DS.LinkedList.t)
    (xs : list DS.pyval) (v : DS.pyval) (fuel : nat) :
  list_repr l xs -> (length xs < fuel)%nat ->
  (exists l1,
     DS.LinkedList.insert_at_beginning v l = (DS.Ok tt, l1) /\
     list_repr l1 (v :: xs) /\
     DS.LinkedList.traverse (S fuel) l1 = (DS.Ok (v :: xs), l1) /\
     DS.LinkedList.__len__ l1 = (DS.Ok (Z.of_nat (length xs) + 1), l1)) /\
  (exists l2,
     DS.LinkedList.insert_at_end fuel v l = (DS.Ok tt, l2) /\
     list_repr l2 (xs ++ [v]) /\
     DS.LinkedList.traverse (S fuel) l2 = (DS.Ok (xs ++ [v]), l2) /\
     DS.LinkedList.__len__ l2 = (DS.Ok (Z.of_nat (length xs) + 1), l2)).
Proof.
  intros Hrepr Hfuel. split.
  - destruct (list_insert_at_beginning_run l xs v Hrepr)
      as (l1 & Hrun & Hrepr1).
    exists l1. split_and!; [done|done| |].
    + apply list_traverse_run; [done|]. simpl. lia.
    + unfold DS.LinkedList.__len__, DS.field.
      rewrite (list_repr_length _ _ Hrepr1). simpl length.
      do 2 f_equal. lia.
  - destruct (list_insert_at_end_run l xs v fuel Hrepr ltac:(lia))
      as (l2 & Hrun & Hrepr2).
    exists l2. split_and!; [done|done| |].
    + apply list_traverse_run; [done|]. rewrite length_app. simpl. lia.
    + unfold DS.LinkedList.__len__, DS.field.
      rewrite (list_repr_length _ _ Hrepr2), length_app. simpl length.
      do 2 f_equal. lia.
Qed.

Lemma X19_linked_list_insert_at_ends_witness :
  list_repr
    (DS.LinkedList.mk (Some 1%nat) 2
       [DS.LinkedList.node (DS.PyInt 20) None;
        DS.LinkedList.node (DS.PyInt 10) (Some 0%nat)])
    [DS.PyInt 10; DS.PyInt 20] /\
  (length [DS.PyInt 10; DS.PyInt 20] < 3)%nat /\
  exists l2,
    DS.LinkedList.insert_at_end 3 (DS.PyInt 30)
      (DS.LinkedList.mk (Some 1%nat) 2
         [DS.LinkedList.node (DS.PyInt 20) None;
          DS.LinkedList.node (DS.PyInt 10) (Some 0%nat)])
      = (DS.Ok tt, l2) /\
    list_repr l2 ([DS.PyInt 10; DS.PyInt 20] ++ [DS.PyInt 30]) /\
    DS.LinkedList.traverse 4 l2
      = (DS.Ok ([DS.PyInt 10; DS.PyInt 20] ++ [DS.PyInt 30]), l2) /\
    DS.LinkedList.__len__ l2
      = (DS.Ok (Z.of_nat (length [DS.PyInt 10; DS.PyInt 20]) + 1), l2).
Proof.
  assert (H1 : list_repr
                 (DS.LinkedList.mk (Some 1%nat) 2
                    [DS.LinkedList.node (DS.PyInt 20) None;
                     DS.LinkedList.node (DS.PyInt 10) (Some 0%nat)])
                 [DS.PyInt 10; DS.PyInt 20]).
  { exists [(1%nat, DS.PyInt 10); (0%nat, DS.PyInt 20)]. simpl.
    split; [|split; reflexivity].
    split; [reflexivity|]. eexists. split; [reflexivity|].
    split; [reflexivity|]. eexists. split; reflexivity. }
  assert (H2 : (length [DS.PyInt 10; DS.PyInt 20] < 3)%nat) by (simpl; lia).
  split; [exact H1|]. split; [exact H2|].
  exact (proj2 (X19_linked_list_insert_at_ends _ _ (DS.PyInt 30) 3 H1 H2)).
Defined.

(** X20. [insert_at_position(value, position)] on a linked list holding
    [xs]: for [0 <= position <= len(xs)] the value becomes the element at
    [position], the elements before it and from it on keeping their order;
    for any other position it raises [IndexError] and changes nothing.  It
    never reaches past the end of the chain (no [AttributeError]). *)
Theorem X20_linked_list_insert_at_position (l : DS.LinkedList.t)
    (xs : list DS.pyval) (v : DS.pyval) (position : Z) (fuel : nat) :
  list_repr l xs -> (length xs < fuel)%nat ->
  (0 <= position <= Z.of_nat (length xs) ->
   exists l',
     DS.LinkedList.insert_at_position v position l = (DS.Ok tt, l') /\
     list_repr l'
       (take (Z.to_nat position) xs ++ v :: drop (Z.to_nat position) xs) /\
     DS.LinkedList.traverse (S fuel) l'
       = (DS.Ok (take (Z.to_nat position) xs
                   ++ v :: drop (Z.to_nat position) xs), l')) /\
  (position < 0 \/ Z.of_nat (length xs) < position ->
   DS.LinkedList.insert_at_position v position l
     = (DS.Err DS.IndexError, l)).
Proof.
  intros Hrepr Hfuel. split.
  - intros Hpos.
    destruct (list_insert_at_position_run l xs v position Hrepr Hpos)
      as (l' & Hrun & Hrepr').
    exists l'. split_and!; [done|done|].
    apply list_traverse_run; [done|].
    rewrite length_app, length_take, length_cons, length_drop. lia.
  - intros Hout. unfold DS.LinkedList.insert_at_position. ds_step.
    rewrite (list_repr_length _ _ Hrepr).
    destruct (Z.ltb_spec position 0),
      (Z.gtb_spec position (Z.of_nat (length xs))); (done || lia).
Qed.

Lemma X20_linked_list_insert_at_position_witness :
  list_repr
    (DS.LinkedList.mk (Some 1%nat) 2
       [DS.LinkedList.node (DS.PyInt 20) None;
        DS.LinkedList.node (DS.PyInt 10) (Some 0%nat)])
    [DS.PyInt 10; DS.PyInt 20] /\
  (length [DS.PyInt 10; DS.PyInt 20] < 3)%nat /\
  0 <= 1 <= Z.of_nat (length [DS.PyInt 10; DS.PyInt 20]) /\
  exists l',
    DS.LinkedList.insert_at_position (DS.PyInt 15) 1
      (DS.LinkedList.mk (Some 1%nat) 2
         [DS.LinkedList.node (DS.PyInt 20) None;
          DS.LinkedList.node (DS.PyInt 10) (Some 0%nat)])
      = (DS.Ok tt, l') /\
    list_repr l'
      (take (Z.to_nat 1) [DS.PyInt 10; DS.PyInt 20]
         ++ DS.PyInt 15 :: drop (Z.to_nat 1) [DS.PyInt 10; DS.PyInt 20]) /\
    DS.LinkedList.traverse 4 l'
      = (DS.Ok (take (Z.to_nat 1) [DS.PyInt 10; DS.PyInt 20]
                  ++ DS.PyInt 15
                       :: drop (Z.to_nat 1) [DS.PyInt 10; DS.PyInt 20]),
         l').
Proof.
  assert (H1 : list_repr
                 (DS.LinkedList.mk (Some 1%nat) 2
                    [DS.LinkedList.node (DS.PyInt 20) None;
                     DS.LinkedList.node (DS.PyInt 10) (Some 0%nat)])
                 [DS.PyInt 10; DS.PyInt 20]).
  { exists [(1%nat, DS.PyInt 10); (0%nat, DS.PyInt 20)]. simpl.
    split; [|split; reflexivity].
    split; [reflexivity|]. eexists. split; [reflexivity|].
    split; [reflexivity|]. eexists. split; reflexivity. }
  assert (H2 : (length [DS.PyInt 10; DS.PyInt 20] < 3)%nat) by (simpl; lia).
  assert (H3 : 0 <= 1 <= Z.of_nat (length [DS.PyInt 10; DS.PyInt 20]))
    by (simpl; lia).
  split; [exact H1|]. split; [exact H2|]. split; [exact H3|].
  exact (proj1 (X20_linked_list_insert_at_position _ _ (DS.PyInt 15) 1 3
                  H1 H2) H3).
Defined.

(** X21. On an empty linked list [delete_at_beginning] and [delete_at_end]
    raise [IndexError] and change nothing.  On a list holding [xs],
    non-empty, the first returns the first element and leaves the rest,
    the second returns the last element and leaves the others; [traverse]
    then returns what is left. *)
Theorem X21_linked_list_delete_at_ends (l : DS.LinkedList.t)
    (xs : list DS.pyval) (fuel : nat) :
  list_repr l xs -> (length xs < fuel)%nat ->
  match xs with
  | [] =>
      DS.LinkedList.delete_at_beginning l = (DS.Err DS.IndexError, l) /\
      DS.LinkedList.delete_at_end fuel l = (DS.Err DS.IndexError, l)
  | x :: rest =>
      (exists l1,
         DS.LinkedList.delete_at_beginning l = (DS.Ok x, l1) /\
         list_repr l1 rest /\
         DS.LinkedList.traverse fuel l1 = (DS.Ok rest, l1)) /\
      (exists y l2,
         last xs = Some y /\
         DS.LinkedList.delete_at_end fuel l = (DS.Ok y, l2) /\
         list_repr l2 (removelast xs) /\
         DS.LinkedList.traverse fuel l2 = (DS.Ok (removelast xs), l2))
  end.
Proof.
  intros Hrepr Hfuel.
  pose proof (list_delete_at_beginning_run l xs Hrepr) as Hfirst.
  pose proof (list_delete_at_end_run l xs fuel Hrepr ltac:(lia)) as Hlast.
  destruct xs as [|x rest]; [done|].
  destruct Hfirst as (l1 & Hrun1 & Hrepr1).
  destruct (last (x :: rest)) as [y|] eqn:Hy;
    [|by apply last_None in Hy].
  destruct Hlast as (l2 & Hrun2 & Hrepr2).
  split.
  - exists l1. split_and!; [done|done|].
    apply list_traverse_run; [done|]. simpl in Hfuel. lia.
  - exists y, l2. split_and!; [done|done|done|].
    apply list_traverse_run; [done|].
    destruct (last_Some (x :: rest) y) as [Hsome _].
    destruct (Hsome Hy) as [l' Hl']. rewrite Hl', removelast_last.
    rewrite Hl', length_app in Hfuel. lia.
Qed.

Lemma X21_linked_list_delete_at_ends_witness :
  list_repr
    (DS.LinkedList.mk (Some 1%nat) 2
       [DS.LinkedList.node (DS.PyInt 20) None;
        DS.LinkedList.node (DS.PyInt 10) (Some 0%nat)])
    [DS.PyInt 10; DS.PyInt 20] /\
  (length [DS.PyInt 10; DS.PyInt 20] < 3)%nat /\
  exists y l2,
    last [DS.PyInt 10; DS.PyInt 20] = Some y /\
    DS.LinkedList.delete_at_end 3
      (DS.LinkedList.mk (Some 1%nat) 2
         [DS.LinkedList.node (DS.PyInt 20) None;
          DS.LinkedList.node (DS.PyInt 10) (Some 0%nat)])
      = (DS.Ok y, l2) /\
    list_repr l2 (removelast [DS.PyInt 10; DS.PyInt 20]) /\
    DS.LinkedList.traverse 3 l2
      = (DS.Ok (removelast [DS.PyInt 10; DS.PyInt 20]), l2).
Proof.
  assert (H1 : list_repr
                 (DS.LinkedList.mk (Some 1%nat) 2
                    [DS.LinkedList.node (DS.PyInt 20) None;
                     DS.LinkedList.node (DS.PyInt 10) (Some 0%nat)])
                 [DS.PyInt 10; DS.PyInt 20]).
  { exists [(1%nat, DS.PyInt 10); (0%nat, DS.PyInt 20)]. simpl.
    split; [|split; reflexivity].
    split; [reflexivity|]. eexists. split; [reflexivity|].
    split; [reflexivity|]. eexists. split; reflexivity. }
  assert (H2 : (length [DS.PyInt 10; DS.PyInt 20] < 3)%nat) by (simpl; lia).
  split; [exact H1|]. split; [exact H2|].
  exact (proj2 (X21_linked_list_delete_at_ends _ _ 3 H1 H2)).
Defined.

(** X22. [delete_at_position(position)] on a linked list holding [xs]: for
    [0 <= position < len(xs)] it returns the element at [position] and
    removes just that one, the others keeping their order; for any other
    position it raises [IndexError] and changes nothing. *)
Theorem X22_linked_list_delete_at_position (l : DS.LinkedList.t)
    (xs : list DS.pyval) (position : Z) (fuel : nat) :
  list_repr l xs -> (length xs < fuel)%nat ->
  (0 <= position < Z.of_nat (length xs) ->
   exists x l',
     xs !! Z.to_nat position = Some x /\
     DS.LinkedList.delete_at_position position l = (DS.Ok x, l') /\
     list_repr l'
       (take (Z.to_nat position) xs ++ drop (S (Z.to_nat position)) xs) /\
     DS.LinkedList.traverse fuel l'
       = (DS.Ok (take (Z.to_nat position) xs
                   ++ drop (S (Z.to_nat position)) xs), l')) /\
  (position < 0 \/ Z.of_nat (length xs) <= position ->
   DS.LinkedList.delete_at_position position l
     = (DS.Err DS.IndexError, l)).
Proof.
  intros Hrepr Hfuel. split.
  - intros Hpos.
    destruct (list_delete_at_position_run l xs position Hrepr Hpos)
      as (x & l' & Hx & Hrun & Hrepr').
    exists x, l'. split_and!; [done|done|done|].
    apply list_traverse_run; [done|].
    rewrite length_app, length_take, length_drop. lia.
  - intros Hout. unfold DS.LinkedList.delete_at_position. ds_step.
    rewrite (list_repr_length _ _ Hrepr).
    destruct (Z.ltb_spec position 0),
      (Z.geb_spec position (Z.of_nat (length xs))); (done || lia).
Qed.

Lemma X22_linked_list_delete_at_position_witness :
  list_repr
    (DS.LinkedList.mk (Some 1%nat) 2
       [DS.LinkedList.node (DS.PyInt 20) None;
        DS.LinkedList.node (DS.PyInt 10) (Some 0%nat)])
    [DS.PyInt 10; DS.PyInt 20] /\
  (length [DS.PyInt 10; DS.PyInt 20] < 3)%nat /\
  0 <= 1 < Z.of_nat (length [DS.PyInt 10; DS.PyInt 20]) /\
  exists x l',
    [DS.PyInt 10; DS.PyInt 20] !! Z.to_nat 1 = Some x /\
    DS.LinkedList.delete_at_position 1
      (DS.LinkedList.mk (Some 1%nat) 2
         [DS.LinkedList.node (DS.PyInt 20) None;
          DS.LinkedList.node (DS.PyInt 10) (Some 0%nat)])
      = (DS.Ok x, l') /\
    list_repr l'
      (take (Z.to_nat 1) [DS.PyInt 10; DS.PyInt 20]
         ++ drop (S (Z.to_nat 1)) [DS.PyInt 10; DS.PyInt 20]) /\
    DS.LinkedList.traverse 3 l'
      = (DS.Ok (take (Z.to_nat 1) [DS.PyInt 10; DS.PyInt 20]
                  ++ drop (S (Z.to_nat 1)) [DS.PyInt 10; DS.PyInt 20]),
         l').
Proof.
  assert (H1 : list_repr
                 (DS.LinkedList.mk (Some 1%nat) 2
                    [DS.LinkedList.node (DS.PyInt 20) None;
                     DS.LinkedList.node (DS.PyInt 10) (Some 0%nat)])
                 [DS.PyInt 10; DS.PyInt 20]).
  { exists [(1%nat, DS.PyInt 10); (0%nat, DS.PyInt 20)]. simpl.
    split; [|split; reflexivity].
    split; [reflexivity|]. eexists. split; [reflexivity|].
    split; [reflexivity|]. eexists. split; reflexivity. }
  assert (H2 : (length [DS.PyInt 10; DS.PyInt 20] < 3)%nat) by (simpl; lia).
  assert (H3 : 0 <= 1 < Z.of_nat (length [DS.PyInt 10; DS.PyInt 20]))
    by (simpl; lia).
  split; [exact H1|]. split; [exact H2|]. split; [exact H3|].
  exact (proj1 (X22_linked_list_delete_at_position _ _ 1 3 H1 H2) H3).
Defined.

(** X23. [search(value)] on a linked list holding [xs] changes nothing and
    returns the position of the first element equal to [value], or [-1]
    exactly when no element is equal to it; [traverse] returns [xs] and
    [len] its length, also without changing the list. *)
Theorem X23_linked_list_search (l : DS.LinkedList.t) (xs : list DS.pyval)
    (v : DS.pyval) (fuel : nat) :
  list_repr l xs -> (length xs < fuel)%nat ->
  DS.LinkedList.traverse fuel l = (DS.Ok xs, l) /\
  DS.LinkedList.__len__ l = (DS.Ok (Z.of_nat (length xs)), l) /\
  exists r,
    DS.LinkedList.search fuel v l = (DS.Ok r, l) /\
    ((r = -1 /\ v ∉ xs) \/
     (0 <= r < Z.of_nat (length xs) /\
      xs !! Z.to_nat r = Some v /\
      v ∉ take (Z.to_nat r) xs)).
Proof.
  intros Hrepr Hfuel. split; [by apply list_traverse_run|]. split.
  - unfold DS.LinkedList.__len__, DS.field.
    by rewrite (list_repr_length _ _ Hrepr).
  - destruct Hrepr as (cells & Hseg & Hxs & Hsize).
    destruct (search_from_run l cells (DS.LinkedList.head l) fuel v 0 Hseg)
      as (r & Hrun & Hr).
    { by rewrite <- Hxs, length_fmap in Hfuel. }
    exists r. split; [unfold DS.LinkedList.search; by ds_step|].
    rewrite Hxs in Hr. destruct Hr as [Hr|(i & -> & Hi & Hnin)];
      [by left|right].
    replace (Z.to_nat (0 + Z.of_nat i)) with i by lia.
    split_and!; [lia| |done|done].
    apply lookup_lt_Some in Hi. lia.
Qed.

Lemma X23_linked_list_search_witness :
  list_repr
    (DS.LinkedList.mk (Some 1%nat) 2
       [DS.LinkedList.node (DS.PyInt 20) None;
        DS.LinkedList.node (DS.PyInt 10) (Some 0%nat)])
    [DS.PyInt 10; DS.PyInt 20] /\
  (length [DS.PyInt 10; DS.PyInt 20] < 3)%nat /\
  exists r,
    DS.LinkedList.search 3 (DS.PyInt 20)
      (DS.LinkedList.mk (Some 1%nat) 2
         [DS.LinkedList.node (DS.PyInt 20) None;
          DS.LinkedList.node (DS.PyInt 10) (Some 0%nat)])
      = (DS.Ok r,
         DS.LinkedList.mk (Some 1%nat) 2
           [DS.LinkedList.node (DS.PyInt 20) None;
            DS.LinkedList.node (DS.PyInt 10) (Some 0%nat)]) /\
    ((r = -1 /\ DS.PyInt 20 ∉ [DS.PyInt 10; DS.PyInt 20]) \/
     (0 <= r < Z.of_nat (length [DS.PyInt 10; DS.PyInt 20]) /\
      [DS.PyInt 10; DS.PyInt 20] !! Z.to_nat r = Some (DS.PyInt 20) /\
      DS.PyInt 20 ∉ take (Z.to_nat r) [DS.PyInt 10; DS.PyInt 20])).
Proof.
  assert (H1 : list_repr
                 (DS.LinkedList.mk (Some 1%nat) 2
                    [DS.LinkedList.node (DS.PyInt 20) None;
                     DS.LinkedList.node (DS.PyInt 10) (Some 0%nat)])
                 [DS.PyInt 10; DS.PyInt 20]).
  { exists [(1%nat, DS.PyInt 10); (0%nat, DS.PyInt 20)]. simpl.
    split; [|split; reflexivity].
    split; [reflexivity|]. eexists. split; [reflexivity|].
    split; [reflexivity|]. eexists. split; reflexivity. }
  assert (H2 : (length [DS.PyInt 10; DS.PyInt 20] < 3)%nat) by (simpl; lia).
  split; [exact H1|]. split; [exact H2|].
  exact (proj2 (proj2 (X23_linked_list_search _ _ (DS.PyInt 20) 3 H1 H2))).
Defined.

Lemma list_insert_all_at_end (xs : list Z) l ys fuel :
  list_repr l ys -> (length ys + length xs <= fuel)%nat ->
  exists l',
    DS.for_ xs
      (fun x (_ : unit) => DS.LinkedList.insert_at_end fuel (DS.PyInt x))
      tt l = (DS.Ok tt, l') /\
    list_repr l' (ys ++ (DS.PyInt <$> xs)).
Proof.
  revert l ys. induction xs as [|x xs IH]; intros l ys Hrepr Hfuel.
  - exists l. by rewrite app_nil_r.
  - simpl in Hfuel.
    destruct (list_insert_at_end_run l ys (DS.PyInt x) fuel Hrepr
                ltac:(lia)) as (l1 & Hrun1 & Hrepr1).
    destruct (IH l1 _ Hrepr1) as (l' & Hrun' & Hrepr').
    { rewrite length_app. simpl. lia. }
    exists l'. cbn [DS.for_]. ds_step. split; [done|].
    by rewrite <- app_assoc in Hrepr'.
Qed.

Lemma list_insert_all_at_beginning (xs : list Z) l ys :
  list_repr l ys ->
  exists l',
    DS.for_ xs
      (fun x (_ : unit) => DS.LinkedList.insert_at_beginning (DS.PyInt x))
      tt l = (DS.Ok tt, l') /\
    list_repr l' ((DS.PyInt <$> reverse xs) ++ ys).
Proof.
  revert l ys. induction xs as [|x xs IH]; intros l ys Hrepr.
  - by exists l.
  - destruct (list_insert_at_beginning_run l ys (DS.PyInt x) Hrepr)
      as (l1 & Hrun1 & Hrepr1).
    destruct (IH l1 _ Hrepr1) as (l' & Hrun' & Hrepr').
    exists l'. cbn [DS.for_]. ds_step. split; [done|].
    by rewrite reverse_cons, fmap_app, <- app_assoc.
Qed.

(** X24. Filling a new [LinkedList] in a loop: inserting the items of [xs]
    one by one with [insert_at_end] gives a list that [traverse] reads as
    [xs], with [insert_at_beginning] one that it reads as [xs] reversed;
    no call raises, each walk to the last node ending within [len(xs)]
    tests. *)
Theorem X24_linked_list_filled_in_a_loop (xs : list Z) (fuel : nat) :
  (length xs <= fuel)%nat ->
  exists l1 l2,
    DS.for_ xs
      (fun x (_ : unit) => DS.LinkedList.insert_at_end fuel (DS.PyInt x))
      tt DS.LinkedList.__init__ = (DS.Ok tt, l1) /\
    DS.LinkedList.traverse (S fuel) l1 = (DS.Ok (DS.PyInt <$> xs), l1) /\
    DS.for_ xs
      (fun x (_ : unit) => DS.LinkedList.insert_at_beginning (DS.PyInt x))
      tt DS.LinkedList.__init__ = (DS.Ok tt, l2) /\
    DS.LinkedList.traverse (S fuel) l2
      = (DS.Ok (DS.PyInt <$> reverse xs), l2) /\
    DS.LinkedList.__len__ l1 = (DS.Ok (Z.of_nat (length xs)), l1) /\
    DS.LinkedList.__len__ l2 = (DS.Ok (Z.of_nat (length xs)), l2).
Proof.
  intros Hfuel.
  destruct (list_insert_all_at_end xs _ [] fuel list_init_repr)
    as (l1 & Hrun1 & Hrepr1); [simpl; lia|].
  destruct (list_insert_all_at_beginning xs _ [] list_init_repr)
    as (l2 & Hrun2 & Hrepr2).
  rewrite app_nil_l in Hrepr1. rewrite app_nil_r in Hrepr2.
  exists l1, l2. split_and!; [done| |done| | |].
  - apply list_traverse_run; [done|]. rewrite length_fmap. lia.
  - apply list_traverse_run; [done|].
    rewrite length_fmap, length_reverse. lia.
  - unfold DS.LinkedList.__len__, DS.field.
    by rewrite (list_repr_length _ _ Hrepr1), length_fmap.
  - unfold DS.LinkedList.__len__, DS.field.
    by rewrite (list_repr_length _ _ Hrepr2), length_fmap, length_reverse.
Qed.

Lemma X24_linked_list_filled_in_a_loop_witness :
  (length [3; 1; 2] <= 3)%nat /\
  exists l1 l2,
    DS.for_ [3; 1; 2]
      (fun x (_ : unit) => DS.LinkedList.insert_at_end 3 (DS.PyInt x))
      tt DS.LinkedList.__init__ = (DS.Ok tt, l1) /\
    DS.LinkedList.traverse 4 l1 = (DS.Ok (DS.PyInt <$> [3; 1; 2]), l1) /\
    DS.for_ [3; 1; 2]
      (fun x (_ : unit) => DS.LinkedList.insert_at_beginning (DS.PyInt x))
      tt DS.LinkedList.__init__ = (DS.Ok tt, l2) /\
    DS.LinkedList.traverse 4 l2
      = (DS.Ok (DS.PyInt <$> reverse [3; 1; 2]), l2) /\
    DS.LinkedList.__len__ l1 = (DS.Ok (Z.of_nat (length [3; 1; 2])), l1) /\
    DS.LinkedList.__len__ l2 = (DS.Ok (Z.of_nat (length [3; 1; 2])), l2).
Proof.
  assert (H1 : (length [3; 1; 2] <= 3)%nat) by (simpl; lia).
  split; [exact H1|].
  exact (X24_linked_list_filled_in_a_loop [3; 1; 2] 3 H1).
Defined.

(** ** Matrix *)

Lemma py_get_position {A} (l : list A) i :
  - Z.of_nat (length l) <= i < Z.of_nat (length l) ->
  DS.py_get l i = l !! position (Z.of_nat (length l)) i.
Proof.
  intros Hi. unfold DS.py_get, index, position.
  destruct (Z.leb_spec 0 i), (Z.ltb_spec i (Z.of_nat (length l))),
    (Z.ltb_spec i 0), (Z.leb_spec 0 (i + Z.of_nat (length l)));
    simpl; (done || lia).
Qed.

Lemma py_set_position {A} (l : list A) i v :
  - Z.of_nat (length l) <= i < Z.of_nat (length l) ->
  DS.py_set l i v = Some (<[position (Z.of_nat (length l)) i := v]> l).
Proof.
  intros Hi. unfold DS.py_set, index, position.
  destruct (Z.leb_spec 0 i), (Z.ltb_spec i (Z.of_nat (length l))),
    (Z.ltb_spec i 0), (Z.leb_spec 0 (i + Z.of_nat (length l)));
    simpl; (done || lia).
Qed.

Lemma index_outside n i : i < - n \/ n <= i -> index n i = None.
Proof.
  intros Hi. unfold index.
  destruct (Z.leb_spec 0 i), (Z.ltb_spec i n), (Z.ltb_spec i 0),
    (Z.leb_spec 0 (i + n)); simpl; (done || lia).
Qed.

Lemma position_lt n i : - n <= i < n -> (position n i < Z.to_nat n)%nat.
Proof. intros Hi. unfold position. destruct (Z.ltb_spec i 0); lia. Qed.

Lemma py_insert_in_range {A} (l : list A) i x :
  0 <= i <= Z.of_nat (length l) ->
  DS.py_insert l i x = take (Z.to_nat i) l ++ x :: drop (Z.to_nat i) l.
Proof.
  intros Hi. unfold DS.py_insert.
  destruct (Z.ltb_spec i 0); [lia|]. by rewrite Z.min_l by lia.
Qed.

Lemma py_del_in_range {A} (l : list A) i :
  0 <= i < Z.of_nat (length l) ->
  DS.py_del l i = Some (delete (Z.to_nat i) l).
Proof. intros Hi. unfold DS.py_del. by rewrite index_in_range. Qed.

Lemma matrix_repr_alt m M :
  matrix_repr m M <->
  DS.Matrix.rows m = Z.of_nat (length M) /\
  0 <= DS.Matrix.cols m /\
  NoDup (DS.Matrix.data m) /\
  length (DS.Matrix.data m) = length M /\
  forall i r row,
    DS.Matrix.data m !! i = Some r -> M !! i = Some row ->
    DS.Matrix.store m !! r = Some row /\
    Z.of_nat (length row) = DS.Matrix.cols m.
Proof.
  split.
  - intros (Hrows & Hcols & Hlen & Hnd & Hall).
    split; [done|]. split; [done|]. split; [done|].
    split; [by eapply Forall2_length|].
    intros i r row Hr Hrow. split.
    + by eapply (Forall2_lookup_lr _ _ _ _ _ _ Hall).
    + by eapply (Forall_lookup_1 _ _ _ _ Hlen).
  - intros (Hrows & Hcols & Hnd & Hlen & Hall).
    split; [done|]. split; [done|]. split; [|split; [done|]].
    + apply Forall_lookup_2. intros i row Hrow.
      destruct (lookup_lt_is_Some_2 (DS.Matrix.data m) i) as [r Hr].
      { rewrite Hlen. by eapply lookup_lt_Some. }
      by destruct (Hall i r row Hr Hrow).
    + apply Forall2_same_length_lookup_2; [done|].
      intros i r row Hr Hrow. by destruct (Hall i r row Hr Hrow).
Qed.

Lemma matrix_row_at m M row :
  matrix_repr m M ->
  - DS.Matrix.rows m <= row < DS.Matrix.rows m ->
  exists r line,
    DS.Matrix.data m !! position (DS.Matrix.rows m) row = Some r /\
    M !! position (DS.Matrix.rows m) row = Some line /\
    DS.Matrix.store m !! r = Some line /\
    Z.of_nat (length line) = DS.Matrix.cols m /\
    DS.py_get (DS.Matrix.data m) row = Some r.
Proof.
  intros Hrepr Hrow. apply matrix_repr_alt in Hrepr
    as (Hrows & Hcols & Hnd & Hlen & Hall).
  pose proof (position_lt _ _ Hrow) as Hpos.
  destruct (lookup_lt_is_Some_2 (DS.Matrix.data m)
              (position (DS.Matrix.rows m) row)) as [r Hr]; [lia|].
  destruct (lookup_lt_is_Some_2 M (position (DS.Matrix.rows m) row))
    as [line Hline]; [lia|].
  destruct (Hall _ _ _ Hr Hline) as [Hstore Hl].
  exists r, line. split_and!; try done.
  rewrite py_get_position by lia.
  replace (Z.of_nat (length (DS.Matrix.data m))) with (DS.Matrix.rows m)
    by lia.
  done.
Qed.

Lemma matrix_row_at_run m row r :
  DS.py_get (DS.Matrix.data m) row = Some r ->
  DS.Matrix.row_at row m = (DS.Ok r, m).
Proof. intros H. unfold DS.Matrix.row_at. by rewrite H. Qed.

Lemma matrix_row_at_err m row :
  DS.py_get (DS.Matrix.data m) row = None ->
  DS.Matrix.row_at row m = (DS.Err DS.IndexError, m).
Proof. intros H. unfold DS.Matrix.row_at. by rewrite H. Qed.

Lemma py_get_outside {A} (l : list A) i :
  i < - Z.of_nat (length l) \/ Z.of_nat (length l) <= i ->
  DS.py_get l i = None.
Proof. intros Hi. unfold DS.py_get. by rewrite index_outside. Qed.

Lemma py_set_outside {A} (l : list A) i v :
  i < - Z.of_nat (length l) \/ Z.of_nat (length l) <= i ->
  DS.py_set l i v = None.
Proof. intros Hi. unfold DS.py_set. by rewrite index_outside. Qed.

Lemma matrix_deref_run m r l :
  DS.Matrix.store m !! r = Some l -> DS.Matrix.deref r m = (DS.Ok l, m).
Proof. intros H. unfold DS.Matrix.deref. by rewrite H. Qed.

Ltac mx_simpl :=
  cbn [DS.Matrix.rows DS.Matrix.cols DS.Matrix.data DS.Matrix.store].

(** X25. [Matrix] indexing follows Python's list indexing in both
    coordinates: for [-rows <= row < rows] and [-cols <= col < cols],
    negative indices counting from the end, [m[row, col]] returns the
    element there and [m[row, col] = value] replaces just that element,
    which a following read returns; for any other pair both raise
    [IndexError] and change nothing. *)
Theorem X25_matrix_indexing (m : DS.Matrix.t) (M : list (list DS.pyval))
    (row col : Z) (v : DS.pyval) :
  matrix_repr m M ->
  (- DS.Matrix.rows m <= row < DS.Matrix.rows m ->
   - DS.Matrix.cols m <= col < DS.Matrix.cols m ->
   exists line x m',
     M !! position (DS.Matrix.rows m) row = Some line /\
     line !! position (DS.Matrix.cols m) col = Some x /\
     DS.Matrix.__getitem__ row col m = (DS.Ok x, m) /\
     DS.Matrix.__setitem__ row col v m = (DS.Ok tt, m') /\
     matrix_repr m'
       (<[position (DS.Matrix.rows m) row :=
            <[position (DS.Matrix.cols m) col := v]> line]> M) /\
     DS.Matrix.__getitem__ row col m' = (DS.Ok v, m')) /\
  (row < - DS.Matrix.rows m \/ DS.Matrix.rows m <= row \/
   col < - DS.Matrix.cols m \/ DS.Matrix.cols m <= col ->
   DS.Matrix.__getitem__ row col m = (DS.Err DS.IndexError, m) /\
   DS.Matrix.__setitem__ row col v m = (DS.Err DS.IndexError, m)).
Proof.
  intros Hrepr. split.
  - intros Hrow Hcol.
    destruct (matrix_row_at m M row Hrepr Hrow)
      as (r & line & Hr & Hline & Hstore & Hl & Hpy).
    pose proof (position_lt _ _ Hcol) as Hpos.
    destruct (lookup_lt_is_Some_2 line (position (DS.Matrix.cols m) col))
      as [x Hx]; [lia|].
    apply matrix_repr_alt in Hrepr as (Hrows & Hcols & Hnd & Hlen & Hall).
    exists line, x. eexists. split_and!; [done|done| | | |].
    + unfold DS.Matrix.__getitem__.
      erewrite ds_bind_ok by (by apply matrix_row_at_run).
      erewrite ds_bind_ok by (by apply matrix_deref_run).
      rewrite py_get_position by lia. by rewrite Hl, Hx.
    + unfold DS.Matrix.__setitem__.
      erewrite ds_bind_ok by (by apply matrix_row_at_run).
      erewrite ds_bind_ok by (by apply matrix_deref_run).
      rewrite py_set_position by lia. rewrite Hl.
      erewrite ds_bind_ok by reflexivity. reflexivity.
    + apply matrix_repr_alt. mx_simpl.
      rewrite length_insert. split_and!; try done.
      intros i r' row' Hr' Hrow'.
      destruct (decide (i = position (DS.Matrix.rows m) row)) as [->|Hne].
      * rewrite Hr in Hr'. injection Hr' as <-.
        rewrite list_lookup_insert_eq in Hrow'
          by (by eapply lookup_lt_Some).
        injection Hrow' as <-.
        rewrite list_lookup_insert_eq by (by eapply lookup_lt_Some).
        by rewrite length_insert.
      * rewrite list_lookup_insert_ne in Hrow' by done.
        destruct (Hall _ _ _ Hr' Hrow') as [Hs' Hl']. split; [|done].
        rewrite list_lookup_insert_ne; [done|].
        intros ->. apply Hne. by eapply NoDup_lookup.
    + unfold DS.Matrix.__getitem__.
      erewrite ds_bind_ok by (by apply matrix_row_at_run).
      erewrite ds_bind_ok.
      2:{ apply matrix_deref_run. mx_simpl.
          apply list_lookup_insert_eq. by eapply lookup_lt_Some. }
      rewrite py_get_position by (rewrite length_insert; lia).
      rewrite length_insert, Hl.
      by rewrite list_lookup_insert_eq by lia.
  - intros Hout.
    unfold DS.Matrix.__getitem__, DS.Matrix.__setitem__.
    destruct (decide (- DS.Matrix.rows m <= row < DS.Matrix.rows m))
      as [Hrow|Hrow].
    + destruct (matrix_row_at m M row Hrepr Hrow)
        as (r & line & Hr & Hline & Hstore & Hl & Hpy).
      split.
      * erewrite ds_bind_ok by (by apply matrix_row_at_run).
        erewrite ds_bind_ok by (by apply matrix_deref_run).
        by rewrite py_get_outside by lia.
      * erewrite ds_bind_ok by (by apply matrix_row_at_run).
        erewrite ds_bind_ok by (by apply matrix_deref_run).
        by rewrite py_set_outside by lia.
    + apply matrix_repr_alt in Hrepr as (Hrows & Hcols & Hnd & Hlen & Hall).
      rewrite !(ds_bind_err _ _ _ DS.IndexError m); [done|..];
        apply matrix_row_at_err, py_get_outside; lia.
Qed.

Lemma X25_matrix_indexing_witness :
  matrix_repr
    (DS.Matrix.mk 2 2 [0%nat; 1%nat]
       [[DS.PyInt 1; DS.PyInt 2]; [DS.PyInt 3; DS.PyInt 4];
        [DS.PyInt 9; DS.PyInt 8]])
    [[DS.PyInt 1; DS.PyInt 2]; [DS.PyInt 3; DS.PyInt 4]] /\
  - 2 <= -1 < 2 /\
  - 2 <= 0 < 2 /\
  exists line x m',
    [[DS.PyInt 1; DS.PyInt 2]; [DS.PyInt 3; DS.PyInt 4]] !! position 2 (-1) = Some line /\
    line !! position 2 0 = Some x /\
    DS.Matrix.__getitem__ (-1) 0
      (DS.Matrix.mk 2 2 [0%nat; 1%nat]
       [[DS.PyInt 1; DS.PyInt 2]; [DS.PyInt 3; DS.PyInt 4];
        [DS.PyInt 9; DS.PyInt 8]]) = (DS.Ok x,
      (DS.Matrix.mk 2 2 [0%nat; 1%nat]
       [[DS.PyInt 1; DS.PyInt 2]; [DS.PyInt 3; DS.PyInt 4];
        [DS.PyInt 9; DS.PyInt 8]])) /\
    DS.Matrix.__setitem__ (-1) 0 (DS.PyInt 7)
      (DS.Matrix.mk 2 2 [0%nat; 1%nat]
       [[DS.PyInt 1; DS.PyInt 2]; [DS.PyInt 3; DS.PyInt 4];
        [DS.PyInt 9; DS.PyInt 8]]) = (DS.Ok tt, m') /\
    matrix_repr m'
      (<[position 2 (-1) := <[position 2 0 := DS.PyInt 7]> line]>
         [[DS.PyInt 1; DS.PyInt 2]; [DS.PyInt 3; DS.PyInt 4]]) /\
    DS.Matrix.__getitem__ (-1) 0 m' = (DS.Ok (DS.PyInt 7), m').
Proof.
  assert (H1 : matrix_repr
                 (DS.Matrix.mk 2 2 [0%nat; 1%nat]
       [[DS.PyInt 1; DS.PyInt 2]; [DS.PyInt 3; DS.PyInt 4];
        [DS.PyInt 9; DS.PyInt 8]])
                 [[DS.PyInt 1; DS.PyInt 2]; [DS.PyInt 3; DS.PyInt 4]]).
  { unfold matrix_repr. simpl. split_and!; try lia.
    - repeat constructor.
    - apply NoDup_cons. split; [|apply NoDup_singleton].
      apply not_elem_of_cons. split; [lia|apply not_elem_of_nil].
    - repeat constructor. }
  assert (H2 : - 2 <= -1 < 2) by lia.
  assert (H3 : - 2 <= 0 < 2) by lia.
  split; [exact H1|]. split; [exact H2|]. split; [exact H3|].
  exact (proj1 (X25_matrix_indexing _ _ (-1) 0 (DS.PyInt 7) H1) H2 H3).
Defined.

Lemma matrix_data_lt m M r :
  matrix_repr m M -> r ∈ DS.Matrix.data m ->
  (r < length (DS.Matrix.store m))%nat.
Proof.
  intros Hrepr Hin. apply matrix_repr_alt in Hrepr
    as (Hrows & Hcols & Hnd & Hlen & Hall).
  apply list_elem_of_lookup in Hin as [i Hi].
  destruct (lookup_lt_is_Some_2 M i) as [row Hrow].
  { rewrite <- Hlen. by eapply lookup_lt_Some. }
  destruct (Hall _ _ _ Hi Hrow) as [Hs _]. by eapply lookup_lt_Some.
Qed.

Lemma matrix_repr_insert_row m M i r l store' :
  matrix_repr m M ->
  0 <= i <= DS.Matrix.rows m ->
  r ∉ DS.Matrix.data m ->
  store' !! r = Some l ->
  Z.of_nat (length l) = DS.Matrix.cols m ->
  (forall r' row, DS.Matrix.store m !! r' = Some row ->
                  store' !! r' = Some row) ->
  matrix_repr
    (DS.Matrix.mk (DS.Matrix.rows m + 1) (DS.Matrix.cols m)
       (take (Z.to_nat i) (DS.Matrix.data m)
          ++ r :: drop (Z.to_nat i) (DS.Matrix.data m))
       store')
    (take (Z.to_nat i) M ++ l :: drop (Z.to_nat i) M).
Proof.
  intros (Hrows & Hcols & Hlen & Hnd & Hall) Hi Hr Hl Hll Hmono.
  unfold matrix_repr. mx_simpl. split_and!.
  - rewrite length_app, length_take, length_cons, length_drop. lia.
  - done.
  - apply Forall_app. split; [by apply Forall_take|].
    apply Forall_cons. split; [done|]. by apply Forall_drop.
  - rewrite <- Permutation_middle, take_drop. by apply NoDup_cons.
  - assert (Hall' : Forall2 (fun r row => store' !! r = Some row)
                      (DS.Matrix.data m) M).
    { eapply Forall2_impl; [exact Hall|]. intros ? ?. apply Hmono. }
    apply Forall2_app; [by apply Forall2_take|].
    constructor; [done|]. by apply Forall2_drop.
Qed.

Lemma matrix_insert_row_default m M i :
  matrix_repr m M -> 0 <= i <= DS.Matrix.rows m ->
  exists m',
    DS.Matrix.insert_row i None m = (DS.Ok tt, m') /\
    matrix_repr m'
      (take (Z.to_nat i) M
         ++ replicate (Z.to_nat (DS.Matrix.cols m)) (DS.PyInt 0)
         :: drop (Z.to_nat i) M).
Proof.
  intros Hrepr Hi. pose proof Hrepr as (Hrows & Hcols & Hlen & Hnd & Hall).
  apply Forall2_length in Hall.
  eexists. split.
  - unfold DS.Matrix.insert_row. ds_step.
    destruct (Z.ltb_spec i 0), (Z.gtb_spec i (DS.Matrix.rows m)); try lia.
    cbn [orb]. do 3 ds_step. mx_simpl.
    rewrite py_insert_in_range by lia. reflexivity.
  - mx_simpl. apply (matrix_repr_insert_row m M); try done.
    + intros Hin. pose proof (matrix_data_lt _ _ _ Hrepr Hin). lia.
    + by rewrite lookup_app_r, Nat.sub_diag by lia.
    + rewrite length_replicate. lia.
    + intros r' row Hr'. rewrite lookup_app_l; [done|].
      by eapply lookup_lt_Some.
Qed.

Lemma matrix_insert_row_given m M i r l :
  matrix_repr m M -> 0 <= i <= DS.Matrix.rows m ->
  DS.Matrix.store m !! r = Some l -> r ∉ DS.Matrix.data m ->
  (Z.of_nat (length l) = DS.Matrix.cols m ->
   exists m',
     DS.Matrix.insert_row i (Some r) m = (DS.Ok tt, m') /\
     matrix_repr m' (take (Z.to_nat i) M ++ l :: drop (Z.to_nat i) M) /\
     DS.Matrix.store m' = DS.Matrix.store m) /\
  (Z.of_nat (length l) <> DS.Matrix.cols m ->
   DS.Matrix.insert_row i (Some r) m = (DS.Err DS.ValueError, m)).
Proof.
  intros Hrepr Hi Hr Hnin.
  pose proof Hrepr as (Hrows & Hcols & Hlen & Hnd & Hall).
  apply Forall2_length in Hall.
  split.
  - intros Hl. eexists. split; [|split].
    + unfold DS.Matrix.insert_row. ds_step.
      destruct (Z.ltb_spec i 0), (Z.gtb_spec i (DS.Matrix.rows m));
        try lia.
      cbn [orb].
      erewrite ds_bind_ok.
      2:{ erewrite ds_bind_ok by (by apply matrix_deref_run).
          ds_step. rewrite (proj2 (Z.eqb_eq _ _) Hl). reflexivity. }
      do 2 ds_step. mx_simpl.
      rewrite py_insert_in_range by lia. reflexivity.
    + mx_simpl. by apply (matrix_repr_insert_row m M).
    + done.
  - intros Hl. unfold DS.Matrix.insert_row. ds_step.
    destruct (Z.ltb_spec i 0), (Z.gtb_spec i (DS.Matrix.rows m)); try lia.
    cbn [orb].
    erewrite ds_bind_err; [reflexivity|].
    erewrite ds_bind_ok by (by apply matrix_deref_run).
    ds_step. rewrite (proj2 (Z.eqb_neq _ _) Hl). reflexivity.
Qed.

Lemma matrix_delete_row_run m M i :
  matrix_repr m M -> 0 <= i < DS.Matrix.rows m ->
  exists m',
    DS.Matrix.delete_row i m = (DS.Ok tt, m') /\
    matrix_repr m' (delete (Z.to_nat i) M).
Proof.
  intros (Hrows & Hcols & Hlen & Hnd & Hall) Hi.
  pose proof (Forall2_length _ _ _ Hall) as Hdl.
  eexists. split.
  - unfold DS.Matrix.delete_row. ds_step.
    destruct (Z.ltb_spec i 0), (Z.geb_spec i (DS.Matrix.rows m)); try lia.
    cbn [orb]. ds_step.
    rewrite py_del_in_range by lia.
    erewrite ds_bind_ok by reflexivity.
    ds_step. reflexivity.
  - unfold matrix_repr. mx_simpl. split_and!.
    + rewrite length_delete by (apply lookup_lt_is_Some_2; lia). lia.
    + done.
    + by apply Forall_delete.
    + eapply sublist_NoDup; [exact Hnd|]. apply sublist_delete.
    + by apply Forall2_delete.
Qed.

(** X26. Rows of a [Matrix] holding [M].  [insert_row(i)] for
    [0 <= i <= rows] inserts a new row of zeros before row [i];
    [insert_row(i, row)] with a list of the caller that is not yet a row
    inserts it there when its length is [cols] and raises [ValueError]
    otherwise; [delete_row(i)] for [0 <= i < rows] removes row [i].  The
    other rows keep their order and content.  An index outside these
    bounds raises [IndexError]; every call that raises leaves the matrix
    as it was. *)
Theorem X26_matrix_rows (m : DS.Matrix.t) (M : list (list DS.pyval))
    (i : Z) :
  matrix_repr m M ->
  (0 <= i <= DS.Matrix.rows m ->
   (exists m',
      DS.Matrix.insert_row i None m = (DS.Ok tt, m') /\
      matrix_repr m'
        (take (Z.to_nat i) M
           ++ replicate (Z.to_nat (DS.Matrix.cols m)) (DS.PyInt 0)
           :: drop (Z.to_nat i) M)) /\
   (forall r l,
      DS.Matrix.store m !! r = Some l -> r ∉ DS.Matrix.data m ->
      (Z.of_nat (length l) = DS.Matrix.cols m ->
       exists m',
         DS.Matrix.insert_row i (Some r) m = (DS.Ok tt, m') /\
         matrix_repr m' (take (Z.to_nat i) M ++ l :: drop (Z.to_nat i) M)) /\
      (Z.of_nat (length l) <> DS.Matrix.cols m ->
       DS.Matrix.insert_row i (Some r) m = (DS.Err DS.ValueError, m)))) /\
  (i < 0 \/ DS.Matrix.rows m < i ->
   forall row_data,
     DS.Matrix.insert_row i row_data m = (DS.Err DS.IndexError, m)) /\
  (0 <= i < DS.Matrix.rows m ->
   exists m',
     DS.Matrix.delete_row i m = (DS.Ok tt, m') /\
     matrix_repr m' (delete (Z.to_nat i) M)) /\
  (i < 0 \/ DS.Matrix.rows m <= i ->
   DS.Matrix.delete_row i m = (DS.Err DS.IndexError, m)).
Proof.
  intros Hrepr. split_and!.
  - intros Hi. split; [by apply matrix_insert_row_default|].
    intros r l Hr Hnin.
    destruct (matrix_insert_row_given m M i r l Hrepr Hi Hr Hnin)
      as [Hok Herr].
    split; [|done]. intros Hl.
    destruct (Hok Hl) as (m' & Hrun & Hrepr' & _). by exists m'.
  - intros Hout row_data. unfold DS.Matrix.insert_row. ds_step.
    destruct (Z.ltb_spec i 0), (Z.gtb_spec i (DS.Matrix.rows m));
      (done || lia).
  - by apply matrix_delete_row_run.
  - intros Hout. unfold DS.Matrix.delete_row. ds_step.
    destruct (Z.ltb_spec i 0), (Z.geb_spec i (DS.Matrix.rows m));
      (done || lia).
Qed.

Lemma X26_matrix_rows_witness :
  matrix_repr
    (DS.Matrix.mk 2 2 [0%nat; 1%nat]
       [[DS.PyInt 1; DS.PyInt 2]; [DS.PyInt 3; DS.PyInt 4];
        [DS.PyInt 9; DS.PyInt 8]])
    [[DS.PyInt 1; DS.PyInt 2]; [DS.PyInt 3; DS.PyInt 4]] /\
  0 <= 1 <= 2 /\
  exists m',
    DS.Matrix.insert_row 1 None
      (DS.Matrix.mk 2 2 [0%nat; 1%nat]
       [[DS.PyInt 1; DS.PyInt 2]; [DS.PyInt 3; DS.PyInt 4];
        [DS.PyInt 9; DS.PyInt 8]]) = (DS.Ok tt, m') /\
    matrix_repr m'
      (take (Z.to_nat 1) [[DS.PyInt 1; DS.PyInt 2]; [DS.PyInt 3; DS.PyInt 4]]
         ++ replicate (Z.to_nat 2) (DS.PyInt 0)
         :: drop (Z.to_nat 1) [[DS.PyInt 1; DS.PyInt 2]; [DS.PyInt 3; DS.PyInt 4]]).
Proof.
  assert (H1 : matrix_repr
                 (DS.Matrix.mk 2 2 [0%nat; 1%nat]
       [[DS.PyInt 1; DS.PyInt 2]; [DS.PyInt 3; DS.PyInt 4];
        [DS.PyInt 9; DS.PyInt 8]])
                 [[DS.PyInt 1; DS.PyInt 2]; [DS.PyInt 3; DS.PyInt 4]]).
  { unfold matrix_repr. simpl. split_and!; try lia.
    - repeat constructor.
    - apply NoDup_cons. split; [|apply NoDup_singleton].
      apply not_elem_of_cons. split; [lia|apply not_elem_of_nil].
    - repeat constructor. }
  assert (H2 : 0 <= 1 <= 2) by lia.
  split; [exact H1|]. split; [exact H2|].
  exact (proj1 (proj1 (X26_matrix_rows _ _ 1 H1) H2)).
Defined.

Lemma matrix_rows_loop m M (body : Z -> unit -> DS.Meth DS.Matrix.t unit)
    (g : nat -> list DS.pyval -> list DS.pyval)
    (P : list (list DS.pyval) -> Prop) :
  matrix_repr m M ->
  P (DS.Matrix.store m) ->
  (forall i r row st,
     DS.Matrix.data m !! i = Some r -> M !! i = Some row ->
     st !! r = Some row -> P st ->
     body (Z.of_nat i) tt
       (DS.Matrix.mk (DS.Matrix.rows m) (DS.Matrix.cols m)
          (DS.Matrix.data m) st)
     = (DS.Ok tt,
        DS.Matrix.mk (DS.Matrix.rows m) (DS.Matrix.cols m)
          (DS.Matrix.data m) (<[r := g i row]> st)) /\
     P (<[r := g i row]> st)) ->
  exists st',
    DS.for_ (range 0 (DS.Matrix.rows m)) body tt m
      = (DS.Ok tt,
         DS.Matrix.mk (DS.Matrix.rows m) (DS.Matrix.cols m)
           (DS.Matrix.data m) st') /\
    P st' /\
    length st' = length (DS.Matrix.store m) /\
    forall i r row,
      DS.Matrix.data m !! i = Some r -> M !! i = Some row ->
      st' !! r = Some (g i row).
Proof.
  intros Hrepr HP Hstep.
  apply matrix_repr_alt in Hrepr as (Hrows & Hcols & Hnd & Hlen & Hall).
  destruct (ds_for_inv (range 0 (DS.Matrix.rows m)) body
              (fun k (_ : unit) self =>
                 exists st,
                   self = DS.Matrix.mk (DS.Matrix.rows m) (DS.Matrix.cols m)
                            (DS.Matrix.data m) st /\
                   P st /\
                   length st = length (DS.Matrix.store m) /\
                   forall i r row,
                     DS.Matrix.data m !! i = Some r -> M !! i = Some row ->
                     st !! r = Some (if decide (i < k)%nat then g i row
                                     else row))
              tt m) as ([] & self' & Hrun & st' & -> & HP' & Hl' & Hall').
  - exists (DS.Matrix.store m). split; [by destruct m|].
    split; [done|]. split; [done|].
    intros i r row Hr Hrow. rewrite decide_False by lia.
    by destruct (Hall _ _ _ Hr Hrow).
  - intros k x [] self Hx (st & -> & HPst & Hlst & Hst).
    apply lookup_seqZ in Hx as [-> Hk]. rewrite Z.add_0_l.
    destruct (lookup_lt_is_Some_2 (DS.Matrix.data m) k) as [r Hr]; [lia|].
    destruct (lookup_lt_is_Some_2 M k) as [row Hrow]; [lia|].
    pose proof (Hst _ _ _ Hr Hrow) as Hsr.
    rewrite decide_False in Hsr by lia.
    destruct (Hstep k r row st Hr Hrow Hsr HPst) as [Hbody HP'].
    eexists tt, _. split; [exact Hbody|].
    eexists. split; [reflexivity|]. split; [done|].
    split; [by rewrite length_insert|].
    intros i r' row' Hr' Hrow'.
    destruct (decide (i = k)) as [->|Hne].
    + rewrite Hr in Hr'. injection Hr' as <-.
      rewrite Hrow in Hrow'. injection Hrow' as <-.
      rewrite decide_True by lia.
      apply list_lookup_insert_eq. by eapply lookup_lt_Some.
    + rewrite list_lookup_insert_ne
        by (intros ->; apply Hne; symmetry; by eapply NoDup_lookup).
      etrans; [exact (Hst _ _ _ Hr' Hrow')|]. f_equal.
      repeat case_decide; (done || lia).
  - exists st'. split; [done|]. split; [done|]. split; [done|].
    intros i r row Hr Hrow.
    etrans; [exact (Hall' _ _ _ Hr Hrow)|]. f_equal.
    unfold range. rewrite length_seqZ.
    rewrite decide_True; [done|]. apply lookup_lt_Some in Hrow. lia.
Qed.

Lemma matrix_repr_cols m M st' (g : nat -> list DS.pyval -> list DS.pyval)
    (d : Z) :
  matrix_repr m M ->
  0 <= DS.Matrix.cols m + d ->
  (forall i row, M !! i = Some row ->
     Z.of_nat (length (g i row)) = DS.Matrix.cols m + d) ->
  (forall i r row,
     DS.Matrix.data m !! i = Some r -> M !! i = Some row ->
     st' !! r = Some (g i row)) ->
  matrix_repr
    (DS.Matrix.mk (DS.Matrix.rows m) (DS.Matrix.cols m + d)
       (DS.Matrix.data m) st')
    (imap g M).
Proof.
  intros Hrepr Hd Hg Hst.
  apply matrix_repr_alt in Hrepr as (Hrows & Hcols & Hnd & Hlen & Hall).
  apply matrix_repr_alt. mx_simpl. rewrite length_imap.
  split_and!; try done.
  intros i r row' Hr Hrow'.
  rewrite list_lookup_imap in Hrow'.
  destruct (M !! i) as [row|] eqn:Hrow; [|done].
  injection Hrow' as <-. split; [by eapply Hst|by eapply Hg].
Qed.

Lemma imap_zip_with {A B} (f : A -> B -> A) (l : list A) (k : list B) :
  length k = length l ->
  imap (fun i x => match k !! i with Some y => f x y | None => x end) l
  = zip_with f l k.
Proof.
  intros Hlen. apply list_eq. intros i.
  rewrite list_lookup_imap, lookup_zip_with.
  destruct (l !! i) as [x|] eqn:Hx; [|done]. simpl.
  destruct (lookup_lt_is_Some_2 k i) as [y Hy].
  { rewrite Hlen. by eapply lookup_lt_Some. }
  by rewrite Hy.
Qed.

Lemma zip_with_replicate_same {A B} (f : A -> B -> A) (l : list A) y :
  zip_with f l (replicate (length l) y) = (fun x => f x y) <$> l.
Proof. induction l as [|x l IH]; simpl; [done|]. by rewrite IH. Qed.

Lemma matrix_insert_col_loop m M j cd c :
  matrix_repr m M ->
  DS.Matrix.store m !! cd = Some c -> cd ∉ DS.Matrix.data m ->
  Z.of_nat (length c) = DS.Matrix.rows m ->
  0 <= j <= DS.Matrix.cols m ->
  exists m',
    DS.bind
      (DS.for_ (range 0 (DS.Matrix.rows m))
         (fun i (_ : unit) =>
            DS.bind (DS.Matrix.row_at i) (fun r =>
            DS.bind (DS.Matrix.deref cd) (fun cdl =>
            DS.bind (DS.of_option (DS.py_get cdl i)) (fun x =>
            DS.bind (DS.Matrix.deref r) (fun l =>
            DS.Matrix.assign r (DS.py_insert l j x))))))
         tt)
      (fun _ => DS.Matrix.add_cols 1) m = (DS.Ok tt, m') /\
    matrix_repr m'
      (zip_with
         (fun row x => take (Z.to_nat j) row ++ x :: drop (Z.to_nat j) row)
         M c).
Proof.
  intros Hrepr Hcd Hnin Hc Hj.
  pose proof Hrepr as (Hrows & Hcols & Hlen & Hnd & Hall).
  pose proof (Forall2_length _ _ _ Hall) as Hdl.
  set (ins := fun (row : list DS.pyval) x =>
                take (Z.to_nat j) row ++ x :: drop (Z.to_nat j) row).
  destruct (matrix_rows_loop m M
              (fun i (_ : unit) =>
                 DS.bind (DS.Matrix.row_at i) (fun r =>
                 DS.bind (DS.Matrix.deref cd) (fun cdl =>
                 DS.bind (DS.of_option (DS.py_get cdl i)) (fun x =>
                 DS.bind (DS.Matrix.deref r) (fun l =>
                 DS.Matrix.assign r (DS.py_insert l j x))))))
              (fun i row => match c !! i with
                            | Some x => ins row x
                            | None => row
                            end)
              (fun st => st !! cd = Some c) Hrepr Hcd)
    as (st' & Hrun & _ & _ & Hst').
  - intros i r row st Hr Hrow Hsr Hst.
    assert (Hi : (i < length M)%nat) by (by eapply lookup_lt_Some).
    destruct (lookup_lt_is_Some_2 c i) as [x Hx]; [lia|].
    assert (Hrl : Z.of_nat (length row) = DS.Matrix.cols m)
      by (by eapply (Forall_lookup_1 _ _ _ _ Hlen)).
    rewrite Hx. split.
    + erewrite ds_bind_ok.
      2:{ apply matrix_row_at_run. mx_simpl.
          rewrite py_get_in_range by lia. by rewrite Nat2Z.id. }
      erewrite ds_bind_ok by (by apply matrix_deref_run).
      rewrite py_get_in_range by lia. rewrite Nat2Z.id, Hx.
      erewrite ds_bind_ok by reflexivity.
      erewrite ds_bind_ok by (by apply matrix_deref_run).
      rewrite py_insert_in_range by lia. reflexivity.
    + rewrite list_lookup_insert_ne; [done|].
      intros ->. apply Hnin. by eapply list_elem_of_lookup_2.
  - eexists. split.
    + erewrite ds_bind_ok by exact Hrun. reflexivity.
    + rewrite <- (imap_zip_with ins) by lia.
      apply (matrix_repr_cols m M st' _ 1); [done|lia| |done].
      intros i row Hrow.
      assert (Hi : (i < length M)%nat) by (by eapply lookup_lt_Some).
      destruct (lookup_lt_is_Some_2 c i) as [x Hx]; [lia|].
      assert (Hrl : Z.of_nat (length row) = DS.Matrix.cols m)
        by (by eapply (Forall_lookup_1 _ _ _ _ Hlen)).
      rewrite Hx. unfold ins.
      rewrite length_app, length_take, length_cons, length_drop. lia.
Qed.

Lemma matrix_repr_alloc m M l :
  matrix_repr m M ->
  matrix_repr
    (DS.Matrix.mk (DS.Matrix.rows m) (DS.Matrix.cols m) (DS.Matrix.data m)
       (DS.Matrix.store m ++ [l])) M.
Proof.
  intros (Hrows & Hcols & Hlen & Hnd & Hall).
  unfold matrix_repr. mx_simpl. split_and!; try done.
  eapply Forall2_impl; [exact Hall|]. intros r row Hr. simpl in *.
  rewrite lookup_app_l; [done|]. by eapply lookup_lt_Some.
Qed.

Lemma matrix_insert_col_run m M j :
  matrix_repr m M -> 0 <= j <= DS.Matrix.cols m ->
  (exists m',
     DS.Matrix.insert_col j None m = (DS.Ok tt, m') /\
     matrix_repr m'
       ((fun row => take (Z.to_nat j) row
                      ++ DS.PyInt 0 :: drop (Z.to_nat j) row) <$> M)) /\
  (forall cd c,
     DS.Matrix.store m !! cd = Some c -> cd ∉ DS.Matrix.data m ->
     (Z.of_nat (length c) = DS.Matrix.rows m ->
      exists m',
        DS.Matrix.insert_col j (Some cd) m = (DS.Ok tt, m') /\
        matrix_repr m'
          (zip_with
             (fun row x =>
                take (Z.to_nat j) row ++ x :: drop (Z.to_nat j) row)
             M c)) /\
     (Z.of_nat (length c) <> DS.Matrix.rows m ->
      DS.Matrix.insert_col j (Some cd) m = (DS.Err DS.ValueError, m))).
Proof.
  intros Hrepr Hj. pose proof Hrepr as (Hrows & Hcols & Hlen & Hnd & Hall).
  split.
  - destruct (matrix_insert_col_loop
                (DS.Matrix.mk (DS.Matrix.rows m) (DS.Matrix.cols m)
                   (DS.Matrix.data m)
                   (DS.Matrix.store m
                      ++ [replicate (Z.to_nat (DS.Matrix.rows m))
                            (DS.PyInt 0)]))
                M j (length (DS.Matrix.store m))
                (replicate (Z.to_nat (DS.Matrix.rows m)) (DS.PyInt 0)))
      as (m' & Hrun & Hrepr'); mx_simpl.
    + by apply matrix_repr_alloc.
    + by rewrite lookup_app_r, Nat.sub_diag by lia.
    + intros Hin. pose proof (matrix_data_lt _ _ _ Hrepr Hin). lia.
    + rewrite length_replicate. lia.
    + done.
    + exists m'. split.
      * unfold DS.Matrix.insert_col. erewrite ds_bind_ok by reflexivity.
        destruct (Z.ltb_spec j 0), (Z.gtb_spec j (DS.Matrix.cols m));
          try lia.
        cbn [orb]. do 2 (erewrite ds_bind_ok by reflexivity).
        mx_simpl. exact Hrun.
      * rewrite Hrows, Nat2Z.id, zip_with_replicate_same in Hrepr'. done.
  - intros cd c Hcd Hnin. split.
    + intros Hc.
      destruct (matrix_insert_col_loop m M j cd c Hrepr Hcd Hnin Hc Hj)
        as (m' & Hrun & Hrepr').
      exists m'. split; [|done].
      unfold DS.Matrix.insert_col. erewrite ds_bind_ok by reflexivity.
      destruct (Z.ltb_spec j 0), (Z.gtb_spec j (DS.Matrix.cols m));
        try lia.
      cbn [orb].
      erewrite ds_bind_ok.
      2:{ erewrite ds_bind_ok by (by apply matrix_deref_run).
          erewrite ds_bind_ok by reflexivity.
          rewrite (proj2 (Z.eqb_eq _ _) Hc). reflexivity. }
      erewrite ds_bind_ok by reflexivity. exact Hrun.
    + intros Hc. unfold DS.Matrix.insert_col. ds_step.
      destruct (Z.ltb_spec j 0), (Z.gtb_spec j (DS.Matrix.cols m));
        try lia.
      cbn [orb].
      erewrite ds_bind_err; [reflexivity|].
      erewrite ds_bind_ok by (by apply matrix_deref_run).
      ds_step. rewrite (proj2 (Z.eqb_neq _ _) Hc). reflexivity.
Qed.

Lemma matrix_delete_col_run m M j :
  matrix_repr m M -> 0 <= j < DS.Matrix.cols m ->
  exists m',
    DS.Matrix.delete_col j m = (DS.Ok tt, m') /\
    matrix_repr m' (delete (Z.to_nat j) <$> M).
Proof.
  intros Hrepr Hj. pose proof Hrepr as (Hrows & Hcols & Hlen & Hnd & Hall).
  pose proof (Forall2_length _ _ _ Hall) as Hdl.
  destruct (matrix_rows_loop m M
              (fun i (_ : unit) =>
                 DS.bind (DS.Matrix.row_at i) (fun r =>
                 DS.bind (DS.Matrix.deref r) (fun l =>
                 DS.bind (DS.of_option (DS.py_del l j)) (fun l' =>
                 DS.Matrix.assign r l'))))
              (fun _ => delete (Z.to_nat j))
              (fun _ => True) Hrepr I)
    as (st' & Hrun & _ & _ & Hst').
  - intros i r row st Hr Hrow Hsr _.
    assert (Hi : (i < length M)%nat) by (by eapply lookup_lt_Some).
    assert (Hrl : Z.of_nat (length row) = DS.Matrix.cols m)
      by (by eapply (Forall_lookup_1 _ _ _ _ Hlen)).
    split; [|done].
    erewrite ds_bind_ok.
    2:{ apply matrix_row_at_run. mx_simpl.
        rewrite py_get_in_range by lia. by rewrite Nat2Z.id. }
    erewrite ds_bind_ok by (by apply matrix_deref_run).
    rewrite py_del_in_range by lia.
    erewrite ds_bind_ok by reflexivity. reflexivity.
  - eexists. split.
    + unfold DS.Matrix.delete_col. ds_step.
      destruct (Z.ltb_spec j 0), (Z.geb_spec j (DS.Matrix.cols m));
        try lia.
      cbn [orb]. ds_step.
      erewrite ds_bind_ok by exact Hrun. reflexivity.
    + rewrite <- imap_const.
      apply (matrix_repr_cols m M st' _ (-1)); [done|lia| |done].
      intros i row Hrow.
      assert (Hrl : Z.of_nat (length row) = DS.Matrix.cols m)
        by (by eapply (Forall_lookup_1 _ _ _ _ Hlen)).
      unfold const.
      rewrite length_delete by (apply lookup_lt_is_Some_2; lia). lia.
Qed.

(** X27. Columns of a [Matrix] holding [M].  [insert_col(j)] for
    [0 <= j <= cols] inserts a zero before position [j] of every row;
    [insert_col(j, col)] with a list of the caller that is no row inserts
    [col[i]] there in row [i] when the list has [rows] elements and raises
    [ValueError] otherwise; [delete_col(j)] for [0 <= j < cols] removes
    position [j] of every row.  An index outside these bounds raises
    [IndexError]; every call that raises leaves the matrix as it was. *)
Theorem X27_matrix_columns (m : DS.Matrix.t) (M : list (list DS.pyval))
    (j : Z) :
  matrix_repr m M ->
  (0 <= j <= DS.Matrix.cols m ->
   (exists m',
      DS.Matrix.insert_col j None m = (DS.Ok tt, m') /\
      matrix_repr m'
        ((fun row => take (Z.to_nat j) row
                       ++ DS.PyInt 0 :: drop (Z.to_nat j) row) <$> M)) /\
   (forall cd c,
      DS.Matrix.store m !! cd = Some c -> cd ∉ DS.Matrix.data m ->
      (Z.of_nat (length c) = DS.Matrix.rows m ->
       exists m',
         DS.Matrix.insert_col j (Some cd) m = (DS.Ok tt, m') /\
         matrix_repr m'
           (zip_with
              (fun row x =>
                 take (Z.to_nat j) row ++ x :: drop (Z.to_nat j) row)
              M c)) /\
      (Z.of_nat (length c) <> DS.Matrix.rows m ->
       DS.Matrix.insert_col j (Some cd) m = (DS.Err DS.ValueError, m)))) /\
  (j < 0 \/ DS.Matrix.cols m < j ->
   forall col_data,
     DS.Matrix.insert_col j col_data m = (DS.Err DS.IndexError, m)) /\
  (0 <= j < DS.Matrix.cols m ->
   exists m',
     DS.Matrix.delete_col j m = (DS.Ok tt, m') /\
     matrix_repr m' (delete (Z.to_nat j) <$> M)) /\
  (j < 0 \/ DS.Matrix.cols m <= j ->
   DS.Matrix.delete_col j m = (DS.Err DS.IndexError, m)).
Proof.
  intros Hrepr. split_and!.
  - by apply matrix_insert_col_run.
  - intros Hout col_data. unfold DS.Matrix.insert_col. ds_step.
    destruct (Z.ltb_spec j 0), (Z.gtb_spec j (DS.Matrix.cols m));
      (done || lia).
  - by apply matrix_delete_col_run.
  - intros Hout. unfold DS.Matrix.delete_col. ds_step.
    destruct (Z.ltb_spec j 0), (Z.geb_spec j (DS.Matrix.cols m));
      (done || lia).
Qed.

Lemma X27_matrix_columns_witness :
  matrix_repr
    (DS.Matrix.mk 2 2 [0%nat; 1%nat]
       [[DS.PyInt 1; DS.PyInt 2]; [DS.PyInt 3; DS.PyInt 4];
        [DS.PyInt 9; DS.PyInt 8]])
    [[DS.PyInt 1; DS.PyInt 2]; [DS.PyInt 3; DS.PyInt 4]] /\
  0 <= 1 < 2 /\
  exists m',
    DS.Matrix.delete_col 1
      (DS.Matrix.mk 2 2 [0%nat; 1%nat]
       [[DS.PyInt 1; DS.PyInt 2]; [DS.PyInt 3; DS.PyInt 4];
        [DS.PyInt 9; DS.PyInt 8]]) = (DS.Ok tt, m') /\
    matrix_repr m'
      (delete (Z.to_nat 1) <$> [[DS.PyInt 1; DS.PyInt 2]; [DS.PyInt 3; DS.PyInt 4]]).
Proof.
  assert (H1 : matrix_repr
                 (DS.Matrix.mk 2 2 [0%nat; 1%nat]
       [[DS.PyInt 1; DS.PyInt 2]; [DS.PyInt 3; DS.PyInt 4];
        [DS.PyInt 9; DS.PyInt 8]])
                 [[DS.PyInt 1; DS.PyInt 2]; [DS.PyInt 3; DS.PyInt 4]]).
  { unfold matrix_repr. simpl. split_and!; try lia.
    - repeat constructor.
    - apply NoDup_cons. split; [|apply NoDup_singleton].
      apply not_elem_of_cons. split; [lia|apply not_elem_of_nil].
    - repeat constructor. }
  assert (H2 : 0 <= 1 < 2) by lia.
  split; [exact H1|]. split; [exact H2|].
  exact (proj1 (proj2 (proj2 (X27_matrix_columns _ _ 1 H1))) H2).
Defined.

Lemma matrix_insert_row_some m i r l :
  0 <= i <= DS.Matrix.rows m ->
  DS.Matrix.rows m = Z.of_nat (length (DS.Matrix.data m)) ->
  DS.Matrix.store m !! r = Some l ->
  Z.of_nat (length l) = DS.Matrix.cols m ->
  DS.Matrix.insert_row i (Some r) m
    = (DS.Ok tt,
       DS.Matrix.mk (DS.Matrix.rows m + 1) (DS.Matrix.cols m)
         (take (Z.to_nat i) (DS.Matrix.data m)
            ++ r :: drop (Z.to_nat i) (DS.Matrix.data m))
         (DS.Matrix.store m)).
Proof.
  intros Hi Hrows Hr Hl.
  unfold DS.Matrix.insert_row. erewrite ds_bind_ok by reflexivity.
  destruct (Z.ltb_spec i 0), (Z.gtb_spec i (DS.Matrix.rows m)); try lia.
  cbn [orb].
  erewrite ds_bind_ok.
  2:{ erewrite ds_bind_ok by (by apply matrix_deref_run).
      erewrite ds_bind_ok by reflexivity.
      rewrite (proj2 (Z.eqb_eq _ _) Hl). reflexivity. }
  do 2 (erewrite ds_bind_ok by reflexivity). mx_simpl.
  rewrite py_insert_in_range by lia. reflexivity.
Qed.

Lemma matrix_init_repr store0 rows cols fill_value :
  0 <= rows -> 0 <= cols ->
  matrix_repr (DS.Matrix.__init__ store0 rows cols fill_value)
    (replicate (Z.to_nat rows) (replicate (Z.to_nat cols) fill_value)).
Proof.
  intros Hrows Hcols. apply matrix_repr_alt. unfold DS.Matrix.__init__.
  mx_simpl. rewrite length_replicate, length_seq.
  split_and!; [lia|done|apply NoDup_seq|done|].
  intros i r row Hr Hrow.
  apply lookup_seq in Hr as [-> Hi].
  apply lookup_replicate in Hrow as [-> _].
  rewrite length_replicate. split; [|lia].
  rewrite lookup_app_r by lia.
  replace (length store0 + i - length store0)%nat with i by lia.
  by apply lookup_replicate.
Qed.

(** X28. The rows of a [Matrix] are list objects.  [Matrix(rows, cols,
    fill)] makes one new list per row, leaving the lists that existed
    untouched, so that it holds [rows] separate rows of [cols] times
    [fill].  [insert_row(i, row)] keeps the caller's list itself, not a
    copy: after the same list is inserted twice, a write to [m[i, c]]
    changes the caller's list and shows in row [i + 1] as well. *)
Theorem X28_matrix_rows_are_objects (store0 : list (list DS.pyval))
    (rows cols : Z) (fill_value v : DS.pyval) (r : nat)
    (l : list DS.pyval) (i c : Z) :
  0 <= rows -> 0 <= cols ->
  store0 !! r = Some l -> Z.of_nat (length l) = cols ->
  0 <= i <= rows -> 0 <= c < cols ->
  let m := DS.Matrix.__init__ store0 rows cols fill_value in
  matrix_repr m
    (replicate (Z.to_nat rows) (replicate (Z.to_nat cols) fill_value)) /\
  DS.Matrix.store m !! r = Some l /\
  exists m1 m2 m3,
    DS.Matrix.insert_row i (Some r) m = (DS.Ok tt, m1) /\
    matrix_repr m1
      (take (Z.to_nat i)
         (replicate (Z.to_nat rows) (replicate (Z.to_nat cols) fill_value))
       ++ l :: drop (Z.to_nat i)
                 (replicate (Z.to_nat rows)
                    (replicate (Z.to_nat cols) fill_value))) /\
    DS.Matrix.insert_row i (Some r) m1 = (DS.Ok tt, m2) /\
    DS.Matrix.__setitem__ i c v m2 = (DS.Ok tt, m3) /\
    DS.Matrix.__getitem__ (i + 1) c m3 = (DS.Ok v, m3) /\
    DS.Matrix.store m3 !! r = Some (<[Z.to_nat c := v]> l).
Proof.
  intros Hrows Hcols Hr Hl Hi Hc m.
  pose proof (matrix_init_repr store0 rows cols fill_value Hrows Hcols)
    as Hrepr.
  fold m in Hrepr.
  assert (Hrm : DS.Matrix.store m !! r = Some l).
  { unfold m, DS.Matrix.__init__. mx_simpl.
    rewrite lookup_app_l; [done|]. by eapply lookup_lt_Some. }
  assert (Hnin : r ∉ DS.Matrix.data m).
  { unfold m, DS.Matrix.__init__. mx_simpl. intros Hin.
    apply list_elem_of_lookup in Hin as [k Hk].
    apply lookup_seq in Hk as [-> _].
    apply lookup_lt_Some in Hr. lia. }
  assert (Hdm : length (DS.Matrix.data m) = Z.to_nat rows)
    by (unfold m, DS.Matrix.__init__; mx_simpl; by rewrite length_seq).
  split; [done|]. split; [done|].
  set (d := DS.Matrix.data m) in *.
  set (d1 := take (Z.to_nat i) d ++ r :: drop (Z.to_nat i) d).
  set (d2 := take (Z.to_nat i) d1 ++ r :: drop (Z.to_nat i) d1).
  unfold DS.Matrix.ref in *.
  assert (Hd1 : length d1 = S (Z.to_nat rows)).
  { unfold d1. rewrite length_app, length_take, length_cons, length_drop.
    lia. }
  assert (Hd2 : length d2 = S (S (Z.to_nat rows))).
  { unfold d2. rewrite length_app, length_take, length_cons, length_drop.
    lia. }
  assert (Hd1i : d1 !! Z.to_nat i = Some r).
  { unfold d1. rewrite lookup_app_r by (rewrite length_take; lia).
    rewrite length_take, Nat.min_l, Nat.sub_diag by lia. done. }
  assert (Hd2i : d2 !! Z.to_nat i = Some r).
  { unfold d2. rewrite lookup_app_r by (rewrite length_take; lia).
    rewrite length_take, Nat.min_l, Nat.sub_diag by lia. done. }
  assert (Hd2i' : d2 !! Z.to_nat (i + 1) = Some r).
  { unfold d2. rewrite lookup_app_r by (rewrite length_take; lia).
    rewrite length_take, Nat.min_l by lia.
    replace (Z.to_nat (i + 1) - Z.to_nat i)%nat with 1%nat by lia.
    simpl. by rewrite lookup_drop, Nat.add_0_r. }
  exists (DS.Matrix.mk (rows + 1) cols d1 (DS.Matrix.store m)),
    (DS.Matrix.mk (rows + 1 + 1) cols d2 (DS.Matrix.store m)),
    (DS.Matrix.mk (rows + 1 + 1) cols d2
       (<[r := <[Z.to_nat c := v]> l]> (DS.Matrix.store m))).
  split_and!.
  - apply (matrix_insert_row_some m i r l);
      [exact Hi| |exact Hrm|exact Hl].
    unfold m, DS.Matrix.__init__. mx_simpl. rewrite length_seq. lia.
  - apply (matrix_repr_insert_row m _ i r l); try done.
  - apply (matrix_insert_row_some
             (DS.Matrix.mk (rows + 1) cols d1 (DS.Matrix.store m)) i r l);
      mx_simpl; [lia|unfold DS.Matrix.ref; lia|exact Hrm|exact Hl].
  - unfold DS.Matrix.__setitem__.
    erewrite ds_bind_ok.
    2:{ apply matrix_row_at_run. mx_simpl.
        rewrite py_get_in_range by (unfold DS.Matrix.ref; lia).
        exact Hd2i. }
    erewrite ds_bind_ok by (by apply matrix_deref_run).
    rewrite py_set_in_range by lia.
    erewrite ds_bind_ok by reflexivity. reflexivity.
  - unfold DS.Matrix.__getitem__.
    erewrite ds_bind_ok.
    2:{ apply matrix_row_at_run. mx_simpl.
        rewrite py_get_in_range by (unfold DS.Matrix.ref; lia).
        exact Hd2i'. }
    erewrite ds_bind_ok.
    2:{ apply matrix_deref_run. mx_simpl.
        apply list_lookup_insert_eq. by eapply lookup_lt_Some. }
    rewrite py_get_in_range by (rewrite length_insert; lia).
    by rewrite list_lookup_insert_eq by lia.
  - mx_simpl. apply list_lookup_insert_eq. by eapply lookup_lt_Some.
Qed.

Lemma X28_matrix_rows_are_objects_witness :
  0 <= 2 /\ 0 <= 2 /\
  [[DS.PyInt 7; DS.PyInt 8]] !! 0%nat = Some [DS.PyInt 7; DS.PyInt 8] /\
  Z.of_nat (length [DS.PyInt 7; DS.PyInt 8]) = 2 /\
  0 <= 1 <= 2 /\ 0 <= 0 < 2 /\
  matrix_repr (DS.Matrix.__init__ [[DS.PyInt 7; DS.PyInt 8]] 2 2 (DS.PyInt 0))
    (replicate (Z.to_nat 2) (replicate (Z.to_nat 2) (DS.PyInt 0))) /\
  DS.Matrix.store (DS.Matrix.__init__ [[DS.PyInt 7; DS.PyInt 8]] 2 2 (DS.PyInt 0)) !! 0%nat
    = Some [DS.PyInt 7; DS.PyInt 8] /\
  exists m1 m2 m3,
    DS.Matrix.insert_row 1 (Some 0%nat) (DS.Matrix.__init__ [[DS.PyInt 7; DS.PyInt 8]] 2 2 (DS.PyInt 0))
      = (DS.Ok tt, m1) /\
    matrix_repr m1
      (take (Z.to_nat 1)
         (replicate (Z.to_nat 2) (replicate (Z.to_nat 2) (DS.PyInt 0)))
       ++ [DS.PyInt 7; DS.PyInt 8]
          :: drop (Z.to_nat 1)
               (replicate (Z.to_nat 2)
                  (replicate (Z.to_nat 2) (DS.PyInt 0)))) /\
    DS.Matrix.insert_row 1 (Some 0%nat) m1 = (DS.Ok tt, m2) /\
    DS.Matrix.__setitem__ 1 0 (DS.PyInt 5) m2 = (DS.Ok tt, m3) /\
    DS.Matrix.__getitem__ (1 + 1) 0 m3 = (DS.Ok (DS.PyInt 5), m3) /\
    DS.Matrix.store m3 !! 0%nat
      = Some (<[Z.to_nat 0 := DS.PyInt 5]> [DS.PyInt 7; DS.PyInt 8]).
Proof.
  assert (H1 : 0 <= 2) by lia.
  assert (H2 : [[DS.PyInt 7; DS.PyInt 8]] !! 0%nat
               = Some [DS.PyInt 7; DS.PyInt 8]) by reflexivity.
  assert (H3 : Z.of_nat (length [DS.PyInt 7; DS.PyInt 8]) = 2)
    by reflexivity.
  assert (H4 : 0 <= 1 <= 2) by lia.
  assert (H5 : 0 <= 0 < 2) by lia.
  split; [exact H1|]. split; [exact H1|]. split; [exact H2|].
  split; [exact H3|]. split; [exact H4|]. split; [exact H5|].
  exact (X28_matrix_rows_are_objects [[DS.PyInt 7; DS.PyInt 8]] 2 2
           (DS.PyInt 0) (DS.PyInt 5) 0 [DS.PyInt 7; DS.PyInt 8] 1 0
           H1 H1 H2 H3 H4 H5).
Defined.

(** ** RootedTree *)

Lemma rose_induction (P : rose -> Prop) :
  (forall r v kids, Forall P kids -> P (Rose r v kids)) -> forall t, P t.
Proof.
  intros H. fix IH 1. intros [r v kids]. apply H.
  induction kids as [|k kids IHk]; constructor; [apply IH|exact IHk].
Qed.

Lemma tree_repr_inv nodes p r v kids :
  tree_repr nodes p (Rose r v kids) ->
  nodes !! r = Some (DS.RootedTree.node v (map rose_ref kids) p) /\
  Forall (tree_repr nodes (Some r)) kids.
Proof. by inversion 1. Qed.

Lemma tree_attr_run {A} (f : DS.RootedTree.TreeNode -> A) tr r n :
  DS.RootedTree.nodes tr !! r = Some n ->
  DS.RootedTree.attr f r tr = (DS.Ok (f n), tr).
Proof. intros H. unfold DS.RootedTree.attr. by rewrite H. Qed.

Ltac tr_simpl :=
  cbn [DS.RootedTree.root DS.RootedTree.nodes DS.RootedTree.value
       DS.RootedTree.children DS.RootedTree.parent DS.RootedTree.truthy].

Lemma rose_depth_kids d (kids : list rose) :
  (foldr Nat.max 0%nat (map rose_depth kids) <= d)%nat ->
  Forall (fun k => (rose_depth k <= d)%nat) kids.
Proof.
  induction kids as [|k kids IH]; simpl; intros H; constructor; [lia|].
  apply IH. lia.
Qed.

Lemma tree_preorder_run tr t :
  forall p depth,
    tree_repr (DS.RootedTree.nodes tr) p t ->
    (rose_depth t <= depth)%nat ->
    DS.RootedTree.traverse_preorder depth (rose_ref t) tr
      = (DS.Ok (rose_preorder t), tr).
Proof.
  induction t as [r v kids IH] using rose_induction.
  intros p [|depth] Hrepr Hd; simpl in Hd; [lia|].
  apply tree_repr_inv in Hrepr as [Hr Hkids].
  apply le_S_n, rose_depth_kids in Hd.
  cbn [DS.RootedTree.traverse_preorder rose_ref rose_preorder].
  do 2 (erewrite ds_bind_ok by (by eapply tree_attr_run)). tr_simpl.
  change (v :: flat_map rose_preorder kids)
    with ([v] ++ flat_map rose_preorder kids).
  generalize [v] as acc. clear Hr.
  induction kids as [|k kids IHk]; intros acc; simpl.
  - by rewrite app_nil_r.
  - apply Forall_cons in IH as [IHk0 IH].
    apply Forall_cons in Hkids as [Hk Hkids].
    apply Forall_cons in Hd as [Hdk Hd].
    erewrite ds_bind_ok.
    2:{ erewrite ds_bind_ok by (by eapply IHk0). reflexivity. }
    rewrite IHk by done. by rewrite <- app_assoc.
Qed.

Lemma tree_postorder_run tr t :
  forall p depth,
    tree_repr (DS.RootedTree.nodes tr) p t ->
    (rose_depth t <= depth)%nat ->
    DS.RootedTree.traverse_postorder depth (rose_ref t) tr
      = (DS.Ok (rose_postorder t), tr).
Proof.
  induction t as [r v kids IH] using rose_induction.
  intros p [|depth] Hrepr Hd; simpl in Hd; [lia|].
  apply tree_repr_inv in Hrepr as [Hr Hkids].
  apply le_S_n, rose_depth_kids in Hd.
  cbn [DS.RootedTree.traverse_postorder rose_ref rose_postorder].
  erewrite ds_bind_ok by (by eapply tree_attr_run). tr_simpl.
  assert (Hloop : forall acc,
            DS.for_each (map rose_ref kids)
              (fun child result =>
                 DS.bind (DS.RootedTree.traverse_postorder depth child)
                   (fun sub => DS.ret (result ++ sub)))
              acc tr
            = (DS.Ok (acc ++ flat_map rose_postorder kids), tr)).
  { clear Hr. induction kids as [|k kids IHk]; intros acc; simpl.
    - by rewrite app_nil_r.
    - apply Forall_cons in IH as [IHk0 IH].
      apply Forall_cons in Hkids as [Hk Hkids].
      apply Forall_cons in Hd as [Hdk Hd].
      erewrite ds_bind_ok.
      2:{ erewrite ds_bind_ok by (by eapply IHk0). reflexivity. }
      rewrite IHk by done. by rewrite <- app_assoc. }
  erewrite ds_bind_ok by apply Hloop.
  erewrite ds_bind_ok by (by eapply tree_attr_run). done.
Qed.

Lemma tree_height_run tr t :
  forall p depth,
    tree_repr (DS.RootedTree.nodes tr) p t ->
    (rose_depth t <= depth)%nat ->
    DS.RootedTree.get_height depth (rose_ref t) tr
      = (DS.Ok (Z.of_nat (rose_depth t) - 1), tr).
Proof.
  induction t as [r v kids IH] using rose_induction.
  intros p [|depth] Hrepr Hd; simpl in Hd; [lia|].
  apply tree_repr_inv in Hrepr as [Hr Hkids].
  apply le_S_n, rose_depth_kids in Hd.
  cbn [DS.RootedTree.get_height rose_ref].
  erewrite ds_bind_ok by (by eapply tree_attr_run). tr_simpl.
  destruct kids as [|k kids]; [done|].
  apply Forall_cons in IH as [IHk0 IH].
  apply Forall_cons in Hkids as [Hk Hkids].
  apply Forall_cons in Hd as [Hdk Hd].
  cbn [map].
  erewrite ds_bind_ok by (by eapply IHk0).
  assert (Hloop : forall m,
            DS.for_each (map rose_ref kids)
              (fun child m =>
                 DS.bind (DS.RootedTree.get_height depth child)
                   (fun h => DS.ret (Z.max m h)))
              m tr
            = (DS.Ok (foldl (fun m k => Z.max m (Z.of_nat (rose_depth k) - 1))
                        m kids), tr)).
  { clear Hr. induction kids as [|k' kids IHk]; intros m; simpl; [done|].
    apply Forall_cons in IH as [IHk1 IH].
    apply Forall_cons in Hkids as [Hk1 Hkids].
    apply Forall_cons in Hd as [Hdk1 Hd].
    erewrite ds_bind_ok.
    2:{ erewrite ds_bind_ok by (by eapply IHk1). reflexivity. }
    by apply IHk. }
  erewrite ds_bind_ok by apply Hloop.
  unfold DS.ret. do 2 f_equal.
  cbn [rose_depth map foldr].
  assert (Hfold : forall (m : nat) ks,
            foldl (fun m k => Z.max m (Z.of_nat (rose_depth k) - 1))
              (Z.of_nat m - 1) ks
            = Z.of_nat (Nat.max m (foldr Nat.max 0%nat (map rose_depth ks)))
              - 1).
  { intros m ks. revert m. induction ks as [|k' ks IHks]; intros m; simpl.
    - f_equal. lia.
    - replace (Z.max (Z.of_nat m - 1) (Z.of_nat (rose_depth k') - 1))
        with (Z.of_nat (Nat.max m (rose_depth k')) - 1) by lia.
      rewrite IHks. f_equal. lia. }
  rewrite Hfold. lia.
Qed.

Lemma tree_find_run tr v t :
  forall p depth,
    tree_repr (DS.RootedTree.nodes tr) p t ->
    (rose_depth t <= depth)%nat ->
    DS.RootedTree._find_node depth (rose_ref t) v tr
      = (DS.Ok (rose_find v t), tr).
Proof.
  induction t as [r x kids IH] using rose_induction.
  intros p [|depth] Hrepr Hd; simpl in Hd; [lia|].
  apply tree_repr_inv in Hrepr as [Hr Hkids].
  apply le_S_n, rose_depth_kids in Hd.
  cbn [DS.RootedTree._find_node rose_ref rose_find].
  erewrite ds_bind_ok by (by eapply tree_attr_run). tr_simpl.
  destruct (DS.py_eq x v); [done|].
  erewrite ds_bind_ok by (by eapply tree_attr_run). tr_simpl.
  clear Hr. induction kids as [|k kids IHk]; simpl; [done|].
  apply Forall_cons in IH as [IHk0 IH].
  apply Forall_cons in Hkids as [Hk Hkids].
  apply Forall_cons in Hd as [Hdk Hd].
  erewrite ds_bind_ok by (by eapply IHk0).
  destruct (rose_find v k) as [f|]; [done|]. tr_simpl. by apply IHk.
Qed.

Lemma tree_level_run tr target t :
  forall p j,
    tree_repr (DS.RootedTree.nodes tr) p t ->
    rose_level target t = Some j ->
    exists n,
      DS.RootedTree.nodes tr !! target = Some n /\
      forall fuel acc,
        DS.RootedTree.level_from (j + fuel) (DS.RootedTree.parent n) acc tr
        = DS.RootedTree.level_from fuel p (acc + Z.of_nat j) tr.
Proof.
  induction t as [r v kids IH] using rose_induction.
  intros p j Hrepr Hj.
  apply tree_repr_inv in Hrepr as [Hr Hkids].
  cbn [rose_level] in Hj.
  destruct (decide (r = target)) as [->|Hne].
  - injection Hj as <-. eexists. split; [exact Hr|].
    intros fuel acc. tr_simpl. simpl. by rewrite Z.add_0_r.
  - assert (Hup : forall fuel a,
              DS.RootedTree.level_from (S fuel) (Some r) a tr
              = DS.RootedTree.level_from fuel p (a + 1) tr).
    { intros fuel a. cbn [DS.RootedTree.level_from].
      by erewrite ds_bind_ok by (by eapply tree_attr_run). }
    clear Hr.
    induction kids as [|k kids IHk]; [done|].
    apply Forall_cons in IH as [IHk0 IH].
    apply Forall_cons in Hkids as [Hk Hkids].
    destruct (rose_level target k) as [j'|] eqn:Hj'.
    + injection Hj as <-.
      destruct (IHk0 _ _ Hk eq_refl) as (n & Hn & Hrun).
      exists n. split; [done|]. intros fuel acc.
      replace (S j' + fuel)%nat with (j' + S fuel)%nat by lia.
      rewrite Hrun, Hup. f_equal. lia.
    + by apply IHk.
Qed.

Lemma tree_get_level_run tr t target j fuel :
  tree_repr (DS.RootedTree.nodes tr) None t ->
  rose_level target t = Some j -> (j < fuel)%nat ->
  DS.RootedTree.get_level fuel target tr = (DS.Ok (Z.of_nat j), tr).
Proof.
  intros Hrepr Hj Hfuel.
  destruct (tree_level_run tr target t None j Hrepr Hj) as (n & Hn & Hrun).
  unfold DS.RootedTree.get_level.
  erewrite ds_bind_ok by (by eapply tree_attr_run).
  replace fuel with (j + S (fuel - S j))%nat by lia.
  by rewrite Hrun.
Qed.

Lemma tree_init_wf root_value :
  tree_wf (DS.RootedTree.__init__ root_value) (Rose 0 root_value []).
Proof.
  split; [reflexivity|]. split.
  - by repeat constructor.
  - simpl. apply NoDup_singleton.
Qed.

(** X29. Reading a [RootedTree] that holds the tree [t], with a recursion
    limit that allows as many nested calls as the longest path from the
    root has nodes: [traverse_preorder()] returns the values root first,
    then each subtree in the order of [children]; [traverse_postorder()]
    returns each subtree first and the root last; [get_height()] returns
    the number of edges on the longest path down from the root;
    [get_level()] of a node returns the number of edges up to the root.
    None of them raises or changes the tree. *)
Theorem X29_tree_traversals (tr : DS.RootedTree.t) (t : rose)
    (depth : nat) :
  tree_wf tr t -> (rose_depth t <= depth)%nat ->
  DS.RootedTree.preorder depth tr = (DS.Ok (rose_preorder t), tr) /\
  DS.RootedTree.postorder depth tr = (DS.Ok (rose_postorder t), tr) /\
  DS.RootedTree.height depth tr
    = (DS.Ok (Z.of_nat (rose_depth t) - 1), tr) /\
  forall target j fuel,
    rose_level target t = Some j -> (j < fuel)%nat ->
    DS.RootedTree.get_level fuel target tr = (DS.Ok (Z.of_nat j), tr).
Proof.
  intros (Hroot & Hrepr & Hnd) Hdepth.
  unfold DS.RootedTree.preorder, DS.RootedTree.postorder,
    DS.RootedTree.height.
  split_and!.
  - erewrite ds_bind_ok by reflexivity. rewrite Hroot.
    by eapply tree_preorder_run.
  - erewrite ds_bind_ok by reflexivity. rewrite Hroot.
    by eapply tree_postorder_run.
  - erewrite ds_bind_ok by reflexivity. rewrite Hroot.
    by eapply tree_height_run.
  - intros target j fuel Hj Hfuel. by eapply tree_get_level_run.
Qed.

Lemma X29_tree_traversals_witness :
  tree_wf
    (DS.RootedTree.mk 0%nat
       [DS.RootedTree.node (DS.PyInt 1) [1%nat; 2%nat] None;
        DS.RootedTree.node (DS.PyInt 2) [] (Some 0%nat);
        DS.RootedTree.node (DS.PyInt 3) [] (Some 0%nat)])
    (Rose 0 (DS.PyInt 1) [Rose 1 (DS.PyInt 2) []; Rose 2 (DS.PyInt 3) []]) /\
  (rose_depth (Rose 0 (DS.PyInt 1) [Rose 1 (DS.PyInt 2) []; Rose 2 (DS.PyInt 3) []]) <= 2)%nat /\
  DS.RootedTree.preorder 2
    (DS.RootedTree.mk 0%nat
       [DS.RootedTree.node (DS.PyInt 1) [1%nat; 2%nat] None;
        DS.RootedTree.node (DS.PyInt 2) [] (Some 0%nat);
        DS.RootedTree.node (DS.PyInt 3) [] (Some 0%nat)])
    = (DS.Ok (rose_preorder (Rose 0 (DS.PyInt 1) [Rose 1 (DS.PyInt 2) []; Rose 2 (DS.PyInt 3) []])),
       (DS.RootedTree.mk 0%nat
       [DS.RootedTree.node (DS.PyInt 1) [1%nat; 2%nat] None;
        DS.RootedTree.node (DS.PyInt 2) [] (Some 0%nat);
        DS.RootedTree.node (DS.PyInt 3) [] (Some 0%nat)])) /\
  DS.RootedTree.postorder 2
    (DS.RootedTree.mk 0%nat
       [DS.RootedTree.node (DS.PyInt 1) [1%nat; 2%nat] None;
        DS.RootedTree.node (DS.PyInt 2) [] (Some 0%nat);
        DS.RootedTree.node (DS.PyInt 3) [] (Some 0%nat)])
    = (DS.Ok (rose_postorder (Rose 0 (DS.PyInt 1) [Rose 1 (DS.PyInt 2) []; Rose 2 (DS.PyInt 3) []])),
       (DS.RootedTree.mk 0%nat
       [DS.RootedTree.node (DS.PyInt 1) [1%nat; 2%nat] None;
        DS.RootedTree.node (DS.PyInt 2) [] (Some 0%nat);
        DS.RootedTree.node (DS.PyInt 3) [] (Some 0%nat)])) /\
  DS.RootedTree.height 2
    (DS.RootedTree.mk 0%nat
       [DS.RootedTree.node (DS.PyInt 1) [1%nat; 2%nat] None;
        DS.RootedTree.node (DS.PyInt 2) [] (Some 0%nat);
        DS.RootedTree.node (DS.PyInt 3) [] (Some 0%nat)])
    = (DS.Ok (Z.of_nat (rose_depth (Rose 0 (DS.PyInt 1) [Rose 1 (DS.PyInt 2) []; Rose 2 (DS.PyInt 3) []])) - 1),
       (DS.RootedTree.mk 0%nat
       [DS.RootedTree.node (DS.PyInt 1) [1%nat; 2%nat] None;
        DS.RootedTree.node (DS.PyInt 2) [] (Some 0%nat);
        DS.RootedTree.node (DS.PyInt 3) [] (Some 0%nat)])) /\
  forall target j fuel,
    rose_level target (Rose 0 (DS.PyInt 1) [Rose 1 (DS.PyInt 2) []; Rose 2 (DS.PyInt 3) []]) = Some j ->
    (j < fuel)%nat ->
    DS.RootedTree.get_level fuel target
      (DS.RootedTree.mk 0%nat
       [DS.RootedTree.node (DS.PyInt 1) [1%nat; 2%nat] None;
        DS.RootedTree.node (DS.PyInt 2) [] (Some 0%nat);
        DS.RootedTree.node (DS.PyInt 3) [] (Some 0%nat)])
      = (DS.Ok (Z.of_nat j),
         (DS.RootedTree.mk 0%nat
       [DS.RootedTree.node (DS.PyInt 1) [1%nat; 2%nat] None;
        DS.RootedTree.node (DS.PyInt 2) [] (Some 0%nat);
        DS.RootedTree.node (DS.PyInt 3) [] (Some 0%nat)])).
Proof.
  assert (H1 : tree_wf
                 (DS.RootedTree.mk 0%nat
       [DS.RootedTree.node (DS.PyInt 1) [1%nat; 2%nat] None;
        DS.RootedTree.node (DS.PyInt 2) [] (Some 0%nat);
        DS.RootedTree.node (DS.PyInt 3) [] (Some 0%nat)])
                 (Rose 0 (DS.PyInt 1) [Rose 1 (DS.PyInt 2) []; Rose 2 (DS.PyInt 3) []])).
  { split; [reflexivity|]. split.
    - constructor; [reflexivity|].
      repeat constructor.
    - simpl. rewrite !NoDup_cons, !elem_of_cons, !elem_of_nil.
      split_and!; (lia || apply NoDup_nil_2). }
  assert (H2 : (rose_depth (Rose 0 (DS.PyInt 1) [Rose 1 (DS.PyInt 2) []; Rose 2 (DS.PyInt 3) []]) <= 2)%nat) by (simpl; lia).
  split; [exact H1|]. split; [exact H2|].
  exact (X29_tree_traversals _ _ 2 H1 H2).
Defined.

Lemma rose_refs_head t : rose_ref t ∈ rose_refs t.
Proof. destruct t. simpl. apply list_elem_of_here. Qed.

Lemma rose_refs_kid k kids r :
  k ∈ kids -> r ∈ rose_refs k -> r ∈ flat_map rose_refs kids.
Proof.
  intros Hk Hr. apply list_elem_of_In, in_flat_map.
  exists k. split; by apply list_elem_of_In.
Qed.

Lemma tree_repr_lookup nodes t :
  forall p r,
    tree_repr nodes p t -> r ∈ rose_refs t -> is_Some (nodes !! r).
Proof.
  induction t as [r0 v kids IH] using rose_induction.
  intros p r Hrepr Hin. apply tree_repr_inv in Hrepr as [Hr Hkids].
  simpl in Hin. apply elem_of_cons in Hin as [->|Hin]; [by eexists|].
  apply list_elem_of_In, in_flat_map in Hin as (k & Hk & Hin).
  apply list_elem_of_In in Hk, Hin.
  eapply (Forall_forall (A := rose)) in IH; [|exact Hk].
  eapply (Forall_forall (A := rose)) in Hkids; [|exact Hk].
  by eapply IH.
Qed.

Lemma tree_repr_frame nodes nodes' t :
  forall p,
    tree_repr nodes p t ->
    (forall r, r ∈ rose_refs t -> nodes' !! r = nodes !! r) ->
    tree_repr nodes' p t.
Proof.
  induction t as [r0 v kids IH] using rose_induction.
  intros p Hrepr Hsame. apply tree_repr_inv in Hrepr as [Hr Hkids].
  constructor.
  - rewrite Hsame; [done|]. simpl. apply list_elem_of_here.
  - apply Forall_forall. intros k Hk.
    eapply (Forall_forall (A := rose)) in IH; [|exact Hk].
    eapply (Forall_forall (A := rose)) in Hkids; [|exact Hk].
    apply IH; [done|]. intros r Hin. apply Hsame. simpl.
    apply list_elem_of_further. by eapply rose_refs_kid.
Qed.

Lemma rose_find_in v t f : rose_find v t = Some f -> f ∈ rose_refs t.
Proof.
  revert f. induction t as [r x kids IH] using rose_induction.
  intros f Hf. cbn [rose_find] in Hf. simpl.
  destruct (DS.py_eq x v).
  - injection Hf as <-. apply list_elem_of_here.
  - apply list_elem_of_further.
    induction kids as [|k kids IHk]; [done|].
    apply Forall_cons in IH as [IHk0 IH]. simpl.
    apply elem_of_app.
    destruct (rose_find v k) as [f'|].
    + injection Hf as <-. left. by apply IHk0.
    + right. by apply IHk.
Qed.

Lemma rose_add_ref target new t :
  rose_ref (rose_add target new t) = rose_ref t.
Proof. destruct t as [r v kids]. simpl. by destruct (decide (r = target)). Qed.

Lemma rose_add_notin target new t :
  target ∉ rose_refs t -> rose_add target new t = t.
Proof.
  induction t as [r v kids IH] using rose_induction.
  intros Hnin. simpl in *.
  apply not_elem_of_cons in Hnin as [Hne Hnin].
  rewrite decide_False by done. f_equal.
  induction kids as [|k kids IHk]; [done|].
  apply Forall_cons in IH as [IHk0 IH]. simpl in *.
  apply not_elem_of_app in Hnin as [Hk Hkids].
  by rewrite IHk0, IHk.
Qed.

Lemma NoDup_flat_map_kid (kids : list rose) k :
  NoDup (flat_map rose_refs kids) -> k ∈ kids -> NoDup (rose_refs k).
Proof.
  induction kids as [|k' kids IH]; simpl; intros Hnd Hk;
    [by apply elem_of_nil in Hk|].
  apply NoDup_app in Hnd as (Hk' & _ & Hkids).
  apply elem_of_cons in Hk as [->|Hk]; [done|by apply IH].
Qed.

Lemma rose_add_refs target new t :
  NoDup (rose_refs t) -> target ∈ rose_refs t ->
  rose_refs (rose_add target new t) ≡ₚ rose_refs t ++ rose_refs new.
Proof.
  induction t as [r v kids IH] using rose_induction.
  intros Hnd Hin. simpl in *.
  apply NoDup_cons in Hnd as [Hr Hnd].
  destruct (decide (r = target)) as [->|Hne]; simpl.
  - rewrite flat_map_app. simpl. by rewrite app_nil_r.
  - apply elem_of_cons in Hin as [->|Hin]; [done|].
    f_equiv. clear Hr.
    induction kids as [|k kids IHk]; [by apply elem_of_nil in Hin|].
    apply Forall_cons in IH as [IHk0 IH]. simpl in *.
    apply NoDup_app in Hnd as (Hndk & Hdisj & Hndks).
    apply elem_of_app in Hin as [Hin|Hin].
    + rewrite IHk0 by done.
      assert (Hrest : map (rose_add target new) kids = kids).
      { transitivity (map id kids); [|apply map_id].
        apply map_ext_in. intros k' Hk'. apply rose_add_notin.
        intros Hin'. apply (Hdisj target Hin).
        apply list_elem_of_In in Hk'. by eapply rose_refs_kid. }
      rewrite Hrest. rewrite <- !app_assoc. f_equiv.
      apply Permutation_app_comm.
    + rewrite rose_add_notin by (intros Hin'; by apply (Hdisj target Hin')).
      rewrite IHk by done. by rewrite app_assoc.
Qed.

Lemma tree_repr_add nodes nodes' target nr v t :
  forall p,
    tree_repr nodes p t -> NoDup (rose_refs t) -> nr ∉ rose_refs t ->
    (forall r, r ∈ rose_refs t -> r <> target ->
               nodes' !! r = nodes !! r) ->
    (forall x cs q,
       nodes !! target = Some (DS.RootedTree.node x cs q) ->
       nodes' !! target = Some (DS.RootedTree.node x (cs ++ [nr]) q)) ->
    nodes' !! nr = Some (DS.RootedTree.node v [] (Some target)) ->
    tree_repr nodes' p (rose_add target (Rose nr v []) t).
Proof.
  induction t as [r x kids IH] using rose_induction.
  intros p Hrepr Hnd Hnr Hsame Htarget Hnew.
  apply tree_repr_inv in Hrepr as [Hr Hkids].
  simpl in Hnd, Hnr. apply NoDup_cons in Hnd as [Hrk Hnd].
  apply not_elem_of_cons in Hnr as [Hnrr Hnr].
  cbn [rose_add]. destruct (decide (r = target)) as [->|Hne].
  - constructor.
    + rewrite map_app. simpl. by apply Htarget.
    + apply Forall_app. split.
      * apply Forall_forall. intros k Hk.
        eapply (Forall_forall (A := rose)) in Hkids; [|exact Hk].
        eapply tree_repr_frame; [exact Hkids|].
        intros r Hin. apply Hsame.
        -- simpl. apply list_elem_of_further. by eapply rose_refs_kid.
        -- intros ->. apply Hrk. by eapply rose_refs_kid.
      * repeat constructor. done.
  - constructor.
    + rewrite map_map.
      rewrite (map_ext _ rose_ref) by (intros; apply rose_add_ref).
      rewrite Hsame; [done| |done]. simpl. apply list_elem_of_here.
    + apply Forall_forall. intros k' Hk'.
      apply list_elem_of_In, in_map_iff in Hk' as (k & <- & Hk).
      apply list_elem_of_In in Hk.
      eapply (Forall_forall (A := rose)) in IH; [|exact Hk].
      eapply (Forall_forall (A := rose)) in Hkids; [|exact Hk].
      apply IH; try done.
      * by eapply NoDup_flat_map_kid.
      * intros Hin. apply Hnr. by eapply rose_refs_kid.
      * intros r' Hin Hne'. apply Hsame; [|done]. simpl.
        apply list_elem_of_further. by eapply rose_refs_kid.
Qed.

Lemma rose_depth_add target new t :
  (rose_depth (rose_add target new t) <= rose_depth t + rose_depth new)%nat.
Proof.
  induction t as [r x kids IH] using rose_induction.
  cbn [rose_add]. destruct (decide (r = target)) as [->|Hne];
    cbn [rose_depth].
  - rewrite map_app. simpl.
    assert (H : forall (l : list nat) a,
              (foldr Nat.max 0 (l ++ [a]) <= foldr Nat.max 0 l + a)%nat).
    { intros l a. induction l as [|b l IHl]; simpl; lia. }
    specialize (H (map rose_depth kids) (rose_depth new)). lia.
  - assert (H : (foldr Nat.max 0 (map rose_depth
                                    (map (rose_add target new) kids))
                 <= foldr Nat.max 0 (map rose_depth kids)
                    + rose_depth new)%nat).
    { induction kids as [|k kids IHk]; simpl; [lia|].
      apply Forall_cons in IH as [IHk0 IH].
      specialize (IHk IH). lia. }
    lia.
Qed.

Lemma tree_set_node_run tr o f n :
  DS.RootedTree.nodes tr !! o = Some n ->
  DS.RootedTree.set_node o f tr
    = (DS.Ok tt,
       DS.RootedTree.mk (DS.RootedTree.root tr)
         (<[o := f n]> (DS.RootedTree.nodes tr))).
Proof. intros H. unfold DS.RootedTree.set_node. by rewrite H. Qed.

Lemma tree_insert_run tr t depth pv v f :
  tree_wf tr t -> (rose_depth t <= depth)%nat ->
  rose_find pv t = Some f ->
  exists tr',
    DS.RootedTree.insert depth pv v tr = (DS.Ok true, tr') /\
    tree_wf tr'
      (rose_add f (Rose (length (DS.RootedTree.nodes tr)) v []) t).
Proof.
  intros (Hroot & Hrepr & Hnd) Hdepth Hfind.
  pose proof (rose_find_in _ _ _ Hfind) as Hf.
  destruct (tree_repr_lookup _ _ _ _ Hrepr Hf) as [[x cs q] Hfn].
  assert (Hlt : forall r, r ∈ rose_refs t ->
                  (r < length (DS.RootedTree.nodes tr))%nat).
  { intros r Hr. apply lookup_lt_is_Some. by eapply tree_repr_lookup. }
  pose proof (Hlt _ Hf) as Hflt.
  eexists. split.
  - unfold DS.RootedTree.insert. erewrite ds_bind_ok by reflexivity.
    erewrite ds_bind_ok
      by (rewrite Hroot; by eapply tree_find_run).
    rewrite Hfind.
    erewrite ds_bind_ok by reflexivity.
    unfold DS.RootedTree.add_child, DS.RootedTree.set_parent,
      DS.RootedTree.set_children.
    erewrite ds_bind_ok.
    2:{ erewrite ds_bind_ok.
        2:{ apply tree_set_node_run. tr_simpl.
            by rewrite lookup_app_r, Nat.sub_diag. }
        erewrite ds_bind_ok.
        2:{ apply (tree_attr_run _ _ _ (DS.RootedTree.node x cs q)).
            tr_simpl. rewrite list_lookup_insert_ne by lia.
            by rewrite lookup_app_l. }
        apply tree_set_node_run. tr_simpl.
        rewrite list_lookup_insert_ne by lia.
        rewrite lookup_app_l by done. exact Hfn. }
    reflexivity.
  - tr_simpl.
    set (nr := length (DS.RootedTree.nodes tr)) in *.
    split; [|split]; tr_simpl.
    + by rewrite rose_add_ref.
    + apply (tree_repr_add (DS.RootedTree.nodes tr)); try done.
      * intros Hin. apply Hlt in Hin. lia.
      * intros r Hr Hne. pose proof (Hlt _ Hr).
        rewrite !list_lookup_insert_ne by lia.
        by rewrite lookup_app_l.
      * intros x' cs' q' Hx'.
        pose proof (eq_trans (eq_sym Hfn) Hx') as Heq.
        injection Heq as <- <- <-.
        apply list_lookup_insert_eq.
        rewrite length_insert, length_app. lia.
      * rewrite list_lookup_insert_ne by lia.
        apply list_lookup_insert_eq. rewrite length_app. simpl. lia.
    + rewrite rose_add_refs by done. simpl.
      rewrite <- Permutation_cons_append. apply NoDup_cons. split; [|done].
      intros Hin. apply Hlt in Hin. lia.
Qed.

Lemma rose_remove_ref d t : rose_ref (rose_remove d t) = rose_ref t.
Proof. by destruct t. Qed.

Lemma NoDup_flat_map_shared {A} (f : A -> list nat) (l : list A) k k1 x :
  NoDup (flat_map f l) -> k ∈ l -> k1 ∈ l -> x ∈ f k -> x ∈ f k1 ->
  k = k1.
Proof.
  induction l as [|a l IH]; simpl; intros Hnd Hk Hk1 Hx Hx1;
    [by apply elem_of_nil in Hk|].
  apply NoDup_app in Hnd as (_ & Hdisj & Hnd).
  assert (Hin : forall y, y ∈ l -> x ∈ f y -> x ∈ flat_map f l).
  { intros y Hy Hxy. apply list_elem_of_In, in_flat_map.
    exists y. split; by apply list_elem_of_In. }
  apply elem_of_cons in Hk as [->|Hk], Hk1 as [->|Hk1].
  - done.
  - destruct (Hdisj x Hx). by eapply Hin.
  - destruct (Hdisj x Hx1). by eapply Hin.
  - by apply IH.
Qed.

Lemma remove_first_notin d (l : list nat) :
  d ∉ l -> DS.remove_first d l = l.
Proof.
  induction l as [|y l IH]; simpl; intros Hnin; [done|].
  apply not_elem_of_cons in Hnin as [Hne Hnin].
  rewrite decide_False by done. by rewrite IH.
Qed.

Lemma remove_first_kids d (kids : list rose) :
  NoDup (map rose_ref kids) ->
  map rose_ref
    (filter (fun k => rose_ref k <> d) (map (rose_remove d) kids))
  = DS.remove_first d (map rose_ref kids).
Proof.
  induction kids as [|k kids IH]; simpl; intros Hnd; [done|].
  apply NoDup_cons in Hnd as [Hk Hnd].
  rewrite filter_cons, rose_remove_ref.
  destruct (decide (d = rose_ref k)) as [->|Hne].
  - rewrite decide_False by (intros H; by apply H).
    rewrite IH by done. by apply remove_first_notin.
  - rewrite decide_True by done. simpl.
    by rewrite rose_remove_ref, IH.
Qed.

Lemma rose_remove_notin d t :
  d ∉ rose_refs t -> rose_remove d t = t.
Proof.
  induction t as [r v kids IH] using rose_induction.
  intros Hnin. simpl in *.
  apply not_elem_of_cons in Hnin as [Hne Hnin]. f_equal.
  induction kids as [|k kids IHk]; [done|].
  apply Forall_cons in IH as [IHk0 IH]. simpl in *.
  apply not_elem_of_app in Hnin as [Hk Hkids].
  rewrite filter_cons, IHk0 by done.
  rewrite decide_True.
  - by rewrite IHk.
  - intros Heq. apply Hk. rewrite <- Heq. apply rose_refs_head.
Qed.

Lemma rose_remove_refs d t :
  rose_refs (rose_remove d t) `sublist_of` rose_refs t.
Proof.
  induction t as [r v kids IH] using rose_induction.
  simpl. apply sublist_skip.
  induction kids as [|k kids IHk]; [done|].
  apply Forall_cons in IH as [IHk0 IH]. simpl.
  rewrite filter_cons. case_decide; simpl.
  - apply sublist_app; [done|by apply IHk].
  - apply sublist_inserts_l. by apply IHk.
Qed.

Lemma rose_depth_remove d t :
  (rose_depth (rose_remove d t) <= rose_depth t)%nat.
Proof.
  induction t as [r v kids IH] using rose_induction.
  simpl. apply le_n_S.
  induction kids as [|k kids IHk]; [done|].
  apply Forall_cons in IH as [IHk0 IH]. simpl.
  rewrite filter_cons. specialize (IHk IH).
  case_decide; simpl; lia.
Qed.

Lemma NoDup_kid_refs (kids : list rose) :
  NoDup (flat_map rose_refs kids) -> NoDup (map rose_ref kids).
Proof.
  induction kids as [|k kids IH]; simpl; intros Hnd; [constructor|].
  apply NoDup_app in Hnd as (_ & Hdisj & Hnd).
  apply NoDup_cons. split; [|by apply IH].
  intros Hin. apply list_elem_of_In, in_map_iff in Hin as (k' & Heq & Hk').
  apply (Hdisj (rose_ref k)); [apply rose_refs_head|].
  apply list_elem_of_In, in_flat_map. exists k'. split; [done|].
  apply list_elem_of_In. rewrite <- Heq. apply rose_refs_head.
Qed.

Lemma tree_repr_remove nodes d t :
  forall p,
    tree_repr nodes p t -> NoDup (rose_refs t) ->
    d ∈ rose_refs t -> d <> rose_ref t ->
    exists q xq cq pq xd cd,
      q ∈ rose_refs t /\ q <> d /\
      nodes !! q = Some (DS.RootedTree.node xq cq pq) /\
      d ∈ cq /\
      nodes !! d = Some (DS.RootedTree.node xd cd (Some q)) /\
      forall nodes',
        (forall r, r ∈ rose_refs t -> r <> q -> r <> d ->
                   nodes' !! r = nodes !! r) ->
        nodes' !! q
          = Some (DS.RootedTree.node xq (DS.remove_first d cq) pq) ->
        tree_repr nodes' p (rose_remove d t).
Proof.
  induction t as [r v kids IH] using rose_induction.
  intros p Hrepr Hnd Hin Hne.
  apply tree_repr_inv in Hrepr as [Hr Hkids].
  simpl in Hnd, Hin, Hne. apply NoDup_cons in Hnd as [Hrk Hnd].
  apply elem_of_cons in Hin as [->|Hin]; [done|].
  destruct (decide (d ∈ map rose_ref kids)) as [Hkid|Hkid].
  - (* the node to delete is a child of this node *)
    apply list_elem_of_In, in_map_iff in Hkid as (k0 & Hk0 & Hk0in).
    apply list_elem_of_In in Hk0in.
    pose proof Hkids as Hkids0.
    eapply (Forall_forall (A := rose)) in Hkids0; [|exact Hk0in].
    destruct k0 as [d0 xd kidsd]. simpl in Hk0. subst d0.
    apply tree_repr_inv in Hkids0 as [Hd _].
    exists r, v, (map rose_ref kids), p, xd, (map rose_ref kidsd).
    split_and!; try done.
    + simpl. apply list_elem_of_here.
    + apply list_elem_of_In, in_map_iff. exists (Rose d xd kidsd).
      split; [done|by apply list_elem_of_In].
    + intros nodes' Hsame Hq. cbn [rose_remove]. constructor.
      * rewrite remove_first_kids by (by apply NoDup_kid_refs). done.
      * apply Forall_forall. intros k' Hk'.
        apply list_elem_of_filter in Hk' as [Hk'd Hk'].
        apply list_elem_of_In, in_map_iff in Hk' as (k & <- & Hk).
        apply list_elem_of_In in Hk.
        rewrite rose_remove_ref in Hk'd.
        assert (Hdk : d ∉ rose_refs k).
        { intros Hdk.
          assert (k = Rose d xd kidsd) as ->; [|done].
          eapply (NoDup_flat_map_shared rose_refs kids); try done.
          simpl. apply list_elem_of_here. }
        rewrite rose_remove_notin by done.
        eapply (Forall_forall (A := rose)) in Hkids; [|exact Hk].
        eapply tree_repr_frame; [exact Hkids|].
        intros r' Hr'. apply Hsame.
        -- simpl. apply list_elem_of_further. by eapply rose_refs_kid.
        -- intros ->. apply Hrk. by eapply rose_refs_kid.
        -- by intros ->.
  - (* the node to delete lies deeper, below the child [k1] *)
    pose proof Hin as Hin0.
    apply list_elem_of_In, in_flat_map in Hin as (k1 & Hk1 & Hdk1).
    apply list_elem_of_In in Hk1, Hdk1.
    assert (Hne1 : forall k, k ∈ kids -> d <> rose_ref k).
    { intros k Hk ->. apply Hkid.
      apply list_elem_of_In, in_map_iff. exists k.
      split; [done|by apply list_elem_of_In]. }
    pose proof IH as IH0.
    eapply (Forall_forall (A := rose)) in IH0; [|exact Hk1].
    pose proof Hkids as Hkids1.
    eapply (Forall_forall (A := rose)) in Hkids1; [|exact Hk1].
    destruct (IH0 _ Hkids1 (NoDup_flat_map_kid _ _ Hnd Hk1) Hdk1
                (Hne1 _ Hk1))
      as (q & xq & cq & pq & xd & cd & Hq & Hqd & Hnq & Hdcq & Hnd' & _).
    exists q, xq, cq, pq, xd, cd.
    assert (Hqin : q ∈ flat_map rose_refs kids)
      by (by eapply rose_refs_kid).
    split_and!; try done.
    + simpl. by apply list_elem_of_further.
    + intros nodes' Hsame Hq'. cbn [rose_remove]. constructor.
      * rewrite remove_first_kids by (by apply NoDup_kid_refs).
        rewrite remove_first_notin by done.
        rewrite Hsame; [done|simpl; apply list_elem_of_here| |].
        -- intros ->. by apply Hrk.
        -- intros ->. by apply Hrk.
      * apply Forall_forall. intros k' Hk'.
        apply list_elem_of_filter in Hk' as [Hk'd Hk'].
        apply list_elem_of_In, in_map_iff in Hk' as (k & <- & Hk).
        apply list_elem_of_In in Hk.
        pose proof Hkids as Hkidsk.
        eapply (Forall_forall (A := rose)) in Hkidsk; [|exact Hk].
        destruct (decide (d ∈ rose_refs k)) as [Hdk|Hdk].
        -- pose proof IH as IHk.
           eapply (Forall_forall (A := rose)) in IHk; [|exact Hk].
           destruct (IHk _ Hkidsk (NoDup_flat_map_kid _ _ Hnd Hk) Hdk
                       (Hne1 _ Hk))
             as (q' & xq' & cq' & pq' & xd' & cd' & _ & _ & Hnq' & _
                 & Hnd'' & Himp).
           pose proof (eq_trans (eq_sym Hnd') Hnd'') as Heq.
           injection Heq as <- <- <-.
           pose proof (eq_trans (eq_sym Hnq) Hnq') as Heq.
           injection Heq as <- <- <-.
           apply Himp; [|done].
           intros r' Hr' Hr'q Hr'd. apply Hsame; [|done|done].
           simpl. apply list_elem_of_further. by eapply rose_refs_kid.
        -- rewrite rose_remove_notin by done.
           eapply tree_repr_frame; [exact Hkidsk|].
           intros r' Hr'. apply Hsame.
           ++ simpl. apply list_elem_of_further. by eapply rose_refs_kid.
           ++ intros ->. apply Hdk.
              assert (k = k1) as ->; [|done].
              by eapply (NoDup_flat_map_shared rose_refs kids).
           ++ by intros ->.
Qed.

Lemma tree_delete_run tr t depth v d :
  tree_wf tr t -> (rose_depth t <= depth)%nat ->
  rose_find v t = Some d -> d <> rose_ref t ->
  exists tr',
    DS.RootedTree.delete depth v tr = (DS.Ok true, tr') /\
    tree_wf tr' (rose_remove d t).
Proof.
  intros (Hroot & Hrepr & Hnd) Hdepth Hfind Hne.
  pose proof (rose_find_in _ _ _ Hfind) as Hd.
  destruct (tree_repr_remove _ d t None Hrepr Hnd Hd Hne)
    as (q & xq & cq & pq & xd & cd & Hq & Hqd & Hnq & Hdcq & Hndd & Himp).
  eexists. split.
  - unfold DS.RootedTree.delete. erewrite ds_bind_ok by reflexivity.
    erewrite ds_bind_ok
      by (rewrite Hroot; by eapply tree_find_run).
    rewrite Hfind.
    erewrite ds_bind_ok by reflexivity.
    rewrite Hroot, bool_decide_eq_false_2 by done. cbn [negb].
    erewrite ds_bind_ok by (by eapply tree_attr_run). tr_simpl.
    erewrite ds_bind_ok; [reflexivity|].
    unfold DS.RootedTree.remove_child.
    erewrite ds_bind_ok by (by eapply tree_attr_run). tr_simpl.
    rewrite bool_decide_eq_true_2 by done.
    unfold DS.RootedTree.set_children, DS.RootedTree.set_parent.
    erewrite ds_bind_ok by (by eapply tree_set_node_run).
    apply tree_set_node_run. tr_simpl.
    rewrite list_lookup_insert_ne by done. exact Hndd.
  - tr_simpl. split; [|split]; tr_simpl.
    + by rewrite rose_remove_ref.
    + apply Himp.
      * intros r Hr Hrq Hrd.
        by rewrite !list_lookup_insert_ne by done.
      * rewrite list_lookup_insert_ne by done.
        apply list_lookup_insert_eq. by eapply lookup_lt_Some.
    + eapply sublist_NoDup; [exact Hnd|]. apply rose_remove_refs.
Qed.

(** X30. Changing a [RootedTree] that holds the tree [t], with a recursion
    limit that allows the search to reach every node.
    [insert(parent_value, value)] looks for the first node in preorder
    whose value is [parent_value]: if there is none it returns [False] and
    changes nothing; otherwise it adds a new leaf with [value] as the last
    child of that node and returns [True].  [delete(value)] looks for the
    first node in preorder with [value]: if there is none, or it is the
    root, it returns [False] and changes nothing; otherwise it takes that
    node with its whole subtree out of the tree and returns [True].  In
    both cases [traverse_preorder()] then returns the values of the new
    tree. *)
Theorem X30_tree_insert_and_delete (tr : DS.RootedTree.t) (t : rose)
    (depth : nat) (parent_value v : DS.pyval) :
  tree_wf tr t -> (rose_depth t <= depth)%nat ->
  match rose_find parent_value t with
  | None =>
      DS.RootedTree.insert depth parent_value v tr = (DS.Ok false, tr)
  | Some f =>
      exists tr',
        DS.RootedTree.insert depth parent_value v tr = (DS.Ok true, tr') /\
        tree_wf tr'
          (rose_add f (Rose (length (DS.RootedTree.nodes tr)) v []) t) /\
        DS.RootedTree.preorder (S depth) tr'
          = (DS.Ok (rose_preorder
                      (rose_add f
                         (Rose (length (DS.RootedTree.nodes tr)) v []) t)),
             tr')
  end /\
  match rose_find v t with
  | None => DS.RootedTree.delete depth v tr = (DS.Ok false, tr)
  | Some d =>
      if decide (d = rose_ref t)
      then DS.RootedTree.delete depth v tr = (DS.Ok false, tr)
      else
        exists tr',
          DS.RootedTree.delete depth v tr = (DS.Ok true, tr') /\
          tree_wf tr' (rose_remove d t) /\
          DS.RootedTree.preorder depth tr'
            = (DS.Ok (rose_preorder (rose_remove d t)), tr')
  end.
Proof.
  intros Hwf Hdepth. pose proof Hwf as (Hroot & Hrepr & Hnd). split.
  - destruct (rose_find parent_value t) as [f|] eqn:Hfind.
    + destruct (tree_insert_run tr t depth parent_value v f Hwf Hdepth
                  Hfind) as (tr' & Hrun & Hwf').
      exists tr'. split; [done|]. split; [done|].
      destruct Hwf' as (Hroot' & Hrepr' & _).
      unfold DS.RootedTree.preorder.
      erewrite ds_bind_ok by reflexivity. rewrite Hroot'.
      eapply tree_preorder_run; [done|].
      etrans; [apply rose_depth_add|]. simpl. lia.
    + unfold DS.RootedTree.insert. erewrite ds_bind_ok by reflexivity.
      erewrite ds_bind_ok
        by (rewrite Hroot; by eapply tree_find_run).
      by rewrite Hfind.
  - destruct (rose_find v t) as [d|] eqn:Hfind.
    + destruct (decide (d = rose_ref t)) as [->|Hne].
      * unfold DS.RootedTree.delete. erewrite ds_bind_ok by reflexivity.
        erewrite ds_bind_ok
          by (rewrite Hroot; by eapply tree_find_run).
        rewrite Hfind. erewrite ds_bind_ok by reflexivity.
        rewrite Hroot, bool_decide_eq_true_2 by done. done.
      * destruct (tree_delete_run tr t depth v d Hwf Hdepth Hfind Hne)
          as (tr' & Hrun & Hwf').
        exists tr'. split; [done|]. split; [done|].
        destruct Hwf' as (Hroot' & Hrepr' & _).
        unfold DS.RootedTree.preorder.
        erewrite ds_bind_ok by reflexivity. rewrite Hroot'.
        eapply tree_preorder_run; [done|].
        etrans; [apply rose_depth_remove|done].
    + unfold DS.RootedTree.delete. erewrite ds_bind_ok by reflexivity.
      erewrite ds_bind_ok
        by (rewrite Hroot; by eapply tree_find_run).
      by rewrite Hfind.
Qed.

Lemma X30_tree_insert_and_delete_witness :
  tree_wf
    (DS.RootedTree.mk 0%nat
       [DS.RootedTree.node (DS.PyInt 1) [1%nat; 2%nat] None;
        DS.RootedTree.node (DS.PyInt 2) [] (Some 0%nat);
        DS.RootedTree.node (DS.PyInt 3) [] (Some 0%nat)])
    (Rose 0 (DS.PyInt 1) [Rose 1 (DS.PyInt 2) []; Rose 2 (DS.PyInt 3) []]) /\
  (rose_depth (Rose 0 (DS.PyInt 1) [Rose 1 (DS.PyInt 2) []; Rose 2 (DS.PyInt 3) []]) <= 2)%nat /\
  (exists tr',
     DS.RootedTree.insert 2 (DS.PyInt 2) (DS.PyInt 3)
       (DS.RootedTree.mk 0%nat
       [DS.RootedTree.node (DS.PyInt 1) [1%nat; 2%nat] None;
        DS.RootedTree.node (DS.PyInt 2) [] (Some 0%nat);
        DS.RootedTree.node (DS.PyInt 3) [] (Some 0%nat)]) = (DS.Ok true, tr') /\
     tree_wf tr'
       (rose_add 1 (Rose 3 (DS.PyInt 3) [])
          (Rose 0 (DS.PyInt 1) [Rose 1 (DS.PyInt 2) []; Rose 2 (DS.PyInt 3) []])) /\
     DS.RootedTree.preorder 3 tr'
       = (DS.Ok (rose_preorder
                   (rose_add 1 (Rose 3 (DS.PyInt 3) [])
                      (Rose 0 (DS.PyInt 1) [Rose 1 (DS.PyInt 2) []; Rose 2 (DS.PyInt 3) []]))),
          tr')) /\
  (exists tr',
     DS.RootedTree.delete 2 (DS.PyInt 3)
       (DS.RootedTree.mk 0%nat
       [DS.RootedTree.node (DS.PyInt 1) [1%nat; 2%nat] None;
        DS.RootedTree.node (DS.PyInt 2) [] (Some 0%nat);
        DS.RootedTree.node (DS.PyInt 3) [] (Some 0%nat)]) = (DS.Ok true, tr') /\
     tree_wf tr'
       (rose_remove 2 (Rose 0 (DS.PyInt 1) [Rose 1 (DS.PyInt 2) []; Rose 2 (DS.PyInt 3) []])) /\
     DS.RootedTree.preorder 2 tr'
       = (DS.Ok (rose_preorder
                   (rose_remove 2
                      (Rose 0 (DS.PyInt 1) [Rose 1 (DS.PyInt 2) []; Rose 2 (DS.PyInt 3) []]))),
          tr')).
Proof.
  assert (H1 : tree_wf
                 (DS.RootedTree.mk 0%nat
       [DS.RootedTree.node (DS.PyInt 1) [1%nat; 2%nat] None;
        DS.RootedTree.node (DS.PyInt 2) [] (Some 0%nat);
        DS.RootedTree.node (DS.PyInt 3) [] (Some 0%nat)])
                 (Rose 0 (DS.PyInt 1) [Rose 1 (DS.PyInt 2) []; Rose 2 (DS.PyInt 3) []])).
  { split; [reflexivity|]. split.
    - constructor; [reflexivity|].
      repeat constructor.
    - simpl. rewrite !NoDup_cons, !elem_of_cons, !elem_of_nil.
      split_and!; (lia || apply NoDup_nil_2). }
  assert (H2 : (rose_depth (Rose 0 (DS.PyInt 1) [Rose 1 (DS.PyInt 2) []; Rose 2 (DS.PyInt 3) []]) <= 2)%nat) by (simpl; lia).
  split; [exact H1|]. split; [exact H2|].
  exact (X30_tree_insert_and_delete _ _ 2 (DS.PyInt 2) (DS.PyInt 3) H1 H2).
Defined.
